(* ===== verification/_CoqProject ===== *)
-Q . S2P
Prelude.v
F32.v
Angles.v
Vec.v
LLSD.v
Config.v
OrdMap.v
Constraints.v
Skeleton.v
Chains.v
Kinematics.v
SubBases.v
Fabrik.v
Ccd.v
Geometry.v
Solver.v
Factory.v
Serialize.v
LuaManager.v
