(* ===== verification/Prelude.v ===== *)
(** * A verification development of the LLIK inverse-kinematics solver

    The program is the IK solver of the Second Life viewer's puppetry code,
    [LLIK] ([src/unnamed/part_000] is llik.h, [src/unnamed/part_001] is
    llik.cpp), with the viewer's Lua script manager beside it
    ([src/indra/newview/llluamanager.cpp]).  Line numbers below are those
    of llik.h and llik.cpp unless a file is named.

    ** The program and how its parts interact

    A [Solver] owns a skeleton of [Joint]s (built by [addJoint]) and a map
    of per-joint configurations [Joint::Config] (local overrides and world
    targets, installed by [updateJointConfigs]).  [solve] rebuilds the
    chains the configurations ask for ([rebuildAllChains], which calls
    [buildChain]), relaxes the active roots, and runs FABRIK passes until
    [measureMaxError] is acceptable, between 4 and 16 times.  Each joint may
    carry a [Constraint] on its local rotation; the constraints come from
    [LLIKConstraintFactory], which builds them from LLSD definitions and
    shares one instance between definitions of equal hash.  Angle limits go
    through the helpers [compute_angle_limits] and [compute_clamped_angle].
    A FABRIK pass ([executeFabrikPass]) moves the chains' joints inward
    toward the targets and then outward from the chain bases, updating each
    joint's world transform and local rotation and enforcing constraints.

    The Lua script manager is independent of the solver: [runScriptFile]
    and [runScriptLine] launch coroutines that run a Lua script against the
    viewer's bindings ([print_warning], [avatar_sit], [nearby_chat_send],
    ...); the coroutines share the main thread and give way only when a
    script sleeps or ends.

    ** Files, in dependency order

    - [Prelude] (this file): boolean comparisons on [Q], the option bind
      [x <- c ;; k] for code that can dereference null, [fold_opt], list
      lemmas, the hint database [llik] and the tactics [qcase], [qlra].
    - [F32]: [F32] values are exact rationals [Q] (no rounding is modelled);
      [F_PI], [F_TWO_PI], [DEG_TO_RAD] are the float values; the [(S32)]
      cast truncates and gives [INT_MIN] out of range; libm is the class
      [Libm] with laws [LibmLaws] and an executable instance [libm_Q].
    - [Angles]: [remove_multiples_of_two_pi], [compute_angle_limits],
      [compute_clamped_angle] (lines 131-201).
    - [Vec]: [LLVector3] and [LLQuaternion] from llmath (not under src/,
      modelled from their documented behaviour) with LL's multiplication
      order, setoid equalities and the quaternion algebra lemmas.
    - [LLSD]: the LLSD readers the factory uses (llcommon, not under src/).
    - [Config]: the [U8] flags and masks (llik.h 63-83) and [Joint::Config]
      with its setters (module [Setters]) and [updateFrom] (lines 203-275).
    - [OrdMap]: [std::map] and [std::set] as association lists sorted by
      key, because the code relies on their iteration order.
    - [Constraints]: the seven constraint classes as one inductive type,
      their LLSD constructors and the constructors with explicit
      arguments, type names and [generateHash].
    - [Skeleton]: [Joint] (parent and children are skeleton keys, the
      configuration pointer is a key of the configuration map), its flag
      and state updates, [Solver] and [addJoint] (lines 2594-2637), and the
      forest invariant [skeleton_wf] with a decision procedure.
    - [Chains]: [buildChain] (lines 3280-3323) and every step of
      [rebuildAllChains] (lines 2827-3128) in the code's order.
    - [Kinematics]: the joint updates from the parent ([relaxRot],
      [updatePosAndRotFromParent], [computeWorldTipOffset], ...), the
      recursive walks [resetRecursively], [relaxRotationsRecursively],
      [updateWorldTransformsRecursively] and
      [recursiveComputeLongestChainLength] as one walk [descend] that
      threads the skeleton map, and the solver members built on them:
      [resetSkeleton], the relaxation of the active roots, [computeReach],
      [shiftChainToBase], the getters, [resetJointGeometry], [addWristID],
      and [collectActiveChildrenRecursively], which nothing calls.
    - [SubBases]: the proof that the sub-base loop of [rebuildAllChains]
      ends within its bound.
    - [Fabrik]: [executeFabrikPass] (lines 3384-3416) with
      [executeFabrikInward] and [executeFabrikOutward] and every joint
      update they call ([updateEndInward], [updateInward], [updateOutward],
      [updateEndOutward], [updateLocalRot], [applyLocalRot],
      [updateChildLocalRots], [enforceConstraint]), in the code's order,
      threading the skeleton map.  The constraints' virtual members
      ([computeAdjustedLocalRot] and the elbow and knee [enforce]
      overrides) are the class [ConstraintOps]; its law [ConstraintOpsLaws]
      only says that an override keeps the joints' links.
    - [Ccd]: the experimental CCD pass [executeCcdPass] (lines 3425-3443),
      which [solveOnce] keeps commented out: [executeCcdInward],
      [swingTowardTargets], [transformTargetsToParentLocal], and
      [twistTowardTargets], which nothing calls.  The swing factor, a
      constant declared in neither file, is a parameter.
    - [Geometry]: the constraints' geometry as llik.cpp writes it:
      [computeAdjustedLocalRot] of the seven classes (lines 355-1566) and
      [ElbowConstraint::enforce] and [KneeConstraint::enforce] (lines
      811-912, 1019-1133), which twist the joint and back-rotate its
      parent; they form the instance [llik_constraint_ops] of
      [ConstraintOps], and [llik_constraint_laws] discharges its law.
    - [Solver]: [updateJointConfigs], [measureMaxError], [solveOnce] and
      [solve] (rebuild, relaxation, FABRIK passes, iteration).
    - [Factory]: [LLIKConstraintFactory] (lines 3575-3691), with
      [initSingleton] taking the file's path and parsed contents as input.
    - [Serialize]: [asLLSD] of every constraint class, writing into an
      LLSD map kept in key order as its [std::map] is, and what the
      factory's [create] reads back from it.
    - [LuaManager]: llluamanager.cpp.  The bindings as functions from the
      Lua arguments and the viewer state to the viewer events they cause,
      [checkLua], [initLUA], the coroutine bodies of [runScriptFile] and
      [runScriptLine] as sequential functions, and the manager as a step
      relation [mstep] on a state of cooperative coroutines (launch,
      resume, one call of the running script, crash) that share one
      viewer state, which [open_floater] changes; an executable version
      is [exec_action].  A script is the finite list of calls it makes and
      errors it raises ([Op]), so a script that never ends is not
      expressed; the interpreter's texts are the class [LuaRuntime].

    ** State and effects

    Every operation is a function from the state it reads to the state it
    writes: [Joint], [Config], [Solver] and [Factory] are records, the maps
    are sorted association lists, and the loops are [fold_left]s or
    structural recursions.  Where the C++ dereferences a null pointer or an
    entry [operator[]] created empty, the model returns [None]; so a
    theorem that a function returns [Some] is a theorem that the code does
    not crash there.  [buildChain] is bounded by its [chain_length]
    argument and the iteration of [solve] by [MAX_SOLVER_ITERATIONS], as in
    the code.  The recursive walks of [Kinematics] (down the children, or up
    the parents for [computeReach]) get one more step than there are
    joints; on a well-formed skeleton a path of distinct joints is no
    longer than that, so the fuel never runs out ([descend_total],
    [reach_loop_some], [collectActiveChildrenRecursively_total], from the
    ranks of [skeleton_wf]).  The sub-base
    worklist of [rebuildAllChains] is given the number of joints plus one
    rounds, and running out is [None]; each round queues only proper
    ancestors of the joints it starts from, so on a well-formed skeleton
    the rounds never run out (file [SubBases]).

    ** Floating point

    [F32] arithmetic is exact rational arithmetic: no product, sum or
    quotient is rounded, and the double-precision intermediates of the
    code ([0.5] in [compute_clamped_angle], [asReal] times [DEG_TO_RAD])
    are exact as well.  The constants [F_PI], [F_TWO_PI], [DEG_TO_RAD],
    [RAD_TO_DEG] have their float values.  The theorems that only compare
    values the code computes without rounding (the chain builder, the
    walks' structure, the factory, the flags) say the same of the binary;
    those that depend on arithmetic describe the exact computation.  In
    particular the escape of the invalid bisector ([compute_clamped_angle],
    C6) holds in single precision at the limits checked (0, 0.5, 1, 2
    radians) but not at every limit (not at 30 degrees, where the float
    bisector is not [F_PI]); and the sign of [remove_multiples_of_two_pi]
    near a multiple of two pi can differ from the exact one.

    ** What is proved

    - Chains: after [rebuildAllChains] every chain starts at its key,
      follows parent links and holds only active joints; [buildChain] stays
      within its limit and never fails on a forest; every bit of
      [mIkFlags] set on a joint off the old chains survives the rebuild.
    - Skeleton: [addJoint] keeps the skeleton a forest.
    - SubBases: the sub-base loop of [rebuildAllChains] terminates within
      one round more than there are joints.
    - Kinematics: on a well-formed skeleton the walks return, keep the
      links, and leave every joint of the subtree they cover where its
      parent puts it (the forward-kinematics relation, proved once for the
      generic walk from the disjointness of sibling subtrees), and leave
      every joint outside it as it was; relaxation never moves a locked
      rotation; [resetRecursively] restores the rest pose; [computeReach]
      sums the local positions along a limb.
    - Fabrik: [updateEndInward] and [updateEndOutward] put an end effector
      on its targets.
    - Geometry: every [computeAdjustedLocalRot] returns a unit rotation
      unchanged when all its measurements are within the limits; the
      [enforce] of every constraint class writes only the constrained
      joint and its parent.
    - Solver: the loop runs 4 to 16 passes and stops early only with an
      acceptable error; [measureMaxError] is the largest distance to a
      target; [updateJointConfigs] ignores local scales.
    - Angles: [compute_clamped_angle] returns a value within the limits or
      the invalid bisector.
    - Factory: every operation keeps the cache consistent with the hashes
      ([factory_inv]), and [processConstraintMappings] maps every joint
      whose definition can be created to a constraint of that
      definition's hash.
    - Serialize: [create] reads back the [asLLSD] of every constraint it
      creates, rebuilding it with its class's constructor from its own
      members, angles through degrees and back.
    - Findings, each proved in general: the clamp returns its invalid
      bisector unclamped; limits below -pi are not normalized; a locked
      joint off the old chains stays locked through every rebuild, after
      its configuration is withdrawn as well; a non-delegated position
      target on any parentless joint other than the root crashes
      [rebuildAllChains]; [measureMaxError] crashes on an unknown id; the
      loop runs 4 passes where the specification's runs 5; the ellipsoidal
      cone's hash ignores its left extent; [computeReach] returns zero on
      every limb whose ancestor has the larger id; [resetSkeleton] leaves
      everything outside the subtree of the smallest id as it was, the
      root included; a Lua script crashes the viewer by calling
      [print_warning] with no argument, [nearby_chat_send] while the
      nearby chat floater does not exist, or by raising an error object
      that is not a string or a number; one unusable target cancels the
      whole of [twistTowardTargets].
      Recorded in PROJECT.json without a theorem: llik.h declares
      [Constraint::enforce] non-virtual and no override, against
      llik.cpp's elbow and knee overrides (the model follows llik.cpp);
      the elbow's bend correction arcs from the forward axis as it was
      before the hinge-plane and twist corrections; the outward pass
      recomputes the local rotation of a locked joint that has a rotation
      target ([updateOutward_breaks_lock] shows it on one skeleton); an
      angle written by [asLLSD] and read back can come back one float ulp
      off (observed in single precision, which the exact model does not
      describe).
    - Library results behind these, kept without a claim: the FABRIK and
      CCD passes and [solve] keep every joint's id, parent and children
      ([executeFabrikPass_links], [executeCcdPass_links],
      [solve_keeps_forest]); the list traversals of the FABRIK passes are
      the C++ index loops; the comment's 21-joint example and scenario 5
      of the specification evaluate to the chains they describe.

    ** Not modelled

    [minimizeTwist], which llik.h declares and llik.cpp never defines;
    [ShoulderConstraint::enforce] and [dropElbow], which are commented out
    or reached only from commented-out code; the Lua interpreter
    itself and the test script [test_toolbars.lua] (it calls UI modules
    these sources do not register), the reading of [avatar_constraint.llsd] (its path and parsed contents
    are inputs of [initSingleton]), the commented-out
    [adjustWorldRot], [adjustTargets] and [Solver::dropElbow], and the
    debug printing and [updateBounds] of [DEBUG_LLIK_UNIT_TESTS]; see PROJECT.json for the list and the reasons. *)

From Stdlib Require Import QArith Qround ZArith List Bool Lia Lqa Morphisms.
Import ListNotations.

Declare Scope llik_scope.
Delimit Scope llik_scope with llik.

(** ** Boolean comparisons on [Q]

    The C++ code compares [F32] values with [<], [>], [<=], [>=], [==] and
    [!=]; they are modelled by boolean tests on [Q] so that every model is
    executable. [Q] has no strict boolean comparison in the Standard
    Library, so [Qltb] is defined here. *)

Definition Qltb (x y : Q) : bool := negb (Qle_bool y x).
Definition Qleb (x y : Q) : bool := Qle_bool x y.
Definition Qeqb (x y : Q) : bool := Qeq_bool x y.

Notation "x <? y" := (Qltb x y) (at level 70, no associativity) : llik_scope.
Notation "x <=? y" := (Qleb x y) (at level 70, no associativity) : llik_scope.
Notation "x =? y" := (Qeqb x y) (at level 70, no associativity) : llik_scope.

Lemma Qltb_spec (x y : Q) : reflect (x < y) (Qltb x y).
Proof.
  unfold Qltb. destruct (Qle_bool y x) eqn:E; constructor.
  - apply Qle_bool_iff in E. intro H. apply (Qle_not_lt y x); auto.
  - apply Qnot_le_lt. intro H. apply Qle_bool_iff in H. congruence.
Qed.

Lemma Qleb_spec (x y : Q) : reflect (x <= y) (Qleb x y).
Proof.
  unfold Qleb. destruct (Qle_bool x y) eqn:E; constructor.
  - now apply Qle_bool_iff.
  - intro H. apply Qle_bool_iff in H. congruence.
Qed.

Lemma Qeqb_spec (x y : Q) : reflect (x == y) (Qeqb x y).
Proof.
  unfold Qeqb. destruct (Qeq_bool x y) eqn:E; constructor.
  - now apply Qeq_bool_iff.
  - intro H. apply Qeq_bool_iff in H. congruence.
Qed.

(** The boolean comparisons respect [==], so [rewrite] works under them. *)
#[export] Instance Qltb_proper : Proper (Qeq ==> Qeq ==> eq) Qltb.
Proof.
  intros x x' Hx y y' Hy. destruct (Qltb_spec x y), (Qltb_spec x' y');
    auto; exfalso; rewrite Hx, Hy in *; auto.
Qed.

#[export] Instance Qleb_proper : Proper (Qeq ==> Qeq ==> eq) Qleb.
Proof.
  intros x x' Hx y y' Hy. destruct (Qleb_spec x y), (Qleb_spec x' y');
    auto; exfalso; rewrite Hx, Hy in *; auto.
Qed.

#[export] Instance Qeqb_proper : Proper (Qeq ==> Qeq ==> eq) Qeqb.
Proof.
  intros x x' Hx y y' Hy. destruct (Qeqb_spec x y), (Qeqb_spec x' y');
    auto; exfalso; rewrite Hx, Hy in *; auto.
Qed.

(** [qcase] splits on every boolean comparison of the goal, leaving the
    corresponding proposition (or its negation) in the context. *)
Ltac qcase :=
  repeat match goal with
  | |- context [Qltb ?x ?y] => destruct (Qltb_spec x y)
  | |- context [Qleb ?x ?y] => destruct (Qleb_spec x y)
  | |- context [Qeqb ?x ?y] => destruct (Qeqb_spec x y)
  end; simpl.

(** [qcase_in H] does the same in a hypothesis. *)
Ltac qcase_in H :=
  repeat match type of H with
  | context [Qltb ?x ?y] => destruct (Qltb_spec x y)
  | context [Qleb ?x ?y] => destruct (Qleb_spec x y)
  | context [Qeqb ?x ?y] => destruct (Qeqb_spec x y)
  end; simpl in H.

(** [qcompute] decides a closed comparison of rationals by evaluation. *)
Ltac qcompute := repeat split; vm_compute; first [reflexivity | discriminate].

Create HintDb llik discriminated.

#[export] Hint Resolve Qnot_lt_le Qnot_le_lt : llik.

(** [qlra] closes linear goals over [Q] once the negated comparisons left
    by [qcase] are turned into positive ones. *)
Ltac qlra :=
  repeat match goal with
  | H : ~ (_ < _) |- _ => apply Qnot_lt_le in H
  | H : ~ (_ <= _) |- _ => apply Qnot_le_lt in H
  end; lra.

(** ** Failure

    A dereference of a null pointer, or of an entry created empty by
    [std::map::operator[]], has no defined result in C++; the models return
    [None] there, and thread the failure with this bind. *)
Notation "x <- c ;; k" := (match c with Some x => k | None => None end)
  (at level 61, c at next level, right associativity) : llik_scope.

(** [fold_left] over a list of steps that may fail. *)
Definition fold_opt {A B} (f : A -> B -> option A) (l : list B) (a : A) : option A :=
  fold_left (fun acc b => match acc with Some x => f x b | None => None end) l (Some a).

Lemma fold_opt_cons {A B} (f : A -> B -> option A) (b : B) (l : list B) (a : A) :
  fold_opt f (b :: l) a = match f a b with Some x => fold_opt f l x | None => None end.
Proof.
  unfold fold_opt. simpl. destruct (f a b); [reflexivity|].
  induction l; simpl; auto.
Qed.

(** The last element, as [v.back()] on a vector known to be non-empty. *)
Definition last_error {A} (l : list A) : option A :=
  match l with [] => None | x :: _ => Some (last l x) end.

(** ** Generic list lemmas shared by the components *)

Lemma In_last_default {A} (d : A) (l : list A) :
  l <> [] -> In (last l d) l.
Proof.
  induction l as [|a l IH]; [congruence|]. intros _.
  destruct l as [|b l]; simpl; [now left|]. right. apply IH. discriminate.
Qed.

Lemma last_app_cons {A} (d : A) (l1 l2 : list A) (x : A) :
  last (l1 ++ x :: l2) d = last (x :: l2) d.
Proof.
  induction l1 as [|a l1 IH]; [reflexivity|].
  simpl. rewrite IH. destruct l1; simpl; destruct l2; reflexivity.
Qed.

Lemma last_error_snoc {A} (l : list A) (x : A) :
  last_error l = Some x -> l = removelast l ++ [x].
Proof.
  destruct l as [|a l]; [discriminate|]. intros H.
  assert (E : a :: l = removelast (a :: l) ++ [last (a :: l) a]) by (apply app_removelast_last; discriminate).
  unfold last_error in H. congruence.
Qed.

Lemma last_error_app_snoc {A} (l : list A) (x : A) : last_error (l ++ [x]) = Some x.
Proof.
  destruct l as [|a l]; [reflexivity|]. unfold last_error. rewrite <- app_comm_cons.
  f_equal. rewrite app_comm_cons. apply last_last.
Qed.

(** An invariant of each step of a [fold_opt] holds of its result. *)
Lemma fold_opt_inv {A B} (P : A -> Prop) (f : A -> B -> option A) (l : list B) (a a' : A) :
  (forall x b y, P x -> f x b = Some y -> P y) -> P a -> fold_opt f l a = Some a' -> P a'.
Proof.
  intros Hf. revert a. induction l as [|b l IH]; intros a Ha E.
  - injection E as <-. exact Ha.
  - rewrite fold_opt_cons in E. destruct (f a b) as [y|] eqn:Ey; [|now destruct l].
    exact (IH y (Hf a b y Ha Ey) E).
Qed.

(** An invariant of each step of a [fold_left] holds of its result. *)
Lemma fold_left_inv {A B} (P : A -> Prop) (f : A -> B -> A) (l : list B) (a : A) :
  (forall x b, P x -> P (f x b)) -> P a -> P (fold_left f l a).
Proof. intros Hf. revert a. induction l as [|b l IH]; simpl; auto. Qed.

(** A [fold_opt] returns when every step returns from a state of an
    invariant, and the invariant holds of its result. *)
Lemma fold_opt_some {A B} (P : A -> Prop) (f : A -> B -> option A) (l : list B) (a : A) :
  (forall x b, In b l -> P x -> exists y, f x b = Some y /\ P y) -> P a ->
  exists a', fold_opt f l a = Some a' /\ P a'.
Proof.
  revert a. induction l as [|b l IH]; intros a Hf Ha; [now exists a|].
  rewrite fold_opt_cons. destruct (Hf a b (or_introl eq_refl) Ha) as (y & -> & Hy).
  apply IH; [intros x b' Hb; apply Hf; now right|exact Hy].
Qed.

(** The same, for a step invariant that may use the element's membership. *)
Lemma fold_opt_inv_in {A B} (P : A -> Prop) (f : A -> B -> option A) (l : list B) (a a' : A) :
  (forall x b y, In b l -> P x -> f x b = Some y -> P y) -> P a -> fold_opt f l a = Some a' -> P a'.
Proof.
  revert a. induction l as [|b l IH]; intros a Hf Ha E.
  - injection E as <-. exact Ha.
  - rewrite fold_opt_cons in E. destruct (f a b) as [y|] eqn:Ey; [|now destruct l].
    apply (IH y); [intros x b' y' Hb; apply Hf; now right|exact (Hf a b y (or_introl eq_refl) Ha Ey)|exact E].
Qed.

(** Reading a list by the indices [0 .. n-1] is taking its first [n]
    elements. *)
Lemma map_nth_seq {A} (l : list A) (d : A) (n : nat) :
  (n <= length l)%nat -> map (fun i => nth i l d) (seq 0 n) = firstn n l.
Proof.
  revert n. induction l as [|a l IH]; intros n H; destruct n; simpl in *; try lia; try reflexivity.
  f_equal. rewrite <- seq_shift, map_map. apply IH. lia.
Qed.

(** The pairs [(l[i-1], l[i])] for [1 <= i <= n] are [a :: l] zipped with
    the first [n] elements of [l]. *)
Lemma combine_firstn_pairs {A} (l : list A) (a d : A) (n : nat) :
  (n <= length l)%nat ->
  combine (a :: l) (firstn n l) = map (fun i => (nth (i - 1) (a :: l) d, nth i (a :: l) d)) (seq 1 n).
Proof.
  revert a n. induction l as [|b l IH]; intros a n H; destruct n; try (simpl in *; lia); try reflexivity.
  rewrite firstn_cons.
  change (combine (a :: b :: l) (b :: firstn n l)) with ((a, b) :: combine (b :: l) (firstn n l)).
  rewrite IH by (simpl in H; lia).
  change (seq 1 (S n)) with (1%nat :: seq 2 n). rewrite map_cons. f_equal.
  rewrite <- (seq_shift n 1), map_map. apply map_ext_in. intros i Hi. apply in_seq in Hi.
  destruct i as [|i]; [lia|]. simpl. rewrite Nat.sub_0_r. reflexivity.
Qed.

(** A [fold_opt] fails when one of its elements fails from every state. *)
Lemma fold_opt_none {A B} (f : A -> B -> option A) (l : list B) (a : A) (b : B) :
  In b l -> (forall x, f x b = None) -> fold_opt f l a = None.
Proof.
  intros Hin Hf. revert a. induction l as [|b' l IH]; intros a; [destruct Hin|].
  rewrite fold_opt_cons. destruct Hin as [<-|Hin].
  - rewrite Hf. reflexivity.
  - destruct (f a b'); [exact (IH Hin _)|reflexivity].
Qed.

(** A [fold_opt] fails when one of its elements fails from every state
    that an invariant of the successful steps allows. *)
Lemma fold_opt_none_inv {A B} (P : A -> Prop) (f : A -> B -> option A) (l : list B) (a : A) (b : B) :
  In b l -> (forall x b' y, P x -> f x b' = Some y -> P y) -> (forall x, P x -> f x b = None) -> P a ->
  fold_opt f l a = None.
Proof.
  intros Hin Hs Hf. revert a. induction l as [|b' l IH]; intros a Pa; [destruct Hin|].
  rewrite fold_opt_cons. destruct Hin as [<-|Hin].
  - rewrite (Hf a Pa). reflexivity.
  - destruct (f a b') eqn:E; [exact (IH Hin _ (Hs _ _ _ Pa E))|reflexivity].
Qed.

(** Writing index [i] of a list; out of range the list is unchanged. *)
Fixpoint set_nth {A} (i : nat) (x : A) (l : list A) : list A :=
  match l, i with
  | [], _ => []
  | _ :: l', O => x :: l'
  | y :: l', S i' => y :: set_nth i' x l'
  end.

Lemma set_nth_length {A} (i : nat) (x : A) (l : list A) : length (set_nth i x l) = length l.
Proof. revert i. induction l as [|y l IH]; intros [|i]; simpl; auto. Qed.

Lemma nth_error_set_nth_eq {A} (i : nat) (x y : A) (l : list A) :
  nth_error l i = Some y -> nth_error (set_nth i x l) i = Some x.
Proof. revert i. induction l as [|z l IH]; intros [|i] H; simpl in *; try discriminate; auto. Qed.

Lemma nth_error_set_nth_ne {A} (i j : nat) (x : A) (l : list A) :
  i <> j -> nth_error (set_nth i x l) j = nth_error l j.
Proof. revert i j. induction l as [|z l IH]; intros [|i] [|j] H; simpl; auto; congruence. Qed.

(** The element read back after a write: the written one at its index. *)
Lemma nth_error_set_nth {A} (i j : nat) (x y : A) (l : list A) :
  nth_error (set_nth i x l) j = Some y -> (i = j /\ x = y) \/ (i <> j /\ nth_error l j = Some y).
Proof.
  intros H. destruct (Nat.eq_dec i j) as [<-|Hne]; [left|right; rewrite nth_error_set_nth_ne in H; auto].
  split; [reflexivity|]. revert i H. induction l as [|z l IH]; intros [|i] H; simpl in *; try discriminate;
    [congruence|eauto].
Qed.

(** An element of [l ++ [x]] is one of [l] or [x] at index [length l]. *)
Lemma nth_error_snoc {A} (l : list A) (x y : A) (i : nat) :
  nth_error (l ++ [x]) i = Some y -> nth_error l i = Some y \/ (i = length l /\ x = y).
Proof.
  intros H. destruct (Nat.lt_ge_cases i (length l)) as [Hl|Hl].
  - left. rewrite nth_error_app1 in H by exact Hl. exact H.
  - right. rewrite nth_error_app2 in H by exact Hl.
    destruct (i - length l)%nat as [|k] eqn:E; simpl in H; [|destruct k; discriminate].
    split; [lia|congruence].
Qed.

(** A [forallb] that fails has a witness. *)
Lemma forallb_false_exists {A} (f : A -> bool) (l : list A) :
  forallb f l = false -> exists x, In x l /\ f x = false.
Proof.
  induction l as [|x l IH]; simpl; [discriminate|].
  destruct (f x) eqn:E; simpl; [intros H; destruct (IH H) as [y [Hy Ey]]; eauto|eauto].
Qed.
