(* ===== verification/F32.v ===== *)
(** * F32: the model of the C++ [F32] scalars and of the [libm] calls

    [F32] values are modelled as exact rationals [Q] (rounding is not
    modelled).  The two constants of [llmath.h] the solver uses, [F_PI] and
    [F_TWO_PI], are given their exact single-precision values, so the model
    of [compute_clamped_angle] sees the same constants the binary does.  The
    cast [(S32)x] of [llik.cpp] is modelled at its width: truncation toward
    zero, and the x86 "integer indefinite" value [INT_MIN] when the result
    does not fit in 32 bits.  The [libm] functions ([sqrtf], [cos], [sin],
    [atan2], [acos]) are an interface, the class [Libm]: the theorems that
    need a law of them take it as a hypothesis of the class [LibmLaws]. *)

From Stdlib Require Import QArith Qround Qabs ZArith Lia Lqa Morphisms.
From S2P Require Import Prelude.

Open Scope Q_scope.
Local Open Scope llik_scope.

(** [F_PI] as the nearest [float] to pi: [3.1415927410125732]. *)
Definition F_PI : Q := 13176795 # 4194304.
(** [F_TWO_PI] as the nearest [float] to two pi, exactly [2 * F_PI]. *)
Definition F_TWO_PI : Q := 13176795 # 2097152.

Lemma F_TWO_PI_eq : F_TWO_PI == 2 * F_PI.
Proof. reflexivity. Qed.

Lemma F_PI_bounds : 3 < F_PI < 4.
Proof. split; reflexivity. Qed.

Lemma F_TWO_PI_pos : 0 < F_TWO_PI.
Proof. reflexivity. Qed.

#[export] Hint Resolve F_TWO_PI_pos : llik.

(** Truncation toward zero, the semantics of a C cast from [float] to an
    integer type. *)
Definition Qtrunc (q : Q) : Z :=
  if Qle_bool 0 q then Qfloor q else Qceiling q.

Definition S32_MIN : Z := - 2 ^ 31.
Definition S32_MAX : Z := 2 ^ 31 - 1.

(** [(S32)x]: the truncated value when it fits, [INT_MIN] otherwise. *)
Definition f32_to_s32 (q : Q) : Z :=
  let t := Qtrunc q in
  if (S32_MIN <=? t)%Z && (t <=? S32_MAX)%Z then t else S32_MIN.

Lemma Qtrunc_nonneg (q : Q) :
  0 <= q -> inject_Z (Qtrunc q) <= q /\ q < inject_Z (Qtrunc q) + 1.
Proof.
  intros H. unfold Qtrunc. apply Qle_bool_iff in H. rewrite H.
  split; [apply Qfloor_le|]. 
  pose proof (Qlt_floor q) as L. rewrite inject_Z_plus in L. exact L.
Qed.

Lemma Qtrunc_neg (q : Q) :
  q < 0 -> inject_Z (Qtrunc q) - 1 < q /\ q <= inject_Z (Qtrunc q).
Proof.
  intros H. unfold Qtrunc. destruct (Qle_bool 0 q) eqn:E.
  - apply Qle_bool_iff in E. lra.
  - cbv beta iota. split; [|apply Qle_ceiling].
    pose proof (Qceiling_lt q) as L.
    assert (inject_Z (Qceiling q - 1) == inject_Z (Qceiling q) - 1) as E1.
    { rewrite <- Z.add_opp_r, inject_Z_plus. reflexivity. }
    lra.
Qed.

(** When the quotient fits in 32 bits the cast is the truncation. *)
Lemma f32_to_s32_fits (q : Q) :
  (S32_MIN <= Qtrunc q <= S32_MAX)%Z -> f32_to_s32 q = Qtrunc q.
Proof.
  intros [H1 H2]. unfold f32_to_s32.
  apply Z.leb_le in H1, H2. now rewrite H1, H2.
Qed.

(** ** The [libm] interface *)

Class Libm := {
  sqrtf : Q -> Q;
  cosf : Q -> Q;
  sinf : Q -> Q;
  atan2f : Q -> Q -> Q;
  acosf : Q -> Q
}.

(** The laws of [libm] some theorems rely on: [sqrtf] is exact on [0] and
    [1], and [sqrtf] and [atan2f] are functions of the values of their
    arguments (they respect [==]). *)
Class LibmLaws `{Libm} := {
  sqrtf_0 : sqrtf 0 == 0;
  sqrtf_1 : sqrtf 1 == 1;
  sqrtf_nonneg : forall q, 0 <= sqrtf q;
  sqrtf_proper : forall p q, p == q -> sqrtf p == sqrtf q;
  atan2f_proper : forall y y' x x', y == y' -> x == x' -> atan2f y x == atan2f y' x'
}.

(** ** An executable instance of [Libm]

    The witnesses evaluate the models on concrete inputs, so they need
    some instance of [Libm].  This one computes with rationals: a square
    root exact on squares of rationals and accurate to [2^-24] otherwise,
    and short polynomial and rational approximations of the trigonometric
    functions.  Its accuracy plays no role in the theorems, which are
    stated for every instance of [Libm] (and [LibmLaws] where a law is
    needed). *)

Definition Qsqrt_approx (q : Q) : Q :=
  let r := Qred q in
  if Qle_bool r 0 then 0
  else Qred (Z.sqrt (Qnum r * Zpos (Qden r) * 2 ^ 48) # (Qden r * 2 ^ 24)).

(** [sin] and [cos] by their Taylor polynomials of degree 9 and 8 after
    reduction to [[-pi, pi]]. *)
Definition reduce_pi (x : Q) : Q :=
  let k := Qround.Qfloor ((x + F_PI) / F_TWO_PI) in
  Qred (x - inject_Z k * F_TWO_PI).

Definition Qsin_approx (x0 : Q) : Q :=
  let x := reduce_pi x0 in
  let x2 := Qred (x * x) in
  Qred (x * (1 - x2 / 6 * (1 - x2 / 20 * (1 - x2 / 42 * (1 - x2 / 72))))).

Definition Qcos_approx (x0 : Q) : Q :=
  let x := reduce_pi x0 in
  let x2 := Qred (x * x) in
  Qred (1 - x2 / 2 * (1 - x2 / 12 * (1 - x2 / 30 * (1 - x2 / 56)))).

(** [atan] on [[-1, 1]] by the rational approximation
    [x / (1 + 0.28 x^2)], extended to [atan2] by octants. *)
Definition Qatan_unit (x : Q) : Q := Qred (x / (1 + (7 # 25) * x * x)).

Definition Qatan2_approx (y x : Q) : Q :=
  if Qeq_bool x 0 then
    (if Qltb 0 y then F_PI / 2 else if Qltb y 0 then - (F_PI / 2) else 0)
  else if Qle_bool (Qabs y) (Qabs x) then
    let a := Qatan_unit (y / x) in
    if Qltb 0 x then a
    else if Qle_bool 0 y then a + F_PI else a - F_PI
  else
    let a := Qatan_unit (x / y) in
    if Qltb 0 y then F_PI / 2 - a else - (F_PI / 2) - a.

Definition Qacos_approx (x : Q) : Q :=
  Qatan2_approx (Qsqrt_approx (1 - x * x)) x.

#[export] Instance libm_Q : Libm := {
  sqrtf := Qsqrt_approx;
  cosf := Qcos_approx;
  sinf := Qsin_approx;
  atan2f := Qatan2_approx;
  acosf := Qacos_approx
}.

Lemma Qatan_unit_proper (x x' : Q) : x == x' -> Qatan_unit x = Qatan_unit x'.
Proof. intros H. unfold Qatan_unit. apply Qred_complete. now rewrite H. Qed.

Lemma Qatan2_approx_proper (y y' x x' : Q) : y == y' -> x == x' -> Qatan2_approx y x == Qatan2_approx y' x'.
Proof.
  intros Hy Hx. unfold Qatan2_approx.
  change (Qeq_bool x 0) with (Qeqb x 0). change (Qeq_bool x' 0) with (Qeqb x' 0).
  change (Qle_bool (Qabs y) (Qabs x)) with (Qleb (Qabs y) (Qabs x)).
  change (Qle_bool (Qabs y') (Qabs x')) with (Qleb (Qabs y') (Qabs x')).
  change (Qle_bool 0 y) with (Qleb 0 y). change (Qle_bool 0 y') with (Qleb 0 y').
  rewrite (Qeqb_proper _ _ Hx 0 0 (Qeq_refl 0)), (Qleb_proper _ _ (Qabs_wd _ _ Hy) _ _ (Qabs_wd _ _ Hx)),
    (Qleb_proper 0 0 (Qeq_refl 0) _ _ Hy), (Qltb_proper 0 0 (Qeq_refl 0) _ _ Hy),
    (Qltb_proper _ _ Hy 0 0 (Qeq_refl 0)), (Qltb_proper 0 0 (Qeq_refl 0) _ _ Hx).
  rewrite (Qatan_unit_proper (y / x) (y' / x')) by (now rewrite Hx, Hy).
  rewrite (Qatan_unit_proper (x / y) (x' / y')) by (now rewrite Hx, Hy).
  reflexivity.
Qed.

#[export] Instance libm_Q_laws : @LibmLaws libm_Q.
Proof.
  constructor; simpl.
  - reflexivity.
  - reflexivity.
  - intros q. unfold Qsqrt_approx. destruct (Qle_bool (Qred q) 0); [lra|].
    rewrite Qred_correct. unfold Qle; simpl. rewrite Z.mul_1_r. apply Z.sqrt_nonneg.
  - intros p q H. unfold Qsqrt_approx. rewrite (Qred_complete p q H). reflexivity.
  - exact Qatan2_approx_proper.
Qed.

(** ** Facts about the truncating cast *)

Lemma Qtrunc_small (q : Q) : -1 < q < 1 -> Qtrunc q = 0%Z.
Proof.
  intros [H0 H1]. unfold Qtrunc. destruct (Qle_bool 0 q) eqn:E.
  - apply Qle_bool_iff in E. apply Z.le_antisymm.
    + assert (Qfloor q < 1)%Z; [|lia].
      rewrite Zlt_Qlt. pose proof (Qfloor_le q). change (inject_Z 1) with 1. lra.
    + change 0%Z with (Qfloor 0). now apply Qfloor_resp_le.
  - assert (~ 0 <= q) as N by (intro X; apply Qle_bool_iff in X; congruence).
    apply Z.le_antisymm.
    + change 0%Z with (Qceiling 0). apply Qceiling_resp_le. qlra.
    + assert (-1 < Qceiling q)%Z; [|lia].
      rewrite Zlt_Qlt. pose proof (Qle_ceiling q).
      change (inject_Z (-1)) with (-1 # 1). lra.
Qed.

Lemma f32_to_s32_small (q : Q) : -1 < q < 1 -> f32_to_s32 q = 0%Z.
Proof.
  intros H. rewrite f32_to_s32_fits; rewrite (Qtrunc_small q H); [reflexivity|].
  unfold S32_MIN, S32_MAX. lia.
Qed.

(** Dividing by [F_TWO_PI] is multiplying by the constant [/F_TWO_PI]. *)
Lemma div_F_TWO_PI (q : Q) : q / F_TWO_PI == q * (2097152 # 13176795).
Proof. reflexivity. Qed.

(** The number of whole turns [k] that [(S32)(q / F_TWO_PI)] removes, when
    it fits: [k * F_TWO_PI] is on the same side of [0] as [q], less than one
    turn away from it. *)
Lemma trunc_turns_nonneg (q : Q) :
  0 <= q ->
  let k := inject_Z (Qtrunc (q / F_TWO_PI)) in
  k * F_TWO_PI <= q < k * F_TWO_PI + F_TWO_PI.
Proof.
  intros H k. assert (0 <= q / F_TWO_PI) as H' by (rewrite div_F_TWO_PI; lra).
  destruct (Qtrunc_nonneg _ H') as [L U]. fold k in L, U.
  rewrite div_F_TWO_PI in L, U. unfold F_TWO_PI. lra.
Qed.

Lemma trunc_turns_neg (q : Q) :
  q < 0 ->
  let k := inject_Z (Qtrunc (q / F_TWO_PI)) in
  k * F_TWO_PI - F_TWO_PI < q <= k * F_TWO_PI.
Proof.
  intros H k. assert (q / F_TWO_PI < 0) as H' by (rewrite div_F_TWO_PI; lra).
  destruct (Qtrunc_neg _ H') as [L U]. fold k in L, U.
  rewrite div_F_TWO_PI in L, U. unfold F_TWO_PI. lra.
Qed.

(** The cast respects [==]: equal rationals truncate to the same integer. *)
Lemma Qtrunc_comp (p q : Q) : p == q -> Qtrunc p = Qtrunc q.
Proof.
  intros H. unfold Qtrunc.
  assert (Qle_bool 0 p = Qle_bool 0 q) as E.
  { change (Qleb 0 p = Qleb 0 q). now rewrite H. }
  rewrite E. destruct (Qle_bool 0 q).
  - now apply Qfloor_comp.
  - now apply Qceiling_comp.
Qed.

#[export] Instance f32_to_s32_proper : Proper (Qeq ==> eq) f32_to_s32.
Proof. intros p q H. unfold f32_to_s32. now rewrite (Qtrunc_comp p q H). Qed.
