(* ===== verification/Angles.v ===== *)
(** * Angles: the angle helpers of [llik.cpp]

    [remove_multiples_of_two_pi], [compute_angle_limits] and
    [compute_clamped_angle] (llik.cpp, lines 131-201) are the arithmetic
    every twist, bend, yaw and pitch limit of the constraints goes through.
    The C++ [compute_angle_limits] returns its results through two
    reference parameters; the model returns the pair [(min, max)].

    What is proved:
    - [remove_multiples_of_two_pi] leaves less than one turn, on the side of
      zero of its argument (not in [[0, 2pi)] as its comment says);
    - [compute_angle_limits] returns ordered limits in [(-2pi, pi]], and
      does not lift limits below [-pi] into [[-pi, pi]];
    - [compute_clamped_angle] returns a value inside the limits, or the
      "invalid bisector" itself, which it never clamps; on limits inside
      [[-pi, pi)] it is idempotent. *)

From Stdlib Require Import QArith Qround ZArith Lia Lqa.
From S2P Require Import Prelude F32.

Open Scope Q_scope.
Local Open Scope llik_scope.

(** [remove_multiples_of_two_pi] (lines 131-135). *)
Definition remove_multiples_of_two_pi (angle : Q) : Q :=
  angle - F_TWO_PI * inject_Z (f32_to_s32 (angle / F_TWO_PI)).

(** The step applied to each limit by [compute_angle_limits] (lines 141-145
    for [max_angle], 146-150 for [min_angle]). *)
Definition alias_angle_limit (angle : Q) : Q :=
  let a := remove_multiples_of_two_pi angle in
  if F_PI <? a then a - F_TWO_PI else a.

(** [compute_angle_limits] (lines 137-157): alias both limits, then swap
    them when they are out of order. *)
Definition compute_angle_limits (min_angle max_angle : Q) : Q * Q :=
  let max_a := alias_angle_limit max_angle in
  let min_a := alias_angle_limit min_angle in
  if max_a <? min_a then (max_a, min_a) else (min_a, max_a).

(** The "invalid bisector" of the limits (line 183): the angle, half-way
    round the forbidden arc, that separates the angles clamped to
    [max_angle] from those clamped to [min_angle]. *)
Definition invalid_bisector (min_angle max_angle : Q) : Q :=
  max_angle + (1 # 2) * (F_TWO_PI - (max_angle - min_angle)).

(** [compute_clamped_angle] (lines 162-201). *)
Definition compute_clamped_angle (angle min_angle max_angle : Q) : Q :=
  if (max_angle <? angle) || (angle <? min_angle) then
    let bisector := invalid_bisector min_angle max_angle in
    let a := angle - inject_Z (f32_to_s32 (angle / F_TWO_PI)) * F_TWO_PI in
    if ((max_angle <? a) && (a <? bisector)) || (a <? bisector - F_TWO_PI)
    then max_angle
    else if (a <? min_angle) || (bisector <? a) then min_angle
    else a
  else angle.

(** ** Lemmas *)

(** No overflow in the cast of [angle / F_TWO_PI]. *)
Definition turns_fit (angle : Q) : Prop :=
  (S32_MIN <= Qtrunc (angle / F_TWO_PI) <= S32_MAX)%Z.

Lemma remove_multiples_of_two_pi_eq (angle : Q) :
  turns_fit angle ->
  remove_multiples_of_two_pi angle
  == angle - F_TWO_PI * inject_Z (Qtrunc (angle / F_TWO_PI)).
Proof.
  intros H. unfold remove_multiples_of_two_pi. now rewrite f32_to_s32_fits.
Qed.

(** The aliased angle of [compute_clamped_angle] is the angle inside the
    turn, when the angle is within one turn of zero. *)
Lemma alias_within_turn (angle : Q) :
  0 <= angle < F_TWO_PI ->
  angle - inject_Z (f32_to_s32 (angle / F_TWO_PI)) * F_TWO_PI == angle.
Proof.
  intros H. rewrite f32_to_s32_small; [change (inject_Z 0) with 0; ring|].
  rewrite div_F_TWO_PI. unfold F_TWO_PI in H. lra.
Qed.

(** ** Theorems *)

(** The bounds of [remove_multiples_of_two_pi], for the lemmas below. *)
Lemma remove_multiples_of_two_pi_bounds (angle : Q) :
  turns_fit angle ->
  (0 <= angle -> 0 <= remove_multiples_of_two_pi angle < F_TWO_PI) /\
  (angle < 0 -> - F_TWO_PI < remove_multiples_of_two_pi angle <= 0).
Proof.
  intros H. rewrite (remove_multiples_of_two_pi_eq _ H). split; intros Hs.
  - pose proof (trunc_turns_nonneg angle Hs). simpl in *. lra.
  - pose proof (trunc_turns_neg angle Hs). simpl in *. lra.
Qed.

(** [compute_angle_limits] returns its limits in order, whatever they are. *)
Lemma compute_angle_limits_le (min_angle max_angle : Q) :
  fst (compute_angle_limits min_angle max_angle) <= snd (compute_angle_limits min_angle max_angle).
Proof. unfold compute_angle_limits. qcase; qlra. Qed.

(** Each limit aliased by [compute_angle_limits] lies in [(-2pi, pi]]. *)
Lemma alias_angle_limit_range (angle : Q) :
  turns_fit angle ->
  - F_TWO_PI < alias_angle_limit angle <= F_PI.
Proof.
  intros H. unfold alias_angle_limit.
  destruct (remove_multiples_of_two_pi_bounds angle H) as [P N].
  destruct (Qlt_le_dec angle 0) as [Hn|Hp];
    [specialize (N Hn) | specialize (P Hp)];
    qcase; rewrite F_TWO_PI_eq in *; qlra.
Qed.

(** [compute_angle_limits] returns its two limits in order, both in
    [(-2pi, pi]], and they are the two aliased inputs. *)
Theorem compute_angle_limits_ordered (min_angle max_angle : Q) :
  turns_fit min_angle -> turns_fit max_angle ->
  let '(lo, hi) := compute_angle_limits min_angle max_angle in
  lo <= hi /\ - F_TWO_PI < lo /\ hi <= F_PI /\
  ((lo = alias_angle_limit min_angle /\ hi = alias_angle_limit max_angle) \/
   (lo = alias_angle_limit max_angle /\ hi = alias_angle_limit min_angle)).
Proof.
  intros Hmin Hmax. unfold compute_angle_limits.
  pose proof (alias_angle_limit_range _ Hmin).
  pose proof (alias_angle_limit_range _ Hmax).
  qcase; (split; [qlra|]); (split; [qlra|]); (split; [qlra|]); auto.
Qed.

Lemma compute_angle_limits_ordered_witness :
  turns_fit 4 /\ turns_fit (-1) /\
  fst (compute_angle_limits 4 (-1)) <= snd (compute_angle_limits 4 (-1)).
Proof.
  assert (turns_fit 4) as H4 by (split; vm_compute; discriminate).
  assert (turns_fit (-1)) as H1 by (split; vm_compute; discriminate).
  split; [exact H4|]. split; [exact H1|].
  pose proof (compute_angle_limits_ordered 4 (-1) H4 H1) as H.
  destruct (compute_angle_limits 4 (-1)) as [lo hi]. simpl. apply H.
Defined.

(** C28: [compute_angle_limits] does not normalize a limit below [-pi]:
    a lower limit in [(-2pi, -pi)] paired with [0] comes back unchanged,
    although the comment on line 139 promises the range [[-PI, PI]], and
    [compute_clamped_angle] expects limits "aliased to the range
    [-PI, PI]" (line 161). *)
Theorem compute_angle_limits_keeps_below_minus_pi (a : Q) :
  - F_TWO_PI < a < - F_PI ->
  let '(lo, hi) := compute_angle_limits a 0 in lo == a /\ hi == 0 /\ lo < - F_PI.
Proof.
  intros H.
  assert (remove_multiples_of_two_pi a == a) as Ra.
  { unfold remove_multiples_of_two_pi. rewrite f32_to_s32_small; [change (inject_Z 0) with 0; ring|].
    rewrite div_F_TWO_PI. unfold F_TWO_PI, F_PI in *. lra. }
  assert (remove_multiples_of_two_pi 0 == 0) as R0 by reflexivity.
  unfold compute_angle_limits, alias_angle_limit.
  qcase; rewrite ?Ra, ?R0 in *; unfold F_TWO_PI, F_PI in *; repeat split; qlra.
Qed.

Lemma compute_angle_limits_keeps_below_minus_pi_witness :
  (- F_TWO_PI < -5 < - F_PI) /\ fst (compute_angle_limits (-5) 0) < - F_PI.
Proof.
  assert (- F_TWO_PI < -5 < - F_PI) as H by qcompute.
  split; [exact H|].
  pose proof (compute_angle_limits_keeps_below_minus_pi (-5) H) as C.
  destruct (compute_angle_limits (-5) 0) as [lo hi]. simpl. apply C.
Defined.

(** An angle already inside the limits is returned as it is. *)
Lemma compute_clamped_angle_in_range (angle min_angle max_angle : Q) :
  min_angle <= angle <= max_angle ->
  compute_clamped_angle angle min_angle max_angle = angle.
Proof.
  intros H. unfold compute_clamped_angle.
  destruct (Qltb_spec max_angle angle); [qlra|].
  destruct (Qltb_spec angle min_angle); [qlra|reflexivity].
Qed.

(** The result of [compute_clamped_angle] is inside the limits or is the
    invalid bisector. *)
Lemma clamped_or_bisector (angle min_angle max_angle : Q) :
  min_angle <= max_angle ->
  let r := compute_clamped_angle angle min_angle max_angle in
  (min_angle <= r <= max_angle) \/ r == invalid_bisector min_angle max_angle.
Proof.
  intros H. unfold compute_clamped_angle.
  set (b := invalid_bisector min_angle max_angle).
  set (a := angle - _ * F_TWO_PI).
  qcase; qlra.
Qed.

(** C5: whatever the angle, [compute_clamped_angle] returns a value
    between the limits, or else exactly the invalid bisector: the aliased
    angle is compared to the bisector with strict inequalities on both
    sides (lines 188 and 194), so an angle equal to it falls through both
    branches and is returned unclamped. *)
Theorem compute_clamped_angle_range (angle min_angle max_angle : Q) :
  min_angle <= max_angle ->
  let r := compute_clamped_angle angle min_angle max_angle in
  (min_angle <= r <= max_angle) \/ r == invalid_bisector min_angle max_angle.
Proof. exact (clamped_or_bisector angle min_angle max_angle). Qed.

Lemma compute_clamped_angle_range_witness :
  (0 <= 1) /\
  0 <= compute_clamped_angle 5 0 1 <= 1.
Proof.
  split; [discriminate|].
  destruct (compute_clamped_angle_range 5 0 1 ltac:(discriminate)) as [H|H];
    [exact H|vm_compute in H; discriminate].
Defined.

(** C6: the invalid-bisector escape is reached by a twist of exactly
    [F_PI], which [atan2] returns for a rotated axis pointing straight
    back: with symmetric limits [[-m, m]] ([m < pi]) the bisector is
    [F_PI] itself, and [compute_clamped_angle] returns [F_PI], outside the
    limits.  In exact arithmetic; in single precision the bisector rounds
    to [F_PI] at the limits 0, 0.5, 1 and 2 but not at every limit. *)
Theorem compute_clamped_angle_bisector_escape (m : Q) :
  0 <= m < F_PI ->
  compute_clamped_angle F_PI (- m) m == F_PI /\ m < compute_clamped_angle F_PI (- m) m.
Proof.
  intros H. unfold compute_clamped_angle.
  replace (f32_to_s32 (F_PI / F_TWO_PI)) with 0%Z by reflexivity.
  change (inject_Z 0) with 0. unfold invalid_bisector. qcase; unfold F_TWO_PI, F_PI in *; split; qlra.
Qed.

Lemma compute_clamped_angle_bisector_escape_witness :
  (0 <= 1 < F_PI) /\ 1 < compute_clamped_angle F_PI (-1) 1.
Proof.
  assert (0 <= 1 < F_PI) as H by qcompute.
  split; [exact H|]. apply (compute_clamped_angle_bisector_escape 1 H).
Defined.

(** [compute_clamped_angle] respects [==] in all its arguments. *)
#[export] Instance compute_clamped_angle_proper :
  Proper (Qeq ==> Qeq ==> Qeq ==> Qeq) compute_clamped_angle.
Proof.
  intros a a' Ha lo lo' Hlo hi hi' Hhi. unfold compute_clamped_angle, invalid_bisector.
  assert (a / F_TWO_PI == a' / F_TWO_PI) as Hd by now rewrite Ha.
  rewrite (f32_to_s32_proper _ _ Hd).
  set (k := inject_Z (f32_to_s32 (a' / F_TWO_PI))).
  set (A := a - k * F_TWO_PI). set (A' := a' - k * F_TWO_PI).
  set (B := hi + (1 # 2) * (F_TWO_PI - (hi - lo))).
  set (B' := hi' + (1 # 2) * (F_TWO_PI - (hi' - lo'))).
  assert (A == A') as HA by (unfold A, A'; now rewrite Ha).
  assert (B == B') as HB by (unfold B, B'; now rewrite Hlo, Hhi).
  assert (B - F_TWO_PI == B' - F_TWO_PI) as HB2 by now rewrite HB.
  rewrite (Qltb_proper _ _ Hhi _ _ Ha), (Qltb_proper _ _ Ha _ _ Hlo),
    (Qltb_proper _ _ Hhi _ _ HA), (Qltb_proper _ _ HA _ _ HB),
    (Qltb_proper _ _ HA _ _ HB2), (Qltb_proper _ _ HA _ _ Hlo),
    (Qltb_proper _ _ HB _ _ HA).
  destruct (_ || _); [|exact Ha].
  destruct (_ || _); [exact Hhi|]. destruct (_ || _); [exact Hlo|exact HA].
Qed.

(** On limits inside [[-pi, pi)], clamping twice is clamping once:
    values inside the limits are fixed, and so is the bisector, which lies
    in [[0, 2pi)] where the aliasing of line 186 does not move it. *)
Theorem compute_clamped_angle_idempotent (angle min_angle max_angle : Q) :
  - F_PI <= min_angle -> min_angle <= max_angle -> max_angle < F_PI ->
  let r := compute_clamped_angle angle min_angle max_angle in
  compute_clamped_angle r min_angle max_angle == r.
Proof.
  intros H1 H2 H3 r.
  destruct (clamped_or_bisector angle min_angle max_angle H2) as [R|R];
    fold r in R.
  - now rewrite compute_clamped_angle_in_range.
  - rewrite R. clear R r. unfold invalid_bisector.
    set (b := max_angle + (1 # 2) * (F_TWO_PI - (max_angle - min_angle))).
    assert (0 <= b < F_TWO_PI) as Hb by (unfold b, F_TWO_PI, F_PI in *; lra).
    pose proof (alias_within_turn b Hb) as Ha.
    unfold compute_clamped_angle, invalid_bisector. fold b.
    qcase; unfold b, F_TWO_PI, F_PI in *; qlra.
Qed.

Lemma compute_clamped_angle_idempotent_witness :
  (- F_PI <= -1 /\ -1 <= 1 /\ 1 < F_PI) /\
  compute_clamped_angle (compute_clamped_angle 3 (-1) 1) (-1) 1
  == compute_clamped_angle 3 (-1) 1.
Proof.
  assert (- F_PI <= -1) as A by qcompute.
  assert (-1 <= 1) as B by discriminate.
  assert (1 < F_PI) as C by qcompute.
  split; [auto|]. apply (compute_clamped_angle_idempotent 3 (-1) 1 A B C).
Defined.
