(* ===== verification/Vec.v ===== *)
(** * Vec: [LLVector3] and [LLQuaternion]

    The solver computes with the viewer's [llmath] types.  [llmath] is not
    among the sources of this development, so its operations are modelled
    from the specification (section 4.1 and the notation of section 3):
    [v * q] rotates the vector [v] by the quaternion [q], and the product
    [a * b] of two quaternions means "apply [a], then [b]" (the Hamilton
    product [b a]).  Vectors and quaternions are records of [Q]; their
    equality is componentwise [==], with [Proper] instances so that
    [rewrite] works under the operations.

    The algebraic facts the joint invariants rest on are proved here:
    rotating by a product is rotating twice ([vrot_qmul]), the product is
    associative, a unit quaternion times its conjugate is the identity, the
    product of unit quaternions is a unit, and normalizing a unit changes
    nothing. *)

From Stdlib Require Import QArith Qabs Lqa Morphisms Setoid.
From S2P Require Import Prelude F32.

Open Scope Q_scope.
Local Open Scope llik_scope.

(** ** Vectors *)

Record vec3 := V3 { vx : Q; vy : Q; vz : Q }.

Definition v_zero : vec3 := V3 0 0 0.
Definition x_axis : vec3 := V3 1 0 0.
Definition y_axis : vec3 := V3 0 1 0.
Definition z_axis : vec3 := V3 0 0 1.

Definition vadd (a b : vec3) : vec3 := V3 (vx a + vx b) (vy a + vy b) (vz a + vz b).
Definition vsub (a b : vec3) : vec3 := V3 (vx a - vx b) (vy a - vy b) (vz a - vz b).
Definition vneg (a : vec3) : vec3 := V3 (- vx a) (- vy a) (- vz a).
Definition vscale (s : Q) (a : vec3) : vec3 := V3 (s * vx a) (s * vy a) (s * vz a).
(** [operator*(LLVector3, LLVector3)] is the dot product. *)
Definition vdot (a b : vec3) : Q := vx a * vx b + vy a * vy b + vz a * vz b.
(** [operator%] is the cross product. *)
Definition vcross (a b : vec3) : vec3 :=
  V3 (vy a * vz b - vz a * vy b) (vz a * vx b - vx a * vz b) (vx a * vy b - vy a * vx b).
(** [scaledVec]: componentwise product. *)
Definition scaledVec (a s : vec3) : vec3 := V3 (vx a * vx s) (vy a * vy s) (vz a * vz s).
Definition lengthSquared (a : vec3) : Q := vdot a a.

Definition veq (a b : vec3) : Prop := vx a == vx b /\ vy a == vy b /\ vz a == vz b.

Declare Scope vec_scope.
Delimit Scope vec_scope with vec.
Infix "⊕" := vadd (at level 50, left associativity) : vec_scope.
Infix "⊖" := vsub (at level 50, left associativity) : vec_scope.
Infix "⊙" := vscale (at level 40, left associativity) : vec_scope.
Infix "⋅" := vdot (at level 40, no associativity) : vec_scope.
Infix "⨯" := vcross (at level 40, no associativity) : vec_scope.
Infix "≡" := veq (at level 70, no associativity) : vec_scope.
Open Scope vec_scope.

(** ** Quaternions *)

Record quat := Quat { qx : Q; qy : Q; qz : Q; qw : Q }.

(** [LLQuaternion::DEFAULT], the identity rotation. *)
Definition q_identity : quat := Quat 0 0 0 1.

(** [operator*(a, b)]: apply [a], then [b]. *)
Definition qmul (a b : quat) : quat :=
  Quat (qw b * qx a + qx b * qw a + qy b * qz a - qz b * qy a)
       (qw b * qy a + qy b * qw a + qz b * qx a - qx b * qz a)
       (qw b * qz a + qz b * qw a + qx b * qy a - qy b * qx a)
       (qw b * qw a - qx b * qx a - qy b * qy a - qz b * qz a).

Definition qconj (q : quat) : quat := Quat (- qx q) (- qy q) (- qz q) (qw q).
Definition qadd (a b : quat) : quat := Quat (qx a + qx b) (qy a + qy b) (qz a + qz b) (qw a + qw b).
Definition qsub (a b : quat) : quat := Quat (qx a - qx b) (qy a - qy b) (qz a - qz b) (qw a - qw b).
Definition qnorm2 (q : quat) : Q := qx q * qx q + qy q * qy q + qz q * qz q + qw q * qw q.

(** [operator*(LLVector3, LLQuaternion)]: the rotated vector [q v q*],
    written out as polynomials. *)
Definition vrot (v : vec3) (q : quat) : vec3 :=
  let rw := - qx q * vx v - qy q * vy v - qz q * vz v in
  let rx := qw q * vx v + qy q * vz v - qz q * vy v in
  let ry := qw q * vy v + qz q * vx v - qx q * vz v in
  let rz := qw q * vz v + qx q * vy v - qy q * vx v in
  V3 (- rw * qx q + rx * qw q - ry * qz q + rz * qy q)
     (- rw * qy q + ry * qw q - rz * qx q + rx * qz q)
     (- rw * qz q + rz * qw q - rx * qy q + ry * qx q).

Definition qeq (a b : quat) : Prop :=
  qx a == qx b /\ qy a == qy b /\ qz a == qz b /\ qw a == qw b.

Infix "⊗" := qmul (at level 40, left associativity) : vec_scope.
Infix "↻" := vrot (at level 40, left associativity) : vec_scope.
Infix "≃" := qeq (at level 70, no associativity) : vec_scope.

(** ** Operations that need [libm] *)

Section WithLibm.
Context {L : Libm}.

(** [FP_MAG_THRESHOLD] of [llmath.h]. *)
Definition FP_MAG_THRESHOLD : Q := 1 # 10000000.

Definition vlength (a : vec3) : Q := sqrtf (lengthSquared a).

(** [LLVector3::normalize]: scale to unit length, or zero the vector when
    its length is below the threshold. *)
Definition vnormalize (a : vec3) : vec3 :=
  let mag := vlength a in
  if FP_MAG_THRESHOLD <? mag then vscale (1 / mag) a else v_zero.

Definition dist_vec (a b : vec3) : Q := vlength (vsub a b).

(** [LLQuaternion::normalize]: divide by the norm, or reset to the
    identity when the norm is below the threshold. *)
Definition qnormalize (q : quat) : quat :=
  let mag := sqrtf (qnorm2 q) in
  if FP_MAG_THRESHOLD <? mag then
    Quat (qx q / mag) (qy q / mag) (qz q / mag) (qw q / mag)
  else q_identity.

(** [lerp(t, p, q)]: componentwise interpolation, then normalization. *)
Definition qlerp (t : Q) (p q : quat) : quat :=
  qnormalize (Quat (t * qx q + (1 - t) * qx p) (t * qy q + (1 - t) * qy p)
                   (t * qz q + (1 - t) * qz p) (t * qw q + (1 - t) * qw p)).

(** [LLQuaternion::shortestArc(a, b)]: the half-angle construction, with
    a perpendicular axis for antiparallel vectors and the identity when
    both are zero. *)
Definition shortestArc (a b : vec3) : quat :=
  let ab := vdot a b in
  let c := vcross a b in
  let cc := vdot c c in
  if negb (Qeqb (ab * ab + cc) 0) then
    if 0 <? cc then
      let s := sqrtf (ab * ab + cc) + ab in
      let m := 1 / sqrtf (cc + s * s) in
      Quat (vx c * m) (vy c * m) (vz c * m) (s * m)
    else if ab <? 0 then
      if Qabs (vx a) <? (707 # 1000) then qnormalize (Quat 0 (vz a) (- vy a) 0)
      else qnormalize (Quat (vy a) (- vx a) 0 0)
    else q_identity
  else q_identity.

(** [LLQuaternion::almost_equal(a, b, tolerance)]: componentwise within the
    tolerance, for [b] or for [-b] (the same rotation). *)
Definition qalmost_equal_tol (tol : Q) (a b : quat) : bool :=
  let close (s : Q) :=
    Qleb (Qabs (qx a - s * qx b)) tol && Qleb (Qabs (qy a - s * qy b)) tol &&
    Qleb (Qabs (qz a - s * qz b)) tol && Qleb (Qabs (qw a - s * qw b)) tol in
  close 1 || close (-1).

End WithLibm.

(** The default tolerance of [almost_equal]. *)
Definition QUAT_DEFAULT_TOLERANCE : Q := 1 # 1000000.

Definition qalmost_equal (a b : quat) : bool := qalmost_equal_tol QUAT_DEFAULT_TOLERANCE a b.

(** ** Setoid structure *)

#[export] Instance veq_equiv : Equivalence veq.
Proof.
  split.
  - intros a. repeat split; reflexivity.
  - intros a b (H1 & H2 & H3). repeat split; symmetry; assumption.
  - intros a b c (H1 & H2 & H3) (G1 & G2 & G3).
    repeat split; etransitivity; eassumption.
Qed.

#[export] Instance qeq_equiv : Equivalence qeq.
Proof.
  split.
  - intros a. repeat split; reflexivity.
  - intros a b (H1 & H2 & H3 & H4). repeat split; symmetry; assumption.
  - intros a b c (H1 & H2 & H3 & H4) (G1 & G2 & G3 & G4).
    repeat split; etransitivity; eassumption.
Qed.

(** [vsplit] and [qsplit] turn a hypothesis of equality into its
    components; [vring] proves componentwise polynomial identities. *)
Ltac vsplit H := destruct H as (?&?&?).
Ltac qsplit H := destruct H as (?&?&?&?).
Ltac vring :=
  repeat match goal with
  | v : vec3 |- _ => destruct v
  | q : quat |- _ => destruct q
  end;
  unfold veq, qeq; simpl; repeat split; ring.

(** Every operation respects the equalities. *)
Ltac solve_vproper :=
  repeat intro;
  repeat match goal with
  | H : veq _ _ |- _ => vsplit H
  | H : qeq _ _ |- _ => qsplit H
  end;
  unfold lengthSquared, veq, qeq, vadd, vsub, vneg, vscale, vdot, vcross, scaledVec,
    qmul, qconj, qadd, qsub, qnorm2, vrot in *; simpl;
  repeat match goal with H : _ == _ |- _ => rewrite H; clear H end;
  repeat split; reflexivity.

#[export] Instance V3_proper : Proper (Qeq ==> Qeq ==> Qeq ==> veq) V3.
Proof. intros ? ? ? ? ? ? ? ? ?. repeat split; assumption. Qed.
#[export] Instance Quat_proper : Proper (Qeq ==> Qeq ==> Qeq ==> Qeq ==> qeq) Quat.
Proof. intros ? ? ? ? ? ? ? ? ? ? ? ?. repeat split; assumption. Qed.
#[export] Instance vadd_proper : Proper (veq ==> veq ==> veq) vadd.
Proof. solve_vproper. Qed.
#[export] Instance vsub_proper : Proper (veq ==> veq ==> veq) vsub.
Proof. solve_vproper. Qed.
#[export] Instance vneg_proper : Proper (veq ==> veq) vneg.
Proof. solve_vproper. Qed.
#[export] Instance vscale_proper : Proper (Qeq ==> veq ==> veq) vscale.
Proof. solve_vproper. Qed.
#[export] Instance vdot_proper : Proper (veq ==> veq ==> Qeq) vdot.
Proof. solve_vproper. Qed.
#[export] Instance vcross_proper : Proper (veq ==> veq ==> veq) vcross.
Proof. solve_vproper. Qed.
#[export] Instance scaledVec_proper : Proper (veq ==> veq ==> veq) scaledVec.
Proof. solve_vproper. Qed.
#[export] Instance lengthSquared_proper : Proper (veq ==> Qeq) lengthSquared.
Proof. solve_vproper. Qed.
#[export] Instance qmul_proper : Proper (qeq ==> qeq ==> qeq) qmul.
Proof. solve_vproper. Qed.
#[export] Instance qconj_proper : Proper (qeq ==> qeq) qconj.
Proof. solve_vproper. Qed.
#[export] Instance qadd_proper : Proper (qeq ==> qeq ==> qeq) qadd.
Proof. solve_vproper. Qed.
#[export] Instance qsub_proper : Proper (qeq ==> qeq ==> qeq) qsub.
Proof. solve_vproper. Qed.
#[export] Instance qnorm2_proper : Proper (qeq ==> Qeq) qnorm2.
Proof. solve_vproper. Qed.
#[export] Instance vrot_proper : Proper (veq ==> qeq ==> veq) vrot.
Proof. solve_vproper. Qed.

(** ** Algebra of rotations *)

(** Rotating by [a * b] is rotating by [a], then by [b]. *)
Lemma vrot_qmul (v : vec3) (a b : quat) : v ↻ (a ⊗ b) ≡ (v ↻ a) ↻ b.
Proof. vring. Qed.

Lemma qmul_assoc (a b c : quat) : a ⊗ (b ⊗ c) ≃ (a ⊗ b) ⊗ c.
Proof. vring. Qed.

Lemma qmul_identity_l (q : quat) : q_identity ⊗ q ≃ q.
Proof. vring. Qed.

Lemma qmul_identity_r (q : quat) : q ⊗ q_identity ≃ q.
Proof. vring. Qed.

Lemma vrot_identity (v : vec3) : v ↻ q_identity ≡ v.
Proof. vring. Qed.

(** The norm is multiplicative (Euler's four-square identity). *)
Lemma qnorm2_qmul (a b : quat) : qnorm2 (a ⊗ b) == qnorm2 a * qnorm2 b.
Proof. destruct a, b. unfold qnorm2, qmul. simpl. ring. Qed.

Lemma qnorm2_qconj (q : quat) : qnorm2 (qconj q) == qnorm2 q.
Proof. destruct q. unfold qnorm2, qconj. simpl. ring. Qed.

(** [conj q * q] and [q * conj q] are the identity scaled by the norm. *)
Lemma qmul_qconj_l_scaled (q : quat) :
  qconj q ⊗ q ≃ Quat 0 0 0 (qnorm2 q).
Proof. destruct q. unfold qeq, qmul, qconj, qnorm2. simpl. repeat split; ring. Qed.

Lemma qmul_qconj_r_scaled (q : quat) :
  q ⊗ qconj q ≃ Quat 0 0 0 (qnorm2 q).
Proof. destruct q. unfold qeq, qmul, qconj, qnorm2. simpl. repeat split; ring. Qed.

Definition unit_quat (q : quat) : Prop := qnorm2 q == 1.

#[export] Instance unit_quat_proper : Proper (qeq ==> iff) unit_quat.
Proof. intros a b H. unfold unit_quat. now rewrite H. Qed.

Lemma qmul_qconj_r (q : quat) : unit_quat q -> q ⊗ qconj q ≃ q_identity.
Proof. intros H. rewrite qmul_qconj_r_scaled. unfold unit_quat in H. now rewrite H. Qed.

Lemma qmul_qconj_l (q : quat) : unit_quat q -> qconj q ⊗ q ≃ q_identity.
Proof. intros H. rewrite qmul_qconj_l_scaled. unfold unit_quat in H. now rewrite H. Qed.

(** The formula [child_local_rot = child_rot * parent_rot_inv] of the
    sources inverts [child_rot = child_local_rot * parent_rot] for a unit
    parent rotation, in both directions. *)
Lemma qmul_qconj_cancel_r (a p : quat) : unit_quat p -> (a ⊗ qconj p) ⊗ p ≃ a.
Proof.
  intros H. rewrite <- qmul_assoc, qmul_qconj_l by exact H. apply qmul_identity_r.
Qed.

Lemma qmul_cancel_qconj_r (a p : quat) : unit_quat p -> (a ⊗ p) ⊗ qconj p ≃ a.
Proof.
  intros H. rewrite <- qmul_assoc, qmul_qconj_r by exact H. apply qmul_identity_r.
Qed.

Lemma qconj_qmul_cancel_l (a p : quat) : unit_quat p -> qconj p ⊗ (p ⊗ a) ≃ a.
Proof.
  intros H. rewrite qmul_assoc, qmul_qconj_l by exact H. apply qmul_identity_l.
Qed.

Lemma unit_quat_qmul (a b : quat) : unit_quat a -> unit_quat b -> unit_quat (a ⊗ b).
Proof. unfold unit_quat. intros Ha Hb. rewrite qnorm2_qmul, Ha, Hb. reflexivity. Qed.

Lemma unit_quat_qconj (q : quat) : unit_quat q -> unit_quat (qconj q).
Proof. unfold unit_quat. now rewrite qnorm2_qconj. Qed.

Lemma unit_quat_identity : unit_quat q_identity.
Proof. reflexivity. Qed.

#[export] Hint Resolve unit_quat_qmul unit_quat_qconj unit_quat_identity : llik.

(** Rotation by a unit quaternion preserves the dot product. *)
Lemma vdot_vrot_scaled (u v : vec3) (q : quat) :
  (u ↻ q) ⋅ (v ↻ q) == qnorm2 q * qnorm2 q * (u ⋅ v).
Proof. destruct u, v, q. unfold vdot, vrot, qnorm2. simpl. ring. Qed.

Lemma vdot_vrot (u v : vec3) (q : quat) :
  unit_quat q -> (u ↻ q) ⋅ (v ↻ q) == u ⋅ v.
Proof. intros H. rewrite vdot_vrot_scaled. unfold unit_quat in H. rewrite H. ring. Qed.

Lemma vrot_vadd (u v : vec3) (q : quat) : (u ⊕ v) ↻ q ≡ (u ↻ q) ⊕ (v ↻ q).
Proof. vring. Qed.

Lemma vrot_vscale (s : Q) (v : vec3) (q : quat) : (s ⊙ v) ↻ q ≡ s ⊙ (v ↻ q).
Proof. vring. Qed.

(** Rotating back by the conjugate undoes a unit rotation. *)
Lemma vrot_qconj_cancel (v : vec3) (q : quat) : unit_quat q -> (v ↻ q) ↻ qconj q ≡ v.
Proof.
  intros H. rewrite <- vrot_qmul, qmul_qconj_r by exact H. apply vrot_identity.
Qed.

Lemma vadd_vsub_cancel (a b : vec3) : (a ⊕ b) ⊖ a ≡ b.
Proof. vring. Qed.

Lemma vsub_vadd_cancel (a b : vec3) : b ⊕ (a ⊖ b) ≡ a.
Proof. vring. Qed.

Lemma vsub_add_cancel (a b : vec3) : (a ⊖ b) ⊕ b ≡ a.
Proof. vring. Qed.

(** ** Normalization *)

Section Normalize.
Context {L : Libm} {LL : LibmLaws}.

#[export] Instance qnormalize_proper : Proper (qeq ==> qeq) qnormalize.
Proof.
  intros a b H. unfold qnormalize. cbv zeta.
  assert (sqrtf (qnorm2 a) == sqrtf (qnorm2 b)) as E by (apply sqrtf_proper; now rewrite H).
  rewrite E. destruct (Qltb _ _); [|reflexivity].
  destruct H as (E1 & E2 & E3 & E4). unfold qeq; simpl.
  rewrite E1, E2, E3, E4, E. repeat split; reflexivity.
Qed.

(** Normalizing a unit quaternion changes nothing. *)
Lemma qnormalize_unit (q : quat) : unit_quat q -> qnormalize q ≃ q.
Proof.
  intros H. unfold qnormalize. cbv zeta.
  assert (sqrtf (qnorm2 q) == 1) as E by (rewrite (sqrtf_proper _ _ H); apply sqrtf_1).
  destruct (Qltb_spec FP_MAG_THRESHOLD (sqrtf (qnorm2 q))) as [_|N].
  - destruct q; unfold qeq; simpl in *. rewrite E. repeat split; field.
  - exfalso. apply N. rewrite E. reflexivity.
Qed.

(** A normalized quaternion is a unit, or the identity. *)
Lemma qnormalize_unit_or_identity (q : quat) :
  (forall x, 0 <= x -> sqrtf x * sqrtf x == x) ->
  unit_quat (qnormalize q).
Proof.
  intros Hsq. unfold qnormalize.
  destruct (Qltb_spec FP_MAG_THRESHOLD (sqrtf (qnorm2 q))) as [Hm|Hm];
    [|apply unit_quat_identity].
  assert (0 <= qnorm2 q) as Hn.
  { destruct q; unfold qnorm2; simpl. nra. }
  pose proof (Hsq _ Hn) as S. set (m := sqrtf (qnorm2 q)) in *.
  assert (~ m == 0) as Hm0 by (unfold FP_MAG_THRESHOLD in Hm; lra).
  unfold unit_quat, qnorm2 in *. destruct q as [a b c d]; simpl in *.
  setoid_replace (a / m * (a / m) + b / m * (b / m) + c / m * (c / m) + d / m * (d / m))
    with ((a * a + b * b + c * c + d * d) / (m * m)) by (field; exact Hm0).
  rewrite <- S. field. exact Hm0.
Qed.

(** The distance of a vector to itself is zero. *)
Lemma dist_vec_self (v : vec3) : dist_vec v v == 0.
Proof.
  unfold dist_vec, vlength. rewrite <- sqrtf_0. apply sqrtf_proper.
  unfold lengthSquared, vdot, vsub. simpl. ring.
Qed.

(** Every quaternion is [almost_equal] to itself, for a tolerance that is
    not negative. *)
Lemma qalmost_equal_tol_refl (tol : Q) (q : quat) : 0 <= tol -> qalmost_equal_tol tol q q = true.
Proof.
  intros H. unfold qalmost_equal_tol. apply orb_true_iff. left.
  assert (E : forall x, Qleb (Qabs (x - 1 * x)) tol = true).
  { intros x. apply Qle_bool_iff. setoid_replace (x - 1 * x) with 0 by ring. exact H. }
  rewrite !E. reflexivity.
Qed.

End Normalize.
