(* ===== verification/LLSD.v ===== *)
(** * LLSD: the structured values the constraint factory reads

    [LLSD] (llcommon, not under src/) is Linden Lab's dynamically typed
    value: undefined, a boolean, an integer, a real, a string, an array or
    a map from strings to values.  The factory and the constraint
    constructors of llik.cpp only read from it: [operator[]] by key and by
    index, [asReal], [asString], and [LLVector3(const LLSD&)].  This file
    models those readers as the LLSD documentation describes them: a
    missing key or index reads as undefined, and an undefined value reads
    as [0] or the empty string.  A map keeps its entries in key order, as
    its [std::map] does, which is the order [beginMap] iterates in.

    Also here: [boost::to_upper] on ASCII strings, which the factory applies
    to the type name. *)

From Stdlib Require Import QArith ZArith String Ascii List Bool Lia.
Import ListNotations.
From S2P Require Import Prelude Vec.

Inductive LLSD :=
| LSDUndef
| LSDBoolean (b : bool)
| LSDInteger (z : Z)
| LSDReal (q : Q)
| LSDString (s : string)
| LSDArray (l : list LLSD)
| LSDMap (m : list (string * LLSD)).

(** Lookup in a list of (string, value) pairs. *)
Fixpoint assoc_str {A} (k : string) (m : list (string * A)) : option A :=
  match m with
  | [] => None
  | (k', v) :: m' => if String.eqb k k' then Some v else assoc_str k m'
  end.

(** [LLSD::operator[](const String&)]: the value at [k] of a map. *)
Definition llsd_get (k : string) (d : LLSD) : LLSD :=
  match d with
  | LSDMap m => match assoc_str k m with Some v => v | None => LSDUndef end
  | _ => LSDUndef
  end.

(** [LLSD::operator[](Integer)]: the value at [i] of an array. *)
Definition llsd_at (i : nat) (d : LLSD) : LLSD :=
  match d with LSDArray l => nth i l LSDUndef | _ => LSDUndef end.

(** [LLSD::asReal]: reals as they are, integers and booleans converted,
    everything else [0]. *)
Definition asReal (d : LLSD) : Q :=
  match d with
  | LSDReal q => q
  | LSDInteger z => inject_Z z
  | LSDBoolean b => if b then 1 else 0
  | _ => 0
  end.

(** [LLSD::asString] of a string; the factory only compares the result
    with constraint names, which a non-string never converts to. *)
Definition asString (d : LLSD) : string :=
  match d with LSDString s => s | _ => EmptyString end.

(** [LLVector3(const LLSD&)]: the first three entries of an array. *)
Definition llsd_vec3 (d : LLSD) : vec3 :=
  V3 (asReal (llsd_at 0 d)) (asReal (llsd_at 1 d)) (asReal (llsd_at 2 d)).

(** [boost::to_upper] in the classic locale. *)
Definition ascii_upper (c : ascii) : ascii :=
  let n := nat_of_ascii c in
  if (Nat.leb 97 n && Nat.leb n 122)%bool then ascii_of_nat (n - 32) else c.

Fixpoint to_upper (s : string) : string :=
  match s with
  | EmptyString => EmptyString
  | String c s' => String (ascii_upper c) (to_upper s')
  end.

(** Upper-casing twice is upper-casing once. *)
Lemma ascii_upper_idem (c : ascii) : ascii_upper (ascii_upper c) = ascii_upper c.
Proof.
  unfold ascii_upper. destruct (Nat.leb 97 (nat_of_ascii c) && Nat.leb (nat_of_ascii c) 122)%bool eqn:E;
    [|rewrite E; reflexivity].
  apply andb_true_iff in E as [E1 E2]. apply Nat.leb_le in E1, E2.
  rewrite nat_ascii_embedding by lia.
  replace (Nat.leb 97 (nat_of_ascii c - 32)) with false by (symmetry; apply Nat.leb_gt; lia).
  reflexivity.
Qed.

Lemma to_upper_idem (s : string) : to_upper (to_upper s) = to_upper s.
Proof. induction s as [|c s IH]; simpl; [reflexivity|]. now rewrite ascii_upper_idem, IH. Qed.
