(* ===== verification/Config.v ===== *)
(** * Config: flag masks and [Joint::Config]

    The [U8] flag constants and masks of [llik.h] (lines 63-83) and the
    per-joint configuration record [Joint::Config] (llik.h 403-441, with
    [mChainLimit] as used by llik.cpp 222-225), with its setters and
    [updateFrom] (llik.cpp 203-275).  A [U8] is a [Z] in [[0, 256)], its
    bits read with [Z.testbit] and combined with [Z.land] and [Z.lor].

    What is proved: every setter and [updateFrom] keep the flags a [U8];
    the presence tests read one bit each; [updateFrom] replaces the whole
    configuration when the flag sets agree, and otherwise merges the
    present fields and ORs in every flag except [HAS_DELEGATED], which it
    drops. *)

From Stdlib Require Import QArith ZArith Bool Lia.
From S2P Require Import Prelude F32 Vec.

Local Open Scope Z_scope.

(** ** Flags *)

Definition CONFIG_FLAG_LOCAL_POS : Z := Z.shiftl 1 0.
Definition CONFIG_FLAG_LOCAL_ROT : Z := Z.shiftl 1 1.
Definition CONFIG_FLAG_LOCAL_SCALE : Z := Z.shiftl 1 2.
Definition CONFIG_FLAG_DISABLE_CONSTRAINT : Z := Z.shiftl 1 3.
Definition CONFIG_FLAG_TARGET_POS : Z := Z.shiftl 1 4.
Definition CONFIG_FLAG_TARGET_ROT : Z := Z.shiftl 1 5.
Definition CONFIG_FLAG_HAS_DELEGATED : Z := Z.shiftl 1 6.

Definition IK_FLAG_LOCAL_ROT : Z := Z.shiftl 1 1.
Definition IK_FLAG_ACTIVE : Z := Z.shiftl 1 5.
Definition IK_FLAG_LOCAL_ROT_LOCKED : Z := Z.shiftl 1 7.

Definition MASK_POS : Z := Z.lor CONFIG_FLAG_TARGET_POS CONFIG_FLAG_LOCAL_POS.
Definition MASK_ROT : Z := Z.lor CONFIG_FLAG_TARGET_ROT CONFIG_FLAG_LOCAL_ROT.
Definition MASK_TRANSFORM : Z := Z.lor MASK_POS MASK_ROT.
Definition MASK_LOCAL : Z :=
  Z.lor (Z.lor CONFIG_FLAG_LOCAL_POS CONFIG_FLAG_LOCAL_ROT) CONFIG_FLAG_DISABLE_CONSTRAINT.
Definition MASK_TARGET : Z := Z.lor CONFIG_FLAG_TARGET_POS CONFIG_FLAG_TARGET_ROT.
Definition MASK_JOINT_STATE_USAGE : Z :=
  Z.lor (Z.lor CONFIG_FLAG_LOCAL_POS CONFIG_FLAG_LOCAL_ROT) CONFIG_FLAG_LOCAL_SCALE.

(** [(flags & flag) > 0]. *)
Definition has_flag (flags flag : Z) : bool := 0 <? Z.land flags flag.

Definition is_u8 (z : Z) : Prop := 0 <= z < 256.

(** ** [Joint::Config] *)

Record Config := mkConfig {
  cfg_local_pos : vec3;
  cfg_local_rot : quat;
  cfg_local_scale : vec3;
  cfg_target_pos : vec3;
  cfg_target_rot : quat;
  cfg_flags : Z;
  cfg_chain_limit : Z
}.

(** A default-constructed [Config]: zero vectors, identity rotations, no
    flags, and the chain limit 255 that [rebuildAllChains] passes for
    chains without a limit of their own (line 3022). *)
Definition default_config : Config :=
  mkConfig v_zero q_identity v_zero v_zero q_identity 0 255.

Definition hasLocalPos (c : Config) : bool := has_flag (cfg_flags c) CONFIG_FLAG_LOCAL_POS.
Definition hasLocalRot (c : Config) : bool := has_flag (cfg_flags c) CONFIG_FLAG_LOCAL_ROT.
Definition hasLocalScale (c : Config) : bool := has_flag (cfg_flags c) CONFIG_FLAG_LOCAL_SCALE.
Definition constraintIsDisabled (c : Config) : bool :=
  has_flag (cfg_flags c) CONFIG_FLAG_DISABLE_CONSTRAINT.
Definition hasTargetPos (c : Config) : bool := has_flag (cfg_flags c) CONFIG_FLAG_TARGET_POS.
Definition hasTargetRot (c : Config) : bool := has_flag (cfg_flags c) CONFIG_FLAG_TARGET_ROT.
Definition hasDelegated (c : Config) : bool := has_flag (cfg_flags c) CONFIG_FLAG_HAS_DELEGATED.

Definition set_flags (c : Config) (f : Z) : Config :=
  mkConfig (cfg_local_pos c) (cfg_local_rot c) (cfg_local_scale c)
           (cfg_target_pos c) (cfg_target_rot c) f (cfg_chain_limit c).

(** The members of [Joint::Config] that change it; [Joint] has setters
    of the same names, so these live in a module of their own. *)
Module Setters.
Section WithLibm.
Context {L : Libm}.

Definition setLocalPos (p : vec3) (c : Config) : Config :=
  mkConfig p (cfg_local_rot c) (cfg_local_scale c) (cfg_target_pos c)
           (cfg_target_rot c) (Z.lor (cfg_flags c) CONFIG_FLAG_LOCAL_POS) (cfg_chain_limit c).

Definition setLocalRot (r : quat) (c : Config) : Config :=
  mkConfig (cfg_local_pos c) (qnormalize r) (cfg_local_scale c) (cfg_target_pos c)
           (cfg_target_rot c) (Z.lor (cfg_flags c) CONFIG_FLAG_LOCAL_ROT) (cfg_chain_limit c).

Definition setLocalScale (s : vec3) (c : Config) : Config :=
  mkConfig (cfg_local_pos c) (cfg_local_rot c) s (cfg_target_pos c)
           (cfg_target_rot c) (Z.lor (cfg_flags c) CONFIG_FLAG_LOCAL_SCALE) (cfg_chain_limit c).

Definition setChainLimit (limit : Z) (c : Config) : Config :=
  mkConfig (cfg_local_pos c) (cfg_local_rot c) (cfg_local_scale c) (cfg_target_pos c)
           (cfg_target_rot c) (cfg_flags c) limit.

Definition setTargetPos (p : vec3) (c : Config) : Config :=
  mkConfig (cfg_local_pos c) (cfg_local_rot c) (cfg_local_scale c) p
           (cfg_target_rot c) (Z.lor (cfg_flags c) CONFIG_FLAG_TARGET_POS) (cfg_chain_limit c).

Definition setTargetRot (r : quat) (c : Config) : Config :=
  mkConfig (cfg_local_pos c) (cfg_local_rot c) (cfg_local_scale c) (cfg_target_pos c)
           (qnormalize r) (Z.lor (cfg_flags c) CONFIG_FLAG_TARGET_ROT) (cfg_chain_limit c).

Definition disableConstraint (c : Config) : Config :=
  set_flags c (Z.lor (cfg_flags c) CONFIG_FLAG_DISABLE_CONSTRAINT).

Definition delegate (c : Config) : Config :=
  set_flags c (Z.lor (cfg_flags c) CONFIG_FLAG_HAS_DELEGATED).

(** [Config::updateFrom] (lines 240-275). *)
Definition updateFrom (self other : Config) : Config :=
  if cfg_flags self =? cfg_flags other then other
  else
    let c1 := if hasLocalPos other then setLocalPos (cfg_local_pos other) self else self in
    let c2 := if hasLocalRot other then setLocalRot (cfg_local_rot other) c1 else c1 in
    let c3 := if hasTargetPos other then setTargetPos (cfg_target_pos other) c2 else c2 in
    let c4 := if hasTargetRot other then setTargetRot (cfg_target_rot other) c3 else c3 in
    let c5 := if hasLocalScale other then setLocalScale (cfg_local_scale other) c4 else c4 in
    if constraintIsDisabled other then disableConstraint c5 else c5.

End WithLibm.
End Setters.
Export Setters.

(** ** Bit lemmas *)

Lemma land_pow2 (f i : Z) :
  0 <= i -> Z.land f (2 ^ i) = if Z.testbit f i then 2 ^ i else 0.
Proof.
  intros Hi. apply Z.bits_inj'. intros n Hn.
  rewrite Z.land_spec, Z.pow2_bits_eqb by exact Hi.
  destruct (Z.eqb_spec i n) as [->|Ne].
  - destruct (Z.testbit f n); [now rewrite Z.pow2_bits_eqb, Z.eqb_refl|now rewrite Z.bits_0].
  - rewrite andb_false_r. destruct (Z.testbit f i);
      [rewrite Z.pow2_bits_eqb by exact Hi; symmetry; now apply Z.eqb_neq | now rewrite Z.bits_0].
Qed.

(** [(flags & (1 << i)) > 0] reads bit [i]. *)
Lemma has_flag_testbit (f i : Z) : 0 <= i -> has_flag f (Z.shiftl 1 i) = Z.testbit f i.
Proof.
  intros Hi. unfold has_flag. rewrite Z.shiftl_1_l, land_pow2 by exact Hi.
  destruct (Z.testbit f i); [|reflexivity].
  apply Z.ltb_lt. apply Z.pow_pos_nonneg; lia.
Qed.

(** A single-bit flag is set in an OR when it is set in either side. *)
Lemma has_flag_lor (f g i : Z) :
  0 <= i -> has_flag (Z.lor f g) (Z.shiftl 1 i) = has_flag f (Z.shiftl 1 i) || has_flag g (Z.shiftl 1 i).
Proof. intros Hi. rewrite !has_flag_testbit by exact Hi. apply Z.lor_spec. Qed.

Lemma u8_lor (a b : Z) : is_u8 a -> is_u8 b -> is_u8 (Z.lor a b).
Proof.
  unfold is_u8. intros [Ha0 Ha1] [Hb0 Hb1]. split; [apply Z.lor_nonneg; lia|].
  destruct (Z.eq_dec (Z.lor a b) 0) as [->|Hne]; [lia|].
  assert (0 < Z.lor a b) as Hp by (pose proof (proj2 (Z.lor_nonneg a b) (conj Ha0 Hb0)); lia).
  change 256 with (2 ^ 8). apply Z.log2_lt_pow2; [exact Hp|].
  rewrite Z.log2_lor by lia.
  assert (forall x, 0 <= x < 256 -> Z.log2 x < 8) as Hl.
  { intros x [Hx0 Hx1]. destruct (Z.eq_dec x 0) as [->|]; [reflexivity|].
    apply Z.log2_lt_pow2; [lia|exact Hx1]. }
  apply Z.max_lub_lt; apply Hl; lia.
Qed.

Definition config_ok (c : Config) : Prop := is_u8 (cfg_flags c).

#[export] Hint Unfold config_ok is_u8 : llik.

Section SetterLemmas.
Context {L : Libm}.

Ltac u8_flag := apply u8_lor; [assumption | unfold is_u8; vm_compute; split; congruence].

Lemma setLocalPos_ok p c : config_ok c -> config_ok (setLocalPos p c).
Proof. unfold config_ok. simpl. intros H. u8_flag. Qed.
Lemma setLocalRot_ok r c : config_ok c -> config_ok (setLocalRot r c).
Proof. unfold config_ok. simpl. intros H. u8_flag. Qed.
Lemma setLocalScale_ok s c : config_ok c -> config_ok (setLocalScale s c).
Proof. unfold config_ok. simpl. intros H. u8_flag. Qed.
Lemma setTargetPos_ok p c : config_ok c -> config_ok (setTargetPos p c).
Proof. unfold config_ok. simpl. intros H. u8_flag. Qed.
Lemma setTargetRot_ok r c : config_ok c -> config_ok (setTargetRot r c).
Proof. unfold config_ok. simpl. intros H. u8_flag. Qed.
Lemma disableConstraint_ok c : config_ok c -> config_ok (disableConstraint c).
Proof. unfold config_ok. simpl. intros H. u8_flag. Qed.
Lemma delegate_ok c : config_ok c -> config_ok (delegate c).
Proof. unfold config_ok. simpl. intros H. u8_flag. Qed.
Lemma setChainLimit_ok n c : config_ok c -> config_ok (setChainLimit n c).
Proof. now unfold config_ok. Qed.

#[local] Hint Resolve setLocalPos_ok setLocalRot_ok setLocalScale_ok setTargetPos_ok
  setTargetRot_ok disableConstraint_ok delegate_ok setChainLimit_ok : llik.

(** [updateFrom] keeps the flags of a configuration a [U8]. *)
Theorem updateFrom_ok (self other : Config) :
  config_ok self -> config_ok other -> config_ok (updateFrom self other).
Proof.
  intros Hs Ho. unfold updateFrom.
  destruct (cfg_flags self =? cfg_flags other); [exact Ho|].
  repeat match goal with |- context [if ?b then _ else _] => destruct b end;
    auto 10 with llik.
Qed.

End SetterLemmas.

Lemma updateFrom_ok_witness :
  config_ok default_config /\ config_ok (setTargetPos x_axis default_config) /\
  config_ok (updateFrom default_config (setTargetPos x_axis default_config)).
Proof.
  assert (config_ok default_config) as H0 by (unfold config_ok, is_u8; simpl; lia).
  assert (config_ok (setTargetPos x_axis default_config)) as H1
    by (unfold config_ok, is_u8; vm_compute; split; congruence).
  split; [exact H0|]. split; [exact H1|]. exact (updateFrom_ok _ _ H0 H1).
Defined.


#[export] Hint Resolve setLocalPos_ok setLocalRot_ok setLocalScale_ok setTargetPos_ok
  setTargetRot_ok disableConstraint_ok delegate_ok setChainLimit_ok : llik.

(** ** The merge of [updateFrom] *)

(** [f |= m] when [b] holds: the flag update of each optional setter. *)
Definition lor_if (b : bool) (f m : Z) : Z := if b then Z.lor f m else f.

Lemma testbit_lor_if (b : bool) (f m n : Z) :
  Z.testbit (lor_if b f m) n = Z.testbit f n || (b && Z.testbit m n).
Proof. destruct b; simpl; [apply Z.lor_spec | now rewrite orb_false_r]. Qed.

Section Merge.
Context {L : Libm}.

Lemma updateFrom_flags_unfold (self other : Config) :
  cfg_flags self <> cfg_flags other ->
  cfg_flags (updateFrom self other) =
  lor_if (constraintIsDisabled other)
    (lor_if (hasLocalScale other)
      (lor_if (hasTargetRot other)
        (lor_if (hasTargetPos other)
          (lor_if (hasLocalRot other)
            (lor_if (hasLocalPos other) (cfg_flags self) CONFIG_FLAG_LOCAL_POS)
            CONFIG_FLAG_LOCAL_ROT)
          CONFIG_FLAG_TARGET_POS)
        CONFIG_FLAG_TARGET_ROT)
      CONFIG_FLAG_LOCAL_SCALE)
    CONFIG_FLAG_DISABLE_CONSTRAINT.
Proof.
  intros Hne. unfold updateFrom. rewrite (proj2 (Z.eqb_neq _ _) Hne).
  destruct (hasLocalPos other), (hasLocalRot other), (hasTargetPos other),
    (hasTargetRot other), (hasLocalScale other), (constraintIsDisabled other);
    reflexivity.
Qed.

(** When the two flag sets differ, [updateFrom] ORs into the flags of
    [self] the six low bits of [other]: [LOCAL_POS], [LOCAL_ROT],
    [LOCAL_SCALE], [DISABLE_CONSTRAINT], [TARGET_POS] and [TARGET_ROT].
    Bit 6, [HAS_DELEGATED], is not among them: the spec (section 3) says
    the merge ORs the flags. *)
Theorem updateFrom_flags_merge (self other : Config) :
  cfg_flags self <> cfg_flags other -> 0 <= cfg_flags other ->
  cfg_flags (updateFrom self other) =
  Z.lor (cfg_flags self) (Z.land (cfg_flags other) (Z.ones 6)).
Proof.
  intros Hne Ho. rewrite updateFrom_flags_unfold by exact Hne.
  apply Z.bits_inj'. intros n Hn.
  unfold hasLocalPos, hasLocalRot, hasTargetPos, hasTargetRot, hasLocalScale,
    constraintIsDisabled, CONFIG_FLAG_LOCAL_POS, CONFIG_FLAG_LOCAL_ROT,
    CONFIG_FLAG_TARGET_POS, CONFIG_FLAG_TARGET_ROT, CONFIG_FLAG_LOCAL_SCALE,
    CONFIG_FLAG_DISABLE_CONSTRAINT.
  rewrite !testbit_lor_if, !has_flag_testbit, Z.lor_spec, Z.land_spec,
    Z.testbit_ones_nonneg, !Z.shiftl_1_l by lia.
  rewrite !Z.pow2_bits_eqb by lia.
  assert (n = 0 \/ n = 1 \/ n = 2 \/ n = 3 \/ n = 4 \/ n = 5 \/ 6 <= n) as C by lia.
  destruct C as [->|[->|[->|[->|[->|[->|C]]]]]];
    [repeat match goal with |- context [Z.testbit ?f ?k] =>
       let b := fresh "b" in generalize (Z.testbit f k) as b; intros b; destruct b end;
     reflexivity ..|].
  repeat match goal with
  | |- context [?k =? n] => replace (k =? n) with false by (symmetry; apply Z.eqb_neq; lia)
  end.
  replace (n <? 6) with false by (symmetry; apply Z.ltb_ge; lia).
  rewrite !andb_false_r, !orb_false_r. reflexivity.
Qed.

(** The fields [other] carries are the fields of the merge: its
    positions and scale as they are, its rotations normalized, and when
    the flag sets agree all of [other] as it is. *)
Theorem updateFrom_fields (self other : Config) :
  let r := updateFrom self other in
  (cfg_flags self = cfg_flags other -> r = other) /\
  (cfg_flags self <> cfg_flags other ->
   (hasLocalPos other = true -> cfg_local_pos r = cfg_local_pos other) /\
   (hasLocalRot other = true -> cfg_local_rot r = qnormalize (cfg_local_rot other)) /\
   (hasTargetPos other = true -> cfg_target_pos r = cfg_target_pos other) /\
   (hasTargetRot other = true -> cfg_target_rot r = qnormalize (cfg_target_rot other)) /\
   (hasLocalScale other = true -> cfg_local_scale r = cfg_local_scale other) /\
   cfg_chain_limit r = cfg_chain_limit self).
Proof.
  intros r. unfold r, updateFrom. split.
  - intros E. now rewrite E, Z.eqb_refl.
  - intros Hne. rewrite (proj2 (Z.eqb_neq _ _) Hne).
    destruct (hasLocalPos other), (hasLocalRot other), (hasTargetPos other),
      (hasTargetRot other), (hasLocalScale other), (constraintIsDisabled other);
      repeat split; intros; first [reflexivity | discriminate].
Qed.

End Merge.

Lemma updateFrom_fields_witness :
  let other := setLocalScale (V3 2 2 2) (setTargetPos x_axis default_config) in
  cfg_flags default_config <> cfg_flags other /\
  hasLocalScale other = true /\
  cfg_local_scale (updateFrom default_config other) = V3 2 2 2.
Proof.
  intros other.
  assert (cfg_flags default_config <> cfg_flags other) as H by (vm_compute; discriminate).
  split; [exact H|]. split; [reflexivity|].
  destruct (proj2 (updateFrom_fields default_config other) H) as (_&_&_&_&S&_).
  exact (S eq_refl).
Defined.


Lemma updateFrom_flags_merge_witness :
  let self := default_config in
  let other := delegate (setTargetPos x_axis default_config) in
  (cfg_flags self <> cfg_flags other /\ 0 <= cfg_flags other) /\
  hasDelegated other = true /\ hasDelegated (updateFrom self other) = false.
Proof.
  intros self other.
  assert (cfg_flags self <> cfg_flags other) as H1 by (vm_compute; discriminate).
  assert (0 <= cfg_flags other)%Z as H2 by (vm_compute; discriminate).
  split; [split; assumption|]. split; [reflexivity|].
  unfold hasDelegated. rewrite (updateFrom_flags_merge self other H1 H2). reflexivity.
Defined.

