(* ===== verification/OrdMap.v ===== *)
(** * OrdMap: [std::map] and [std::set] keyed by joint ids

    The solver keeps its skeleton, its configurations and its chains in
    [std::map<S16, ...>] and iterates over them in key order: the chain
    builder relies on configurations being visited from low to high ids,
    and the FABRIK passes visit the chains in descending, then ascending
    order.  A finite map whose iteration order is not the key order would
    not model this, so the maps are association lists sorted by key, with
    [find], [insert] (overwriting, like [operator[]] followed by an
    assignment) and [erase]; a [std::set<S16>] is such a map to [unit].

    The lemmas are the usual ones: [insert] and [erase] keep the keys
    strictly sorted, and [find] after [insert] or [erase] returns what it
    should. *)

From Stdlib Require Import ZArith List Bool Lia Sorting.Sorted.
Import ListNotations.
From S2P Require Import Prelude.

Local Open Scope Z_scope.

Definition amap (V : Type) := list (Z * V).

Section Map.
Context {V : Type}.
Implicit Types (m : amap V) (k : Z) (v : V).

Fixpoint find k m : option V :=
  match m with
  | [] => None
  | (k', v) :: m' => if k =? k' then Some v else if k <? k' then None else find k m'
  end.

Definition mem k m : bool := match find k m with Some _ => true | None => false end.

Fixpoint insert k v m : amap V :=
  match m with
  | [] => [(k, v)]
  | (k', v') :: m' =>
      if k =? k' then (k, v) :: m'
      else if k <? k' then (k, v) :: m
      else (k', v') :: insert k v m'
  end.

Fixpoint erase k m : amap V :=
  match m with
  | [] => []
  | (k', v') :: m' => if k =? k' then m' else (k', v') :: erase k m'
  end.

Definition keys m : list Z := map fst m.

(** The keys are strictly increasing. *)
Definition sorted m : Prop := Sorted Z.lt (keys m).

(** Alter the value at [k] when it is present. *)
Definition update k (f : V -> V) m : amap V :=
  match find k m with Some v => insert k (f v) m | None => m end.

(** ** Lemmas *)

Lemma sorted_nil : sorted [].
Proof. constructor. Qed.

Lemma sorted_cons_inv k v m : sorted ((k, v) :: m) -> sorted m.
Proof. unfold sorted. simpl. intros H. now apply Sorted_inv in H. Qed.

Lemma sorted_strongly m : sorted m -> StronglySorted Z.lt (keys m).
Proof. intros H. apply Sorted_StronglySorted; [intros ? ? ?; lia | exact H]. Qed.

(** In a sorted map every later key is larger than the head key. *)
Lemma sorted_head_lt k v m : sorted ((k, v) :: m) -> Forall (fun k' => k < k') (keys m).
Proof. intros H. apply sorted_strongly in H. simpl in H. now inversion H. Qed.

Lemma find_lt_head k k0 v0 m :
  sorted ((k0, v0) :: m) -> k <= k0 -> find k m = None.
Proof.
  intros H Hle. apply sorted_head_lt in H. induction m as [|[k1 v1] m IH]; [reflexivity|].
  simpl in *. inversion H as [|? ? Hk1 Hrest]; subst.
  destruct (Z.eqb_spec k k1); [lia|]. destruct (Z.ltb_spec k k1); [reflexivity|lia].
Qed.

Lemma find_insert_eq k v m : find k (insert k v m) = Some v.
Proof.
  induction m as [|[k' v'] m IH]; simpl; [now rewrite Z.eqb_refl|].
  destruct (Z.eqb_spec k k'); simpl; [now rewrite Z.eqb_refl|].
  destruct (Z.ltb_spec k k'); simpl; [now rewrite Z.eqb_refl|].
  destruct (Z.eqb_spec k k'); [lia|]. destruct (Z.ltb_spec k k'); [lia|exact IH].
Qed.

(** Writing a key that is present keeps the list of keys. *)
Lemma keys_insert_found k v v' m : find k m = Some v -> keys (insert k v' m) = keys m.
Proof.
  induction m as [|[k1 v1] m IH]; simpl; [discriminate|].
  destruct (Z.eqb_spec k k1) as [->|N]; [reflexivity|].
  destruct (k <? k1); [discriminate|]. intros F. simpl. now rewrite (IH F).
Qed.

Lemma find_insert_ne k k' v m : k <> k' -> find k' (insert k v m) = find k' m.
Proof.
  intros Hne. induction m as [|[k1 v1] m IH]; simpl.
  - destruct (Z.eqb_spec k' k); [lia|]. destruct (k' <? k); reflexivity.
  - destruct (Z.eqb_spec k k1) as [->|N1]; simpl.
    + destruct (Z.eqb_spec k' k1); [lia|reflexivity].
    + destruct (Z.ltb_spec k k1); simpl.
      * destruct (Z.eqb_spec k' k); [lia|].
        destruct (Z.ltb_spec k' k); [|reflexivity].
        destruct (Z.eqb_spec k' k1); [lia|]. destruct (Z.ltb_spec k' k1); [reflexivity|lia].
      * destruct (k' =? k1); [reflexivity|]. destruct (k' <? k1); [reflexivity|exact IH].
Qed.

Lemma keys_insert_head k v k0 v0 m :
  k0 < k -> keys (insert k v ((k0, v0) :: m)) = k0 :: keys (insert k v m).
Proof.
  intros H. simpl. destruct (Z.eqb_spec k k0); [lia|]. destruct (Z.ltb_spec k k0); [lia|].
  reflexivity.
Qed.

Lemma insert_HdRel k v k0 m :
  k0 < k -> HdRel Z.lt k0 (keys m) -> HdRel Z.lt k0 (keys (insert k v m)).
Proof.
  intros Hk H. destruct m as [|[k1 v1] m]; simpl; [now constructor|].
  destruct (k =? k1); [now constructor|]. destruct (k <? k1); [now constructor|].
  inversion H. now constructor.
Qed.

Lemma insert_sorted k v m : sorted m -> sorted (insert k v m).
Proof.
  unfold sorted. induction m as [|[k1 v1] m IH]; simpl; intros H.
  - repeat constructor.
  - apply Sorted_inv in H as [Hs Hh].
    destruct (Z.eqb_spec k k1) as [->|N]; simpl; [now constructor|].
    destruct (Z.ltb_spec k k1); simpl.
    + constructor; [constructor; assumption|constructor; lia].
    + constructor; [now apply IH|]. apply insert_HdRel; [lia|exact Hh].
Qed.

Lemma erase_HdRel k k0 m : sorted m -> HdRel Z.lt k0 (keys m) -> HdRel Z.lt k0 (keys (erase k m)).
Proof.
  intros Hs H. destruct m as [|[k1 v1] m]; simpl; [constructor|].
  destruct (k =? k1).
  - apply sorted_head_lt in Hs. inversion H; subst. destruct m as [|[k2 v2] m]; simpl; [constructor|].
    inversion Hs; subst. constructor. lia.
  - inversion H. now constructor.
Qed.

Lemma erase_sorted k m : sorted m -> sorted (erase k m).
Proof.
  unfold sorted. induction m as [|[k1 v1] m IH]; simpl; intros H; [constructor|].
  pose proof H as H0. apply Sorted_inv in H as [Hs Hh].
  destruct (k =? k1); [exact Hs|]. simpl. constructor; [now apply IH|].
  now apply erase_HdRel.
Qed.

Lemma find_erase_ne k k' m : sorted m -> k <> k' -> find k' (erase k m) = find k' m.
Proof.
  intros Hs Hne. induction m as [|[k1 v1] m IH]; simpl; [reflexivity|].
  destruct (Z.eqb_spec k k1) as [->|N]; simpl.
  - destruct (Z.eqb_spec k' k1); [lia|]. destruct (Z.ltb_spec k' k1); [|reflexivity].
    apply (find_lt_head k' k1 v1 m Hs); lia.
  - destruct (k' =? k1); [reflexivity|]. destruct (k' <? k1); [reflexivity|].
    apply IH. exact (sorted_cons_inv _ _ _ Hs).
Qed.

Lemma find_erase_eq k m : sorted m -> find k (erase k m) = None.
Proof.
  intros Hs. induction m as [|[k1 v1] m IH]; simpl; [reflexivity|].
  destruct (Z.eqb_spec k k1) as [->|N]; simpl.
  - apply (find_lt_head k1 k1 v1 m Hs). lia.
  - destruct (Z.eqb_spec k k1); [lia|]. destruct (k <? k1); [reflexivity|].
    apply IH. exact (sorted_cons_inv _ _ _ Hs).
Qed.

Lemma find_In k v m : find k m = Some v -> In (k, v) m.
Proof.
  induction m as [|[k1 v1] m IH]; simpl; [discriminate|].
  destruct (Z.eqb_spec k k1) as [->|]; [intros H; injection H as ->; now left|].
  destruct (k <? k1); [discriminate|]. intros H. right. exact (IH H).
Qed.

Lemma find_keys (k : Z) (v : V) (m : amap V) : find k m = Some v -> In k (keys m).
Proof. intros F. unfold keys. change k with (fst (k, v)). apply in_map, find_In, F. Qed.

Lemma In_find k v m : sorted m -> In (k, v) m -> find k m = Some v.
Proof.
  intros Hs. induction m as [|[k1 v1] m IH]; simpl; [tauto|]. intros [H|H].
  - injection H as -> ->. now rewrite Z.eqb_refl.
  - pose proof (sorted_head_lt _ _ _ Hs) as Hlt. rewrite Forall_forall in Hlt.
    assert (k1 < k) by (apply Hlt; unfold keys; apply (in_map fst _ (k, v)); exact H).
    destruct (Z.eqb_spec k k1); [lia|]. destruct (Z.ltb_spec k k1); [lia|].
    exact (IH (sorted_cons_inv _ _ _ Hs) H).
Qed.

Fixpoint sorted_keysb (l : list Z) : bool :=
  match l with a :: ((b :: _) as t) => (a <? b) && sorted_keysb t | _ => true end.

(** A decision procedure for [sorted], to check concrete maps. *)
Definition sortedb m : bool := sorted_keysb (keys m).

Lemma sortedb_sorted m : sortedb m = true -> sorted m.
Proof.
  unfold sortedb, sorted. induction (keys m) as [|a [|b l] IH]; intros H; [constructor|repeat constructor|].
  change (((a <? b) && sorted_keysb (b :: l)) = true) in H. apply andb_true_iff in H as [H1 H2].
  constructor; [exact (IH H2)|constructor; now apply Z.ltb_lt].
Qed.

End Map.

#[export] Hint Resolve insert_sorted erase_sorted sorted_nil : llik.

(** [find] after [insert], as a case on the keys. *)
Lemma find_insert {V} (k k' : Z) (v : V) (m : amap V) :
  find k' (insert k v m) = if k =? k' then Some v else find k' m.
Proof.
  destruct (Z.eqb_spec k k') as [->|N]; [apply find_insert_eq|now apply find_insert_ne].
Qed.

Lemma mem_find {V} (k : Z) (m : amap V) : mem k m = false -> find k m = None.
Proof. unfold mem. destruct (find k m); congruence. Qed.
