(* ===== verification/Constraints.v ===== *)
(** * Constraints: the orientation constraints of [llik.h]

    [Constraint] is an abstract C++ class with one subclass per kind of
    joint limit; the set of subclasses is closed, so the model is a tagged
    union [Constraint] with one constructor per subclass, each carrying a
    record of the subclass's data members (llik.h 89-376, with the members
    [mPivotXForward] and [ShoulderConstraint] that llik.cpp uses).  The
    virtual methods become functions by cases on the constructor.

    This file holds the data, the constructors from parameters (which
    normalize the angle limits with [compute_angle_limits]) and the
    hashes; the projections [computeAdjustedLocalRot] and the [enforce]
    overrides are in file [Geometry]. *)

From Stdlib Require Import QArith Qabs Lqa String List.
Import ListNotations.
From S2P Require Import Prelude F32 Angles Vec LLSD.

Open Scope Q_scope.
Local Open Scope llik_scope.

(** [Constraint::ConstraintType], with [SHOULDER_CONSTRAINT] as used in
    llik.cpp (lines 68, 518). *)
Inductive ConstraintType :=
| NULL_CONSTRAINT
| UNKNOWN_CONSTRAINT
| SIMPLE_CONE_CONSTRAINT
| TWIST_LIMITED_CONE_CONSTRAINT
| SHOULDER_CONSTRAINT
| ELBOW_CONSTRAINT
| KNEE_CONSTRAINT
| ACUTE_ELLIPSOIDAL_CONE_CONSTRAINT
| DOUBLE_LIMITED_HINGE_CONSTRAINT.

Record SimpleCone := {
  sc_forward : vec3; sc_max_angle : Q; sc_cos_cone_angle : Q; sc_sin_cone_angle : Q }.

Record TwistLimitedCone := {
  tl_forward : vec3; tl_cone_angle : Q; tl_cos_cone_angle : Q; tl_sin_cone_angle : Q;
  tl_min_twist : Q; tl_max_twist : Q }.

Record ShoulderConstraint := { sh_forward : vec3; sh_cone_axis : vec3 }.

Record ElbowConstraint := {
  el_forward : vec3; el_pivot_axis : vec3; el_pivot_x_forward : vec3;
  el_min_bend : Q; el_max_bend : Q; el_min_twist : Q; el_max_twist : Q }.

Record KneeConstraint := {
  kn_forward : vec3; kn_pivot_axis : vec3; kn_pivot_x_forward : vec3;
  kn_min_bend : Q; kn_max_bend : Q }.

(** The four quadrant caches are kept as functions of the quadrant index
    [0..3], as the C++ arrays [mQuadrantScales] etc. are indexed. *)
Record AcuteEllipsoidalCone := {
  ae_forward : vec3; ae_up : vec3; ae_left : vec3;
  ae_x_forward : Q; ae_x_up : Q; ae_x_down : Q; ae_x_left : Q; ae_x_right : Q;
  ae_quadrant_scales : nat -> Q; ae_quadrant_cos_angles : nat -> Q;
  ae_quadrant_cot_angles : nat -> Q }.

Record DoubleLimitedHinge := {
  dh_forward : vec3; dh_up : vec3; dh_left : vec3;
  dh_min_yaw : Q; dh_max_yaw : Q; dh_min_pitch : Q; dh_max_pitch : Q }.

Inductive Constraint :=
| CSimpleCone (c : SimpleCone)
| CTwistLimitedCone (c : TwistLimitedCone)
| CShoulder (c : ShoulderConstraint)
| CElbow (c : ElbowConstraint)
| CKnee (c : KneeConstraint)
| CAcuteEllipsoidalCone (c : AcuteEllipsoidalCone)
| CDoubleLimitedHinge (c : DoubleLimitedHinge).

(** [Constraint::getType]. *)
Definition getType (c : Constraint) : ConstraintType :=
  match c with
  | CSimpleCone _ => SIMPLE_CONE_CONSTRAINT
  | CTwistLimitedCone _ => TWIST_LIMITED_CONE_CONSTRAINT
  | CShoulder _ => SHOULDER_CONSTRAINT
  | CElbow _ => ELBOW_CONSTRAINT
  | CKnee _ => KNEE_CONSTRAINT
  | CAcuteEllipsoidalCone _ => ACUTE_ELLIPSOIDAL_CONE_CONSTRAINT
  | CDoubleLimitedHinge _ => DOUBLE_LIMITED_HINGE_CONSTRAINT
  end.

(** [Constraint::getForwardAxis]. *)
Definition getForwardAxis (c : Constraint) : vec3 :=
  match c with
  | CSimpleCone d => sc_forward d
  | CTwistLimitedCone d => tl_forward d
  | CShoulder d => sh_forward d
  | CElbow d => el_forward d
  | CKnee d => kn_forward d
  | CAcuteEllipsoidalCone d => ae_forward d
  | CDoubleLimitedHinge d => dh_forward d
  end.

(** [Constraint::allowsTwist]: only [KneeConstraint] overrides it. *)
Definition allowsTwist (c : Constraint) : bool :=
  match c with CKnee _ => false | _ => true end.

(** ** Names (llik.cpp 47-84) *)

Local Open Scope string_scope.

Definition NULL_CONSTRAINT_NAME : string := "NULL_CONSTRAINT".
Definition UNKNOWN_CONSTRAINT_NAME : string := "UNKNOWN_CONSTRAINT".
Definition SIMPLE_CONE_CONSTRAINT_NAME : string := "SIMPLE_CONE".
Definition TWIST_LIMITED_CONE_CONSTRAINT_NAME : string := "TWIST_LIMITED_CONE".
Definition SHOULDER_CONSTRAINT_NAME : string := "SHOULDER".
Definition ELBOW_CONSTRAINT_NAME : string := "ELBOW".
Definition KNEE_CONSTRAINT_NAME : string := "KNEE".
Definition ACUTE_ELLIPSOIDAL_CONE_CONSTRAINT_NAME : string := "ACUTE_ELLIPSOIDAL_CONE".
Definition DOUBLE_LIMITED_HINGE_CONSTRAINT_NAME : string := "DOUBLE_LIMITED_HINGE".

(** [constraint_type_to_name] (lines 59-84): [UNKNOWN_CONSTRAINT] has no
    case of its own and falls to the default. *)
Definition constraint_type_to_name (t : ConstraintType) : string :=
  match t with
  | NULL_CONSTRAINT => NULL_CONSTRAINT_NAME
  | SIMPLE_CONE_CONSTRAINT => SIMPLE_CONE_CONSTRAINT_NAME
  | TWIST_LIMITED_CONE_CONSTRAINT => TWIST_LIMITED_CONE_CONSTRAINT_NAME
  | SHOULDER_CONSTRAINT => SHOULDER_CONSTRAINT_NAME
  | ELBOW_CONSTRAINT => ELBOW_CONSTRAINT_NAME
  | KNEE_CONSTRAINT => KNEE_CONSTRAINT_NAME
  | ACUTE_ELLIPSOIDAL_CONE_CONSTRAINT => ACUTE_ELLIPSOIDAL_CONE_CONSTRAINT_NAME
  | DOUBLE_LIMITED_HINGE_CONSTRAINT => DOUBLE_LIMITED_HINGE_CONSTRAINT_NAME
  | UNKNOWN_CONSTRAINT => UNKNOWN_CONSTRAINT_NAME
  end.

(** [Constraint::typeToName] (lines 315-318). *)
Definition typeToName (c : Constraint) : string := constraint_type_to_name (getType c).

Local Close Scope string_scope.

(** ** Construction from LLSD parameters

    Angles in the parameters are in degrees.  [asReal] is a double and
    [DEG_TO_RAD] a float; their product is stored in an [F32] member, which
    the exact model does not round.  Divisions by zero (a zero [forward]
    of an ellipsoidal cone) give [0] in [Q] where the float division gives
    an infinity. *)

(** [DEG_TO_RAD] (llmath.h), the float nearest to pi/180. *)
Definition DEG_TO_RAD : Q := 9370165 # 536870912.

(** [0.5f * F_PI] (lines 1422 and 1459). *)
Definition HALF_PI : Q := (1 # 2) * F_PI.

Section FromLLSD.
Context {L : Libm}.

Local Open Scope string_scope.

Definition param_angle (key : string) (p : LLSD) : Q := asReal (llsd_get key p) * DEG_TO_RAD.

(** [Constraint::Constraint(type, parameters)] (llik.h 108-113): the
    forward axis, normalized. *)
Definition base_forward (p : LLSD) : vec3 := vnormalize (llsd_vec3 (llsd_get "forward_axis" p)).

(** [SimpleCone::SimpleCone(LLSD&)] (lines 331-337). *)
Definition SimpleCone_of_llsd (p : LLSD) : SimpleCone :=
  let max_angle := Qabs (asReal (llsd_get "max_angle" p)) * DEG_TO_RAD in
  {| sc_forward := base_forward p; sc_max_angle := max_angle;
     sc_cos_cone_angle := cosf max_angle; sc_sin_cone_angle := sinf max_angle |}.

(** [TwistLimitedCone::TwistLimitedCone(LLSD&)] (lines 407-417). *)
Definition TwistLimitedCone_of_llsd (p : LLSD) : TwistLimitedCone :=
  let cone := param_angle "cone_angle" p in
  let '(mn, mx) := compute_angle_limits (param_angle "min_twist" p) (param_angle "max_twist" p) in
  {| tl_forward := base_forward p; tl_cone_angle := cone; tl_cos_cone_angle := cosf cone;
     tl_sin_cone_angle := sinf cone; tl_min_twist := mn; tl_max_twist := mx |}.

(** [ShoulderConstraint::ShoulderConstraint(LLSD&)] (lines 521-537). *)
Definition ShoulderConstraint_of_llsd (p : LLSD) : ShoulderConstraint :=
  let fwd := base_forward p in
  {| sh_forward := fwd; sh_cone_axis := vnormalize (vsub (vadd fwd x_axis) (vscale (3 # 2) z_axis)) |}.

(** [mForward % (axis % mForward)], normalized: the part of [axis]
    perpendicular to [mForward] (lines 773-774, 988-989, 1453-1454). *)
Definition perpendicular_axis (fwd axis : vec3) : vec3 := vnormalize (vcross fwd (vcross axis fwd)).

(** [ElbowConstraint::ElbowConstraint(LLSD&)] (lines 771-786). *)
Definition ElbowConstraint_of_llsd (p : LLSD) : ElbowConstraint :=
  let fwd := base_forward p in
  let pivot := perpendicular_axis fwd (llsd_vec3 (llsd_get "pivot_axis" p)) in
  let '(mnb, mxb) := compute_angle_limits (param_angle "min_bend" p) (param_angle "max_bend" p) in
  let '(mnt, mxt) := compute_angle_limits (param_angle "min_twist" p) (param_angle "max_twist" p) in
  {| el_forward := fwd; el_pivot_axis := pivot; el_pivot_x_forward := vcross pivot fwd;
     el_min_bend := mnb; el_max_bend := mxb; el_min_twist := mnt; el_max_twist := mxt |}.

(** [KneeConstraint::KneeConstraint(LLSD&)] (lines 986-996). *)
Definition KneeConstraint_of_llsd (p : LLSD) : KneeConstraint :=
  let fwd := base_forward p in
  let pivot := perpendicular_axis fwd (llsd_vec3 (llsd_get "pivot_axis" p)) in
  let '(mnb, mxb) := compute_angle_limits (param_angle "min_bend" p) (param_angle "max_bend" p) in
  {| kn_forward := fwd; kn_pivot_axis := pivot; kn_pivot_x_forward := vcross pivot fwd;
     kn_min_bend := mnb; kn_max_bend := mxb |}.

(** The body both constructors of [AcuteEllipsoidalCone] share (lines
    1184-1240 and 1250-1285): the up axis normalized, the forward axis made
    perpendicular to it, and the quadrant caches from the extents divided
    by the forward extent.  The quadrants are indexed 0..3 as the C++
    arrays are. *)
Definition acute_cone_body (up_axis forward_axis : vec3) (xf xu xd xl xr : Q) : AcuteEllipsoidalCone :=
  let up_axis := vnormalize up_axis in
  let fwd := vnormalize (vcross (vcross up_axis forward_axis) up_axis) in
  let up := Qabs (xu / xf) in
  let left := Qabs (xl / xf) in
  let down := Qabs (xd / xf) in
  let right := Qabs (xr / xf) in
  let cos_up := 1 / sqrtf (up * up + 1) in
  let cos_down := 1 / sqrtf (down * down + 1) in
  {| ae_forward := fwd; ae_up := up_axis; ae_left := vcross up_axis fwd;
     ae_x_forward := xf; ae_x_up := xu; ae_x_down := xd; ae_x_left := xl; ae_x_right := xr;
     ae_quadrant_scales := fun i => match i with
                                    | O => up / right | 1%nat => up / left | 2%nat => down / left
                                    | _ => down / right end;
     ae_quadrant_cos_angles := fun i => match i with O | 1%nat => cos_up | _ => cos_down end;
     ae_quadrant_cot_angles := fun i => match i with O | 1%nat => 1 / up | _ => 1 / down end |}.

(** [AcuteEllipsoidalCone::AcuteEllipsoidalCone(LLSD&)] (lines 1245-1286):
    the forward axis is the base constructor's, already normalized. *)
Definition AcuteEllipsoidalCone_of_llsd (p : LLSD) : AcuteEllipsoidalCone :=
  acute_cone_body (llsd_vec3 (llsd_get "up_axis" p)) (base_forward p)
    (asReal (llsd_get "forward" p)) (asReal (llsd_get "up" p)) (asReal (llsd_get "down" p))
    (asReal (llsd_get "left" p)) (asReal (llsd_get "right" p)).

(** The pitch limits of [DoubleLimitedHinge] (lines 1461-1486): each one
    without whole turns and clamped to [[-HALF_PI, HALF_PI]], then ordered. *)
Definition clamp_pitch (a : Q) : Q :=
  let a := remove_multiples_of_two_pi a in
  if (HALF_PI <? a)%llik then HALF_PI else if (a <? - HALF_PI)%llik then - HALF_PI else a.

Definition pitch_limits (min_pitch max_pitch : Q) : Q * Q :=
  let mn := clamp_pitch min_pitch in
  let mx := clamp_pitch max_pitch in
  if (mx <? mn)%llik then (mx, mn) else (mn, mx).

(** [DoubleLimitedHinge::DoubleLimitedHinge(LLSD&)] (lines 1451-1488). *)
Definition DoubleLimitedHinge_of_llsd (p : LLSD) : DoubleLimitedHinge :=
  let fwd := base_forward p in
  let up := perpendicular_axis fwd (llsd_vec3 (llsd_get "up_axis" p)) in
  let '(mny, mxy) := compute_angle_limits (param_angle "min_yaw" p) (param_angle "max_yaw" p) in
  let '(mnp, mxp) := pitch_limits (param_angle "min_pitch" p) (param_angle "max_pitch" p) in
  {| dh_forward := fwd; dh_up := up; dh_left := vcross up fwd;
     dh_min_yaw := mny; dh_max_yaw := mxy; dh_min_pitch := mnp; dh_max_pitch := mxp |}.

(** ** The constructors from explicit arguments

    llik.cpp also constructs each class from its members given in radians
    (lines 321-329, 393-405, 516-519, 753-769, 972-984, 1174-1243,
    1404-1449); the factory uses only the LLSD constructors. *)

Definition SimpleCone_make (forward : vec3) (max_angle : Q) : SimpleCone :=
  let a := Qabs max_angle in
  {| sc_forward := vnormalize forward; sc_max_angle := a; sc_cos_cone_angle := cosf a; sc_sin_cone_angle := sinf a |}.

Definition TwistLimitedCone_make (forward : vec3) (cone_angle min_twist max_twist : Q) : TwistLimitedCone :=
  let '(mn, mx) := compute_angle_limits min_twist max_twist in
  {| tl_forward := vnormalize forward; tl_cone_angle := cone_angle; tl_cos_cone_angle := cosf cone_angle;
     tl_sin_cone_angle := sinf cone_angle; tl_min_twist := mn; tl_max_twist := mx |}.

(** [ShoulderConstraint()] sets only the type: the axes stay zero. *)
Definition ShoulderConstraint_make : ShoulderConstraint := {| sh_forward := v_zero; sh_cone_axis := v_zero |}.

Definition ElbowConstraint_make (forward_axis pivot_axis : vec3) (min_bend max_bend min_twist max_twist : Q)
    : ElbowConstraint :=
  let fwd := vnormalize forward_axis in
  let pivot := perpendicular_axis fwd pivot_axis in
  let '(mnb, mxb) := compute_angle_limits min_bend max_bend in
  let '(mnt, mxt) := compute_angle_limits min_twist max_twist in
  {| el_forward := fwd; el_pivot_axis := pivot; el_pivot_x_forward := vcross pivot fwd;
     el_min_bend := mnb; el_max_bend := mxb; el_min_twist := mnt; el_max_twist := mxt |}.

Definition KneeConstraint_make (forward_axis pivot_axis : vec3) (min_bend max_bend : Q) : KneeConstraint :=
  let fwd := vnormalize forward_axis in
  let pivot := perpendicular_axis fwd pivot_axis in
  let '(mnb, mxb) := compute_angle_limits min_bend max_bend in
  {| kn_forward := fwd; kn_pivot_axis := pivot; kn_pivot_x_forward := vcross pivot fwd;
     kn_min_bend := mnb; kn_max_bend := mxb |}.

(** The forward axis is not normalized before the cross products. *)
Definition AcuteEllipsoidalCone_make (forward_axis up_axis : vec3) (forward up left down right : Q)
    : AcuteEllipsoidalCone :=
  acute_cone_body up_axis forward_axis forward up down left right.

Definition DoubleLimitedHinge_make (forward_axis up_axis : vec3) (min_yaw max_yaw min_pitch max_pitch : Q)
    : DoubleLimitedHinge :=
  let fwd := vnormalize forward_axis in
  let up := perpendicular_axis fwd up_axis in
  let '(mny, mxy) := compute_angle_limits min_yaw max_yaw in
  let '(mnp, mxp) := pitch_limits min_pitch max_pitch in
  {| dh_forward := fwd; dh_up := up; dh_left := vcross up fwd;
     dh_min_yaw := mny; dh_max_yaw := mxy; dh_min_pitch := mnp; dh_max_pitch := mxp |}.

End FromLLSD.

(** ** [generateHash]

    Every [generateHash] starts from [Constraint::generateHash] (lines
    287-293), which combines the type and the forward axis into a zero
    seed, and combines the members of its class one after the other with
    [boost::hash_combine].  The values [boost::hash_combine] and
    [std::hash<float>] compute depend on the Boost and standard library
    versions; what the code fixes is which members are combined, in which
    order.  So a hash is a fold of a [Hasher]'s combine over the list of
    hashed members. *)

Inductive HashAtom :=
| HType (t : ConstraintType)
| HFloat (q : Q)
| HVec (v : vec3).

(** [Constraint::generateHash] (lines 287-293): the type, then the forward axis. *)
Definition base_hash_atoms (t : ConstraintType) (fwd : vec3) : list HashAtom := [HType t; HVec fwd].

(** [SimpleCone::generateHash] (lines 347-353). *)
Definition SimpleCone_hash_atoms (d : SimpleCone) : list HashAtom := [HFloat (sc_max_angle d)].

(** [TwistLimitedCone::generateHash] (lines 429-437). *)
Definition TwistLimitedCone_hash_atoms (d : TwistLimitedCone) : list HashAtom :=
  [HFloat (tl_cone_angle d); HFloat (tl_min_twist d); HFloat (tl_max_twist d)].

(** [ElbowConstraint::generateHash] (lines 800-809). *)
Definition ElbowConstraint_hash_atoms (d : ElbowConstraint) : list HashAtom :=
  [HVec (el_pivot_axis d); HFloat (el_min_bend d); HFloat (el_max_bend d);
   HFloat (el_min_twist d); HFloat (el_max_twist d)].

(** [KneeConstraint::generateHash] (lines 1008-1017). *)
Definition KneeConstraint_hash_atoms (d : KneeConstraint) : list HashAtom :=
  [HVec (kn_pivot_axis d); HFloat (kn_min_bend d); HFloat (kn_max_bend d)].

(** [AcuteEllipsoidalCone::generateHash] (lines 1302-1313): the fifth
    member combined is the axis [mLeft], not the extent [mXLeft]. *)
Definition AcuteEllipsoidalCone_hash_atoms (d : AcuteEllipsoidalCone) : list HashAtom :=
  [HVec (ae_up d); HFloat (ae_x_forward d); HFloat (ae_x_up d); HFloat (ae_x_down d);
   HVec (ae_left d); HFloat (ae_x_right d)].

(** [DoubleLimitedHinge::generateHash] (lines 1503-1513). *)
Definition DoubleLimitedHinge_hash_atoms (d : DoubleLimitedHinge) : list HashAtom :=
  [HVec (dh_up d); HFloat (dh_min_yaw d); HFloat (dh_max_yaw d);
   HFloat (dh_min_pitch d); HFloat (dh_max_pitch d)].

(** The members the [generateHash] of a constraint combines, by its class;
    [ShoulderConstraint::generateHash] (lines 737-741) adds none. *)
Definition hash_atoms (c : Constraint) : list HashAtom :=
  base_hash_atoms (getType c) (getForwardAxis c) ++
  match c with
  | CSimpleCone d => SimpleCone_hash_atoms d
  | CTwistLimitedCone d => TwistLimitedCone_hash_atoms d
  | CShoulder _ => []
  | CElbow d => ElbowConstraint_hash_atoms d
  | CKnee d => KneeConstraint_hash_atoms d
  | CAcuteEllipsoidalCone d => AcuteEllipsoidalCone_hash_atoms d
  | CDoubleLimitedHinge d => DoubleLimitedHinge_hash_atoms d
  end.

(** [boost::hash_combine(seed, value)] on a [size_t] seed. *)
Class Hasher := { hash_combine : Z -> HashAtom -> Z }.

(** [Constraint::generateHash] and its overrides. *)
Definition generateHash `{Hasher} (c : Constraint) : Z := fold_left hash_combine (hash_atoms c) 0%Z.

(** ** Lemmas on the constructors *)

(** The angle limits a constraint holds are ordered. *)
Definition limits_ordered (c : Constraint) : Prop :=
  match c with
  | CSimpleCone _ | CShoulder _ | CAcuteEllipsoidalCone _ => True
  | CTwistLimitedCone d => tl_min_twist d <= tl_max_twist d
  | CElbow d => el_min_bend d <= el_max_bend d /\ el_min_twist d <= el_max_twist d
  | CKnee d => kn_min_bend d <= kn_max_bend d
  | CDoubleLimitedHinge d =>
      dh_min_yaw d <= dh_max_yaw d /\ - HALF_PI <= dh_min_pitch d /\
      dh_min_pitch d <= dh_max_pitch d /\ dh_max_pitch d <= HALF_PI
  end.

Lemma HALF_PI_pos : 0 < HALF_PI.
Proof. unfold HALF_PI, F_PI. lra. Qed.

Lemma clamp_pitch_range (a : Q) : - HALF_PI <= clamp_pitch a <= HALF_PI.
Proof. pose proof HALF_PI_pos. unfold clamp_pitch. cbv zeta. qcase; qlra. Qed.

Lemma pitch_limits_range (a b : Q) :
  - HALF_PI <= fst (pitch_limits a b) /\ fst (pitch_limits a b) <= snd (pitch_limits a b) /\
  snd (pitch_limits a b) <= HALF_PI.
Proof.
  pose proof (clamp_pitch_range a). pose proof (clamp_pitch_range b).
  unfold pitch_limits. cbv zeta. qcase; qlra.
Qed.

Lemma limits_pair_le (p : Q * Q) (P : Q -> Q -> Prop) :
  fst p <= snd p -> (forall x y, x <= y -> P x y) -> let '(x, y) := p in P x y.
Proof. destruct p as [x y]. simpl. auto. Qed.
