(* ===== verification/Skeleton.v ===== *)
(** * Skeleton: [LLIK::Joint], the [Solver] state and [addJoint]

    A [Joint] (llik.h 400-575) holds its parent-local and world transforms,
    its constraint, a pointer to its current [Config] and two flag bytes.
    The skeleton is the [Solver]'s [std::map<S16, Joint::ptr_t>]; the
    parent pointer and the children vector of a joint are modelled as keys
    into that map (an arena), and the [Config] pointer as the key of its
    entry in the solver's configuration map, so that a write through the
    pointer ([Joint::setTargetPos], line 1607) is a write to that shared
    entry.  The external [LLJoint] info is the record [JointInfo].

    This file holds the joint primitives that do not move the skeleton
    ([resetFromInfo], [reset], [setParent], [lockLocalRot], [setLocalPos],
    [setLocalScale], [resetFlags], [setConfig], [activate], ...), the
    [Solver] record, and [Solver::addJoint] (lines 2594-2637), with the
    tree invariant of the skeleton that [addJoint] preserves. *)

From Stdlib Require Import QArith ZArith List Bool Lia.
Import ListNotations.
From S2P Require Import Prelude F32 Vec Config OrdMap Constraints.

Local Open Scope Z_scope.

(** [LLJoint], as far as [LLIK] reads it. *)
Record JointInfo := mkInfo {
  info_position : vec3;   (** [getPosition()] *)
  info_end : vec3;        (** [getEnd()] *)
  info_scale : vec3;      (** [getScale()] *)
  info_joint_num : Z      (** [getJointNum()] *)
}.

Record Joint := mkJoint {
  j_id : Z;
  j_info : JointInfo;
  j_parent : option Z;
  j_children : list Z;
  j_local_pos : vec3;
  j_pos : vec3;
  j_local_rot : quat;
  j_rot : quat;
  j_local_scale : vec3;
  j_bone : vec3;
  j_constraint : option Constraint;
  j_local_pos_length : Q;
  j_config : option Z;
  j_config_flags : Z;
  j_ik_flags : Z
}.

(** ** Field updates *)

Definition with_flags (j : Joint) (cfg : option Z) (cflags ikflags : Z) : Joint :=
  mkJoint (j_id j) (j_info j) (j_parent j) (j_children j) (j_local_pos j) (j_pos j)
    (j_local_rot j) (j_rot j) (j_local_scale j) (j_bone j) (j_constraint j)
    (j_local_pos_length j) cfg cflags ikflags.

Definition with_ik_flags (j : Joint) (f : Z) : Joint :=
  with_flags j (j_config j) (j_config_flags j) f.

Definition with_rots (j : Joint) (local_rot rot : quat) : Joint :=
  mkJoint (j_id j) (j_info j) (j_parent j) (j_children j) (j_local_pos j) (j_pos j)
    local_rot rot (j_local_scale j) (j_bone j) (j_constraint j)
    (j_local_pos_length j) (j_config j) (j_config_flags j) (j_ik_flags j).

Definition with_pos (j : Joint) (local_pos pos : vec3) (len : Q) : Joint :=
  mkJoint (j_id j) (j_info j) (j_parent j) (j_children j) local_pos pos
    (j_local_rot j) (j_rot j) (j_local_scale j) (j_bone j) (j_constraint j)
    len (j_config j) (j_config_flags j) (j_ik_flags j).

Definition with_geometry (j : Joint) (local_pos bone scale : vec3) (len : Q) : Joint :=
  mkJoint (j_id j) (j_info j) (j_parent j) (j_children j) local_pos (j_pos j)
    (j_local_rot j) (j_rot j) scale bone (j_constraint j)
    len (j_config j) (j_config_flags j) (j_ik_flags j).

Definition with_children (j : Joint) (cs : list Z) : Joint :=
  mkJoint (j_id j) (j_info j) (j_parent j) cs (j_local_pos j) (j_pos j)
    (j_local_rot j) (j_rot j) (j_local_scale j) (j_bone j) (j_constraint j)
    (j_local_pos_length j) (j_config j) (j_config_flags j) (j_ik_flags j).

Definition with_constraint (j : Joint) (c : option Constraint) : Joint :=
  mkJoint (j_id j) (j_info j) (j_parent j) (j_children j) (j_local_pos j) (j_pos j)
    (j_local_rot j) (j_rot j) (j_local_scale j) (j_bone j) c
    (j_local_pos_length j) (j_config j) (j_config_flags j) (j_ik_flags j).

Definition with_parent (j : Joint) (p : option Z) : Joint :=
  mkJoint (j_id j) (j_info j) p (j_children j) (j_local_pos j) (j_pos j)
    (j_local_rot j) (j_rot j) (j_local_scale j) (j_bone j) (j_constraint j)
    (j_local_pos_length j) (j_config j) (j_config_flags j) (j_ik_flags j).

(** ** Flag queries (llik.h 489-515) *)

Definition hasPosTarget (j : Joint) : bool := has_flag (j_config_flags j) CONFIG_FLAG_TARGET_POS.
Definition hasRotTarget (j : Joint) : bool := has_flag (j_config_flags j) CONFIG_FLAG_TARGET_ROT.
Definition hasDisabledConstraint (j : Joint) : bool :=
  has_flag (j_config_flags j) CONFIG_FLAG_DISABLE_CONSTRAINT.
Definition isActive (j : Joint) : bool := has_flag (j_ik_flags j) IK_FLAG_ACTIVE.
Definition localRotLocked (j : Joint) : bool := has_flag (j_ik_flags j) IK_FLAG_LOCAL_ROT_LOCKED.
Definition getHarvestFlags (j : Joint) : Z := Z.land (Z.lor (j_config_flags j) (j_ik_flags j)) MASK_LOCAL.
Definition getNumChildren (j : Joint) : nat := length (j_children j).

(** [activate] and [flagForHarvest] (llik.h 510, 526). *)
Definition activate (j : Joint) : Joint := with_ik_flags j (Z.lor (j_ik_flags j) IK_FLAG_ACTIVE).
Definition flagForHarvest (j : Joint) : Joint :=
  with_ik_flags j (Z.lor (j_ik_flags j) IK_FLAG_LOCAL_ROT).

(** [Joint::resetFlags] (lines 2073-2079): the root keeps its lock. *)
Definition resetFlags (j : Joint) : Joint :=
  with_flags j None 0 (match j_parent j with Some _ => 0 | None => IK_FLAG_LOCAL_ROT_LOCKED end).

(** [Joint::setConfig] (lines 2065-2071), given the key of the entry. *)
Definition setConfig (j : Joint) (key : Z) (c : Config) : Joint :=
  with_flags j (Some key) (cfg_flags c) (j_ik_flags j).

Section WithLibm.
Context {L : Libm}.

(** [Joint::resetFromInfo] (lines 1588-1597). *)
Definition resetFromInfo (j : Joint) : Joint :=
  let info := j_info j in
  let scale := info_scale info in
  let lp := scaledVec (info_position info) scale in
  with_geometry j lp (scaledVec (info_end info) scale) (V3 1 1 1) (vlength lp).

(** [Joint::Joint(info)] (lines 1581-1586): a fresh joint without parent,
    children, constraint or configuration. *)
Definition newJoint (info : JointInfo) : Joint :=
  resetFromInfo (mkJoint (info_joint_num info) info None [] v_zero v_zero q_identity q_identity
                   v_zero v_zero None 0 None 0 0).

(** [Joint::reset] (lines 1631-1647), given the parent joint if any. *)
Definition reset (j : Joint) (parent : option Joint) : Joint :=
  let j1 := resetFromInfo j in
  match parent with
  | Some p => with_rots (with_pos j1 (j_local_pos j1) (vadd (j_pos p) (vrot (j_local_pos j1) (j_rot p)))
                            (j_local_pos_length j1)) q_identity (j_rot p)
  | None => with_rots (with_pos j1 (j_local_pos j1) (j_local_pos j1) (j_local_pos_length j1))
              q_identity q_identity
  end.

(** [Joint::setParent] (lines 1617-1629): a joint without parent is the
    root and has its local rotation locked. *)
Definition setParent (j : Joint) (pkey : option Z) (parent : option Joint) : Joint :=
  let j1 := with_parent j pkey in
  let j2 := match pkey with None => with_ik_flags j1 IK_FLAG_LOCAL_ROT_LOCKED | Some _ => j1 end in
  reset j2 parent.

(** [Joint::lockLocalRot] (lines 2081-2090). *)
Definition lockLocalRot (j : Joint) (q : quat) : Joint :=
  let j1 := activate (with_ik_flags (with_rots j q (j_rot j))
                        (Z.lor (j_ik_flags j) IK_FLAG_LOCAL_ROT_LOCKED)) in
  match j_parent j with None => with_rots j1 q q | Some _ => j1 end.

(** [Joint::setLocalPos] (lines 2146-2154). *)
Definition setLocalPos (j : Joint) (p : vec3) : Joint :=
  let lp := scaledVec p (j_local_scale j) in
  let pos := match j_parent j with None => lp | Some _ => j_pos j end in
  with_pos j lp pos (vlength lp).

(** [MIN_INVERTABLE_SCALE] (line 2178). *)
Definition MIN_INVERTABLE_SCALE : Q := 1 # 1000000000000000.

(** [Joint::setLocalScale] (lines 2175-2191): rescale [mLocalPos] and
    [mBone] by the ratio of the new scale to the old one, a component whose
    old scale is not above the threshold giving a zero ratio. *)
Definition setLocalScale (j : Joint) (s : vec3) : Joint :=
  let old := j_local_scale j in
  let ratio (n o : Q) := if (MIN_INVERTABLE_SCALE <? o)%llik then (n / o)%Q else 0%Q in
  let re := V3 (ratio (vx s) (vx old)) (ratio (vy s) (vy old)) (ratio (vz s) (vz old)) in
  let lp := scaledVec (j_local_pos j) re in
  with_geometry j lp (scaledVec (j_bone j) re) s (vlength lp).

End WithLibm.

(** ** The solver state (llik.h 674-686) *)

Record Solver := mkSolver {
  s_skeleton : amap Joint;
  s_joint_configs : amap Config;
  s_chain_map : amap (list Z);
  s_sub_base_ids : list Z;
  s_sub_root_ids : list Z;
  s_active_roots : amap unit;
  s_active_joints : list Z;
  s_wrist_joints : list Z;
  s_acceptable_error : Q;
  s_last_error : Q;
  s_root_id : Z
}.

(** [Solver::Solver()] (lines 2540-2546) with [IK_DEFAULT_ACCEPTABLE_ERROR]. *)
Definition IK_DEFAULT_ACCEPTABLE_ERROR : Q := 5 # 10000.

Definition new_solver : Solver :=
  mkSolver [] [] [] [] [] [] [] [] IK_DEFAULT_ACCEPTABLE_ERROR 0 (-1).

Definition set_skeleton (s : Solver) (sk : amap Joint) : Solver :=
  mkSolver sk (s_joint_configs s) (s_chain_map s) (s_sub_base_ids s) (s_sub_root_ids s)
    (s_active_roots s) (s_active_joints s) (s_wrist_joints s) (s_acceptable_error s)
    (s_last_error s) (s_root_id s).

(** [setRootID], [setSubBaseIds], [setSubRootIds] (llik.h 619, 2516-2524). *)
Definition setRootID (s : Solver) (r : Z) : Solver :=
  mkSolver (s_skeleton s) (s_joint_configs s) (s_chain_map s) (s_sub_base_ids s)
    (s_sub_root_ids s) (s_active_roots s) (s_active_joints s) (s_wrist_joints s)
    (s_acceptable_error s) (s_last_error s) r.

Definition setSubBaseIds (s : Solver) (ids : list Z) : Solver :=
  mkSolver (s_skeleton s) (s_joint_configs s) (s_chain_map s) ids
    (s_sub_root_ids s) (s_active_roots s) (s_active_joints s) (s_wrist_joints s)
    (s_acceptable_error s) (s_last_error s) (s_root_id s).

Definition setSubRootIds (s : Solver) (ids : list Z) : Solver :=
  mkSolver (s_skeleton s) (s_joint_configs s) (s_chain_map s) (s_sub_base_ids s)
    ids (s_active_roots s) (s_active_joints s) (s_wrist_joints s)
    (s_acceptable_error s) (s_last_error s) (s_root_id s).

(** [isSubBase] and [isSubRoot] (lines 2526-2538). *)
Definition isSubBase (s : Solver) (id : Z) : bool := existsb (Z.eqb id) (s_sub_base_ids s).
Definition isSubRoot (s : Solver) (id : Z) : bool :=
  negb (match s_sub_root_ids s with [] => true | _ => false end)
  && existsb (Z.eqb id) (s_sub_root_ids s).

Section AddJoint.
Context {L : Libm}.

(** [Solver::addJoint] (lines 2594-2637).  The warnings are the early
    returns; a parent id that is not in the skeleton is accepted, as a new
    root, when it is below [mRootID]. *)
(** [Joint::addChild] (lines 1599-1605): append to [mChildren]; the
    child is a key here, so the null test of the pointer has no case. *)
Definition addChild (p : Joint) (child : Z) : Joint := with_children p (j_children p ++ [child]).

Definition addJoint (s : Solver) (joint_id parent_id : Z) (info : JointInfo)
    (constraint : option Constraint) : Solver :=
  let sk := s_skeleton s in
  if joint_id <? 0 then s
  else if mem joint_id sk then s
  else
    let parent := find parent_id sk in
    match parent with
    | None =>
        if parent_id >=? s_root_id s then s
        else
          let j := with_constraint (setParent (newJoint info) None None) constraint in
          set_skeleton s (insert joint_id j sk)
    | Some p =>
        let j := with_constraint (setParent (newJoint info) (Some parent_id) (Some p)) constraint in
        let sk1 := insert parent_id (addChild p joint_id) sk in
        set_skeleton s (insert joint_id j sk1)
    end.

End AddJoint.

(** ** Example skeletons *)

(** Joints of unit offset and bone along x, unscaled. *)
Definition example_info (n : Z) : JointInfo := mkInfo (V3 1 0 0) (V3 1 0 0) (V3 1 1 1) n.

(** A solver whose skeleton is built by [addJoint] from (id, parent id)
    pairs, after [setRootID root]. *)
Definition build_solver (root : Z) (edges : list (Z * Z)) : Solver :=
  fold_left (fun s '(i, p) => addJoint s i p (example_info i) None) edges (setRootID new_solver root).

(** ** The tree invariant *)

(** The skeleton is a forest: keys sorted; a joint's parent is in the
    skeleton and lists it as a child; a joint's children are in the
    skeleton, have it as parent, and are listed once; and parents have a
    smaller rank than their children, so that following parents ends. *)
Definition skeleton_wf (sk : amap Joint) : Prop :=
  sorted sk /\
  (forall k j p, find k sk = Some j -> j_parent j = Some p ->
     exists pj, find p sk = Some pj /\ In k (j_children pj)) /\
  (forall k j c, find k sk = Some j -> In c (j_children j) ->
     exists cj, find c sk = Some cj /\ j_parent cj = Some k) /\
  (forall k j, find k sk = Some j -> NoDup (j_children j)) /\
  (exists rank : Z -> nat, forall k j p, find k sk = Some j -> j_parent j = Some p ->
     (rank p < rank k)%nat).

Lemma skeleton_wf_empty : skeleton_wf [].
Proof.
  repeat split; try (intros; discriminate); [constructor|].
  exists (fun _ => O). intros; discriminate.
Qed.

(** A decision procedure for [skeleton_wf], given a rank that parents
    have below their children; [skeleton_wfb] takes the key itself, as
    [addJoint] builds skeletons when joints are added parents first with
    increasing non-negative ids. *)
Fixpoint nodupb (l : list Z) : bool :=
  match l with [] => true | x :: l' => negb (existsb (Z.eqb x) l') && nodupb l' end.

Definition joint_wfb (rank : Z -> nat) (sk : amap Joint) (k : Z) (j : Joint) : bool :=
  match j_parent j with
  | Some p => Nat.ltb (rank p) (rank k) &&
              match find p sk with Some pj => existsb (Z.eqb k) (j_children pj) | None => false end
  | None => true
  end &&
  forallb (fun c => match find c sk with
                    | Some cj => match j_parent cj with Some q => Z.eqb q k | None => false end
                    | None => false end) (j_children j) &&
  nodupb (j_children j).

Definition skeleton_wfb_by (rank : Z -> nat) (sk : amap Joint) : bool :=
  sortedb sk && forallb (fun '(k, j) => joint_wfb rank sk k j) sk.

Definition skeleton_wfb (sk : amap Joint) : bool := skeleton_wfb_by Z.to_nat sk.

Lemma nodupb_NoDup l : nodupb l = true -> NoDup l.
Proof.
  induction l as [|x l IH]; simpl; [constructor|]. rewrite andb_true_iff, negb_true_iff.
  intros [H1 H2]. constructor; [|exact (IH H2)]. intros Hin.
  assert (existsb (Z.eqb x) l = true) by (apply existsb_exists; exists x; split; [exact Hin|apply Z.eqb_refl]).
  congruence.
Qed.

Lemma skeleton_wfb_by_spec rank sk : skeleton_wfb_by rank sk = true -> skeleton_wf sk.
Proof.
  unfold skeleton_wfb_by. rewrite andb_true_iff, forallb_forall. intros [So H].
  assert (Hj : forall k j, find k sk = Some j -> joint_wfb rank sk k j = true)
    by (intros k j F; exact (H (k, j) (find_In _ _ _ F))).
  unfold joint_wfb in Hj. split; [now apply sortedb_sorted|split; [|split; [|split]]].
  - intros k j p F Hp. specialize (Hj k j F). rewrite Hp in Hj.
    destruct (find p sk) as [pj|]; [|rewrite !andb_false_r in Hj; discriminate].
    exists pj. split; [reflexivity|]. rewrite !andb_true_iff in Hj.
    destruct Hj as [[[_ Hc] _] _]. apply existsb_exists in Hc as (x & Hx & E).
    apply Z.eqb_eq in E. now subst.
  - intros k j c F Hc. specialize (Hj k j F). rewrite !andb_true_iff, forallb_forall in Hj.
    destruct Hj as [[_ Hcs] _]. specialize (Hcs c Hc).
    destruct (find c sk) as [cj|]; [|discriminate]. exists cj. split; [reflexivity|].
    destruct (j_parent cj); [|discriminate]. apply Z.eqb_eq in Hcs. now subst.
  - intros k j F. specialize (Hj k j F). rewrite !andb_true_iff in Hj. now apply nodupb_NoDup.
  - exists rank. intros k j p F Hp. specialize (Hj k j F). rewrite Hp in Hj.
    rewrite !andb_true_iff, Nat.ltb_lt in Hj. tauto.
Qed.

Lemma skeleton_wfb_spec sk : skeleton_wfb sk = true -> skeleton_wf sk.
Proof. apply skeleton_wfb_by_spec. Qed.

Section AddJointWf.
Context {L : Libm}.

(** The joint [addJoint] inserts: its parent is the one given, it has no
    children. *)
Lemma new_joint_links info pk par c :
  j_parent (with_constraint (setParent (newJoint info) pk par) c) = pk /\
  j_children (with_constraint (setParent (newJoint info) pk par) c) = [].
Proof.
  unfold setParent, reset. destruct pk, par; simpl; split; reflexivity.
Qed.

Lemma wf_insert_root (sk : amap Joint) (id : Z) (j : Joint) :
  skeleton_wf sk -> find id sk = None -> j_parent j = None -> j_children j = [] ->
  skeleton_wf (insert id j sk).
Proof.
  intros (Hs & Hp & Hc & Hn & rank & Hr) Hid Hjp Hjc.
  assert (forall k x, find k sk = Some x -> k <> id) as Hne by (intros; intros ->; congruence).
  split; [now apply insert_sorted|]. split; [|split; [|split]].
  - intros k x p. rewrite find_insert. destruct (Z.eqb_spec id k) as [->|N].
    + intros [= <-]. congruence.
    + intros Hk Hxp. destruct (Hp _ _ _ Hk Hxp) as (pj & Hpj & Hin).
      exists pj. rewrite find_insert. destruct (Z.eqb_spec id p) as [->|]; [|auto].
      exfalso. eapply Hne; eauto.
  - intros k x c. rewrite find_insert. destruct (Z.eqb_spec id k) as [->|N].
    + intros [= <-]. rewrite Hjc. intros [].
    + intros Hk Hin. destruct (Hc _ _ _ Hk Hin) as (cj & Hcj & Hcp).
      exists cj. rewrite find_insert. destruct (Z.eqb_spec id c) as [->|]; [|auto].
      exfalso. eapply Hne; eauto.
  - intros k x. rewrite find_insert. destruct (id =? k); [intros [= <-]; rewrite Hjc; constructor|].
    apply Hn.
  - exists rank. intros k x p. rewrite find_insert. destruct (id =? k).
    + intros [= <-]. congruence.
    + apply Hr.
Qed.

(** A joint cannot be its own ancestor: in particular it is not its own
    parent, and not a child of itself. *)
Lemma wf_parent_ne (sk : amap Joint) k j p :
  skeleton_wf sk -> find k sk = Some j -> j_parent j = Some p -> p <> k.
Proof.
  intros (_ & _ & _ & _ & rank & Hr) Hk Hp ->. pose proof (Hr _ _ _ Hk Hp). lia.
Qed.

Lemma wf_child_ne (sk : amap Joint) k j c :
  skeleton_wf sk -> find k sk = Some j -> In c (j_children j) -> c <> k.
Proof.
  intros W Hk Hin ->. destruct W as (Hs & Hp & Hc & Hn & rank & Hr).
  destruct (Hc _ _ _ Hk Hin) as (cj & Hcj & Hcp). rewrite Hk in Hcj. injection Hcj as <-.
  pose proof (Hr _ _ _ Hk Hcp). lia.
Qed.

Lemma wf_insert_child (sk : amap Joint) (id pid : Z) (pj j : Joint) :
  skeleton_wf sk -> find id sk = None -> find pid sk = Some pj ->
  j_parent j = Some pid -> j_children j = [] ->
  skeleton_wf (insert id j (insert pid (with_children pj (j_children pj ++ [id])) sk)).
Proof.
  intros W Hid Hpid Hjp Hjc. pose proof W as (Hs & Hp & Hc & Hn & rank & Hr).
  assert (forall k x, find k sk = Some x -> k <> id) as Hne by (intros; intros ->; congruence).
  assert (pid <> id) as Hpne by (eapply Hne; eauto).
  split; [now apply insert_sorted, insert_sorted|]. split; [|split; [|split]].
  - intros k x p. rewrite ?find_insert.
    destruct (Z.eqb_spec id k) as [->|N1].
    + intros [= <-] Hxp. rewrite Hjp in Hxp. injection Hxp as <-.
      exists (with_children pj (j_children pj ++ [k])). rewrite ?find_insert.
      destruct (Z.eqb_spec k pid); [congruence|]. rewrite Z.eqb_refl. split; [reflexivity|].
      simpl. apply in_or_app. right. now left.
    + destruct (Z.eqb_spec pid k) as [->|N2].
      * intros [= <-] Hxp. simpl in Hxp. destruct (Hp _ _ _ Hpid Hxp) as (pp & Hpp & Hin).
        exists pp. rewrite ?find_insert.
        destruct (Z.eqb_spec id p) as [->|]; [exfalso; eapply Hne; eauto|].
        destruct (Z.eqb_spec k p) as [->|]; [exfalso; eapply wf_parent_ne; [exact W|exact Hpid|exact Hxp|reflexivity]|].
        split; assumption.
      * intros Hk Hxp. destruct (Hp _ _ _ Hk Hxp) as (pp & Hpp & Hin).
        rewrite ?find_insert. destruct (Z.eqb_spec id p) as [->|]; [exfalso; eapply Hne; eauto|].
        destruct (Z.eqb_spec pid p) as [->|].
        -- eexists. split; [reflexivity|]. simpl. rewrite Hpid in Hpp. injection Hpp as ->.
           apply in_or_app. now left.
        -- exists pp. split; assumption.
  - assert (forall k0 x0 c, find k0 sk = Some x0 -> In c (j_children x0) ->
              exists cj, (if id =? c then Some j
                          else if pid =? c then Some (with_children pj (j_children pj ++ [id]))
                          else find c sk) = Some cj /\ j_parent cj = Some k0) as Old.
    { intros k0 x0 c' Hk Hin. destruct (Hc _ _ _ Hk Hin) as (cj & Hcj & Hcp).
      destruct (Z.eqb_spec id c') as [->|]; [exfalso; eapply Hne; eauto|].
      destruct (Z.eqb_spec pid c') as [->|]; [|exists cj; split; assumption].
      eexists. split; [reflexivity|]. simpl. rewrite Hpid in Hcj. now injection Hcj as ->. }
    intros k x c. rewrite ?find_insert.
    destruct (Z.eqb_spec id k) as [->|N1]; [intros [= <-]; rewrite Hjc; intros []|].
    destruct (Z.eqb_spec pid k) as [->|N2].
    + intros [= <-] Hin. simpl in Hin. apply in_app_or in Hin as [Hin|[<-|[]]].
      * exact (Old _ _ _ Hpid Hin).
      * exists j. rewrite Z.eqb_refl. split; [reflexivity|assumption].
    + intros Hk Hin. exact (Old _ _ _ Hk Hin).
  - intros k x. rewrite ?find_insert.
    destruct (id =? k); [intros [= <-]; rewrite Hjc; constructor|].
    destruct (Z.eqb_spec pid k) as [->|]; [|apply Hn].
    intros [= <-]. simpl. apply NoDup_app; [eapply Hn; eauto|repeat constructor; intros []|].
    intros c Hin [<-|[]]. destruct (Hc _ _ _ Hpid Hin) as (cj & Hcj & _). congruence.
  - exists (fun x => if x =? id then S (rank pid) else rank x).
    intros k x p. rewrite ?find_insert.
    destruct (Z.eqb_spec id k) as [->|N1].
    + intros [= <-] Hxp. rewrite Hjp in Hxp. injection Hxp as <-.
      rewrite Z.eqb_refl. destruct (Z.eqb_spec pid k); [congruence|lia].
    + rewrite (proj2 (Z.eqb_neq k id)) by congruence.
      destruct (Z.eqb_spec pid k) as [->|N2].
      * intros [= <-] Hxp. simpl in Hxp. destruct (Hp _ _ _ Hpid Hxp) as (pp & Hpp & _).
        destruct (Z.eqb_spec p id) as [->|]; [congruence|]. eapply Hr; eauto.
      * intros Hk Hxp. destruct (Hp _ _ _ Hk Hxp) as (pp & Hpp & _).
        destruct (Z.eqb_spec p id) as [->|]; [congruence|]. eapply Hr; eauto.
Qed.

(** C2: [addJoint] keeps the skeleton a forest, whatever it is asked to
    add: the early returns change nothing, a joint whose parent is missing
    becomes a root, and a joint with a parent is linked both ways. *)
Theorem addJoint_wf (s : Solver) (joint_id parent_id : Z) (info : JointInfo)
    (constraint : option Constraint) :
  skeleton_wf (s_skeleton s) ->
  skeleton_wf (s_skeleton (addJoint s joint_id parent_id info constraint)).
Proof.
  intros W. unfold addJoint.
  destruct (joint_id <? 0); [exact W|].
  destruct (mem joint_id (s_skeleton s)) eqn:Hm; [exact W|].
  apply mem_find in Hm.
  destruct (new_joint_links info (Some parent_id)
              (find parent_id (s_skeleton s)) constraint) as [Hp1 Hc1].
  destruct (new_joint_links info None None constraint) as [Hp2 Hc2].
  destruct (find parent_id (s_skeleton s)) as [p|] eqn:Hpid.
  - simpl. apply wf_insert_child; assumption.
  - destruct (parent_id >=? s_root_id s); [exact W|]. simpl.
    apply wf_insert_root; assumption.
Qed.

End AddJointWf.

Lemma addJoint_wf_witness :
  let s1 := addJoint (setRootID new_solver 0) 0 (-1) (mkInfo (V3 1 0 0)%Q (V3 1 0 0)%Q (V3 1 1 1)%Q 0) None in
  skeleton_wf (s_skeleton s1) /\
  skeleton_wf (s_skeleton (addJoint s1 1 0 (mkInfo (V3 1 0 0)%Q (V3 1 0 0)%Q (V3 1 1 1)%Q 1) None)).
Proof.
  intros s1. assert (W : skeleton_wf (s_skeleton s1)) by (apply skeleton_wfb_spec; vm_compute; reflexivity).
  split; [exact W|]. apply (addJoint_wf s1). exact W.
Defined.
