(* ===== verification/Chains.v ===== *)
(** * Chains: [Solver::buildChain] and [Solver::rebuildAllChains]

    The chain builder (llik.cpp 2827-3128 and 3280-3323) decides which
    joints the solve moves.  It applies each joint's configuration, builds
    one chain per targeted joint by walking up the parents, builds further
    chains from the sub-bases those walks stop at, joins chains through
    "false" sub-bases, and collects the active roots and active joints.

    The model threads the solver state through the same steps in the same
    order.  Chains are lists of skeleton keys, outer end first.  Where the
    C++ dereferences a pointer that can be null (the parent of a targeted
    joint, an entry created by [std::map::operator[]]) the model returns
    [None].  The loop over sub-bases is bounded by the number of joints
    plus one, which the tree invariant makes enough. *)

From Stdlib Require Import QArith ZArith List Bool Lia.
Import ListNotations.
From S2P Require Import Prelude F32 Vec Config OrdMap Constraints Skeleton.

Local Open Scope Z_scope.
Local Open Scope llik_scope.

(** Apply [f] to the joint at key [k]. *)
Definition update_joint (k : Z) (f : Joint -> Joint) (sk : amap Joint) : amap Joint :=
  update k f sk.

Definition is_empty {A} (l : list A) : bool := match l with [] => true | _ => false end.

(** The stop test of the walk for a joint other than the first
    (lines 3301-3320): [Some true] when the joint is a sub-base to queue,
    [Some false] for the other stops, [None] to go on. *)
Definition chain_stop (s : Solver) (j : Joint) : option bool :=
  let id := j_id j in
  if isSubRoot s id then Some false
  else if Z.eqb id (s_root_id s) then Some false
  else if hasPosTarget j then Some false
  else if (is_empty (s_sub_base_ids s) && Nat.ltb 1 (getNumChildren j)) || isSubBase s id
  then Some true
  else None.

(** The [while] loop of [buildChain] (lines 3293-3322); [n] is
    [chain_length - chain.size()], the iterations left. *)
Fixpoint buildChain_loop (s : Solver) (n : nat) (sk : amap Joint) (cur : option Z)
    (chain : list Z) (subs : amap unit) : option (amap Joint * list Z * amap unit) :=
  match n, cur with
  | S n', Some k =>
      j <- find k sk ;;
      let sk' := insert k (activate j) sk in
      let chain' := chain ++ [k] in
      match chain_stop s j with
      | Some true => Some (sk', chain', insert (j_id j) tt subs)
      | Some false => Some (sk', chain', subs)
      | None => buildChain_loop s n' sk' (j_parent j) chain' subs
      end
  | _, _ => Some (sk, chain, subs)
  end.

(** [Solver::buildChain] (lines 3280-3323) from the joint at key [k]. *)
Definition buildChain (s : Solver) (sk : amap Joint) (k : Z) (chain_length : Z)
    (subs : amap unit) : option (amap Joint * list Z * amap unit) :=
  j <- find k sk ;;
  buildChain_loop s (Z.to_nat chain_length - 1) (insert k (activate j) sk) (j_parent j) [k] subs.

(** ** The steps of [rebuildAllChains] *)

(** Lines 2830-2839: reset the flags of the joints of the old chains. *)
Definition reset_old_chains (s : Solver) : amap Joint :=
  fold_left (fun sk '(_, chain) => fold_left (fun sk k => update_joint k resetFlags sk) chain sk)
    (s_chain_map s) (s_skeleton s).

(** The state the configuration loop threads. *)
Record Build := mkBuild {
  b_skeleton : amap Joint;
  b_configs : amap Config;
  b_chains : amap (list Z);
  b_sub_bases : amap unit;
  b_active_roots : amap unit
}.

Section Rebuild.
Context {L : Libm}.

Definition with_skeleton (b : Build) (sk : amap Joint) : Build :=
  mkBuild sk (b_configs b) (b_chains b) (b_sub_bases b) (b_active_roots b).

(** Apply [f] to the joint at key [k], through its [Joint::ptr_t]. *)
Definition update_build (k : Z) (f : Joint -> Joint) (b : Build) : Build :=
  with_skeleton b (update_joint k f (b_skeleton b)).

(** Lines 2918-2956: the configuration of the root seeds its world
    transform directly. *)
Definition apply_root_config (k : Z) (c : Config) (b : Build) : Build :=
  let flags := cfg_flags c in
  let b :=
    if has_flag flags MASK_ROT then
      let q := if has_flag flags CONFIG_FLAG_LOCAL_ROT then cfg_local_rot c else cfg_target_rot c in
      let b := update_build k (fun j => activate (lockLocalRot j q)) b in
      mkBuild (b_skeleton b) (b_configs b) (b_chains b) (b_sub_bases b) (insert k tt (b_active_roots b))
    else b in
  let b :=
    if has_flag flags MASK_POS then
      let p := if has_flag flags CONFIG_FLAG_LOCAL_POS then cfg_local_pos c else cfg_target_pos c in
      update_build k (fun j => activate (setLocalPos j p)) b
    else b in
  if has_flag flags CONFIG_FLAG_LOCAL_SCALE then
    update_build k (fun j => setLocalScale j (cfg_local_scale c)) b
  else b.

(** [Joint::setTargetPos] (lines 1607-1614): write the target through
    the joint's [mConfig] pointer, when the joint has a position target.
    The configuration is an entry of the configuration map. *)
Definition joint_setTargetPos (j : Joint) (pos : vec3) (configs : amap Config) : option (amap Config) :=
  if hasPosTarget j then
    key <- j_config j ;;
    cfg <- find key configs ;;
    Some (insert key (setTargetPos pos cfg) configs)
  else Some configs.

(** Lines 2976-2992: when the parent of a position-targeted joint also
    has a position target, move the parent's target to the child's local
    position length from the child's target, along the old direction. *)
Definition sequential_effector_fixup (k : Z) (c : Config) (b : Build) : option Build :=
  let sk := b_skeleton b in
  j <- find k sk ;;
  pk <- j_parent j ;;
  p <- find pk sk ;;
  if hasPosTarget p then
    pkey <- j_config p ;;
    pc <- find pkey (b_configs b) ;;
    let child_target_pos := cfg_target_pos c in
    let direction := vscale (j_local_pos_length j)
                       (vnormalize (vsub (cfg_target_pos pc) child_target_pos)) in
    configs <- joint_setTargetPos p (vadd child_target_pos direction) (b_configs b) ;;
    Some (mkBuild sk configs (b_chains b) (b_sub_bases b) (b_active_roots b))
  else Some b.

(** Build the chain of a targeted joint into [b]. *)
Definition add_chain (s : Solver) (k : Z) (limit : Z) (b : Build) : option Build :=
  match buildChain s (b_skeleton b) k limit (b_sub_bases b) with
  | Some (sk, chain, subs) =>
      Some (mkBuild sk (b_configs b) (insert k chain (b_chains b)) subs (b_active_roots b))
  | None => None
  end.

(** Lines 2968-3004: the chain of a targeted joint, with the fixup of
    sequential position targets. *)
Definition config_chain (s : Solver) (k : Z) (c : Config) (b : Build) : option Build :=
  if hasTargetPos c then
    b <- add_chain s k (cfg_chain_limit c) b ;;
    sequential_effector_fixup k c b
  else if hasTargetRot c then add_chain s k (cfg_chain_limit c) b
  else Some b.

(** Lines 3000-3010: a local position or scale activates the joint. *)
Definition config_local (k : Z) (c : Config) (b : Build) : Build :=
  let b := if hasLocalPos c then update_build k (fun j => activate (setLocalPos j (cfg_local_pos c))) b
           else b in
  if hasLocalScale c then update_build k (fun j => activate (setLocalScale j (cfg_local_scale c))) b
  else b.

(** One iteration of the configuration loop (lines 2901-3011).  The
    configuration is read from the map when its turn comes, so an earlier
    fixup of this entry is seen. *)
Definition config_step (s : Solver) (b : Build) (k : Z) : option Build :=
  c <- find k (b_configs b) ;;
  match find k (b_skeleton b) with
  | None => Some b
  | Some j0 =>
      let b := with_skeleton b (insert k (setConfig j0 k c) (b_skeleton b)) in
      if Z.eqb (j_id j0) (s_root_id s) then Some (apply_root_config k c b)
      else
        let b := if hasLocalRot c then update_build k (fun j => lockLocalRot j (cfg_local_rot c)) b
                 else b in
        if hasDelegated c then Some b
        else
          b <- config_chain s k c b ;;
          Some (config_local k c b)
  end.

(** One round of the sub-base loop (lines 3016-3024): a chain from each
    queued sub-base, in ascending order, collecting the next queue. *)
Definition sub_base_round (s : Solver) (b : Build) : option Build :=
  let queue := keys (b_sub_bases b) in
  let b0 := mkBuild (b_skeleton b) (b_configs b) (b_chains b) [] (b_active_roots b) in
  fold_opt (fun b id => add_chain s id 255 b) queue b0.

(** The [while (sub_bases.size() > 0)] loop, with [fuel] rounds. *)
Fixpoint drain_sub_bases (s : Solver) (fuel : nat) (b : Build) : option Build :=
  match b_sub_bases b with
  | [] => Some b
  | _ => match fuel with
         | O => None
         | S f => b <- sub_base_round s b ;; drain_sub_bases s f b
         end
  end.

(** [Joint::getSingleActiveChild] (lines 2117-2131): the only active child,
    if there is exactly one. *)
Fixpoint single_active_child (sk : amap Joint) (cs : list Z) (found : option Z) : option Z :=
  match cs with
  | [] => found
  | c :: cs' =>
      match find c sk with
      | Some cj => if isActive cj then
                     match found with Some _ => None | None => single_active_child sk cs' (Some c) end
                   else single_active_child sk cs' found
      | None => single_active_child sk cs' found
      end
  end.

Definition getSingleActiveChild (sk : amap Joint) (j : Joint) : option Z :=
  single_active_child sk (j_children j) None.

(** Lines 3029-3047: the ids of the outer ends that are false sub-bases. *)
Definition find_joins (s : Solver) (b : Build) : option (list Z) :=
  fold_opt (fun acc '(_, chain) =>
      k <- hd_error chain ;;
      outer <- find k (b_skeleton b) ;;
      if negb (hasPosTarget outer) && negb (isSubBase s (j_id outer)) then
        match getSingleActiveChild (b_skeleton b) outer with
        | Some _ => Some (acc ++ [j_id outer])
        | None => Some acc
        end
      else Some acc)
    (b_chains b) [].

(** The first chain, in key order, whose inner end has id [id]. *)
Fixpoint find_recipient (sk : amap Joint) (id : Z) (chains : amap (list Z)) : option Z :=
  match chains with
  | [] => None
  | (key, chain) :: rest =>
      match last_error chain with
      | Some inner => match find inner sk with
                      | Some ij => if Z.eqb (j_id ij) id then Some key else find_recipient sk id rest
                      | None => find_recipient sk id rest
                      end
      | None => find_recipient sk id rest
      end
  end.

(** Lines 3049-3066: append each donor chain, minus its first joint, to
    the chain that ends where it starts, and erase the donor. *)
Definition apply_join (b : Build) (id : Z) : option Build :=
  match find_recipient (b_skeleton b) id (b_chains b) with
  | None => Some b
  | Some key =>
      recipient <- find key (b_chains b) ;;
      donor <- find id (b_chains b) ;;
      let chains := insert key (recipient ++ tl donor) (b_chains b) in
      Some (mkBuild (b_skeleton b) (b_configs b) (erase id chains) (b_sub_bases b)
              (b_active_roots b))
  end.

(** Lines 3069-3079: the inner end of a chain is an active root when it has
    no parent or an inactive one. *)
Definition collect_active_roots (b : Build) : amap unit :=
  fold_left (fun roots '(_, chain) =>
      match last_error chain with
      | Some base =>
          match find base (b_skeleton b) with
          | Some bj =>
              let root := match j_parent bj with
                          | None => true
                          | Some pk => match find pk (b_skeleton b) with
                                       | Some pj => negb (isActive pj)
                                       | None => true
                                       end
                          end in
              if root then insert base tt roots else roots
          | None => roots
          end
      | None => roots
      end)
    (b_chains b) (b_active_roots b).

(** Lines 3119-3127: the active joints, flagged for harvest. *)
Definition harvest_step (st : list Z * amap Joint) (kj : Z * Joint) : list Z * amap Joint :=
  let '(acc, sk') := st in
  let '(k, j) := kj in
  if isActive j then (acc ++ [k], insert k (flagForHarvest j) sk') else (acc, sk').

Definition collect_active_joints (sk : amap Joint) : list Z * amap Joint :=
  fold_left harvest_step sk ([], sk).

(** [Solver::rebuildAllChains] (lines 2827-3128). *)
Definition rebuildAllChains (s : Solver) : option Solver :=
  let sk0 := reset_old_chains s in
  let b0 := mkBuild sk0 (s_joint_configs s) [] [] [] in
  b1 <- fold_opt (config_step s) (keys (s_joint_configs s)) b0 ;;
  b2 <- drain_sub_bases s (S (length (s_skeleton s))) b1 ;;
  joins <- find_joins s b2 ;;
  b3 <- fold_opt apply_join joins b2 ;;
  let roots := collect_active_roots b3 in
  let '(active, sk) := collect_active_joints (b_skeleton b3) in
  Some (mkSolver sk (b_configs b3) (b_chains b3) (s_sub_base_ids s) (s_sub_root_ids s)
          roots active (s_wrist_joints s) (s_acceptable_error s) (s_last_error s) (s_root_id s)).

End Rebuild.

(** ** What the chain builder leaves alone

    Every update the builder makes to a joint keeps its id and its parent,
    and never clears a bit of its [mIkFlags] ([activate], [flagForHarvest]
    and [lockLocalRot] only set bits): it [grows] the skeleton.  Only
    [resetFlags], applied to the joints of the old chains before the
    build, clears flags. *)

Definition shape (j : Joint) : Z * option Z * list Z := (j_id j, j_parent j, j_children j).

Definition active_at (sk : amap Joint) (k : Z) : bool :=
  match find k sk with Some j => isActive j | None => false end.

(** Bit [n] of the [mIkFlags] of the joint at [k]. *)
Definition flag_at (sk : amap Joint) (k n : Z) : bool :=
  match find k sk with Some j => Z.testbit (j_ik_flags j) n | None => false end.

Definition parent_of (sk : amap Joint) (k : Z) : option Z :=
  match find k sk with Some j => j_parent j | None => None end.

Definition same_shape (sk sk' : amap Joint) : Prop :=
  forall k, option_map shape (find k sk') = option_map shape (find k sk).

Definition grows (sk sk' : amap Joint) : Prop :=
  same_shape sk sk' /\
  (forall k n, flag_at sk k n = true -> flag_at sk' k n = true).

(** A joint update that keeps the shape and every set bit of [mIkFlags]. *)
Definition tame (f : Joint -> Joint) : Prop :=
  (forall j, shape (f j) = shape j) /\
  (forall j n, Z.testbit (j_ik_flags j) n = true -> Z.testbit (j_ik_flags (f j)) n = true).

(** A chain is linked when each joint's parent is the next one. *)
Fixpoint linked (sk : amap Joint) (l : list Z) : bool :=
  match l with
  | a :: ((b :: _) as t) =>
      match parent_of sk a with Some p => Z.eqb p b && linked sk t | None => false end
  | _ => true
  end.

(** A chain of the map at [key]: it starts at [key], is linked, and its
    joints are active. *)
Definition chain_ok (sk : amap Joint) (key : Z) (chain : list Z) : Prop :=
  hd_error chain = Some key /\ linked sk chain = true /\ forallb (active_at sk) chain = true.

Definition chains_ok (sk : amap Joint) (chains : amap (list Z)) : Prop :=
  sorted chains /\ forall key chain, find key chains = Some chain -> chain_ok sk key chain.

(** Every joint's [mID] is its key in the skeleton. *)
Definition ids_match (sk : amap Joint) : Prop :=
  forall k j, find k sk = Some j -> j_id j = k.

#[export] Instance grows_preorder : PreOrder grows.
Proof.
  split.
  - intros sk. split; [intros k|]; auto.
  - intros a b c [Sab Aab] [Sbc Abc]. split; [intros k; now rewrite Sbc, Sab|auto].
Qed.

Lemma grows_insert (sk : amap Joint) (k : Z) (j : Joint) (f : Joint -> Joint) :
  find k sk = Some j -> tame f -> grows sk (insert k (f j) sk).
Proof.
  intros Hf [Hs Ha]. split; [intros k'|intros k' n]; unfold flag_at; rewrite find_insert;
    destruct (Z.eqb_spec k k') as [<-|]; rewrite ?Hf; simpl; auto.
  now rewrite Hs.
Qed.

Lemma grows_update (sk : amap Joint) (k : Z) (f : Joint -> Joint) :
  tame f -> grows sk (update_joint k f sk).
Proof.
  intros Ht. unfold update_joint, update. destruct (find k sk) eqn:E; [|reflexivity].
  now apply grows_insert.
Qed.

Lemma grows_parent_of sk sk' k : grows sk sk' -> parent_of sk' k = parent_of sk k.
Proof.
  intros [S _]. specialize (S k). unfold parent_of.
  destruct (find k sk), (find k sk'); simpl in *; try discriminate; [|reflexivity].
  unfold shape in S. now injection S as _ ->.
Qed.

Lemma linked_cons2 sk a b l :
  linked sk (a :: b :: l) =
  match parent_of sk a with Some p => Z.eqb p b && linked sk (b :: l) | None => false end.
Proof. reflexivity. Qed.

Lemma grows_linked sk sk' l : grows sk sk' -> linked sk' l = linked sk l.
Proof.
  intros G. induction l as [|a [|b l] IH]; [reflexivity..|].
  rewrite !linked_cons2, (grows_parent_of _ _ a G), IH. reflexivity.
Qed.

Lemma active_at_flag sk k : active_at sk k = flag_at sk k 5.
Proof. unfold active_at, flag_at, isActive, IK_FLAG_ACTIVE. destruct (find k sk); [|reflexivity]. now rewrite has_flag_testbit. Qed.

Lemma grows_active sk sk' k : grows sk sk' -> active_at sk k = true -> active_at sk' k = true.
Proof. intros [_ A]. rewrite !active_at_flag. apply A. Qed.

Lemma grows_all_active sk sk' l :
  grows sk sk' -> forallb (active_at sk) l = true -> forallb (active_at sk') l = true.
Proof.
  intros G. induction l; simpl; [auto|]. rewrite !andb_true_iff. intros [A1 A2].
  split; [exact (grows_active _ _ _ G A1)|exact (IHl A2)].
Qed.

Lemma grows_chains_ok sk sk' chains : grows sk sk' -> chains_ok sk chains -> chains_ok sk' chains.
Proof.
  intros G [So H]. split; [exact So|]. intros key chain F.
  destruct (H key chain F) as (Hd & Hl & Ha). repeat split; [exact Hd| |].
  - now rewrite (grows_linked _ _ _ G).
  - exact (grows_all_active _ _ _ G Ha).
Qed.

Lemma same_shape_ids_match sk sk' : same_shape sk sk' -> ids_match sk -> ids_match sk'.
Proof.
  intros S I k j F. specialize (S k). rewrite F in S.
  destruct (find k sk) eqn:E; [|discriminate]. simpl in S. unfold shape in S.
  injection S as Hid _. rewrite Hid. now apply I.
Qed.

Lemma grows_ids_match sk sk' : grows sk sk' -> ids_match sk -> ids_match sk'.
Proof. intros [S _]. now apply same_shape_ids_match. Qed.

Lemma same_shape_found sk sk' k j :
  same_shape sk sk' -> find k sk = Some j -> exists j', find k sk' = Some j' /\ shape j' = shape j.
Proof.
  intros S F. specialize (S k). rewrite F in S.
  destruct (find k sk') as [j'|]; [|discriminate]. exists j'. split; [reflexivity|]. simpl in S. congruence.
Qed.

Lemma same_shape_found_r sk sk' k j' :
  same_shape sk sk' -> find k sk' = Some j' -> exists j, find k sk = Some j /\ shape j' = shape j.
Proof.
  intros S F. specialize (S k). rewrite F in S.
  destruct (find k sk) as [j|]; [|discriminate]. exists j. split; [reflexivity|]. simpl in S. congruence.
Qed.

(** The forest invariant depends on the keys, parents and children only:
    a sorted map of the same shape is a forest as well. *)
Lemma same_shape_wf sk sk' : same_shape sk sk' -> sorted sk' -> skeleton_wf sk -> skeleton_wf sk'.
Proof.
  intros S So' (_ & Hp & Hc & Hnd & R & HR). split; [exact So'|split; [|split; [|split]]].
  - intros k j' p F' P'. destruct (same_shape_found_r _ _ _ _ S F') as (j & F & E).
    injection E as _ Ep _. rewrite Ep in P'. destruct (Hp _ _ _ F P') as (pj & Fp & Hin).
    destruct (same_shape_found _ _ _ _ S Fp) as (pj' & Fp' & E2). injection E2 as _ _ Ec.
    exists pj'. split; [exact Fp'|now rewrite Ec].
  - intros k j' c F' Hin. destruct (same_shape_found_r _ _ _ _ S F') as (j & F & E).
    injection E as _ _ Ec. rewrite Ec in Hin. destruct (Hc _ _ _ F Hin) as (cj & Fc & Pc).
    destruct (same_shape_found _ _ _ _ S Fc) as (cj' & Fc' & E2). injection E2 as _ Ep _.
    exists cj'. split; [exact Fc'|now rewrite Ep].
  - intros k j' F'. destruct (same_shape_found_r _ _ _ _ S F') as (j & F & E).
    injection E as _ _ Ec. rewrite Ec. exact (Hnd _ _ F).
  - exists R. intros k j' p F' P'. destruct (same_shape_found_r _ _ _ _ S F') as (j & F & E).
    injection E as _ Ep _. rewrite Ep in P'. exact (HR _ _ _ F P').
Qed.

Lemma isActive_lor j x : isActive j = true -> isActive (with_ik_flags j (Z.lor (j_ik_flags j) x)) = true.
Proof.
  unfold isActive, IK_FLAG_ACTIVE. rewrite !has_flag_testbit by lia.
  unfold with_ik_flags, with_flags. cbn [j_ik_flags]. rewrite Z.lor_spec.
  intros ->. reflexivity.
Qed.

Lemma isActive_activate j : isActive (activate j) = true.
Proof.
  unfold isActive, activate, IK_FLAG_ACTIVE. rewrite !has_flag_testbit by lia.
  unfold with_ik_flags, with_flags. cbn [j_ik_flags]. rewrite Z.lor_spec.
  apply orb_true_iff. right. reflexivity.
Qed.

(** Setting bits with [Z.lor] keeps the bits already set. *)
Lemma testbit_lor_l f x n : Z.testbit f n = true -> Z.testbit (Z.lor f x) n = true.
Proof. intros H. now rewrite Z.lor_spec, H. Qed.

Lemma tame_activate : tame activate.
Proof. split; [reflexivity|intros j n; apply testbit_lor_l]. Qed.

Lemma tame_flagForHarvest : tame flagForHarvest.
Proof. split; [reflexivity|intros j n; apply testbit_lor_l]. Qed.

Lemma tame_setConfig k c : tame (fun j => setConfig j k c).
Proof. split; [reflexivity|auto]. Qed.

Lemma tame_compose f g : tame f -> tame g -> tame (fun j => f (g j)).
Proof. intros [Sf Af] [Sg Ag]. split; [intros j; now rewrite Sf|auto]. Qed.

Section TameLibm.
Context {L : Libm}.

Lemma tame_lockLocalRot q : tame (fun j => lockLocalRot j q).
Proof.
  split; intros j; unfold lockLocalRot; destruct (j_parent j); try reflexivity;
    intros n H; apply testbit_lor_l, testbit_lor_l, H.
Qed.

Lemma tame_setLocalPos p : tame (fun j => setLocalPos j p).
Proof. split; [reflexivity|auto]. Qed.

Lemma tame_setLocalScale sc : tame (fun j => setLocalScale j sc).
Proof. split; [reflexivity|auto]. Qed.

End TameLibm.

#[export] Hint Resolve tame_activate tame_flagForHarvest tame_setConfig tame_compose
  tame_lockLocalRot tame_setLocalPos tame_setLocalScale : llik.

(** ** [buildChain] *)

Lemma linked_snoc sk l x k :
  linked sk (l ++ [x]) = true -> parent_of sk x = Some k -> linked sk (l ++ [x; k]) = true.
Proof.
  intros Hl Hp. induction l as [|a [|b l] IH].
  - simpl. rewrite Hp, Z.eqb_refl. reflexivity.
  - simpl in *. destruct (parent_of sk a); [|discriminate].
    apply andb_true_iff in Hl as [-> _]. simpl. rewrite Hp, Z.eqb_refl. reflexivity.
  - change ((a :: b :: l) ++ [x]) with (a :: b :: (l ++ [x])) in Hl.
    change ((a :: b :: l) ++ [x; k]) with (a :: b :: (l ++ [x; k])).
    rewrite linked_cons2 in *. destruct (parent_of sk a); [|discriminate].
    apply andb_true_iff in Hl as [-> Hl]. exact (IH Hl).
Qed.

Lemma active_at_insert_activate sk k j : active_at (insert k (activate j) sk) k = true.
Proof. unfold active_at. rewrite find_insert_eq. apply isActive_activate. Qed.

Lemma parent_of_insert_activate sk k j : parent_of (insert k (activate j) sk) k = j_parent j.
Proof. unfold parent_of. now rewrite find_insert_eq. Qed.

(** One step of the walk: the joint at [k] is appended and activated. *)
Lemma walk_step sk pre x k j :
  find k sk = Some j -> parent_of sk x = Some k ->
  linked sk (pre ++ [x]) = true -> forallb (active_at sk) (pre ++ [x]) = true ->
  let sk1 := insert k (activate j) sk in
  grows sk sk1 /\ linked sk1 ((pre ++ [x]) ++ [k]) = true /\
  forallb (active_at sk1) ((pre ++ [x]) ++ [k]) = true.
Proof.
  intros Hf Hp Hl Ha sk1. assert (G : grows sk sk1) by (apply grows_insert; auto with llik).
  split; [exact G|split].
  - rewrite (grows_linked _ _ _ G), <- app_assoc. now apply linked_snoc.
  - rewrite forallb_app, (grows_all_active _ _ _ G Ha). cbn [forallb].
    unfold sk1. now rewrite active_at_insert_activate.
Qed.

Lemma buildChain_loop_ok s n sk cur pre x subs sk' chain' subs' :
  buildChain_loop s n sk cur (pre ++ [x]) subs = Some (sk', chain', subs') ->
  linked sk (pre ++ [x]) = true -> forallb (active_at sk) (pre ++ [x]) = true ->
  (forall k, cur = Some k -> parent_of sk x = Some k) ->
  grows sk sk' /\ (exists ext, chain' = pre ++ x :: ext /\ (length ext <= n)%nat) /\
  linked sk' chain' = true /\ forallb (active_at sk') chain' = true.
Proof.
  revert sk cur pre x subs. induction n as [|n IH]; intros sk cur pre x subs E Hl Ha Hc.
  { simpl in E. injection E as <- <- <-. split; [reflexivity|]. split; [|auto].
    exists []. auto. }
  destruct cur as [k|]; cycle 1.
  { simpl in E. injection E as <- <- <-. split; [reflexivity|]. split; [|auto].
    exists []. simpl. split; [reflexivity|lia]. }
  simpl in E. destruct (find k sk) as [j|] eqn:F; [|discriminate].
  destruct (walk_step sk pre x k j F (Hc k eq_refl) Hl Ha) as (G & Hl1 & Ha1).
  assert (Fin : grows sk (insert k (activate j) sk) /\
     (exists ext, (pre ++ [x]) ++ [k] = pre ++ x :: ext /\ (length ext <= S n)%nat) /\
     linked (insert k (activate j) sk) ((pre ++ [x]) ++ [k]) = true /\
     forallb (active_at (insert k (activate j) sk)) ((pre ++ [x]) ++ [k]) = true).
  { split; [exact G|split; [|auto]]. exists [k]. rewrite <- app_assoc. simpl. split; [reflexivity|lia]. }
  destruct (chain_stop s j) as [[|]|].
  - injection E as <- <- _. exact Fin.
  - injection E as <- <- _. exact Fin.
  - destruct (IH _ _ _ _ _ E Hl1 Ha1) as (G' & (ext & -> & Hlen) & Hl' & Ha');
      [intros p Hp; rewrite parent_of_insert_activate; exact Hp|].
    split; [now transitivity (insert k (activate j) sk)|]. split; [|auto].
    exists (k :: ext). rewrite <- app_assoc. simpl. split; [reflexivity|lia].
Qed.

Lemma buildChain_ok s sk k L subs sk' chain subs' :
  buildChain s sk k L subs = Some (sk', chain, subs') ->
  grows sk sk' /\ chain_ok sk' k chain /\ (length chain <= Nat.max 1 (Z.to_nat L))%nat.
Proof.
  unfold buildChain. destruct (find k sk) as [j|] eqn:F; [|discriminate]. intros E.
  assert (G : grows sk (insert k (activate j) sk)) by (apply grows_insert; auto with llik).
  destruct (buildChain_loop_ok s _ _ _ [] k _ _ _ _ E) as (G' & (ext & -> & Hlen) & Hl & Ha).
  - reflexivity.
  - simpl. now rewrite active_at_insert_activate.
  - intros p Hp. now rewrite parent_of_insert_activate.
  - split; [now transitivity (insert k (activate j) sk)|].
    split; [split; [reflexivity|split; assumption]|].
    cbn [app length] in *.
    destruct (Nat.max_spec 1 (Z.to_nat L)) as [[? ->]|[? ->]]; lia.
Qed.

(** Every parent a joint names is in the skeleton. *)
Definition parents_closed (sk : amap Joint) : Prop :=
  forall k j p, find k sk = Some j -> j_parent j = Some p -> exists pj, find p sk = Some pj.

Lemma grows_find_some sk sk' k : grows sk sk' -> (exists j, find k sk = Some j) -> exists j', find k sk' = Some j'.
Proof.
  intros [S _] [j F]. specialize (S k). rewrite F in S.
  destruct (find k sk') as [j'|]; [exists j'; reflexivity|discriminate].
Qed.

Lemma grows_parents_closed sk sk' : grows sk sk' -> parents_closed sk -> parents_closed sk'.
Proof.
  intros G P k j' p F' Hp. destruct G as [S A]. pose proof (S k) as Sk. rewrite F' in Sk.
  destruct (find k sk) as [j|] eqn:F; [|discriminate]. simpl in Sk. unfold shape in Sk.
  injection Sk as _ Hpar. rewrite Hp in Hpar.
  apply (grows_find_some sk); [split; auto|]. exact (P k j p F (eq_sym Hpar)).
Qed.

Lemma buildChain_loop_some s n sk cur chain subs :
  parents_closed sk -> (forall k, cur = Some k -> exists j, find k sk = Some j) ->
  exists r, buildChain_loop s n sk cur chain subs = Some r.
Proof.
  revert sk cur chain subs. induction n as [|n IH]; intros sk cur chain subs P C; [eexists; reflexivity|].
  destruct cur as [k|]; [|eexists; reflexivity]. destruct (C k eq_refl) as [j F].
  simpl. rewrite F.
  assert (G : grows sk (insert k (activate j) sk)) by (apply grows_insert; auto with llik).
  destruct (chain_stop s j) as [[|]|]; try (eexists; reflexivity).
  apply IH; [exact (grows_parents_closed _ _ G P)|]. intros p Hp.
  apply (grows_find_some sk); [exact G|]. exact (P k j p F Hp).
Qed.

Theorem buildChain_total_aux s sk k L subs :
  parents_closed sk -> (exists j, find k sk = Some j) -> exists r, buildChain s sk k L subs = Some r.
Proof.
  intros P [j F]. unfold buildChain. rewrite F.
  assert (G : grows sk (insert k (activate j) sk)) by (apply grows_insert; auto with llik).
  apply buildChain_loop_some; [exact (grows_parents_closed _ _ G P)|].
  intros p Hp. apply (grows_find_some sk); [exact G|]. exact (P k j p F Hp).
Qed.

(** ** The chain map through [rebuildAllChains] *)

Lemma grows_insert_from sk acc k j f :
  find k sk = Some j -> tame f -> grows sk acc -> grows sk (insert k (f j) acc).
Proof.
  intros F [Ts Ta] [S A]. split; [intros k'|intros k' n].
  - rewrite find_insert. destruct (Z.eqb_spec k k') as [<-|]; [|apply S].
    rewrite F. simpl. now rewrite Ts.
  - unfold flag_at in *. rewrite find_insert. destruct (Z.eqb_spec k k') as [<-|]; [|apply A].
    rewrite F. apply Ta.
Qed.

Lemma grows_update_r sk sk' k f : tame f -> grows sk sk' -> grows sk (update_joint k f sk').
Proof. intros T G. transitivity sk'; [exact G|]. now apply grows_update. Qed.

Lemma sorted_update_joint sk k f : sorted sk -> sorted (update_joint k f sk).
Proof. intros H. unfold update_joint, update. destruct (find k sk); auto with llik. Qed.

Lemma grows_refl sk : grows sk sk.
Proof. reflexivity. Qed.

#[export] Hint Resolve grows_update_r sorted_update_joint grows_refl : llik.

Lemma chains_ok_insert sk chains k chain :
  chains_ok sk chains -> chain_ok sk k chain -> chains_ok sk (insert k chain chains).
Proof.
  intros [So H] Hc. split; [auto with llik|]. intros key ch F. rewrite find_insert in F.
  destruct (Z.eqb_spec k key) as [<-|]; [injection F as <-; exact Hc|exact (H _ _ F)].
Qed.

Lemma chains_ok_erase sk chains k : chains_ok sk chains -> chains_ok sk (erase k chains).
Proof.
  intros [So H]. split; [auto with llik|]. intros key ch F.
  destruct (Z.eq_dec k key) as [<-|N]; [now rewrite find_erase_eq in F|].
  rewrite find_erase_ne in F by assumption. exact (H _ _ F).
Qed.

Lemma linked_join sk l x d :
  linked sk (l ++ [x]) = true -> linked sk (x :: d) = true -> linked sk (l ++ x :: d) = true.
Proof.
  intros Hl Hd. induction l as [|a [|b l] IH]; [exact Hd| |].
  - simpl in Hl |- *. destruct (parent_of sk a); [|discriminate].
    apply andb_true_iff in Hl as [-> _]. exact Hd.
  - change ((a :: b :: l) ++ [x]) with (a :: b :: (l ++ [x])) in Hl.
    change ((a :: b :: l) ++ x :: d) with (a :: b :: (l ++ x :: d)).
    rewrite linked_cons2 in *. destruct (parent_of sk a); [|discriminate].
    apply andb_true_iff in Hl as [-> Hl]. exact (IH Hl).
Qed.

(** The chain that [find_recipient] picks ends at a joint with id [id]. *)
Lemma find_recipient_spec sk id chains key :
  find_recipient sk id chains = Some key ->
  exists r inner ij, In (key, r) chains /\ last_error r = Some inner /\
    find inner sk = Some ij /\ j_id ij = id.
Proof.
  induction chains as [|[k0 c0] rest IH]; simpl; [discriminate|].
  destruct (last_error c0) as [inner|] eqn:El;
    [destruct (find inner sk) as [ij|] eqn:Fi; [destruct (Z.eqb_spec (j_id ij) id)|]|];
    intros H; try (destruct (IH H) as (r & i & j & Hin & ?); exists r, i, j; tauto).
  injection H as <-. exists c0, inner, ij. auto.
Qed.

Definition build_inv (sk0 : amap Joint) (b : Build) : Prop :=
  sorted (b_skeleton b) /\ grows sk0 (b_skeleton b) /\ chains_ok (b_skeleton b) (b_chains b).

Lemma build_inv_sk sk0 b sk' cf subs roots :
  build_inv sk0 b -> sorted sk' -> grows (b_skeleton b) sk' ->
  build_inv sk0 (mkBuild sk' cf (b_chains b) subs roots).
Proof.
  intros (So & G & C) Hs G'. split; [exact Hs|split; simpl].
  - now transitivity (b_skeleton b).
  - exact (grows_chains_ok _ _ _ G' C).
Qed.

Lemma buildChain_loop_sorted s n sk cur chain subs sk' chain' subs' :
  sorted sk -> buildChain_loop s n sk cur chain subs = Some (sk', chain', subs') -> sorted sk'.
Proof.
  revert sk cur chain subs. induction n as [|n IH]; intros sk cur chain subs So E.
  { simpl in E. congruence. }
  destruct cur as [k|]; simpl in E; [|congruence].
  destruct (find k sk); [|discriminate].
  destruct (chain_stop s j) as [[|]|]; try (injection E as <- _ _; auto with llik).
  exact (IH _ _ _ _ (insert_sorted _ _ _ So) E).
Qed.

Lemma buildChain_sorted s sk k L subs sk' chain subs' :
  sorted sk -> buildChain s sk k L subs = Some (sk', chain, subs') -> sorted sk'.
Proof.
  unfold buildChain. intros So E. destruct (find k sk); [|discriminate].
  exact (buildChain_loop_sorted _ _ _ _ _ _ _ _ _ (insert_sorted _ _ _ So) E).
Qed.

Section Invariant.
Context {L : Libm}.
Variable s : Solver.
Variable sk0 : amap Joint.
Hypothesis Hids : ids_match sk0.

Lemma add_chain_inv k limit b b' :
  build_inv sk0 b -> add_chain s k limit b = Some b' -> build_inv sk0 b'.
Proof.
  intros (So & G & C) E. unfold add_chain in E.
  destruct (buildChain s _ k limit _) as [[[sk chain] subs]|] eqn:Eb; [|discriminate].
  injection E as <-. destruct (buildChain_ok _ _ _ _ _ _ _ _ Eb) as (G' & Hc & _).
  split; [exact (buildChain_sorted _ _ _ _ _ _ _ _ So Eb)|split; simpl]; [now transitivity (b_skeleton b)|].
  apply chains_ok_insert; [exact (grows_chains_ok _ _ _ G' C)|exact Hc].
Qed.

Lemma build_inv_update k f b : tame f -> build_inv sk0 b -> build_inv sk0 (update_build k f b).
Proof.
  intros T I. pose proof I as (So & _ & _). apply build_inv_sk; auto with llik.
Qed.

Lemma build_inv_roots b roots :
  build_inv sk0 b -> build_inv sk0 (mkBuild (b_skeleton b) (b_configs b) (b_chains b) (b_sub_bases b) roots).
Proof. intros I. pose proof I as (So & _ & _). apply build_inv_sk; auto with llik. Qed.

#[local] Hint Resolve build_inv_update build_inv_roots : llik.

Lemma apply_root_config_inv k c b : build_inv sk0 b -> build_inv sk0 (apply_root_config k c b).
Proof.
  intros I. unfold apply_root_config.
  destruct (has_flag (cfg_flags c) MASK_ROT), (has_flag (cfg_flags c) MASK_POS),
    (has_flag (cfg_flags c) CONFIG_FLAG_LOCAL_SCALE); auto 7 with llik.
Qed.

Lemma fixup_inv k c b b' :
  build_inv sk0 b -> sequential_effector_fixup k c b = Some b' -> build_inv sk0 b'.
Proof.
  intros I E. unfold sequential_effector_fixup in E.
  repeat match type of E with context [match ?x with _ => _ end] => destruct x end;
    try discriminate E; injection E as <-; exact I.
Qed.

Lemma config_chain_inv k c b b' :
  build_inv sk0 b -> config_chain s k c b = Some b' -> build_inv sk0 b'.
Proof.
  intros I E. unfold config_chain in E. destruct (hasTargetPos c).
  - destruct (add_chain s k _ b) as [b1|] eqn:E1; [|discriminate].
    exact (fixup_inv _ _ _ _ (add_chain_inv _ _ _ _ I E1) E).
  - destruct (hasTargetRot c); [exact (add_chain_inv _ _ _ _ I E)|congruence].
Qed.

Lemma config_step_inv b k b' :
  build_inv sk0 b -> config_step s b k = Some b' -> build_inv sk0 b'.
Proof.
  intros I E. unfold config_step in E.
  destruct (find k (b_configs b)) as [c|]; [|discriminate].
  destruct (find k (b_skeleton b)) as [j0|] eqn:F; [|congruence].
  pose proof I as (So & _ & _).
  assert (I1 : build_inv sk0 (with_skeleton b (insert k (setConfig j0 k c) (b_skeleton b)))).
  { apply build_inv_sk; auto with llik.
    apply (grows_insert _ _ _ (fun j => setConfig j k c)); auto with llik. }
  destruct (Z.eqb (j_id j0) (s_root_id s)); [injection E as <-; now apply apply_root_config_inv|].
  assert (I2 : build_inv sk0 (if hasLocalRot c
     then update_build k (fun j => lockLocalRot j (cfg_local_rot c)) (with_skeleton b (insert k (setConfig j0 k c) (b_skeleton b)))
     else with_skeleton b (insert k (setConfig j0 k c) (b_skeleton b)))).
  { destruct (hasLocalRot c); auto with llik. }
  destruct (hasDelegated c); [injection E as <-; exact I2|].
  destruct (config_chain s k c _) as [b3|] eqn:E3; [|discriminate].
  injection E as <-. pose proof (config_chain_inv _ _ _ _ I2 E3) as I3.
  unfold config_local. destruct (hasLocalPos c), (hasLocalScale c); auto with llik.
Qed.

Lemma drain_sub_bases_inv fuel b b' :
  build_inv sk0 b -> drain_sub_bases s fuel b = Some b' -> build_inv sk0 b'.
Proof.
  revert b. induction fuel as [|fuel IH]; intros b I E; simpl in E;
    destruct (b_sub_bases b); try (injection E as <-; exact I); [discriminate|].
  destruct (sub_base_round s b) as [b1|] eqn:E1; [|discriminate].
  apply (IH b1); [|exact E]. unfold sub_base_round in E1.
  refine (fold_opt_inv _ _ _ _ _ _ _ E1); [intros x id y Ix Ey; exact (add_chain_inv _ _ _ _ Ix Ey)|].
  pose proof I as (So & _ & _). apply build_inv_sk; auto with llik.
Qed.

Lemma apply_join_inv b id b' :
  build_inv sk0 b -> apply_join b id = Some b' -> build_inv sk0 b'.
Proof.
  intros I E. pose proof I as (So & G & [Sc C]). unfold apply_join in E.
  destruct (find_recipient _ id _) as [key|] eqn:Fr; [|injection E as <-; exact I].
  destruct (find key (b_chains b)) as [r|] eqn:Fk; [|discriminate].
  destruct (find id (b_chains b)) as [donor|] eqn:Fd; [|discriminate].
  injection E as <-. split; [exact So|split; [exact G|]]. simpl.
  apply chains_ok_erase, chains_ok_insert; [split; assumption|].
  destruct (find_recipient_spec _ _ _ _ Fr) as (r' & inner & ij & Hin & Hl & Fi & Hid).
  rewrite (In_find _ _ _ Sc Hin) in Fk. injection Fk as <-.
  rewrite (grows_ids_match _ _ G Hids _ _ Fi) in Hid. subst inner.
  destruct (C key r' (In_find _ _ _ Sc Hin)) as (Hh & Hlk & Ha).
  destruct (C id donor Fd) as (Hhd & Hld & Had).
  destruct donor as [|d0 d]; [discriminate|]. injection Hhd as ->. cbn [tl].
  rewrite (last_error_snoc _ _ Hl) in Hh, Hlk, Ha |- *. rewrite <- app_assoc. simpl.
  split; [|split].
  - destruct (removelast r'); exact Hh.
  - exact (linked_join _ _ _ _ Hlk Hld).
  - rewrite forallb_app in *. simpl in *. apply andb_true_iff in Ha as [-> _].
    exact Had.
Qed.

End Invariant.

Lemma harvest_grows sk l acc sk' :
  (forall k j, In (k, j) l -> find k sk = Some j) -> grows sk sk' -> sorted sk' ->
  grows sk (snd (fold_left harvest_step l (acc, sk'))) /\
  sorted (snd (fold_left harvest_step l (acc, sk'))).
Proof.
  revert acc sk'. induction l as [|[k j] l IH]; intros acc sk' Hin G So; [auto|].
  simpl. assert (Hin' : forall k' j', In (k', j') l -> find k' sk = Some j') by (intros; apply Hin; now right).
  destruct (isActive j); apply IH; auto with llik.
  apply grows_insert_from; auto with llik. apply Hin. now left.
Qed.

Lemma collect_active_joints_grows sk :
  sorted sk -> grows sk (snd (collect_active_joints sk)) /\ sorted (snd (collect_active_joints sk)).
Proof.
  intros So. apply harvest_grows; [|reflexivity|exact So]. intros k j. now apply In_find.
Qed.

Lemma same_shape_trans a b c : same_shape a b -> same_shape b c -> same_shape a c.
Proof. intros S1 S2 k. now rewrite S2, S1. Qed.

Lemma same_shape_update sk k f :
  (forall j, shape (f j) = shape j) -> same_shape sk (update_joint k f sk).
Proof.
  intros T k'. unfold update_joint, update. destruct (find k sk) as [j|] eqn:F; [|reflexivity].
  rewrite find_insert. destruct (Z.eqb_spec k k') as [<-|]; [|reflexivity].
  rewrite F. simpl. now rewrite T.
Qed.

(** Resetting the old chains keeps every joint's id and parent. *)
Lemma reset_old_chains_shape s :
  sorted (s_skeleton s) ->
  sorted (reset_old_chains s) /\ same_shape (s_skeleton s) (reset_old_chains s).
Proof.
  intros So. unfold reset_old_chains.
  apply fold_left_inv; [|split; [exact So|intros k; reflexivity]].
  intros sk [key chain] I. apply fold_left_inv; [|exact I].
  intros sk1 k [So1 S1]. split; [auto with llik|].
  apply (same_shape_trans _ _ _ S1), same_shape_update. reflexivity.
Qed.

Section Rebuilt.
Context {L : Libm}.

(** The state [rebuildAllChains] ends in: the build after its last step
    satisfies the builder's invariant, and the new solver holds its
    harvested skeleton and its chains. *)
Lemma rebuildAllChains_steps (s s' : Solver) :
  sorted (s_skeleton s) -> ids_match (s_skeleton s) -> rebuildAllChains s = Some s' ->
  exists b3, build_inv (reset_old_chains s) b3 /\
    s_skeleton s' = snd (collect_active_joints (b_skeleton b3)) /\ s_chain_map s' = b_chains b3.
Proof.
  intros So Hids E. unfold rebuildAllChains in E.
  destruct (reset_old_chains_shape s So) as [So0 S0].
  set (sk0 := reset_old_chains s) in *.
  assert (Hids0 : ids_match sk0) by exact (same_shape_ids_match _ _ S0 Hids).
  assert (I0 : build_inv sk0 (mkBuild sk0 (s_joint_configs s) [] [] [])).
  { split; [exact So0|split; [reflexivity|split; [constructor|discriminate]]]. }
  destruct (fold_opt (config_step s) _ _) as [b1|] eqn:E1; [|discriminate].
  destruct (drain_sub_bases s _ b1) as [b2|] eqn:E2; [|discriminate].
  destruct (find_joins s b2) as [joins|]; [|discriminate].
  destruct (fold_opt apply_join joins b2) as [b3|] eqn:E3; [|discriminate].
  pose proof (fold_opt_inv _ _ _ _ _ (config_step_inv s sk0) I0 E1) as I1.
  pose proof (drain_sub_bases_inv s sk0 _ _ _ I1 E2) as I2.
  pose proof (fold_opt_inv _ _ _ _ _ (apply_join_inv sk0 Hids0) I2 E3) as I3.
  exists b3. split; [exact I3|].
  destruct (collect_active_joints (b_skeleton b3)) as [active sk] eqn:Ec.
  injection E as <-. split; reflexivity.
Qed.

(** C1: After [rebuildAllChains], every chain of [mChainMap] starts at its
    own key, follows parent links from joint to joint, and consists of
    active joints; this holds whenever every joint's id is its key. *)
Theorem rebuildAllChains_chains_ok (s s' : Solver) :
  sorted (s_skeleton s) -> ids_match (s_skeleton s) -> rebuildAllChains s = Some s' ->
  chains_ok (s_skeleton s') (s_chain_map s').
Proof.
  intros So Hids E.
  destruct (rebuildAllChains_steps s s' So Hids E) as (b3 & (So3 & _ & C3) & -> & ->).
  destruct (collect_active_joints_grows _ So3) as [G _].
  exact (grows_chains_ok _ _ _ G C3).
Qed.

(** [rebuildAllChains] keeps every joint's id, parent and children, and the
    skeleton map sorted. *)
Lemma rebuildAllChains_shape (s s' : Solver) :
  sorted (s_skeleton s) -> ids_match (s_skeleton s) -> rebuildAllChains s = Some s' ->
  same_shape (s_skeleton s) (s_skeleton s') /\ sorted (s_skeleton s').
Proof.
  intros So Hids E.
  destruct (rebuildAllChains_steps s s' So Hids E) as (b3 & (So3 & [S3 _] & _) & -> & _).
  destruct (collect_active_joints_grows _ So3) as [[S4 _] So4]. split; [|exact So4].
  exact (same_shape_trans _ _ _ (proj2 (reset_old_chains_shape s So)) (same_shape_trans _ _ _ S3 S4)).
Qed.

Lemma find_update_joint_ne sk k x f : k <> x -> find x (update_joint k f sk) = find x sk.
Proof. intros N. unfold update_joint, update. destruct (find k sk); [now apply find_insert_ne|reflexivity]. Qed.

(** Resetting the old chains leaves a joint that is on none of them as
    it is. *)
Lemma reset_old_chains_off (s : Solver) (x : Z) :
  (forall key chain, In (key, chain) (s_chain_map s) -> ~ In x chain) ->
  find x (reset_old_chains s) = find x (s_skeleton s).
Proof.
  unfold reset_old_chains. generalize (s_skeleton s). induction (s_chain_map s) as [|[key chain] m IH];
    intros sk Off; [reflexivity|]. cbn [fold_left]. rewrite IH by (intros k c H; apply (Off k c); now right).
  assert (Nx : ~ In x chain) by (apply (Off key); now left). clear IH Off. revert sk.
  induction chain as [|k chain IHc]; intros sk; [reflexivity|]. cbn [fold_left].
  rewrite IHc by (intros H; apply Nx; now right). apply find_update_joint_ne. intros ->. apply Nx. now left.
Qed.

(** Every bit of [mIkFlags] set on a joint that is on none of the old
    chains is still set after [rebuildAllChains]: only the old chains are
    reset, and every later step only sets bits. *)
Lemma rebuildAllChains_flags_kept (s s' : Solver) (x : Z) (jx : Joint) :
  sorted (s_skeleton s) -> ids_match (s_skeleton s) -> rebuildAllChains s = Some s' ->
  find x (s_skeleton s) = Some jx ->
  (forall key chain, In (key, chain) (s_chain_map s) -> ~ In x chain) ->
  exists jx', find x (s_skeleton s') = Some jx' /\
    forall n, Z.testbit (j_ik_flags jx) n = true -> Z.testbit (j_ik_flags jx') n = true.
Proof.
  intros So Hids E F Off.
  destruct (rebuildAllChains_steps s s' So Hids E) as (b3 & (So3 & G3 & _) & -> & _).
  destruct (collect_active_joints_grows _ So3) as [G4 _].
  assert (G : grows (reset_old_chains s) (snd (collect_active_joints (b_skeleton b3))))
    by (now transitivity (b_skeleton b3)).
  rewrite <- (reset_old_chains_off s x Off) in F.
  destruct (grows_find_some _ _ x G (ex_intro _ jx F)) as [jx' F'].
  exists jx'. split; [exact F'|]. intros n B. destruct G as [_ A].
  specialize (A x n). unfold flag_at in A. rewrite F, F' in A. exact (A B).
Qed.

End Rebuilt.

(** ** A position target on a second root

    [sequential_effector_fixup] dereferences the parent of every joint
    with a position target (line 2981).  The configurations it writes keep
    the position target of every entry, so such an entry on a joint with
    no parent that is not the root is still there, and still not
    delegated, when its turn comes. *)

Section Crash.
Context {L : Libm}.
Variable s : Solver.
Variable x : Z.

(** The configuration at [x] asks for a position target and is not
    delegated. *)
Definition targeted (cf : amap Config) : Prop :=
  exists c, find x cf = Some c /\ hasTargetPos c = true /\ hasDelegated c = false.

Lemma setTargetPos_flags p c :
  hasTargetPos (setTargetPos p c) = true /\ hasDelegated (setTargetPos p c) = hasDelegated c.
Proof.
  unfold hasTargetPos, hasDelegated, setTargetPos, CONFIG_FLAG_TARGET_POS, CONFIG_FLAG_HAS_DELEGATED.
  cbn [cfg_flags]. rewrite !has_flag_lor by lia. split; [apply orb_true_r|].
  change (has_flag (Z.shiftl 1 4) (Z.shiftl 1 6)) with false. apply orb_false_r.
Qed.

Lemma joint_setTargetPos_targeted j pos cf cf' :
  joint_setTargetPos j pos cf = Some cf' -> targeted cf -> targeted cf'.
Proof.
  unfold joint_setTargetPos. destruct (hasPosTarget j); [|congruence].
  destruct (j_config j) as [key|]; [|discriminate]. destruct (find key cf) as [cfg|] eqn:Fk; [|discriminate].
  intros [= <-] (c & F & T & D). unfold targeted. destruct (Z.eqb_spec key x) as [<-|N].
  - rewrite F in Fk. injection Fk as <-. destruct (setTargetPos_flags pos c) as [T' D'].
    exists (setTargetPos pos c). rewrite find_insert_eq, D'. auto.
  - exists c. rewrite find_insert_ne by exact N. auto.
Qed.

Lemma fixup_targeted k c b b' :
  sequential_effector_fixup k c b = Some b' -> targeted (b_configs b) -> targeted (b_configs b').
Proof.
  unfold sequential_effector_fixup. destruct (find k (b_skeleton b)) as [j|]; [|discriminate].
  destruct (j_parent j) as [pk|]; [|discriminate]. destruct (find pk (b_skeleton b)) as [p|]; [|discriminate].
  destruct (hasPosTarget p); [|now intros [= <-]]. destruct (j_config p) as [pkey|]; [|discriminate].
  destruct (find pkey (b_configs b)) as [pc|]; [|discriminate]. cbv zeta.
  match goal with |- context [joint_setTargetPos p ?pos (b_configs b)] =>
    destruct (joint_setTargetPos p pos (b_configs b)) as [cf|] eqn:E; [|discriminate] end.
  intros [= <-]. exact (joint_setTargetPos_targeted _ _ _ _ E).
Qed.

Lemma add_chain_configs k limit b b' : add_chain s k limit b = Some b' -> b_configs b' = b_configs b.
Proof. unfold add_chain. destruct (buildChain _ _ _ _ _) as [[[? ?] ?]|]; [now intros [= <-]|discriminate]. Qed.

Lemma apply_root_config_configs k c b : b_configs (apply_root_config k c b) = b_configs b.
Proof.
  unfold apply_root_config. destruct (has_flag _ MASK_ROT), (has_flag _ MASK_POS),
    (has_flag _ CONFIG_FLAG_LOCAL_SCALE); reflexivity.
Qed.

Lemma config_step_targeted b y b' : config_step s b y = Some b' -> targeted (b_configs b) -> targeted (b_configs b').
Proof.
  unfold config_step. destruct (find y (b_configs b)) as [c|]; [|discriminate].
  destruct (find y (b_skeleton b)) as [j0|]; [|now intros [= <-]].
  destruct (Z.eqb _ _); [intros [= <-]; now rewrite apply_root_config_configs|].
  set (b1 := if hasLocalRot c then _ else _).
  assert (E1 : b_configs b1 = b_configs b) by (unfold b1; now destruct (hasLocalRot c)).
  destruct (hasDelegated c); [intros [= <-]; now rewrite E1|].
  destruct (config_chain s y c b1) as [b2|] eqn:E2; [|discriminate]. intros [= <-] T.
  assert (T2 : targeted (b_configs b2)).
  { unfold config_chain in E2. rewrite <- E1 in T. destruct (hasTargetPos c).
    - destruct (add_chain s y _ b1) as [b3|] eqn:E3; [|discriminate].
      rewrite <- (add_chain_configs _ _ _ _ E3) in T. exact (fixup_targeted _ _ _ _ E2 T).
    - destruct (hasTargetRot c); [now rewrite (add_chain_configs _ _ _ _ E2)|now injection E2 as <-]. }
  unfold config_local. now destruct (hasLocalPos c), (hasLocalScale c).
Qed.

Variable sk0 : amap Joint.
Variable jx : Joint.
Hypothesis Fx : find x sk0 = Some jx.
Hypothesis Px : j_parent jx = None.
Hypothesis Rx : j_id jx <> s_root_id s.

Lemma grows_second_root sk : grows sk0 sk -> exists j, find x sk = Some j /\ j_parent j = None /\ j_id j <> s_root_id s.
Proof.
  intros [S _]. destruct (same_shape_found _ _ _ _ S Fx) as (j & F & E). injection E as Ei Ep _.
  exists j. rewrite Ei, Ep. auto.
Qed.

(** The turn of [x] in the configuration loop crashes. *)
Lemma config_step_crash b : build_inv sk0 b /\ targeted (b_configs b) -> config_step s b x = None.
Proof.
  intros [I (c & Fc & T & D)]. pose proof I as (So & G & _).
  destruct (grows_second_root _ G) as (j0 & F0 & _ & R0). unfold config_step. rewrite Fc, F0.
  rewrite (proj2 (Z.eqb_neq _ _) R0), D.
  set (b1 := if hasLocalRot c then _ else _).
  assert (I1 : build_inv sk0 b1).
  { assert (I0 : build_inv sk0 (with_skeleton b (insert x (setConfig j0 x c) (b_skeleton b)))).
    { apply build_inv_sk; auto with llik. apply (grows_insert _ _ _ (fun j => setConfig j x c)); auto with llik. }
    unfold b1. destruct (hasLocalRot c); [apply build_inv_update; auto with llik|exact I0]. }
  unfold config_chain. rewrite T. destruct (add_chain s x _ b1) as [b2|] eqn:E2; [|reflexivity].
  destruct (add_chain_inv s sk0 _ _ _ _ I1 E2) as (_ & G2 & _).
  destruct (grows_second_root _ G2) as (j2 & F2 & P2 & _).
  unfold sequential_effector_fixup. rewrite F2, P2. reflexivity.
Qed.

End Crash.

(** C23: a joint with no parent that is not the root ([addJoint] accepts
    one whenever its parent id is below the root id), with a position
    target that is not delegated, makes [rebuildAllChains] dereference its
    null parent in the sequential-effector fixup (line 2981): the rebuild
    crashes, whatever the rest of the skeleton and the configurations. *)
Theorem rebuildAllChains_parentless_target_crash {L : Libm} (s : Solver) (x : Z) (jx : Joint) (c : Config) :
  sorted (s_skeleton s) -> find x (s_skeleton s) = Some jx -> j_parent jx = None -> j_id jx <> s_root_id s ->
  find x (s_joint_configs s) = Some c -> hasTargetPos c = true -> hasDelegated c = false ->
  rebuildAllChains s = None.
Proof.
  intros So F P R Fc T D. unfold rebuildAllChains.
  destruct (reset_old_chains_shape s So) as [So0 S0].
  destruct (same_shape_found _ _ _ _ S0 F) as (jx0 & F0 & E0). injection E0 as Ei Ep _.
  rewrite (fold_opt_none_inv (fun b => build_inv (reset_old_chains s) b /\ targeted x (b_configs b))
             _ _ _ x (find_keys _ _ _ Fc)); [reflexivity| | |].
  - intros b y b' [I Tg] E. split; [exact (config_step_inv s _ _ _ _ I E)|exact (config_step_targeted s x _ _ _ E Tg)].
  - apply (config_step_crash s x _ jx0 F0); congruence.
  - split; [split; [exact So0|split; [reflexivity|split; [constructor|discriminate]]]|now exists c].
Qed.

(** ** Concrete skeletons *)

(** [mJointConfigs = configs], as [updateJointConfigs] does. *)
Definition with_configs (s : Solver) (cs : amap Config) : Solver :=
  mkSolver (s_skeleton s) cs (s_chain_map s) (s_sub_base_ids s) (s_sub_root_ids s)
    (s_active_roots s) (s_active_joints s) (s_wrist_joints s) (s_acceptable_error s)
    (s_last_error s) (s_root_id s).

Definition target_config : Config := setTargetPos v_zero default_config.

(** The skeleton of the comment in [rebuildAllChains] (lines 2843-2856),
    with targets on 5, 11, 15, 18 and 20. *)
Definition comment_solver : Solver :=
  with_configs
    (build_solver 0 [(0,-1);(1,0);(2,1);(3,2);(4,3);(5,4);(6,2);(7,6);(8,7);(9,5);(10,9);
                     (11,10);(12,6);(13,12);(14,7);(15,14);(16,5);(17,16);(18,17);(19,2);(20,19)])
    (map (fun k => (k, target_config)) [5;11;15;18;20]).

(** Scenario 5 of the specification: root 0, A = 1, B = 2, and B's
    children C = 3 and D = 4 both targeted. *)
Definition split_solver : Solver :=
  with_configs (build_solver 0 [(0,-1);(1,0);(2,1);(3,2);(4,2)])
    (map (fun k => (k, target_config)) [3;4]).

Definition chains_summary (s : option Solver) : option (amap (list Z) * list Z * list Z) :=
  option_map (fun s => (s_chain_map s, keys (s_active_roots s), s_active_joints s)) s.

(** A decision procedure for [ids_match] on sorted skeletons. *)
Definition ids_matchb (sk : amap Joint) : bool := forallb (fun '(k, j) => Z.eqb (j_id j) k) sk.

Lemma ids_matchb_spec sk : ids_matchb sk = true -> ids_match sk.
Proof.
  intros H k j F. apply find_In in F. unfold ids_matchb in H. rewrite forallb_forall in H.
  apply Z.eqb_eq. exact (H (k, j) F).
Qed.

(** On the skeleton drawn in the comment of [rebuildAllChains] with
    targets on 5, 11, 15, 18 and 20, the code builds exactly the condensed
    chains the comment lists, the only active root is 0, and every joint
    but 8, 12 and 13 is active. *)
Theorem rebuildAllChains_comment_example :
  chains_summary (rebuildAllChains comment_solver) =
  Some ([(2, [2;1;0]); (5, [5;4;3;2]); (11, [11;10;9;5]); (15, [15;14;7;6;2]);
         (18, [18;17;16;5]); (20, [20;19;2])],
        [0],
        [0;1;2;3;4;5;6;7;9;10;11;14;15;16;17;18;19;20]).
Proof. vm_compute. reflexivity. Qed.

(** Scenario 5 of the specification (root 0, A = 1, B = 2 with
    targeted children C = 3 and D = 4): exactly the chains [C,B], [D,B] and
    [B,A,root], and the active roots are {root}. *)
Theorem rebuildAllChains_sub_base_split :
  chains_summary (rebuildAllChains split_solver) =
  Some ([(2, [2;1;0]); (3, [3;2]); (4, [4;2])], [0], [0;1;2;3;4]).
Proof. vm_compute. reflexivity. Qed.

Lemma rebuildAllChains_chains_ok_witness :
  exists s', rebuildAllChains comment_solver = Some s' /\
    chains_ok (s_skeleton s') (s_chain_map s').
Proof.
  eexists. split; [vm_compute; reflexivity|].
  apply (rebuildAllChains_chains_ok comment_solver).
  - apply sortedb_sorted. vm_compute. reflexivity.
  - apply ids_matchb_spec. vm_compute. reflexivity.
  - vm_compute. reflexivity.
Defined.

(** C18: A chain built by [buildChain] starts at the joint it was asked
    for, follows parent links, has only active joints, and holds at most
    [chain_length] joints (one when the limit is zero). *)
Theorem buildChain_bounded (s : Solver) (sk : amap Joint) (k L : Z) (subs : amap unit)
    (sk' : amap Joint) (chain : list Z) (subs' : amap unit) :
  buildChain s sk k L subs = Some (sk', chain, subs') ->
  chain_ok sk' k chain /\ (length chain <= Nat.max 1 (Z.to_nat L))%nat.
Proof. intros E. apply buildChain_ok in E. tauto. Qed.

Lemma buildChain_bounded_witness :
  exists sk' chain subs',
    buildChain comment_solver (s_skeleton comment_solver) 15 3 [] = Some (sk', chain, subs') /\
    chain_ok sk' 15 chain /\ (length chain <= Nat.max 1 (Z.to_nat 3))%nat.
Proof.
  destruct (buildChain comment_solver (s_skeleton comment_solver) 15 3 []) as [[[sk' chain] subs']|] eqn:E.
  - exists sk', chain, subs'. split; [reflexivity|]. exact (buildChain_bounded _ _ _ _ _ _ _ _ E).
  - vm_compute in E. discriminate.
Defined.

(** On a well-formed skeleton, [buildChain] from any joint of the
    skeleton returns: the walk up the parents never dereferences a
    missing joint and stops within the chain limit. *)
Theorem buildChain_total (s : Solver) (sk : amap Joint) (k L : Z) (subs : amap unit) (j : Joint) :
  skeleton_wf sk -> find k sk = Some j -> exists r, buildChain s sk k L subs = Some r.
Proof.
  intros (_ & P & _) F. apply buildChain_total_aux; [|eauto].
  intros k' j' p F' Hp. destruct (P k' j' p F' Hp) as (pj & Fp & _). eauto.
Qed.

Lemma buildChain_total_witness :
  exists r, buildChain split_solver (s_skeleton split_solver) 3 255 [] = Some r.
Proof.
  destruct (find 3 (s_skeleton split_solver)) as [j|] eqn:F; [|vm_compute in F; discriminate].
  apply (buildChain_total _ _ _ _ _ j); [|exact F].
  apply skeleton_wfb_spec. vm_compute. reflexivity.
Defined.



(** Root 0 and a second root 5, whose parent id [-3] is below the root id,
    with a position target on 5. *)
Definition second_root_solver : Solver :=
  with_configs (build_solver 0 [(0, -1); (5, -3)]%Z) [(5%Z, target_config)].

Lemma rebuildAllChains_parentless_target_crash_witness :
  exists jx, find 5 (s_skeleton second_root_solver) = Some jx /\ j_parent jx = None /\
    rebuildAllChains second_root_solver = None.
Proof.
  destruct (find 5 (s_skeleton second_root_solver)) as [j|] eqn:F; [|vm_compute in F; discriminate].
  assert (P : j_parent j = None) by (revert F; vm_compute; intros [= <-]; reflexivity).
  exists j. split; [reflexivity|split; [exact P|]].
  apply (rebuildAllChains_parentless_target_crash _ 5 j target_config);
    [apply sortedb_sorted; vm_compute; reflexivity|exact F|exact P
    |revert F; vm_compute; intros [= <-]; discriminate|vm_compute; reflexivity..].
Defined.
