(* ===== verification/Kinematics.v ===== *)
(** * Kinematics: world transforms, relaxation, reach and the read-back API

    The joint operations of llik.cpp that move a joint in the world frame
    from its parent ([Joint::reset], [relaxRot],
    [updatePosAndRotFromParent], [computePosFromParent],
    [computeWorldTipOffset], [shiftPos], [setWorldPos], [setWorldRot],
    [setLocalRot], [getPreScaledLocalPos]); the recursive walks over a
    joint's subtree ([resetRecursively], [relaxRotationsRecursively],
    [updateWorldTransformsRecursively],
    [recursiveComputeLongestChainLength]); and the [Solver] members built on
    them ([resetSkeleton], the relaxation of the active roots in
    [Solver::solve], [computeReach], [shiftChainToBase] and the getters the
    viewer reads the solution with).

    A C++ joint reaches its parent and children through shared pointers;
    here it names them by key in the skeleton map, and a walk threads the
    map through its steps.  Every walk reads the parent from the map as the
    walk has left it, which is what the C++ reads through [mParent] after
    the parent was visited.  The walks recurse on the children (downward)
    or on the parent (upward) with a fuel of one more than the number of
    joints; [descend_total] and [reach_loop_total] prove that this is
    enough on a well-formed skeleton, so [None] there only means a
    dangling key. *)

From Stdlib Require Import QArith ZArith List Bool Lia Lqa.
Import ListNotations.
From S2P Require Import Prelude F32 Vec Config OrdMap Constraints Skeleton Chains.

Local Open Scope llik_scope.

(** ** Joint operations *)

Section JointOps.
Context {L : Libm}.

(** [Joint::computePosFromParent] (lines 2054-2057). *)
Definition computePosFromParent (j p : Joint) : vec3 :=
  vadd (j_pos p) (vrot (j_local_pos j) (j_rot p)).

(** [Joint::relaxRot] (lines 1649-1667): blend an unlocked local rotation
    toward the identity, then recompute the world transform. *)
Definition relaxRot (j : Joint) (parent : option Joint) (blend_factor : Q) : Joint :=
  let lr := if localRotLocked j then j_local_rot j
            else qlerp blend_factor (j_local_rot j) q_identity in
  match parent with
  | Some p => with_rots (with_pos j (j_local_pos j) (computePosFromParent j p) (j_local_pos_length j))
                lr (qnormalize (qmul lr (j_rot p)))
  | None => with_rots (with_pos j (j_local_pos j) (j_local_pos j) (j_local_pos_length j)) lr lr
  end.

(** [Joint::updatePosAndRotFromParent] (lines 1947-1956). *)
Definition updatePosAndRotFromParent (j : Joint) (parent : option Joint) : Joint :=
  match parent with
  | Some p => with_rots (with_pos j (j_local_pos j) (computePosFromParent j p) (j_local_pos_length j))
                (j_local_rot j) (qnormalize (qmul (j_local_rot j) (j_rot p)))
  | None => j
  end.

(** [Joint::computeWorldEndPos] (lines 2133-2136): [mPos + mBone * mRot]. *)
Definition computeWorldEndPos (j : Joint) : vec3 := vadd (j_pos j) (vrot (j_bone j) (j_rot j)).

(** [Joint::computeWorldTipOffset] (lines 1713-1721): how far the joint is
    from where its parent puts it. *)
Definition computeWorldTipOffset (j : Joint) (parent : option Joint) : vec3 :=
  match parent with
  | Some p => vsub (j_pos j) (computePosFromParent j p)
  | None => j_pos j
  end.

(** [Joint::shiftPos] (lines 2059-2063) and [Joint::setWorldPos] (lines
    2138-2144). *)
Definition shiftPos (j : Joint) (shift : vec3) : Joint :=
  with_pos j (j_local_pos j) (vadd (j_pos j) shift) (j_local_pos_length j).

Definition setWorldPos (j : Joint) (pos : vec3) : Joint :=
  with_pos j (j_local_pos j) pos (j_local_pos_length j).

(** [Joint::setWorldRot] (lines 2156-2160) and [Joint::setLocalRot] (lines
    2162-2173), which leaves a locked rotation alone. *)
Definition setWorldRot (j : Joint) (rot : quat) : Joint := with_rots j (j_local_rot j) rot.

Definition setLocalRot (j : Joint) (new_local_rot : quat) : Joint :=
  if localRotLocked j then j else with_rots j new_local_rot (j_rot j).

(** [Joint::getPreScaledLocalPos] (lines 2194-2212): [mLocalPos] with the
    info's scale divided out, a component whose scale is not above the
    threshold giving zero. *)
Definition getPreScaledLocalPos (j : Joint) : vec3 :=
  let sc := info_scale (j_info j) in
  let inv (x : Q) := if MIN_INVERTABLE_SCALE <? x then (1 / x)%Q else 0%Q in
  scaledVec (j_local_pos j) (V3 (inv (vx sc)) (inv (vy sc)) (inv (vz sc))).

End JointOps.

(** ** Walks over a subtree *)

(** The parent a joint's [mParent] points to: [Some None] for a root,
    [None] when the key names no joint. *)
Definition parent_joint (sk : amap Joint) (j : Joint) : option (option Joint) :=
  match j_parent j with
  | Some p => pj <- find p sk ;; Some (Some pj)
  | None => Some None
  end.

Section Descend.
Variable visit : Joint -> option Joint -> Joint.
Variable go : Joint -> bool.

(** The shape of [resetRecursively], [relaxRotationsRecursively] and
    [updateWorldTransformsRecursively]: update the joint from its parent,
    then recurse, in order, into the children [go] selects. *)
Fixpoint descend (fuel : nat) (k : Z) (sk : amap Joint) : option (amap Joint) :=
  match fuel with
  | O => None
  | S f =>
      j <- find k sk ;;
      par <- parent_joint sk j ;;
      fold_opt (fun sk' c =>
          cj <- find c sk' ;;
          if go cj then descend f c sk' else Some sk')
        (j_children j) (insert k (visit j par) sk)
  end.
End Descend.

Section Walks.
Context {L : Libm}.

(** [Joint::resetRecursively] (lines 1669-1676): every child. *)
Definition resetRecursively (k : Z) (sk : amap Joint) : option (amap Joint) :=
  descend reset (fun _ => true) (S (length sk)) k sk.

(** [std::min(std::max(blend_factor, 0), 1)] (line 1680); clamping is
    idempotent, so clamping once at the top is clamping at every level. *)
Definition clamp_blend (t : Q) : Q :=
  let m := if t <? 0 then 0 else t in
  if 1 <? m then 1 else m.

(** [Joint::relaxRotationsRecursively] (lines 1678-1689): active children. *)
Definition relaxRotationsRecursively (blend_factor : Q) (k : Z) (sk : amap Joint)
    : option (amap Joint) :=
  let t := clamp_blend blend_factor in
  descend (fun j p => relaxRot j p t) isActive (S (length sk)) k sk.

(** [Joint::updateWorldTransformsRecursively] (lines 2104-2115). *)
Definition updateWorldTransformsRecursively (k : Z) (sk : amap Joint) : option (amap Joint) :=
  descend updatePosAndRotFromParent isActive (S (length sk)) k sk.

(** [Joint::recursiveComputeLongestChainLength] (lines 1691-1711): the
    longest sum of [mLocalPosLength] from the joint to a leaf, plus the
    leaf's bone. *)
Fixpoint longest_chain (sk : amap Joint) (fuel : nat) (k : Z) (length : Q) : option Q :=
  match fuel with
  | O => None
  | S f =>
      j <- find k sk ;;
      let len := (length + j_local_pos_length j)%Q in
      match j_children j with
      | [] => Some (len + vlength (j_bone j))%Q
      | cs => fold_opt (fun best c =>
                 cl <- longest_chain sk f c len ;;
                 Some (if best <? cl then cl else best)) cs len
      end
  end.

Definition recursiveComputeLongestChainLength (sk : amap Joint) (k : Z) (length : Q) : option Q :=
  longest_chain sk (S (List.length sk)) k length.

End Walks.

(** ** Solver members *)

Section SolverOps.
Context {L : Libm}.

(** [Solver::resetSkeleton] (lines 2548-2551): [resetRecursively] on the
    joint of the smallest id, [mSkeleton.begin()]; an empty skeleton has no
    [begin()] to dereference. *)
Definition resetSkeleton (s : Solver) : option Solver :=
  match s_skeleton s with
  | [] => None
  | (k, _) :: _ => sk <- resetRecursively k (s_skeleton s) ;; Some (set_skeleton s sk)
  end.

(** [INITIAL_RELAXATION_FACTOR] (line 3140). *)
Definition INITIAL_RELAXATION_FACTOR : Q := 1 # 4.

(** The relaxation of [Solver::solve] (lines 3141-3144): every active root
    relaxes its subtree.  [mActiveRoots] is a set of pointers, iterated in
    address order; the model goes in key order, which gives the same
    result because the subtrees of distinct roots are disjoint. *)
Definition relaxActiveRoots (s : Solver) : option (amap Joint) :=
  fold_opt (fun sk '(r, _) => relaxRotationsRecursively INITIAL_RELAXATION_FACTOR r sk)
    (s_active_roots s) (s_skeleton s).

(** [std::map::insert], which keeps the entry already under the key. *)
Definition insert_new {V} (k : Z) (v : V) (m : amap V) : amap V := if mem k m then m else insert k v m.

(** [Joint::collectActiveChildrenRecursively] (lines 2253-2263): add to
    [joint_map] every active child of the joint, by id, and recurse into
    it.  Nothing in these sources calls it. *)
Fixpoint collectActiveChildrenRecursively (sk : amap Joint) (fuel : nat) (k : Z) (joint_map : amap Joint)
    : option (amap Joint) :=
  match fuel with
  | O => None
  | S f =>
      j <- find k sk ;;
      fold_opt (fun m c =>
          cj <- find c sk ;;
          if isActive cj then collectActiveChildrenRecursively sk f c (insert_new (j_id cj) cj m) else Some m)
        (j_children j) joint_map
  end.

(** The [while (joint)] loop of [Solver::computeReach] (lines 2576-2587):
    add the joint's local position, step to the parent, and stop with the
    sum when the parent's [getID()] is the ancestor, or with zero when
    there is no parent. *)
Fixpoint reach_loop (sk : amap Joint) (fuel : nat) (ancestor : Z) (joint : Joint)
    (chain_reach : vec3) : option vec3 :=
  match fuel with
  | O => None
  | S f =>
      let chain_reach' := vadd chain_reach (j_local_pos joint) in
      match j_parent joint with
      | None => Some v_zero
      | Some p =>
          pj <- find p sk ;;
          if Z.eqb (j_id pj) ancestor then Some chain_reach'
          else reach_loop sk f ancestor pj chain_reach'
      end
  end.

(** [Solver::computeReach] (lines 2555-2592): the offset from the tip of
    [from_id] to the end of [to_id], the smaller id taken as the ancestor,
    negated when [from_id] is the larger. *)
Definition computeReach (s : Solver) (to_id from_id : Z) : option vec3 :=
  let sk := s_skeleton s in
  let swapped := Z.ltb to_id from_id in
  let ancestor := if swapped then to_id else from_id in
  let descendent := if swapped then from_id else to_id in
  reach <- match find descendent sk with
           | Some j => reach_loop sk (S (length sk)) ancestor j (j_bone j)
           | None => Some v_zero
           end ;;
  Some (if swapped then vneg reach else reach).

(** [Solver::shiftChainToBase] (lines 3370-3382): when the joint before the
    inner end has drifted from where its parent puts it by more than the
    acceptable error, shift every joint but the inner end back by the
    drift.  A chain of fewer than two joints indexes [chain[-1]]. *)
Definition shiftChainToBase (s : Solver) (sk : amap Joint) (chain : list Z) : option (amap Joint) :=
  if Nat.ltb (length chain) 2 then None
  else
    ic <- nth_error chain (length chain - 2) ;;
    j <- find ic sk ;;
    par <- parent_joint sk j ;;
    let offset := computeWorldTipOffset j par in
    let acc := s_acceptable_error s in
    if (acc * acc <? lengthSquared offset) then
      fold_opt (fun sk' i => jt <- find i sk' ;; Some (insert i (shiftPos jt (vneg offset)) sk'))
        (firstn (length chain - 1) chain) sk
    else Some sk.

(** The getters (lines 3221-3264): an unknown id reads as the default
    value, [LLVector3::zero] or [LLQuaternion::DEFAULT]; the transform
    getter reports it as [false], here [None]. *)
Definition getJointLocalPos (s : Solver) (joint_id : Z) : vec3 :=
  match find joint_id (s_skeleton s) with Some j => j_local_pos j | None => v_zero end.

Definition getJointLocalTransform (s : Solver) (joint_id : Z) : option (vec3 * quat) :=
  match find joint_id (s_skeleton s) with
  | Some j => Some (j_local_pos j, j_local_rot j)
  | None => None
  end.

Definition getJointWorldEndPos (s : Solver) (joint_id : Z) : vec3 :=
  match find joint_id (s_skeleton s) with Some j => computeWorldEndPos j | None => v_zero end.

Definition getJointWorldRot (s : Solver) (joint_id : Z) : quat :=
  match find joint_id (s_skeleton s) with Some j => j_rot j | None => q_identity end.

(** [Solver::resetJointGeometry] (lines 3266-3278). *)
Definition resetJointGeometry (s : Solver) (joint_id : Z) (constraint : option Constraint) : Solver :=
  match find joint_id (s_skeleton s) with
  | Some j => set_skeleton s (insert joint_id (with_constraint (resetFromInfo j) constraint) (s_skeleton s))
  | None => s
  end.

(** [Solver::addWristID] (lines 2639-2648). *)
Definition addWristID (s : Solver) (wrist_id : Z) : Solver :=
  if mem wrist_id (s_skeleton s) then
    mkSolver (s_skeleton s) (s_joint_configs s) (s_chain_map s) (s_sub_base_ids s)
      (s_sub_root_ids s) (s_active_roots s) (s_active_joints s) (s_wrist_joints s ++ [wrist_id])
      (s_acceptable_error s) (s_last_error s) (s_root_id s)
  else s.

End SolverOps.

(** ** Example skeletons *)

(** A three-joint limb 0-1-2 rooted at 0. *)
Definition arm_solver : Solver := build_solver 0 [(0, -1); (1, 0); (2, 1)]%Z.

(** A two-joint limb whose root has the larger id: [addJoint] takes the
    root 5 and then its child 3. *)
Definition inverted_solver : Solver := build_solver 5 [(5, -1); (3, 5)]%Z.

(** The same, with the root moved away from its rest position. *)
Definition moved_root_solver : Solver :=
  set_skeleton inverted_solver
    (update 5 (fun j => setWorldPos j (V3 9 9 9)) (s_skeleton inverted_solver)).

(** ** The subtree a walk covers *)

(** What a walk must not change of a joint: its id, its links and the
    test that selects it; nor of the skeleton map: its keys. *)
Definition links (go : Joint -> bool) (j : Joint) : Z * option Z * list Z * bool :=
  (j_id j, j_parent j, j_children j, go j).

Definition same_links (go : Joint -> bool) (sk sk' : amap Joint) : Prop :=
  @eq (list Z) (keys sk') (keys sk) /\
  forall k, option_map (links go) (find k sk') = option_map (links go) (find k sk).

(** [anc sk a x]: following parents from [x] reaches [a]. *)
Inductive anc (sk : amap Joint) (a : Z) : Z -> Prop :=
| anc_refl : anc sk a a
| anc_step x jx p : find x sk = Some jx -> j_parent jx = Some p -> anc sk a p -> anc sk a x.

(** [below_go sk go k x]: [x] is [k], or a descendant of [k] reached
    through joints that [go] selects. *)
Inductive below_go (sk : amap Joint) (go : Joint -> bool) (k : Z) : Z -> Prop :=
| bg_refl : below_go sk go k k
| bg_step x jx p : find x sk = Some jx -> j_parent jx = Some p -> go jx = true ->
    below_go sk go k p -> below_go sk go k x.

(** A joint sits where [Good] puts it relative to its parent. *)
Definition good_at (Good : Joint -> Joint -> Prop) (sk : amap Joint) (x : Z) : Prop :=
  forall jx p, find x sk = Some jx -> j_parent jx = Some p ->
    exists pj, find p sk = Some pj /\ Good jx pj.

(** Where the kinematic walks put a joint relative to its parent:
    [updatePosAndRotFromParent] and [relaxRot] ([fk_good]), and [reset]
    ([rest_good]). *)
Definition fk_good {L : Libm} (jx pj : Joint) : Prop :=
  j_pos jx = computePosFromParent jx pj /\ j_rot jx = qnormalize (qmul (j_local_rot jx) (j_rot pj)).

Definition rest_good (jx pj : Joint) : Prop :=
  j_local_rot jx = q_identity /\ j_rot jx = j_rot pj /\ j_pos jx = computePosFromParent jx pj.

(** [bounded step n k]: every path of [step]s from [k] is shorter than [n]. *)
Fixpoint bounded (step : Z -> Z -> Prop) (n : nat) (k : Z) : Prop :=
  match n with
  | O => False
  | S m => forall k', step k k' -> bounded step m k'
  end.

Definition child_step (sk : amap Joint) (k c : Z) : Prop :=
  exists j, find k sk = Some j /\ In c (j_children j).

Definition parent_step (sk : amap Joint) (k p : Z) : Prop :=
  exists j, find k sk = Some j /\ j_parent j = Some p.

(** The sum [computeReach] builds along a limb: [acc] plus the local
    positions of the joints of [l]. *)
Definition sum_local_pos (sk : amap Joint) (l : list Z) (acc : vec3) : vec3 :=
  fold_left (fun acc k => match find k sk with Some j => vadd acc (j_local_pos j) | None => acc end) l acc.

(** ** Fuel: paths in a forest are shorter than the number of joints *)

Section Bounded.
Variable step : Z -> Z -> Prop.
Variable lt : Z -> Z -> Prop.
Variable dom : list Z.
Hypothesis step_dom : forall k k', step k k' -> In k dom.
Hypothesis step_lt : forall k k', step k k' -> lt k k'.
Hypothesis lt_trans : forall a b c, lt a b -> lt b c -> lt a c.
Hypothesis lt_irrefl : forall a, ~ lt a a.

Lemma bounded_path n : forall k vis, NoDup vis -> incl vis dom -> (forall v, In v vis -> lt v k) ->
  (length dom < length vis + n)%nat -> bounded step n k.
Proof.
  induction n as [|n IH]; intros k vis Nd Inc Lt Len.
  - pose proof (NoDup_incl_length Nd Inc). lia.
  - simpl. intros k' St. apply (IH k' (k :: vis)).
    + constructor; [|exact Nd]. intros Hin. exact (lt_irrefl k (Lt k Hin)).
    + intros v [<-|Hv]; [exact (step_dom _ _ St)|exact (Inc v Hv)].
    + intros v [<-|Hv]; [exact (step_lt _ _ St)|exact (lt_trans _ _ _ (Lt v Hv) (step_lt _ _ St))].
    + simpl. lia.
Qed.

Lemma bounded_all k : bounded step (S (length dom)) k.
Proof. apply (bounded_path _ k []); [constructor|intros v []|intros v []|simpl; lia]. Qed.

End Bounded.

(** Walking down a well-formed skeleton, or up it, ends within as many
    steps as it has joints. *)
Lemma child_step_bounded sk k : skeleton_wf sk -> bounded (child_step sk) (S (length sk)) k.
Proof.
  intros (_ & _ & Hc & _ & R & HR).
  replace (length sk) with (length (keys sk)) by apply length_map.
  apply (bounded_all _ (fun a b => R a < R b)%nat); [| |intros; lia|intros; lia].
  - intros a b (j & F & _). exact (find_keys _ _ _ F).
  - intros a b (j & F & Hin). destruct (Hc a j b F Hin) as (cj & Fc & Pc). exact (HR _ _ _ Fc Pc).
Qed.

Lemma parent_step_bounded sk k : skeleton_wf sk -> bounded (parent_step sk) (S (length sk)) k.
Proof.
  intros (_ & _ & _ & _ & R & HR).
  replace (length sk) with (length (keys sk)) by apply length_map.
  apply (bounded_all _ (fun a b => R b < R a)%nat); [| |intros; lia|intros; lia].
  - intros a b (j & F & _). exact (find_keys _ _ _ F).
  - intros a b (j & F & Hp). exact (HR _ _ _ F Hp).
Qed.

(** ** Links a walk keeps *)

Section Links.
Variable go : Joint -> bool.

Lemma same_links_refl sk : same_links go sk sk.
Proof. split; [reflexivity|intros k; reflexivity]. Qed.

Lemma same_links_trans a b c : same_links go a b -> same_links go b c -> same_links go a c.
Proof. intros [K1 S1] [K2 S2]. split; [congruence|intros k; now rewrite S2, S1]. Qed.

Lemma same_links_find sk0 cur k j0 :
  same_links go sk0 cur -> find k sk0 = Some j0 ->
  exists j, find k cur = Some j /\ links go j = links go j0.
Proof.
  intros [_ S] F. specialize (S k). rewrite F in S.
  destruct (find k cur) as [j|]; [|discriminate]. exists j. split; [reflexivity|]. simpl in S. congruence.
Qed.

Lemma same_links_find_r sk0 cur k j :
  same_links go sk0 cur -> find k cur = Some j ->
  exists j0, find k sk0 = Some j0 /\ links go j = links go j0.
Proof.
  intros [_ S] F. specialize (S k). rewrite F in S.
  destruct (find k sk0) as [j0|]; [|discriminate]. exists j0. split; [reflexivity|]. simpl in S. congruence.
Qed.

Lemma same_links_insert sk0 cur k j j' :
  same_links go sk0 cur -> find k cur = Some j -> links go j' = links go j ->
  same_links go sk0 (insert k j' cur).
Proof.
  intros [K S] F E. split; [now rewrite (keys_insert_found _ _ _ _ F)|].
  intros x. rewrite find_insert. destruct (Z.eqb_spec k x) as [<-|N]; [|apply S].
  rewrite <- S, F. simpl. now rewrite E.
Qed.

Lemma links_inv j j' :
  links go j = links go j' ->
  j_id j = j_id j' /\ j_parent j = j_parent j' /\ j_children j = j_children j' /\ go j = go j'.
Proof. unfold links. intros E. injection E as E0 E1 E2 E3. auto. Qed.

End Links.

(** ** Ancestors in a forest *)

Section Anc.
Variable sk0 : amap Joint.
Hypothesis W : skeleton_wf sk0.

Lemma anc_trans a b c : anc sk0 a b -> anc sk0 b c -> anc sk0 a c.
Proof. intros A B. induction B; [exact A|]. econstructor; eauto. Qed.

Lemma child_anc k j c : find k sk0 = Some j -> In c (j_children j) -> anc sk0 k c.
Proof.
  intros F Hin. destruct W as (_ & _ & Hc & _). destruct (Hc _ _ _ F Hin) as (cj & Fc & Pc).
  exact (anc_step _ _ _ _ _ Fc Pc (anc_refl _ _)).
Qed.

Lemma below_go_anc go k x : below_go sk0 go k x -> anc sk0 k x.
Proof. induction 1; econstructor; eauto. Qed.

(** A proper descendant's parent is a descendant too. *)
Lemma anc_parent_of a x jx p :
  anc sk0 a x -> a <> x -> find x sk0 = Some jx -> j_parent jx = Some p -> anc sk0 a p.
Proof.
  intros A N F P. inversion A as [E|x' jx' p' F' P' A']; [congruence|].
  subst x'. rewrite F in F'. injection F' as <-. rewrite P in P'. injection P' as <-. exact A'.
Qed.

Lemma anc_rank (R : Z -> nat) :
  (forall k j p, find k sk0 = Some j -> j_parent j = Some p -> (R p < R k)%nat) ->
  forall a x, anc sk0 a x -> (R a <= R x)%nat.
Proof. intros HR a x A. induction A as [|x jx p F P A IH]; [lia|]. pose proof (HR _ _ _ F P). lia. Qed.

(** A joint is not an ancestor of its own parent. *)
Lemma anc_parent_absurd c jc k : find c sk0 = Some jc -> j_parent jc = Some k -> ~ anc sk0 c k.
Proof.
  intros F P A. destruct W as (_ & _ & _ & _ & R & HR).
  pose proof (anc_rank R HR _ _ A). pose proof (HR _ _ _ F P). lia.
Qed.

(** The ancestors of a joint are ordered. *)
Lemma anc_linear a b x : anc sk0 a x -> anc sk0 b x -> anc sk0 a b \/ anc sk0 b a.
Proof.
  intros A. revert b. induction A as [|x jx p F P A IH]; intros b B; [now right|].
  inversion B as [E|x' jx' p' F' P' B']; [subst b; left; econstructor; eauto|].
  subst x'. rewrite F in F'. injection F' as <-. rewrite P in P'. injection P' as <-.
  exact (IH b B').
Qed.

(** Two children of a joint have disjoint subtrees. *)
Lemma siblings_disjoint k c1 j1 c2 j2 x :
  find c1 sk0 = Some j1 -> j_parent j1 = Some k -> find c2 sk0 = Some j2 -> j_parent j2 = Some k ->
  c1 <> c2 -> anc sk0 c1 x -> ~ anc sk0 c2 x.
Proof.
  intros F1 P1 F2 P2 N A1 A2.
  destruct (anc_linear _ _ _ A1 A2) as [A|A].
  - exact (anc_parent_absurd _ _ _ F1 P1 (anc_parent_of _ _ _ _ A N F2 P2)).
  - exact (anc_parent_absurd _ _ _ F2 P2 (anc_parent_of _ _ _ _ A (not_eq_sym N) F1 P1)).
Qed.

(** Neither a joint nor its parent lies in the subtree of one of its
    children. *)
Lemma child_apart k jk c jc :
  find c sk0 = Some jc -> j_parent jc = Some k -> find k sk0 = Some jk ->
  ~ anc sk0 c k /\ forall p, j_parent jk = Some p -> ~ anc sk0 c p.
Proof.
  intros Fc Pc Fk. split; [exact (anc_parent_absurd _ _ _ Fc Pc)|].
  intros p Pk A. apply (anc_parent_absurd _ _ _ Fk Pk).
  exact (anc_trans _ _ _ (anc_step _ _ _ _ _ Fc Pc (anc_refl _ _)) A).
Qed.

(** Nothing in the subtree of a child, nor its parent, lies in the subtree
    of a sibling. *)
Lemma sibling_apart k c jc c' jc' x :
  find c sk0 = Some jc -> j_parent jc = Some k -> find c' sk0 = Some jc' -> j_parent jc' = Some k ->
  c <> c' -> anc sk0 c' x ->
  ~ anc sk0 c x /\ forall jx p, find x sk0 = Some jx -> j_parent jx = Some p -> ~ anc sk0 c p.
Proof.
  intros Fc Pc Fc' Pc' N A. split; [exact (siblings_disjoint _ _ _ _ _ _ Fc' Pc' Fc Pc (not_eq_sym N) A)|].
  intros jx p Fx Px. destruct (Z.eq_dec c' x) as [<-|Nx].
  - rewrite Fc' in Fx. injection Fx as <-. rewrite Pc' in Px. injection Px as <-.
    exact (anc_parent_absurd _ _ _ Fc Pc).
  - exact (siblings_disjoint _ _ _ _ _ _ Fc' Pc' Fc Pc (not_eq_sym N) (anc_parent_of _ _ _ _ A Nx Fx Px)).
Qed.

End Anc.

(** ** What a walk does *)

Section DescendProofs.
Variable visit : Joint -> option Joint -> Joint.
Variable go : Joint -> bool.
Hypothesis visit_links : forall j p, links go (visit j p) = links go j.
Variable sk0 : amap Joint.
Hypothesis W : skeleton_wf sk0.

Lemma wf_parent k j p : find k sk0 = Some j -> j_parent j = Some p -> exists pj, find p sk0 = Some pj.
Proof. intros F P. destruct W as (_ & Hp & _). destruct (Hp _ _ _ F P) as (pj & Fp & _). now exists pj. Qed.

Lemma wf_child k j c : find k sk0 = Some j -> In c (j_children j) ->
  exists cj, find c sk0 = Some cj /\ j_parent cj = Some k.
Proof. intros F Hin. destruct W as (_ & _ & Hc & _). exact (Hc _ _ _ F Hin). Qed.

(** With enough fuel, a walk returns, and keeps the links. *)
Lemma descend_some n : forall k cur, bounded (child_step sk0) n k -> same_links go sk0 cur ->
  (exists j, find k sk0 = Some j) ->
  exists cur', descend visit go n k cur = Some cur' /\ same_links go sk0 cur'.
Proof.
  induction n as [|n IH]; intros k cur B S [j0 F0]; [destruct B|].
  destruct (same_links_find _ _ _ _ _ S F0) as (j & F & E).
  destruct (links_inv _ _ _ E) as (_ & Ep & Ec & _).
  cbn [descend]. rewrite F.
  assert (Hp : exists par, parent_joint cur j = Some par).
  { unfold parent_joint. rewrite Ep. destruct (j_parent j0) as [p|] eqn:P0; [|now exists None].
    destruct (wf_parent _ _ _ F0 P0) as (pj0 & Fp).
    destruct (same_links_find _ _ _ _ _ S Fp) as (pj & -> & _). now exists (Some pj). }
  destruct Hp as [par ->].
  apply fold_opt_some; [|exact (same_links_insert _ _ _ _ _ _ S F (visit_links j par))].
  intros cur2 c Hin S2. rewrite Ec in Hin. cbv beta.
  destruct (wf_child _ _ _ F0 Hin) as (cj0 & Fc0 & _).
  destruct (same_links_find _ _ _ _ _ S2 Fc0) as (cj & -> & _).
  destruct (go cj); [|now exists cur2].
  apply IH; [apply B; exists j0; split; assumption|exact S2|now exists cj0].
Qed.

(** A walk from [k] changes nothing outside the subtree of [k]. *)
Lemma descend_local n : forall k cur cur', descend visit go n k cur = Some cur' -> same_links go sk0 cur ->
  same_links go sk0 cur' /\ forall x, ~ anc sk0 k x -> find x cur' = find x cur.
Proof.
  induction n as [|n IH]; intros k cur cur' D S; [discriminate|].
  cbn [descend] in D. destruct (find k cur) as [j|] eqn:F; [|discriminate].
  destruct (parent_joint cur j) as [par|]; [|discriminate].
  destruct (same_links_find_r _ _ _ _ _ S F) as (j0 & F0 & E).
  destruct (links_inv _ _ _ E) as (_ & _ & Ec & _).
  revert D. apply fold_opt_inv_in with
    (P := fun c2 => same_links go sk0 c2 /\ forall x, ~ anc sk0 k x -> find x c2 = find x cur).
  - intros c2 c c3 Hin [S2 L2] St. cbv beta in St. destruct (find c c2) as [cj|]; [|discriminate].
    destruct (go cj); [|injection St as <-; now split].
    destruct (IH _ _ _ St S2) as [S3 L3]. split; [exact S3|]. intros x Nx.
    rewrite Ec in Hin. rewrite L3, L2; [reflexivity|exact Nx|].
    intros A. exact (Nx (anc_trans _ _ _ _ (child_anc _ W _ _ _ F0 Hin) A)).
  - split; [exact (same_links_insert _ _ _ _ _ _ S F (visit_links j par))|].
    intros x Nx. rewrite find_insert. destruct (Z.eqb_spec k x) as [<-|_]; [|reflexivity].
    exfalso. apply Nx. constructor.
Qed.

Variable Good : Joint -> Joint -> Prop.
Hypothesis visit_good : forall j pj, Good (visit j (Some pj)) pj.

(** [good_at] survives a step that leaves the joint and its parent alone. *)
Lemma good_at_stable c cur cur' x :
  (forall y, ~ anc sk0 c y -> find y cur' = find y cur) -> same_links go sk0 cur ->
  ~ anc sk0 c x -> (forall jx p, find x sk0 = Some jx -> j_parent jx = Some p -> ~ anc sk0 c p) ->
  good_at Good cur x -> good_at Good cur' x.
Proof.
  intros Lc S Nx Np G jx p Fx Px. rewrite Lc in Fx by exact Nx.
  destruct (same_links_find_r _ _ _ _ _ S Fx) as (jx0 & F0 & E).
  destruct (links_inv _ _ _ E) as (_ & Ep & _).
  destruct (G jx p Fx Px) as (pj & Fp & Gd). exists pj. split; [|exact Gd].
  rewrite Lc; [exact Fp|]. apply (Np jx0 p F0). congruence.
Qed.

(** The children loop of a walk: each child's subtree is left in place,
    and the later siblings do not disturb it, nor the parent. *)
Lemma children_good n k jk0 :
  (forall c cur cur', descend visit go n c cur = Some cur' -> same_links go sk0 cur ->
     forall x, below_go sk0 go c x -> good_at Good cur' x) ->
  find k sk0 = Some jk0 ->
  forall l done cur2 cur3,
  fold_opt (fun sk' c => cj <- find c sk' ;; if go cj then descend visit go n c sk' else Some sk')
    l cur2 = Some cur3 ->
  incl (done ++ l) (j_children jk0) -> NoDup (done ++ l) ->
  same_links go sk0 cur2 -> good_at Good cur2 k ->
  (forall c cj x, In c done -> find c sk0 = Some cj -> go cj = true -> below_go sk0 go c x ->
     good_at Good cur2 x) ->
  good_at Good cur3 k /\
  (forall c cj x, In c (done ++ l) -> find c sk0 = Some cj -> go cj = true -> below_go sk0 go c x ->
     good_at Good cur3 x).
Proof.
  intros IH Fk l. induction l as [|c l IHl]; intros done cur2 cur3 D Inc Nd S Gk Gd.
  - injection D as <-. rewrite app_nil_r. now split.
  - rewrite fold_opt_cons in D. cbv beta in D.
    assert (Hc : In c (j_children jk0)) by (apply Inc, in_or_app; right; left; reflexivity).
    assert (Nc : ~ In c done) by (intros Hd; apply (NoDup_remove_2 _ _ _ Nd), in_or_app; now left).
    destruct (wf_child _ _ _ Fk Hc) as (cj0 & Fc0 & Pc0).
    destruct (same_links_find _ _ _ _ _ S Fc0) as (cj & Fc & Ec).
    destruct (links_inv _ _ _ Ec) as (_ & _ & _ & Eg). rewrite Fc in D.
    assert (Hdone : forall c' cj' x, In c' done -> find c' sk0 = Some cj' -> below_go sk0 go c' x ->
              ~ anc sk0 c x /\ forall jx p, find x sk0 = Some jx -> j_parent jx = Some p -> ~ anc sk0 c p).
    { intros c' cj' x Hd Fc' B. destruct (wf_child _ _ _ Fk (Inc c' (in_or_app _ _ _ (or_introl Hd))))
        as (cj'' & Fc'' & Pc''). rewrite Fc' in Fc''. injection Fc'' as <-.
      apply (sibling_apart _ W k c cj0 c' cj' x Fc0 Pc0 Fc' Pc''); [congruence|].
      exact (below_go_anc _ _ _ _ B). }
    change (c :: l) with ([c] ++ l) in Inc, Nd |- *. rewrite app_assoc in Inc, Nd |- *.
    destruct (go cj) eqn:Gc.
    + destruct (descend visit go n c cur2) as [cur2'|] eqn:Dc; [|destruct l; discriminate].
      destruct (descend_local _ _ _ _ Dc S) as [S' Lc].
      destruct (child_apart _ W _ _ _ _ Fc0 Pc0 Fk) as [Nk Npk].
      apply (IHl (done ++ [c]) cur2' cur3 D Inc Nd S').
      * apply (good_at_stable c cur2); auto.
        intros jx p Fx Px. rewrite Fk in Fx. injection Fx as <-. exact (Npk p Px).
      * intros c' cj' x Hd Fc' G' B. apply in_app_or in Hd as [Hd|[<-|[]]].
        -- destruct (Hdone c' cj' x Hd Fc' B) as [Nx Np].
           exact (good_at_stable c cur2 cur2' x Lc S Nx Np (Gd c' cj' x Hd Fc' G' B)).
        -- exact (IH c cur2 cur2' Dc S x B).
    + apply (IHl (done ++ [c]) cur2 cur3 D Inc Nd S Gk).
      intros c' cj' x Hd Fc' G' B. apply in_app_or in Hd as [Hd|[<-|[]]]; [exact (Gd c' cj' x Hd Fc' G' B)|].
      rewrite Fc0 in Fc'. injection Fc' as <-. congruence.
Qed.

(** The subtree below [k] is [k] and the subtrees of its selected children. *)
Lemma below_go_split k x :
  below_go sk0 go k x -> x = k \/
  exists c cj, find c sk0 = Some cj /\ j_parent cj = Some k /\ go cj = true /\ below_go sk0 go c x.
Proof.
  induction 1 as [|x jx p F P G B IH]; [now left|right].
  destruct IH as [->|(c & cj & Fc & Pc & Gc & Bc)].
  - exists x, jx. repeat split; auto. constructor.
  - exists c, cj. repeat split; auto. econstructor; eauto.
Qed.

(** A walk leaves every joint of the subtree it covers where [Good] puts it
    relative to its parent. *)
Lemma descend_good n : forall k cur cur', descend visit go n k cur = Some cur' -> same_links go sk0 cur ->
  forall x, below_go sk0 go k x -> good_at Good cur' x.
Proof.
  induction n as [|n IH]; intros k cur cur' D S x B; [discriminate|].
  cbn [descend] in D. destruct (find k cur) as [j|] eqn:F; [|discriminate].
  destruct (parent_joint cur j) as [par|] eqn:Pj; [|discriminate].
  destruct (same_links_find_r _ _ _ _ _ S F) as (j0 & F0 & E).
  destruct (links_inv _ _ _ E) as (_ & Ep & Ec & _).
  assert (G1 : good_at Good (insert k (visit j par) cur) k).
  { intros jx p Fx Px. rewrite find_insert_eq in Fx. injection Fx as <-.
    destruct (links_inv _ _ _ (visit_links j par)) as (_ & Ep' & _).
    rewrite Ep' in Px. unfold parent_joint in Pj. rewrite Px in Pj.
    destruct (find p cur) as [pj|] eqn:Fp; [|discriminate]. injection Pj as <-.
    exists pj. split; [|apply visit_good]. rewrite find_insert_ne; [exact Fp|].
    intros <-. apply (anc_parent_absurd _ W _ _ _ F0 (eq_trans (eq_sym Ep) Px)). constructor. }
  destruct (children_good n k j0 IH F0 (j_children j) [] _ _ D) as [Gk Gc].
  - simpl. rewrite Ec. apply incl_refl.
  - simpl. rewrite Ec. destruct W as (_ & _ & _ & Nd & _). exact (Nd _ _ F0).
  - exact (same_links_insert _ _ _ _ _ _ S F (visit_links j par)).
  - exact G1.
  - intros c cj y [].
  - destruct (below_go_split _ _ B) as [->|(c & cj & Fc & Pc & Gc' & Bc)]; [exact Gk|].
    destruct W as (_ & Hp & _). destruct (Hp _ _ _ Fc Pc) as (kj & Fk & Hin).
    rewrite F0 in Fk. injection Fk as <-. rewrite <- Ec in Hin.
    exact (Gc c cj x Hin Fc Gc' Bc).
Qed.

End DescendProofs.

(** A walk relates every joint to its old self by any preorder its visit
    respects. *)
Lemma descend_pointwise visit go (Rel : Joint -> Joint -> Prop) :
  (forall j, Rel j j) -> (forall a b c, Rel a b -> Rel b c -> Rel a c) ->
  (forall j p, Rel j (visit j p)) ->
  forall n k cur cur', descend visit go n k cur = Some cur' ->
  forall x jx, find x cur = Some jx -> exists jx', find x cur' = Some jx' /\ Rel jx jx'.
Proof.
  intros Rr Rt Rv. induction n as [|n IH]; intros k cur cur' D; [discriminate|].
  cbn [descend] in D. destruct (find k cur) as [j|] eqn:F; [|discriminate].
  destruct (parent_joint cur j) as [par|]; [|discriminate].
  refine (fold_opt_inv
    (fun c2 => forall x jx, find x cur = Some jx -> exists jx', find x c2 = Some jx' /\ Rel jx jx')
    _ _ _ _ _ _ D).
  - intros c2 c c3 H St x jx Fx. cbv beta in St. destruct (find c c2) as [cj|]; [|discriminate].
    destruct (H x jx Fx) as (jx' & F2 & R2). destruct (go cj); [|injection St as <-; eauto].
    destruct (IH _ _ _ St x jx' F2) as (jx'' & F3 & R3). eauto.
  - intros x jx Fx. rewrite find_insert. destruct (Z.eqb_spec k x) as [<-|_]; [|eauto].
    rewrite F in Fx. injection Fx as <-. eauto.
Qed.

(** A walk from a joint of a well-formed skeleton returns, keeps the links,
    and leaves its subtree where the visit puts it. *)
Lemma descend_total visit go Good sk k j :
  (forall j p, links go (visit j p) = links go j) -> (forall j pj, Good (visit j (Some pj)) pj) ->
  skeleton_wf sk -> find k sk = Some j ->
  exists sk', descend visit go (S (length sk)) k sk = Some sk' /\ same_links go sk sk' /\
    forall x, below_go sk go k x -> good_at Good sk' x.
Proof.
  intros Hl Hg W F.
  destruct (descend_some visit go Hl sk W _ k sk (child_step_bounded sk k W) (same_links_refl go sk)
              (ex_intro _ j F)) as (sk' & D & S).
  exists sk'. split; [exact D|split; [exact S|]].
  exact (descend_good visit go Hl sk W Good Hg _ k sk sk' D (same_links_refl go sk)).
Qed.

(** ** The walks of llik.cpp *)

Section WalkProofs.
Context {L : Libm}.

Lemma relaxRot_links t j p : links isActive (relaxRot j p t) = links isActive j.
Proof. unfold relaxRot. destruct p; reflexivity. Qed.

Lemma relaxRot_good t j pj : fk_good (relaxRot j (Some pj) t) pj.
Proof. split; reflexivity. Qed.

Lemma updatePosAndRotFromParent_links j p :
  links isActive (updatePosAndRotFromParent j p) = links isActive j.
Proof. destruct p; reflexivity. Qed.

Lemma updatePosAndRotFromParent_good j pj : fk_good (updatePosAndRotFromParent j (Some pj)) pj.
Proof. split; reflexivity. Qed.

Lemma reset_links j p : links (fun _ => true) (reset j p) = links (fun _ => true) j.
Proof. destruct p; reflexivity. Qed.

Lemma reset_good j pj : rest_good (reset j (Some pj)) pj.
Proof. repeat split. Qed.

(** [relaxRot] keeps the flags, and a locked local rotation. *)
Lemma relaxRot_keeps_locked t j p :
  j_ik_flags (relaxRot j p t) = j_ik_flags j /\
  (localRotLocked j = true -> j_local_rot (relaxRot j p t) = j_local_rot j).
Proof. unfold relaxRot. split; [now destruct p|]. intros ->. now destruct p. Qed.

(** C7: [relaxRotationsRecursively] returns on every joint of a well-formed
    skeleton, keeps the links, and leaves every joint of the active
    subtree where its parent puts it: at the parent's position plus its
    local position rotated by the parent's rotation, with its local
    rotation composed with the parent's, normalized. *)
Theorem relaxRotationsRecursively_world (t : Q) (k : Z) (sk : amap Joint) (j : Joint) :
  skeleton_wf sk -> find k sk = Some j ->
  exists sk', relaxRotationsRecursively t k sk = Some sk' /\ same_links isActive sk sk' /\
    forall x, below_go sk isActive k x -> good_at fk_good sk' x.
Proof. intros W F. apply (descend_total _ _ _ sk k j); auto using relaxRot_links, relaxRot_good. Qed.

(** [updateWorldTransformsRecursively] returns on every joint of a
    well-formed skeleton and leaves every joint of the active subtree
    where its parent puts it. *)
Theorem updateWorldTransformsRecursively_world (k : Z) (sk : amap Joint) (j : Joint) :
  skeleton_wf sk -> find k sk = Some j ->
  exists sk', updateWorldTransformsRecursively k sk = Some sk' /\ same_links isActive sk sk' /\
    forall x, below_go sk isActive k x -> good_at fk_good sk' x.
Proof.
  intros W F.
  apply (descend_total _ _ _ sk k j); auto using updatePosAndRotFromParent_links, updatePosAndRotFromParent_good.
Qed.

(** C16: [resetRecursively] returns on every joint of a well-formed skeleton
    and puts every joint of the subtree in the rest pose: identity local
    rotation, the parent's world rotation, and the position the parent
    gives its local position. *)
Theorem resetRecursively_rest (k : Z) (sk : amap Joint) (j : Joint) :
  skeleton_wf sk -> find k sk = Some j ->
  exists sk', resetRecursively k sk = Some sk' /\
    forall x, below_go sk (fun _ => true) k x -> good_at rest_good sk' x.
Proof.
  intros W F. destruct (descend_total reset (fun _ => true) rest_good sk k j reset_links reset_good W F)
    as (sk' & D & _ & G). now exists sk'.
Qed.

(** C9: [relaxRotationsRecursively] never moves a locked local rotation
    (the root's among them), nor any joint's flags. *)
Theorem relaxRotationsRecursively_locked (t : Q) (k : Z) (sk sk' : amap Joint) (x : Z) (jx : Joint) :
  relaxRotationsRecursively t k sk = Some sk' -> find x sk = Some jx -> localRotLocked jx = true ->
  exists jx', find x sk' = Some jx' /\ localRotLocked jx' = true /\ j_local_rot jx' = j_local_rot jx.
Proof.
  intros D Fx Lx. unfold relaxRotationsRecursively in D.
  destruct (descend_pointwise (fun j p => relaxRot j p (clamp_blend t)) isActive
    (fun a b => j_ik_flags b = j_ik_flags a /\ (localRotLocked a = true -> j_local_rot b = j_local_rot a)))
    with (4 := D) (5 := Fx) as (jx' & F' & E1 & E2).
  - intros a. split; reflexivity.
  - intros a b c [Fab Rab] [Fbc Rbc]. split; [congruence|]. intros La.
    rewrite Rbc, Rab; [reflexivity|exact La|]. unfold localRotLocked in *. now rewrite Fab.
  - intros a p. apply relaxRot_keeps_locked.
  - exists jx'. split; [exact F'|split; [|exact (E2 Lx)]]. unfold localRotLocked in *. now rewrite E1.
Qed.

(** The relaxation of the active roots keeps the links of a well-formed
    skeleton. *)
Lemma relaxActiveRoots_links (s : Solver) (sk' : amap Joint) :
  skeleton_wf (s_skeleton s) -> relaxActiveRoots s = Some sk' -> same_links isActive (s_skeleton s) sk'.
Proof.
  intros W. unfold relaxActiveRoots. apply fold_opt_inv; [|apply same_links_refl].
  intros cur [r u] cur' S E. unfold relaxRotationsRecursively in E.
  exact (proj1 (descend_local _ isActive (relaxRot_links _) (s_skeleton s) W _ _ _ _ E S)).
Qed.

End WalkProofs.

(** On a well-formed skeleton the recursion returns with one level of
    fuel per joint. *)
Lemma collectActiveChildrenRecursively_some sk n : skeleton_wf sk ->
  forall k m, bounded (child_step sk) n k -> (exists j, find k sk = Some j) ->
  exists m', collectActiveChildrenRecursively sk n k m = Some m'.
Proof.
  intros W. induction n as [|n IH]; intros k m B [j F]; [destruct B|].
  cbn [collectActiveChildrenRecursively]. rewrite F.
  destruct (fold_opt_some (fun _ : amap Joint => True)
    (fun m c => cj <- find c sk ;;
       if isActive cj then collectActiveChildrenRecursively sk n c (insert_new (j_id cj) cj m) else Some m)
    (j_children j) m) as (m' & E & _); [|exact I|now exists m'].
  intros x c Hin _. destruct W as (_ & _ & Hc & _). destruct (Hc _ _ _ F Hin) as (cj & Fc & _).
  rewrite Fc. destruct (isActive cj); [|now exists x].
  destruct (IH c (insert_new (j_id cj) cj x)) as [m'' E]; [apply B; now exists j|now exists cj|now exists m''].
Qed.

Lemma collectActiveChildrenRecursively_total sk k j m : skeleton_wf sk -> find k sk = Some j ->
  exists m', collectActiveChildrenRecursively sk (S (length sk)) k m = Some m'.
Proof.
  intros W F. exact (collectActiveChildrenRecursively_some sk _ W k m (child_step_bounded sk k W) (ex_intro _ j F)).
Qed.

(** Keeping the links keeps the shape and, through the keys, the order. *)
Lemma same_links_shape go sk sk' : same_links go sk sk' -> same_shape sk sk'.
Proof.
  intros [_ S] k. specialize (S k).
  destruct (find k sk), (find k sk'); simpl in *; try discriminate; [|reflexivity].
  injection S as E0 E1 E2 _. unfold shape. congruence.
Qed.

Lemma same_links_sorted go sk sk' : same_links go sk sk' -> sorted sk -> sorted sk'.
Proof. intros [K _]. unfold sorted. now rewrite K. Qed.

(** So a forest stays a forest, with the same ids. *)
Lemma same_links_wf go sk sk' :
  same_links go sk sk' -> skeleton_wf sk -> ids_match sk -> skeleton_wf sk' /\ ids_match sk'.
Proof.
  intros S W I. pose proof (same_links_shape _ _ _ S) as Sh.
  split; [|exact (same_shape_ids_match _ _ Sh I)].
  exact (same_shape_wf _ _ Sh (same_links_sorted _ _ _ S (proj1 W)) W).
Qed.

(** ** Reach *)

Lemma vneg_vneg v : vneg (vneg v) = v.
Proof.
  destruct v as [[xn xd] [yn yd] [zn zd]]. unfold vneg, Qopp. simpl. now rewrite !Z.opp_involutive.
Qed.

Lemma reach_loop_some sk a n : forall x jx acc, skeleton_wf sk -> find x sk = Some jx ->
  bounded (parent_step sk) n x -> exists r, reach_loop sk n a jx acc = Some r.
Proof.
  induction n as [|n IH]; intros x jx acc W F B; [destruct B|]. cbn [reach_loop].
  destruct (j_parent jx) as [p|] eqn:P; [|eauto].
  pose proof W as (_ & Hp & _). destruct (Hp _ _ _ F P) as (pj & Fp & _). rewrite Fp.
  destruct (Z.eqb (j_id pj) a); [eauto|]. apply (IH p pj); auto. apply B. exists jx; auto.
Qed.

(** Along a limb whose joints carry their keys as ids, the loop of
    [computeReach] adds up the local positions up to the ancestor. *)
Lemma reach_loop_path sk a : skeleton_wf sk -> ids_match sk ->
  forall ps n x jx acc, find x sk = Some jx -> bounded (parent_step sk) n x ->
  linked sk (x :: ps ++ [a]) = true -> ~ In a ps ->
  reach_loop sk n a jx acc = Some (sum_local_pos sk (x :: ps) acc).
Proof.
  intros W Hid ps. pose proof W as (_ & Hp & _).
  induction ps as [|y ps IH]; intros n x jx acc F B Lk Na; (destruct n as [|n]; [destruct B|]);
    cbn [reach_loop]; unfold sum_local_pos; cbn [fold_left]; rewrite F;
    cbn [app] in Lk; rewrite linked_cons2 in Lk; unfold parent_of in Lk; rewrite F in Lk;
    destruct (j_parent jx) as [p|] eqn:P; try discriminate;
    apply andb_true_iff in Lk as [E Lk]; apply Z.eqb_eq in E; subst p;
    destruct (Hp _ _ _ F P) as (pj & Fp & _); rewrite Fp; rewrite (Hid _ _ Fp).
  - rewrite Z.eqb_refl. reflexivity.
  - rewrite (proj2 (Z.eqb_neq y a)) by (intros ->; apply Na; now left).
    rewrite (IH n y pj); [|exact Fp|apply B; now exists jx|exact Lk|intros Hin; apply Na; now right].
    unfold sum_local_pos. cbn [fold_left]. rewrite Fp. reflexivity.
Qed.

Section ReachProofs.
Context {L : Libm}.

(** [computeReach] is antisymmetric: swapping two distinct ids negates
    the reach. *)
Theorem computeReach_antisym (s : Solver) (a b : Z) :
  a <> b -> computeReach s a b = option_map vneg (computeReach s b a).
Proof.
  intros N. unfold computeReach.
  destruct (Z.ltb_spec a b), (Z.ltb_spec b a); try lia;
    destruct (match find _ (s_skeleton s) with Some j => _ | None => _ end) as [r|]; simpl;
    rewrite ?vneg_vneg; reflexivity.
Qed.

(** C17: on a limb from an ancestor [a] down to a joint [d] of larger id,
    [computeReach d a] is the bone of [d] plus the local positions of [d]
    and of the joints between, the offset from the tip of [a] to the end
    of [d]. *)
Theorem computeReach_limb (s : Solver) (d a : Z) (jd : Joint) (ps : list Z) :
  skeleton_wf (s_skeleton s) -> ids_match (s_skeleton s) -> (a < d)%Z ->
  find d (s_skeleton s) = Some jd -> linked (s_skeleton s) (d :: ps ++ [a]) = true -> ~ In a ps ->
  computeReach s d a = Some (sum_local_pos (s_skeleton s) (d :: ps) (j_bone jd)).
Proof.
  intros W Hid Lt F Lk Na. unfold computeReach.
  replace (Z.ltb d a) with false by (symmetry; apply Z.ltb_ge; lia). cbv iota zeta. rewrite F.
  rewrite (reach_loop_path _ a W Hid ps _ d jd _ F (parent_step_bounded _ d W) Lk Na). reflexivity.
Qed.

End ReachProofs.

(** Walking up from a joint of lower rank than [t] never meets [t], so
    the loop of [computeReach] runs to a root and returns zero. *)
Lemma reach_loop_zero sk (R : Z -> nat) t : skeleton_wf sk -> ids_match sk ->
  (forall k j p, find k sk = Some j -> j_parent j = Some p -> (R p < R k)%nat) ->
  forall n x jx acc, find x sk = Some jx -> bounded (parent_step sk) n x -> (R x < R t)%nat ->
  reach_loop sk n t jx acc = Some v_zero.
Proof.
  intros W Hid HR. induction n as [|n IH]; intros x jx acc F B Rx; [destruct B|]. cbn [reach_loop].
  destruct (j_parent jx) as [p|] eqn:P; [|reflexivity].
  pose proof W as (_ & Hp & _). destruct (Hp _ _ _ F P) as (pj & Fp & _). rewrite Fp, (Hid _ _ Fp).
  pose proof (HR _ _ _ F P) as Rp. rewrite (proj2 (Z.eqb_neq p t)) by (intros ->; lia).
  apply (IH p); [exact Fp|apply B; now exists jx|lia].
Qed.

(** Along a limb the rank decreases toward the ancestor. *)
Lemma linked_rank sk (R : Z -> nat) a :
  (forall k j p, find k sk = Some j -> j_parent j = Some p -> (R p < R k)%nat) ->
  forall ps x, linked sk (x :: ps ++ [a]) = true -> (R a < R x)%nat.
Proof.
  intros HR ps. induction ps as [|y ps IH]; intros x Lk; cbn [app] in Lk; rewrite linked_cons2 in Lk;
    unfold parent_of in Lk; destruct (find x sk) as [jx|] eqn:F; try discriminate;
    destruct (j_parent jx) as [p|] eqn:P; try discriminate; apply andb_true_iff in Lk as [E Lk];
    apply Z.eqb_eq in E; subst p; pose proof (HR _ _ _ F P).
  - exact H.
  - pose proof (IH y Lk). lia.
Qed.

Section ResetProofs.
Context {L : Libm}.

(** C24: [computeReach] takes the smaller id for the ancestor (line 2560),
    which [addJoint] does not guarantee.  On every limb of a well-formed
    skeleton from an ancestor [a] down to a joint [d] of smaller id, the
    loop walks up from [a] looking for [d], never meets it, and
    [computeReach d a] is zero instead of the length of the limb. *)
Theorem computeReach_misordered_ids (s : Solver) (d a : Z) (ps : list Z) (ja : Joint) :
  skeleton_wf (s_skeleton s) -> ids_match (s_skeleton s) -> (d < a)%Z ->
  find a (s_skeleton s) = Some ja -> linked (s_skeleton s) (d :: ps ++ [a]) = true ->
  computeReach s d a = Some v_zero.
Proof.
  intros W Hid Lt Fa Lk. pose proof W as (_ & _ & _ & _ & R & HR). unfold computeReach.
  replace (Z.ltb d a) with true by (symmetry; apply Z.ltb_lt; lia). cbv iota zeta. rewrite Fa.
  rewrite (reach_loop_zero _ R d W Hid HR _ a ja _ Fa (parent_step_bounded _ a W) (linked_rank _ R a HR ps d Lk)).
  reflexivity.
Qed.

(** C25: [resetSkeleton] resets the subtree of the joint of the smallest
    id ([mSkeleton.begin()]), which need not be a root.  On a well-formed
    skeleton it returns, and every joint outside that subtree keeps its
    state: in particular, when that joint has a parent, the parent and
    the root above it are not reset. *)
Theorem resetSkeleton_skips_root (s : Solver) (k0 : Z) (j0 : Joint) (rest : amap Joint) (p : Z) :
  skeleton_wf (s_skeleton s) -> s_skeleton s = (k0, j0) :: rest -> j_parent j0 = Some p ->
  exists s', resetSkeleton s = Some s' /\
    (forall x, ~ anc (s_skeleton s) k0 x -> find x (s_skeleton s') = find x (s_skeleton s)) /\
    find p (s_skeleton s') = find p (s_skeleton s).
Proof.
  intros W E P.
  assert (F : find k0 (s_skeleton s) = Some j0) by (rewrite E; simpl; now rewrite Z.eqb_refl).
  destruct (descend_total reset (fun _ => true) rest_good _ k0 j0 reset_links reset_good W F) as (sk' & D & _ & _).
  destruct (descend_local reset (fun _ => true) reset_links _ W _ k0 _ sk' D (same_links_refl _ _)) as [_ Lc].
  exists (set_skeleton s sk'). split; [|split; [exact Lc|exact (Lc p (anc_parent_absurd _ W _ _ _ F P))]].
  unfold resetSkeleton, resetRecursively. rewrite E in D |- *. now rewrite D.
Qed.

End ResetProofs.

(** ** Witnesses *)

Lemma arm_wf : skeleton_wf (s_skeleton arm_solver).
Proof. apply skeleton_wfb_spec. vm_compute. reflexivity. Qed.

Lemma relaxRotationsRecursively_world_witness :
  skeleton_wf (s_skeleton arm_solver) /\
  exists sk', relaxRotationsRecursively INITIAL_RELAXATION_FACTOR 0 (s_skeleton arm_solver) = Some sk' /\
    same_links isActive (s_skeleton arm_solver) sk' /\
    forall x, below_go (s_skeleton arm_solver) isActive 0 x -> good_at fk_good sk' x.
Proof.
  split; [exact arm_wf|].
  destruct (find 0 (s_skeleton arm_solver)) as [j0|] eqn:F; [|vm_compute in F; discriminate].
  exact (relaxRotationsRecursively_world INITIAL_RELAXATION_FACTOR 0 _ j0 arm_wf F).
Defined.

Lemma updateWorldTransformsRecursively_world_witness :
  skeleton_wf (s_skeleton arm_solver) /\
  exists sk', updateWorldTransformsRecursively 1 (s_skeleton arm_solver) = Some sk' /\
    same_links isActive (s_skeleton arm_solver) sk' /\
    forall x, below_go (s_skeleton arm_solver) isActive 1 x -> good_at fk_good sk' x.
Proof.
  split; [exact arm_wf|].
  destruct (find 1 (s_skeleton arm_solver)) as [j1|] eqn:F; [|vm_compute in F; discriminate].
  exact (updateWorldTransformsRecursively_world 1 _ j1 arm_wf F).
Defined.

Lemma resetRecursively_rest_witness :
  skeleton_wf (s_skeleton arm_solver) /\
  exists sk', resetRecursively 0 (s_skeleton arm_solver) = Some sk' /\
    forall x, below_go (s_skeleton arm_solver) (fun _ => true) 0 x -> good_at rest_good sk' x.
Proof.
  split; [exact arm_wf|].
  destruct (find 0 (s_skeleton arm_solver)) as [j0|] eqn:F; [|vm_compute in F; discriminate].
  exact (resetRecursively_rest 0 _ j0 arm_wf F).
Defined.

Lemma relaxRotationsRecursively_locked_witness :
  exists sk' jx', relaxRotationsRecursively INITIAL_RELAXATION_FACTOR 0 (s_skeleton arm_solver) = Some sk' /\
    find 0 sk' = Some jx' /\ localRotLocked jx' = true.
Proof.
  destruct (relaxRotationsRecursively INITIAL_RELAXATION_FACTOR 0 (s_skeleton arm_solver)) as [sk'|] eqn:D;
    [|vm_compute in D; discriminate].
  destruct (find 0 (s_skeleton arm_solver)) as [j0|] eqn:F; [|vm_compute in F; discriminate].
  assert (Lk : localRotLocked j0 = true) by (vm_compute in F; injection F as <-; reflexivity).
  destruct (relaxRotationsRecursively_locked _ _ _ _ _ _ D F Lk) as (jx' & F' & L' & _).
  exists sk', jx'. auto.
Defined.

Lemma computeReach_antisym_witness :
  (1 <> 2)%Z /\ computeReach arm_solver 1 2 = option_map vneg (computeReach arm_solver 2 1).
Proof. split; [lia|]. apply computeReach_antisym. lia. Defined.

Lemma computeReach_limb_witness :
  computeReach arm_solver 2 0 = Some (V3 3 0 0).
Proof.
  assert (Hid : ids_match (s_skeleton arm_solver)) by (apply ids_matchb_spec; vm_compute; reflexivity).
  destruct (find 2 (s_skeleton arm_solver)) as [j2|] eqn:F; [|vm_compute in F; discriminate].
  rewrite (computeReach_limb arm_solver 2 0 j2 [1%Z] arm_wf Hid ltac:(lia) F ltac:(vm_compute; reflexivity)
             ltac:(simpl; lia)).
  vm_compute in F. injection F as <-. vm_compute. reflexivity.
Defined.

Lemma computeReach_misordered_ids_witness :
  linked (s_skeleton inverted_solver) [3; 5]%Z = true /\ computeReach inverted_solver 3 5 = Some v_zero.
Proof.
  destruct (find 5 (s_skeleton inverted_solver)) as [j5|] eqn:F; [|vm_compute in F; discriminate].
  split; [vm_compute; reflexivity|].
  apply (computeReach_misordered_ids inverted_solver 3 5 [] j5);
    [apply (skeleton_wfb_by_spec (fun k => Z.to_nat (10 - k))); vm_compute; reflexivity|apply ids_matchb_spec; vm_compute; reflexivity
    |lia|exact F|vm_compute; reflexivity].
Defined.

Lemma resetSkeleton_skips_root_witness :
  exists s', resetSkeleton moved_root_solver = Some s' /\
    find 5 (s_skeleton s') = find 5 (s_skeleton moved_root_solver).
Proof.
  destruct (s_skeleton moved_root_solver) as [|[k j] rest] eqn:E; [vm_compute in E; discriminate|].
  pose proof E as E'. vm_compute in E'. injection E' as <- <- <-.
  assert (W : skeleton_wf (s_skeleton moved_root_solver))
    by (apply (skeleton_wfb_by_spec (fun k => Z.to_nat (10 - k))); vm_compute; reflexivity).
  destruct (resetSkeleton_skips_root moved_root_solver 3 _ _ 5 W E eq_refl) as (s' & R & _ & Hp).
  exists s'. split; [exact R|exact Hp].
Defined.
