(* ===== verification/SubBases.v ===== *)
(** * SubBases: the sub-base loop of [rebuildAllChains] terminates

    [rebuildAllChains] (llik.cpp 3013-3025) loops [while (sub_bases.size()
    > 0)]: each round builds a chain from every queued sub-base and queues
    the sub-bases those walks stop at.  The model gives the loop
    ([drain_sub_bases] of [Chains]) one round more than there are joints
    and fails when they run out.  This file proves that they never run
    out on a well-formed skeleton: a walk from a joint queues only proper
    ancestors of it, so each round's queue lies strictly above some joint
    of the previous round's, and a path up the parents is shorter than the
    number of joints ([parent_step_bounded] of [Kinematics]). *)

From Stdlib Require Import QArith ZArith List Bool Lia.
Import ListNotations.
From S2P Require Import Prelude F32 Vec Config OrdMap Constraints Skeleton Chains Kinematics.

Local Open Scope Z_scope.
Local Open Scope llik_scope.

(** [above sk k q]: following one or more parents from [k] reaches [q]. *)
Inductive above (sk : amap Joint) : Z -> Z -> Prop :=
| above_one k p : parent_step sk k p -> above sk k p
| above_more k p q : parent_step sk k p -> above sk p q -> above sk k q.

(** The keys of the sub-base set all name joints of [sk]. *)
Definition subs_exist (sk : amap Joint) (subs : amap unit) : Prop :=
  forall q, In q (keys subs) -> exists j, find q sk = Some j.

(** ** Generic facts *)

Lemma keys_insert_In {V} (k q : Z) (v : V) (m : amap V) :
  In q (keys (insert k v m)) -> q = k \/ In q (keys m).
Proof.
  induction m as [|[k' v'] m IH]; simpl; [intros [->|[]]; auto|].
  destruct (k =? k')%Z eqn:E1; [|destruct (k <? k')%Z]; simpl.
  - apply Z.eqb_eq in E1 as ->. intros [->|H]; auto.
  - intros [->|[->|H]]; auto.
  - intros [->|H]; [auto|]. destruct (IH H); auto.
Qed.

Lemma bounded_mono (step : Z -> Z -> Prop) (n m : nat) (k : Z) :
  (n <= m)%nat -> bounded step n k -> bounded step m k.
Proof.
  revert m k. induction n as [|n IH]; intros m k Hle B; [destruct B|].
  destruct m as [|m]; [lia|]. simpl in *. intros k' St. apply (IH m); [lia|exact (B k' St)].
Qed.

Lemma bounded_above (sk : amap Joint) (n : nat) (k q : Z) :
  bounded (parent_step sk) (S n) k -> above sk k q -> bounded (parent_step sk) n q.
Proof.
  intros B A. revert n B. induction A as [k p St|k p q St A IH]; intros n B; [exact (B p St)|].
  pose proof (B p St) as Bp. destruct n as [|n]; [destruct Bp|].
  exact (bounded_mono _ n (S n) q ltac:(lia) (IH n Bp)).
Qed.

Lemma same_shape_parent_step (sk sk' : amap Joint) (k p : Z) :
  same_shape sk sk' -> parent_step sk' k p -> parent_step sk k p.
Proof.
  intros S (j' & F' & P'). specialize (S k). rewrite F' in S.
  destruct (find k sk) as [j|] eqn:F; [|discriminate]. simpl in S. unfold shape in S.
  injection S as _ E. exists j. split; [exact F|congruence].
Qed.

Lemma same_shape_above (sk sk' : amap Joint) (k q : Z) :
  same_shape sk sk' -> above sk' k q -> above sk k q.
Proof.
  intros S A. induction A as [k p St|k p q St A IH].
  - exact (above_one _ _ _ (same_shape_parent_step _ _ _ _ S St)).
  - exact (above_more _ _ _ _ (same_shape_parent_step _ _ _ _ S St) IH).
Qed.

Lemma same_shape_sym (sk sk' : amap Joint) : same_shape sk sk' -> same_shape sk' sk.
Proof. intros S k. symmetry. apply S. Qed.

Lemma same_shape_find (sk sk' : amap Joint) (k : Z) :
  same_shape sk sk' -> (exists j, find k sk = Some j) -> exists j', find k sk' = Some j'.
Proof.
  intros S [j F]. specialize (S k). rewrite F in S.
  destruct (find k sk') as [j'|]; [exists j'; reflexivity|discriminate].
Qed.

(** On a well-formed skeleton a parent reached is a joint of it. *)
Lemma above_exists (sk : amap Joint) (k q : Z) :
  skeleton_wf sk -> above sk k q -> exists j, find q sk = Some j.
Proof.
  intros (_ & P & _) A. induction A as [k p (j & F & Hp)|k p q _ _ IH]; [|exact IH].
  destruct (P k j p F Hp) as (pj & Fp & _). eauto.
Qed.

(** ** What a walk queues *)

(** The joints [buildChain_loop] queues are the one it starts from or
    its ancestors. *)
Lemma buildChain_loop_queues (s : Solver) (n : nat) (sk : amap Joint) (cur : option Z)
    (chain : list Z) (subs : amap unit) (sk' : amap Joint) (chain' : list Z) (subs' : amap unit) :
  ids_match sk -> buildChain_loop s n sk cur chain subs = Some (sk', chain', subs') ->
  forall q, In q (keys subs') -> In q (keys subs) \/ exists k, cur = Some k /\ (k = q \/ above sk k q).
Proof.
  revert sk cur chain subs. induction n as [|n IH]; intros sk cur chain subs Hid E q Hq.
  { simpl in E. injection E as _ _ <-. auto. }
  destruct cur as [k|]; simpl in E; [|injection E as _ _ <-; auto].
  destruct (find k sk) as [j|] eqn:F; [|discriminate].
  assert (G : grows sk (insert k (activate j) sk)) by (apply grows_insert; auto with llik).
  destruct (chain_stop s j) as [[|]|].
  - injection E as _ _ <-. destruct (keys_insert_In _ _ _ _ Hq) as [->|H]; [|auto].
    right. exists k. split; [reflexivity|left; symmetry; exact (Hid k j F)].
  - injection E as _ _ <-. auto.
  - destruct (IH _ _ _ _ (grows_ids_match _ _ G Hid) E q Hq) as [H|(p & Hp & Hpq)]; [auto|].
    right. exists k. split; [reflexivity|right].
    assert (St : parent_step sk k p) by (exists j; split; [exact F|exact Hp]).
    destruct Hpq as [<-|A]; [exact (above_one _ _ _ St)|].
    exact (above_more _ _ _ _ St (same_shape_above _ _ _ _ (proj1 G) A)).
Qed.

(** A chain from [k] queues only proper ancestors of [k]. *)
Lemma buildChain_queues (s : Solver) (sk : amap Joint) (k L : Z) (subs : amap unit)
    (sk' : amap Joint) (chain : list Z) (subs' : amap unit) :
  ids_match sk -> buildChain s sk k L subs = Some (sk', chain, subs') ->
  forall q, In q (keys subs') -> In q (keys subs) \/ above sk k q.
Proof.
  unfold buildChain. destruct (find k sk) as [j|] eqn:F; [|discriminate]. intros Hid E q Hq.
  assert (G : grows sk (insert k (activate j) sk)) by (apply grows_insert; auto with llik).
  destruct (buildChain_loop_queues _ _ _ _ _ _ _ _ _ (grows_ids_match _ _ G Hid) E q Hq)
    as [H|(p & Hp & Hpq)]; [auto|right].
  assert (St : parent_step sk k p) by (exists j; split; [exact F|exact Hp]).
  destruct Hpq as [<-|A]; [exact (above_one _ _ _ St)|].
  exact (above_more _ _ _ _ St (same_shape_above _ _ _ _ (proj1 G) A)).
Qed.

Lemma same_shape_parents_closed (sk sk' : amap Joint) :
  same_shape sk sk' -> parents_closed sk -> parents_closed sk'.
Proof.
  intros S P k j' p F' Hp. pose proof (S k) as Sk. rewrite F' in Sk.
  destruct (find k sk) as [j|] eqn:F; [|discriminate]. simpl in Sk. unfold shape in Sk.
  injection Sk as _ E. apply (same_shape_find sk); [exact S|]. exact (P k j p F (eq_trans (eq_sym E) Hp)).
Qed.

(** ** Each round queues joints strictly above the previous round's *)

Section Rounds.
Context {L : Libm}.
Variable s : Solver.
Variable sk sk0 : amap Joint.
Hypothesis W : skeleton_wf sk.
Hypothesis S0 : same_shape sk sk0.
Hypothesis Hids : ids_match sk0.

Lemma build_shape (b : Build) : build_inv sk0 b -> same_shape sk (b_skeleton b).
Proof. intros (_ & [G _] & _). exact (same_shape_trans _ _ _ S0 G). Qed.

Lemma build_ids (b : Build) : build_inv sk0 b -> ids_match (b_skeleton b).
Proof. intros (_ & G & _). exact (grows_ids_match _ _ G Hids). Qed.

Lemma add_chain_queues (k limit : Z) (b b' : Build) :
  build_inv sk0 b -> add_chain s k limit b = Some b' ->
  forall q, In q (keys (b_sub_bases b')) -> In q (keys (b_sub_bases b)) \/ above sk k q.
Proof.
  intros I E q Hq. unfold add_chain in E.
  destruct (buildChain s _ k limit _) as [[[sk1 chain] subs]|] eqn:Eb; [|discriminate].
  injection E as <-. simpl in Hq.
  destruct (buildChain_queues _ _ _ _ _ _ _ _ (build_ids b I) Eb q Hq) as [H|A]; [auto|].
  right. exact (same_shape_above _ _ _ _ (build_shape b I) A).
Qed.

Lemma add_chain_some (k limit : Z) (b : Build) :
  build_inv sk0 b -> (exists j, find k sk = Some j) -> exists b', add_chain s k limit b = Some b'.
Proof.
  intros I Hk. unfold add_chain.
  assert (P : parents_closed (b_skeleton b)).
  { apply (same_shape_parents_closed sk); [exact (build_shape b I)|].
    destruct W as (_ & P & _). intros k' j p F Hp. destruct (P k' j p F Hp) as (pj & Fp & _). eauto. }
  destruct (buildChain_total_aux s (b_skeleton b) k limit (b_sub_bases b) P
              (same_shape_find _ _ _ (build_shape b I) Hk)) as [[[sk1 chain] subs] ->].
  eexists. reflexivity.
Qed.

(** The steps of the configuration loop other than [add_chain] leave the
    sub-bases alone. *)
Lemma apply_root_config_subs (k : Z) (c : Config) (b : Build) :
  b_sub_bases (apply_root_config k c b) = b_sub_bases b.
Proof.
  unfold apply_root_config.
  destruct (has_flag (cfg_flags c) MASK_ROT), (has_flag (cfg_flags c) MASK_POS),
    (has_flag (cfg_flags c) CONFIG_FLAG_LOCAL_SCALE); reflexivity.
Qed.

Lemma fixup_subs (k : Z) (c : Config) (b b' : Build) :
  sequential_effector_fixup k c b = Some b' -> b_sub_bases b' = b_sub_bases b.
Proof.
  unfold sequential_effector_fixup. intros H.
  repeat match type of H with context [match ?x with _ => _ end] => destruct x end;
    try discriminate H; injection H as <-; reflexivity.
Qed.

Lemma add_chain_subs (k limit : Z) (b b' : Build) :
  build_inv sk0 b -> subs_exist sk (b_sub_bases b) -> add_chain s k limit b = Some b' ->
  subs_exist sk (b_sub_bases b').
Proof.
  intros I Hs E q Hq. destruct (add_chain_queues _ _ _ _ I E q Hq) as [H|A];
    [exact (Hs q H)|exact (above_exists _ _ _ W A)].
Qed.

Lemma config_chain_subs (k : Z) (c : Config) (b b' : Build) :
  build_inv sk0 b -> subs_exist sk (b_sub_bases b) -> config_chain s k c b = Some b' ->
  subs_exist sk (b_sub_bases b').
Proof.
  intros I Hs E. unfold config_chain in E. destruct (hasTargetPos c).
  - destruct (add_chain s k _ b) as [b1|] eqn:E1; [|discriminate].
    rewrite (fixup_subs _ _ _ _ E). exact (add_chain_subs _ _ _ _ I Hs E1).
  - destruct (hasTargetRot c); [exact (add_chain_subs _ _ _ _ I Hs E)|injection E as <-; exact Hs].
Qed.

Lemma config_step_subs (b : Build) (k : Z) (b' : Build) :
  build_inv sk0 b -> subs_exist sk (b_sub_bases b) -> config_step s b k = Some b' ->
  subs_exist sk (b_sub_bases b').
Proof.
  intros I Hs E.
  unfold config_step in E.
  destruct (find k (b_configs b)) as [c|]; [|discriminate].
  destruct (find k (b_skeleton b)) as [j0|] eqn:F; [|injection E as <-; exact Hs].
  destruct (Z.eqb (j_id j0) (s_root_id s)); [injection E as <-; rewrite apply_root_config_subs; exact Hs|].
  destruct (hasDelegated c); [injection E as <-; destruct (hasLocalRot c); exact Hs|].
  destruct (config_chain s k c _) as [b3|] eqn:E3; [|discriminate]. injection E as <-.
  assert (I2 : build_inv sk0 (if hasLocalRot c
     then update_build k (fun j => lockLocalRot j (cfg_local_rot c)) (with_skeleton b (insert k (setConfig j0 k c) (b_skeleton b)))
     else with_skeleton b (insert k (setConfig j0 k c) (b_skeleton b)))).
  { pose proof I as (So & _ & _).
    assert (I1 : build_inv sk0 (with_skeleton b (insert k (setConfig j0 k c) (b_skeleton b)))).
    { apply build_inv_sk; auto with llik. apply (grows_insert _ _ _ (fun j => setConfig j k c)); auto with llik. }
    destruct (hasLocalRot c); [apply build_inv_update; auto with llik|exact I1]. }
  assert (Hs2 : subs_exist sk (b_sub_bases (if hasLocalRot c
     then update_build k (fun j => lockLocalRot j (cfg_local_rot c)) (with_skeleton b (insert k (setConfig j0 k c) (b_skeleton b)))
     else with_skeleton b (insert k (setConfig j0 k c) (b_skeleton b))))) by (destruct (hasLocalRot c); exact Hs).
  unfold config_local. pose proof (config_chain_subs _ _ _ _ I2 Hs2 E3) as Hs3.
  destruct (hasLocalPos c), (hasLocalScale c); exact Hs3.
Qed.

(** One round builds a chain from every queued sub-base, and queues only
    joints above one of them. *)
Lemma sub_base_round_next (b : Build) :
  build_inv sk0 b -> subs_exist sk (b_sub_bases b) ->
  exists b', sub_base_round s b = Some b' /\ build_inv sk0 b' /\
    forall q', In q' (keys (b_sub_bases b')) -> exists q, In q (keys (b_sub_bases b)) /\ above sk q q'.
Proof.
  intros I Hs. unfold sub_base_round.
  apply (fold_opt_some (fun acc => build_inv sk0 acc /\
           forall q', In q' (keys (b_sub_bases acc)) -> exists q, In q (keys (b_sub_bases b)) /\ above sk q q')).
  - intros x id Hin [Ix Hx]. destruct (add_chain_some id 255 x Ix (Hs id Hin)) as [y Ey].
    exists y. split; [exact Ey|split; [exact (add_chain_inv s sk0 _ _ _ _ Ix Ey)|]].
    intros q' Hq'. destruct (add_chain_queues _ _ _ _ Ix Ey q' Hq') as [H|A]; [exact (Hx q' H)|eauto].
  - pose proof I as (So & _ & _). split; [apply build_inv_sk; auto with llik|intros q' []].
Qed.

(** [drain_sub_bases] returns when every queued joint is a joint of the
    skeleton whose paths up the parents are shorter than the fuel. *)
Lemma drain_sub_bases_some (fuel : nat) (b : Build) :
  build_inv sk0 b ->
  (forall q, In q (keys (b_sub_bases b)) -> bounded (parent_step sk) fuel q /\ exists j, find q sk = Some j) ->
  exists b', drain_sub_bases s fuel b = Some b'.
Proof.
  revert b. induction fuel as [|fuel IH]; intros b I Hq; simpl;
    destruct (b_sub_bases b) as [|[q0 u] subs] eqn:Eb; try (eexists; reflexivity).
  - exfalso. exact (proj1 (Hq q0 (or_introl eq_refl))).
  - rewrite <- Eb in Hq. assert (Hs : subs_exist sk (b_sub_bases b)) by (intros q Hin; exact (proj2 (Hq q Hin))).
    destruct (sub_base_round_next b I Hs) as (b1 & -> & I1 & Hn).
    apply (IH b1 I1). intros q' Hq'. destruct (Hn q' Hq') as (q & Hin & A). split.
    + exact (bounded_above _ _ _ _ (proj1 (Hq q Hin)) A).
    + exact (above_exists _ _ _ W A).
Qed.

End Rounds.

(** ** The loop of [rebuildAllChains] *)

(** C4: On a well-formed skeleton whose joints' ids are their keys, every
    sub-base the configuration loop of [rebuildAllChains] queues is a joint
    of the skeleton, and the [while (sub_bases.size() > 0)] loop ends within
    one round more than there are joints: whatever the configuration loop
    queued, [drain_sub_bases] with that fuel returns, so the bound of the
    model is never what makes [rebuildAllChains] fail. *)
Theorem rebuildAllChains_sub_bases_terminate {L : Libm} (s : Solver) (b1 : Build) :
  skeleton_wf (s_skeleton s) -> ids_match (s_skeleton s) ->
  fold_opt (config_step s) (keys (s_joint_configs s))
    (mkBuild (reset_old_chains s) (s_joint_configs s) [] [] []) = Some b1 ->
  subs_exist (s_skeleton s) (b_sub_bases b1) /\
  exists b2, drain_sub_bases s (S (length (s_skeleton s))) b1 = Some b2.
Proof.
  intros W Hid E. pose proof W as (So & _).
  destruct (reset_old_chains_shape s So) as [So0 S0].
  assert (Hids0 : ids_match (reset_old_chains s)) by exact (same_shape_ids_match _ _ S0 Hid).
  assert (Inv : build_inv (reset_old_chains s) b1 /\ subs_exist (s_skeleton s) (b_sub_bases b1)).
  { revert E. apply (fold_opt_inv (fun b => build_inv (reset_old_chains s) b /\ subs_exist (s_skeleton s) (b_sub_bases b))).
    - intros x k y [Ix Hx] Ey. split; [exact (config_step_inv _ _ _ _ _ Ix Ey)|].
      exact (config_step_subs s _ _ W S0 Hids0 _ _ _ Ix Hx Ey).
    - split; [split; [exact So0|split; [reflexivity|split; [constructor|discriminate]]]|intros q []]. }
  destruct Inv as [I1 Hs1]. split; [exact Hs1|].
  apply (drain_sub_bases_some s _ _ W S0 Hids0 _ _ I1). intros q Hq.
  split; [exact (parent_step_bounded _ q W)|exact (Hs1 q Hq)].
Qed.

(** The configuration loop on the skeleton of the comment in
    [rebuildAllChains]: it queues the sub-bases 2 and 7; the round from
    them queues 6, and the round from 6 queues 2 again. *)
Definition comment_build : Build :=
  match @fold_opt _ _ (@config_step libm_Q comment_solver) (keys (s_joint_configs comment_solver))
          (mkBuild (reset_old_chains comment_solver) (s_joint_configs comment_solver) [] [] []) with
  | Some b => b
  | None => mkBuild [] [] [] [] []
  end.

Lemma rebuildAllChains_sub_bases_terminate_witness :
  keys (b_sub_bases comment_build) = [2; 7] /\
  subs_exist (s_skeleton comment_solver) (b_sub_bases comment_build) /\
  exists b2, drain_sub_bases comment_solver (S (length (s_skeleton comment_solver))) comment_build = Some b2.
Proof.
  split; [vm_compute; reflexivity|].
  apply (@rebuildAllChains_sub_bases_terminate libm_Q comment_solver comment_build).
  - apply skeleton_wfb_spec. vm_compute. reflexivity.
  - apply ids_matchb_spec. vm_compute. reflexivity.
  - vm_compute. reflexivity.
Defined.
