(* ===== verification/Fabrik.v ===== *)
(** * Fabrik: the FABRIK pass of [Solver::solveOnce]

    [Solver::executeFabrikPass] (llik.cpp 3384-3416) runs an inward pass
    over the chains in reverse key order ([executeFabrikInward]: the outer
    end toward its target with [Joint::updateEndInward], then each middle
    joint toward its child with [Joint::updateInward]), updates the local
    rotations of the children of the active roots, and runs an outward
    pass in key order ([executeFabrikOutward]: each middle joint from its
    parent with [Joint::updateOutward], then the outer end with
    [Joint::updateEndOutward]).  The joint updates recompute local
    rotations with [updateLocalRot] and [applyLocalRot] and enforce the
    joints' constraints.

    The constraints' geometry ([computeAdjustedLocalRot] of each class,
    and the [enforce] overrides of the elbow and the knee, which also
    move the parent) is the class [ConstraintOps]: the virtual calls of the
    code, whose instance for llik.cpp's classes is in file [Geometry].  The base [Constraint::enforce] and the dispatch between it and
    the overrides are modelled.  Every update is a function on the
    skeleton map; [mConfig] is read from the configuration map the section
    takes as a variable.  Dereferencing a missing parent or configuration
    is [None]; so is the division by zero targets in [updateEndInward],
    which the C++ does in floating point and turns into NaN. *)

From Stdlib Require Import QArith ZArith List Bool Lia RelationClasses.
Import ListNotations.
From S2P Require Import Prelude F32 Vec Config OrdMap Constraints Skeleton Chains Kinematics.

Local Open Scope llik_scope.

(** The constraints' virtual members. *)
Class ConstraintOps := {
  (** [Constraint::computeAdjustedLocalRot]: the nearest allowed local
      rotation. *)
  computeAdjustedLocalRot : Constraint -> quat -> quat;
  (** [ElbowConstraint::enforce] and [KneeConstraint::enforce] on the
      joint at a key: the adjusted map, and whether anything changed.
      ([ShoulderConstraint::enforce] is commented out, lines 538-556.) *)
  enforce_override : Constraint -> Z -> amap Joint -> option (amap Joint * bool)
}.

(** [VERY_SMALL_ANGLE] (line 129). *)
Definition VERY_SMALL_ANGLE : Q := (1 # 1000) * F_PI.

(** [WORLD_ROT_TARGET_BACKPRESSURE_COEF] (line 1990). *)
Definition WORLD_ROT_TARGET_BACKPRESSURE_COEF : Q := 1 # 2.

(** The zero quaternion the averages start from (lines 1759, 1808-1810). *)
Definition q_zero : quat := Quat 0 0 0 0.

(** [avg = avg - q] or [avg = avg + q] by the sign of [q]'s real part, to
    keep the sum on one hypersphere (lines 1771-1779 and siblings). *)
Definition hemisphere_add (avg q : quat) : quat :=
  if qw q <? 0 then qsub avg q else qadd avg q.

Section Fabrik.
Context {L : Libm} {C : ConstraintOps}.
Variable cfgs : amap Config.

(** The [Config] a joint's [mConfig] points to. *)
Definition config_of (j : Joint) : option Config :=
  match j_config j with Some key => find key cfgs | None => None end.

(** The joint [mParent] points to, which the callers expect to exist. *)
Definition parent_of_joint (sk : amap Joint) (j : Joint) : option Joint :=
  match j_parent j with Some p => find p sk | None => None end.

(** [Constraint::enforce] (lines 297-313): move the local rotation to the
    adjusted one when they differ. *)
Definition base_enforce (c : Constraint) (k : Z) (sk : amap Joint) : option (amap Joint * bool) :=
  j <- find k sk ;;
  let local_rot := j_local_rot j in
  let adjusted_local_rot := computeAdjustedLocalRot c local_rot in
  if qalmost_equal adjusted_local_rot local_rot then Some (sk, false)
  else Some (insert k (setLocalRot j adjusted_local_rot) sk, true).

(** The virtual call [mConstraint->enforce] on the joint: the elbow and
    the knee override it; the shoulder's override is commented out. *)
Definition enforce (c : Constraint) : Z -> amap Joint -> option (amap Joint * bool) :=
  match c with
  | CElbow _ | CKnee _ => enforce_override c
  | _ => base_enforce c
  end.

(** [Joint::enforceConstraint] (lines 2092-2102). *)
Definition enforceConstraint (k : Z) (sk : amap Joint) : option (amap Joint * bool) :=
  j <- find k sk ;;
  match j_constraint j with
  | Some c => if negb (localRotLocked j) && negb (hasDisabledConstraint j) then enforce c k sk
              else Some (sk, false)
  | None => Some (sk, false)
  end.

(** [Joint::updateLocalRot] (lines 2013-2039): the local rotation the
    world rotations imply; a locked joint keeps its own and reports [true]
    when they differ. *)
Definition updateLocalRot (enforce_constraints : bool) (k : Z) (sk : amap Joint)
    : option (amap Joint * bool) :=
  j <- find k sk ;;
  p <- parent_of_joint sk j ;;
  let new_local_rot := qnormalize (qmul (j_rot j) (qconj (j_rot p))) in
  if negb (qalmost_equal new_local_rot (j_local_rot j)) then
    if localRotLocked j then Some (sk, true)
    else
      let sk1 := insert k (with_rots j new_local_rot (j_rot j)) sk in
      if enforce_constraints then enforceConstraint k sk1 else Some (sk1, false)
  else Some (sk, false).

(** [Joint::applyLocalRot] (lines 1981-2011): the world rotation from the
    local one, pulled halfway to the target rotation when there is one, in
    which case the local rotation is recomputed. *)
Definition applyLocalRot (k : Z) (sk : amap Joint) : option (amap Joint) :=
  j <- find k sk ;;
  match j_parent j with
  | Some pk =>
      p <- find pk sk ;;
      if hasRotTarget j then
        cfg <- config_of j ;;
        let new_rot := qmul (j_local_rot j) (j_rot p) in
        let rot := qlerp WORLD_ROT_TARGET_BACKPRESSURE_COEF (cfg_target_rot cfg) new_rot in
        let local_rot := qnormalize (qmul rot (qconj (j_rot p))) in
        Some (insert k (with_rots j local_rot rot) sk)
      else Some (insert k (with_rots j (j_local_rot j) (qnormalize (qmul (j_local_rot j) (j_rot p)))) sk)
  | None => Some (insert k (with_rots j (j_local_rot j) (j_local_rot j)) sk)
  end.

(** [Joint::updateChildLocalRots] (lines 2041-2052). *)
Definition updateChildLocalRots (k : Z) (sk : amap Joint) : option (amap Joint) :=
  j <- find k sk ;;
  fold_opt (fun sk' c =>
      cj <- find c sk' ;;
      if isActive cj then r <- updateLocalRot false c sk' ;; Some (fst r) else Some sk')
    (j_children j) sk.

(** [Joint::collectTargetPositions] (lines 2223-2251): the bone and the
    target position, or the local and world positions of the active
    children. *)
Definition collectTargetPositions (j : Joint) (sk : amap Joint) : option (list vec3 * list vec3) :=
  if hasPosTarget j then
    cfg <- config_of j ;; Some ([j_bone j], [cfg_target_pos cfg])
  else
    fold_opt (fun acc c =>
        cj <- find c sk ;;
        if isActive cj then Some (fst acc ++ [j_local_pos cj], snd acc ++ [j_pos cj]) else Some acc)
      (j_children j) ([], []).

(** [mRot = mConfig->getTargetRot()], and [mPos] so that the bone ends on
    the target position when there is one (lines 1726-1733, 1851-1857). *)
Definition to_rot_target (j : Joint) (pos : vec3) : option Joint :=
  cfg <- config_of j ;;
  let rot := cfg_target_rot cfg in
  let pos' := if hasPosTarget j then vsub (cfg_target_pos cfg) (vrot (j_bone j) rot) else pos in
  Some (with_rots (setWorldPos j pos') (j_local_rot j) rot).

(** The multi-target loop of [updateEndInward] (lines 1761-1781): the sum
    of the positions each target asks for and the sum of the rotations. *)
Definition inward_targets (j : Joint) (targets : list (vec3 * vec3)) : vec3 * quat :=
  fold_left (fun acc t =>
      let '(new_pos, avg) := acc in
      let '(local_target, world_target) := t in
      let new_bone := vscale (vlength local_target) (vnormalize (vsub world_target (j_pos j))) in
      let old_bone := vrot local_target (j_rot j) in
      (vadd new_pos (vsub world_target new_bone),
       hemisphere_add avg (shortestArc old_bone new_bone)))
    targets (v_zero, q_zero).

(** The children average of [updateEndInward] (lines 1801-1825): over every
    child, the parent rotation the child implies, summed and normalized at
    each step, the last sum being the result. *)
Definition children_rot_average (j : Joint) (sk : amap Joint) : option quat :=
  r <- fold_opt (fun acc c =>
          cj <- find c sk ;;
          let rot := qmul (qconj (j_local_rot cj)) (j_rot cj) in
          let avg := qnormalize (hemisphere_add (fst acc) rot) in
          Some (avg, avg))
        (j_children j) (q_zero, j_rot j) ;;
  Some (snd r).

(** [updateLocalRot] on the active children, remembering whether any
    constraint was enforced (lines 1792-1800). *)
Definition update_children_local_rots (enforce_constraints : bool) (j : Joint) (sk : amap Joint)
    : option (amap Joint * bool) :=
  fold_opt (fun acc c =>
      let '(sk', changed) := acc in
      cj <- find c sk' ;;
      if isActive cj then
        r <- updateLocalRot enforce_constraints c sk' ;;
        Some (fst r, snd r || changed)
      else Some acc)
    (j_children j) (sk, false).

(** [Joint::updateEndInward] (lines 1723-1827). *)
Definition updateEndInward (enforce_constraints : bool) (k : Z) (sk : amap Joint) : option (amap Joint) :=
  j <- find k sk ;;
  j1 <- (if hasRotTarget j then to_rot_target j (j_pos j)
         else
           ts <- collectTargetPositions j sk ;;
           match ts with
           | ([local_target], [world_target]) =>
               let bone_dir := vnormalize (vsub world_target (j_pos j)) in
               let pos := vsub world_target (vscale (vlength local_target) bone_dir) in
               let old_bone := vrot local_target (j_rot j) in
               let rot := qnormalize (qmul (j_rot j) (shortestArc old_bone bone_dir)) in
               Some (with_rots (setWorldPos j pos) (j_local_rot j) rot)
           | (local_targets, world_targets) =>
               let num_targets := length local_targets in
               let '(new_pos, avg) := inward_targets j (combine local_targets world_targets) in
               pos <- (match parent_of_joint sk j with
                       | Some p => if isActive p then
                                     if Nat.eqb num_targets 0 then None
                                     else Some (vscale (1 / inject_Z (Z.of_nat num_targets)) new_pos)
                                   else Some (j_pos j)
                       | None => Some (j_pos j)
                       end) ;;
               let rot := qnormalize (qmul (j_rot j) (qnormalize avg)) in
               Some (with_rots (setWorldPos j pos) (j_local_rot j) rot)
           end) ;;
  r <- update_children_local_rots enforce_constraints j (insert k j1 sk) ;;
  let '(sk2, something_changed) := r in
  if something_changed then
    j2 <- find k sk2 ;;
    rot <- children_rot_average j2 sk2 ;;
    Some (insert k (with_rots j2 (j_local_rot j2) rot) sk2)
  else Some sk2.

(** The multi-target loop of [updateEndOutward] (lines 1872-1885). *)
Definition outward_targets (j : Joint) (pos : vec3) (targets : list (vec3 * vec3)) : quat :=
  fold_left (fun avg t =>
      let '(local_target, world_target) := t in
      hemisphere_add avg (shortestArc (vrot local_target (j_rot j)) (vsub world_target pos)))
    targets q_zero.

(** [Joint::updateEndOutward] (lines 1838-1906). *)
Definition updateEndOutward (enforce_constraints : bool) (k : Z) (sk : amap Joint) : option (amap Joint) :=
  j <- find k sk ;;
  p <- parent_of_joint sk j ;;
  let pos := computePosFromParent j p in
  if localRotLocked j then
    Some (insert k (with_rots (setWorldPos j pos) (j_local_rot j) (qmul (j_local_rot j) (j_rot p))) sk)
  else
    j1 <- (if hasRotTarget j then to_rot_target j pos
           else
             ts <- collectTargetPositions j sk ;;
             match ts with
             | ([local_target], [world_target]) =>
                 let adjustment := shortestArc (vrot local_target (j_rot j)) (vsub world_target pos) in
                 Some (with_rots (setWorldPos j pos) (j_local_rot j) (qnormalize (qmul (j_rot j) adjustment)))
             | (local_targets, world_targets) =>
                 let avg := qnormalize (outward_targets j pos (combine local_targets world_targets)) in
                 Some (with_rots (setWorldPos j pos) (j_local_rot j) (qnormalize (qmul (j_rot j) avg)))
             end) ;;
    r <- updateLocalRot enforce_constraints k (insert k j1 sk) ;;
    let '(sk2, changed) := r in
    if changed then applyLocalRot k sk2 else Some sk2.

(** [Joint::updateInward] (lines 1908-1945): move toward the child, keeping
    the child's distance, and swing; when the child's constraint was
    enforced, take back the rotation and position the child implies. *)
Definition updateInward (enforce_constraints : bool) (k ck : Z) (sk : amap Joint) : option (amap Joint) :=
  j <- find k sk ;;
  c <- find ck sk ;;
  let bone_dir := vnormalize (vsub (j_pos c) (j_pos j)) in
  let pos := vsub (j_pos c) (vscale (j_local_pos_length c) bone_dir) in
  let adjustment := shortestArc (vrot (j_local_pos c) (j_rot j)) bone_dir in
  let rot := qnormalize (qmul (j_rot j) adjustment) in
  r <- updateLocalRot enforce_constraints ck (insert k (with_rots (setWorldPos j pos) (j_local_rot j) rot) sk) ;;
  let '(sk2, changed) := r in
  if changed then
    c2 <- find ck sk2 ;;
    j2 <- find k sk2 ;;
    let rot2 := qnormalize (qmul (qconj (j_local_rot c2)) (j_rot c2)) in
    let pos2 := vsub (j_pos c2) (vrot (j_local_pos c2) rot2) in
    Some (insert k (with_rots (setWorldPos j2 pos2) (j_local_rot j2) rot2) sk2)
  else Some sk2.

(** [Joint::updateOutward] (lines 1958-1979): take the position the parent
    gives, and swing so that the bone still ends where it did. *)
Definition updateOutward (enforce_constraints : bool) (k : Z) (sk : amap Joint) : option (amap Joint) :=
  j <- find k sk ;;
  p <- parent_of_joint sk j ;;
  let old_end_pos := computeWorldEndPos j in
  let pos := computePosFromParent j p in
  let old_bone := vrot (j_bone j) (j_rot j) in
  let dQ := shortestArc old_bone (vsub old_end_pos pos) in
  let rot := qnormalize (qmul (j_rot j) dQ) in
  r <- updateLocalRot enforce_constraints k (insert k (with_rots (setWorldPos j pos) (j_local_rot j) rot) sk) ;;
  let '(sk2, changed) := r in
  if changed then applyLocalRot k sk2 else Some sk2.

(** The joints strictly between the ends of a chain. *)
Definition chain_middle (chain : list Z) : list Z :=
  match chain with [] => [] | _ :: t => removelast t end.

(** [Solver::executeFabrikInward] (lines 3325-3346). *)
Definition executeFabrikInward (enforce_constraints : bool) (chain : list Z) (sk : amap Joint)
    : option (amap Joint) :=
  outer <- hd_error chain ;;
  sk1 <- updateEndInward enforce_constraints outer sk ;;
  fold_opt (fun sk' '(child, joint) => updateInward enforce_constraints joint child sk')
    (combine chain (chain_middle chain)) sk1.

(** [Solver::executeFabrikOutward] (lines 3348-3368). *)
Definition executeFabrikOutward (enforce_constraints : bool) (chain : list Z) (sk : amap Joint)
    : option (amap Joint) :=
  sk1 <- fold_opt (fun sk' k => updateOutward enforce_constraints k sk') (rev (chain_middle chain)) sk ;;
  outer <- hd_error chain ;;
  updateEndOutward enforce_constraints outer sk1.

End Fabrik.

(** [Solver::executeFabrikPass] (lines 3384-3416). *)
Definition executeFabrikPass {L : Libm} {C : ConstraintOps} (enforce_constraints : bool) (s : Solver)
    : option (amap Joint) :=
  let cfgs := s_joint_configs s in
  sk1 <- fold_opt (fun sk' '(_, chain) => executeFabrikInward cfgs enforce_constraints chain sk')
           (rev (s_chain_map s)) (s_skeleton s) ;;
  sk2 <- fold_opt (fun sk' '(r, _) => updateChildLocalRots r sk') (s_active_roots s) sk1 ;;
  fold_opt (fun sk' '(_, chain) => executeFabrikOutward cfgs enforce_constraints chain sk')
    (s_chain_map s) sk2.

(** The loops of [executeFabrikInward] and [executeFabrikOutward] as the
    code writes them, over the indices [1 <= i < last_index] with
    [last_index = chain.size() - 1], the reference the list traversals
    above are checked against. *)
Definition inward_index_pairs (chain : list Z) : list (Z * Z) :=
  map (fun i => (nth (i - 1) chain 0%Z, nth i chain 0%Z)) (seq 1 (length chain - 2)).

Definition outward_index_order (chain : list Z) : list Z :=
  map (fun i => nth i chain 0%Z) (rev (seq 1 (length chain - 2))).

(** ** Example states *)

(** A configuration that locks the local rotation at the identity and also
    asks for a world rotation of about 73.7 degrees around z, on the middle
    joint of [arm_solver], with a position target on its tip. *)
Definition rot_z : quat := Quat 0 0 (3 # 5) (4 # 5).

Definition lock_cfgs : amap Config :=
  [(1%Z, Setters.setTargetRot rot_z (Setters.setLocalRot q_identity default_config));
   (2%Z, Setters.setTargetPos (V3 1 1 0) default_config)].

(** The skeleton after [rebuildAllChains], the middle joint's world
    rotation turned away from its parent's. *)
Definition lock_skeleton : amap Joint :=
  update 1 (fun j => setWorldRot j rot_z)
    (match rebuildAllChains (with_configs arm_solver lock_cfgs) with
     | Some s => s_skeleton s | None => [] end).

(** A tip with both a position and a rotation target. *)
Definition reach_cfgs : amap Config :=
  [(2%Z, Setters.setTargetRot rot_z (Setters.setTargetPos (V3 1 1 0) default_config))].

Definition reach_skeleton : amap Joint :=
  match rebuildAllChains (with_configs arm_solver reach_cfgs) with
  | Some s => s_skeleton s | None => [] end.

(** The constraint operations of a skeleton without constraints, where
    they are never called. *)
Definition no_constraint_ops : ConstraintOps :=
  {| computeAdjustedLocalRot := fun _ q => q; enforce_override := fun _ _ sk => Some (sk, false) |}.

(** ** The pass keeps the skeleton's structure

    Every update of the pass writes positions and rotations only: parents,
    children and the [ACTIVE] bit stay as they are.  Of the constraints'
    overrides this asks the same. *)

Class ConstraintOpsLaws {C : ConstraintOps} := {
  enforce_override_links : forall c k sk sk' b,
    enforce_override c k sk = Some (sk', b) -> same_links isActive sk sk'
}.

#[export] Instance same_links_preorder go : PreOrder (same_links go).
Proof. split; [exact (same_links_refl go)|exact (same_links_trans go)]. Qed.

Lemma same_links_upd go sk k j j' :
  find k sk = Some j -> links go j' = links go j -> same_links go sk (insert k j' sk).
Proof. intros F E. exact (same_links_insert go sk sk k j j' (same_links_refl _ _) F E). Qed.

(** Close the case analysis of an update whose result is [H]: every
    branch fails, returns the map, or writes back a joint with its links. *)
Ltac links_leaf :=
  first [ reflexivity
        | match goal with
          | F : find ?k ?sk = Some ?j |- same_links _ ?sk (insert ?k _ ?sk) =>
              apply (same_links_upd _ _ _ j); [exact F|reflexivity]
          end ].

Ltac links_cases H :=
  repeat match type of H with
  | context [match ?x with _ => _ end] => destruct x eqn:?
  end;
  try discriminate H; injection H as <-; links_leaf.

Section FabrikLinks.
Context {L : Libm} {C : ConstraintOps} {CL : ConstraintOpsLaws}.
Variable cfgs : amap Config.

Lemma base_enforce_links c k sk sk' b : base_enforce c k sk = Some (sk', b) -> same_links isActive sk sk'.
Proof.
  unfold base_enforce. destruct (find k sk) as [j|] eqn:F; [|discriminate].
  destruct (qalmost_equal _ _); intros E; injection E as <- _; [reflexivity|].
  apply (same_links_upd _ _ _ j); [exact F|]. unfold setLocalRot. now destruct (localRotLocked j).
Qed.

Lemma enforce_links c k sk sk' b : enforce c k sk = Some (sk', b) -> same_links isActive sk sk'.
Proof.
  destruct c; simpl; first [apply base_enforce_links | apply enforce_override_links].
Qed.

Lemma enforceConstraint_links k sk sk' b : enforceConstraint k sk = Some (sk', b) -> same_links isActive sk sk'.
Proof.
  unfold enforceConstraint. destruct (find k sk) as [j|]; [|discriminate].
  destruct (j_constraint j) as [c|]; [destruct (_ && _)|];
    [apply enforce_links| |]; intros E; injection E as <- _; reflexivity.
Qed.

Lemma updateLocalRot_links e k sk sk' b : updateLocalRot e k sk = Some (sk', b) -> same_links isActive sk sk'.
Proof.
  unfold updateLocalRot. destruct (find k sk) as [j|] eqn:F; [|discriminate].
  destruct (parent_of_joint sk j) as [p|]; [|discriminate].
  destruct (negb _); [destruct (localRotLocked j)|]; [| |intros E; injection E as <- _; reflexivity].
  - intros E. injection E as <- _. reflexivity.
  - assert (S1 : same_links isActive sk (insert k (with_rots j (qnormalize (qmul (j_rot j) (qconj (j_rot p)))) (j_rot j)) sk))
      by (apply (same_links_upd _ _ _ j); [exact F|reflexivity]).
    destruct e; intros E; [exact (same_links_trans _ _ _ _ S1 (enforceConstraint_links _ _ _ _ E))|].
    injection E as <- _. exact S1.
Qed.

Lemma applyLocalRot_links k sk sk' : applyLocalRot cfgs k sk = Some sk' -> same_links isActive sk sk'.
Proof. unfold applyLocalRot. intros H. links_cases H. Qed.

Lemma updateLocalRot_fst_links e c sk r : updateLocalRot e c sk = Some r -> same_links isActive sk (fst r).
Proof. destruct r as [sk' b]. apply updateLocalRot_links. Qed.

Lemma updateChildLocalRots_links k sk sk' :
  updateChildLocalRots k sk = Some sk' -> same_links isActive sk sk'.
Proof.
  unfold updateChildLocalRots. destruct (find k sk) as [j|]; [|discriminate].
  apply fold_opt_inv; [|reflexivity]. intros x c y Sx St. cbv beta in St.
  destruct (find c x) as [cj|]; [|discriminate]. destruct (isActive cj).
  - destruct (updateLocalRot false c x) as [r|] eqn:U; [|discriminate]. injection St as <-.
    exact (same_links_trans _ _ _ _ Sx (updateLocalRot_fst_links _ _ _ _ U)).
  - injection St as <-. exact Sx.
Qed.

Lemma to_rot_target_links j pos j1 : to_rot_target cfgs j pos = Some j1 -> links isActive j1 = links isActive j.
Proof. unfold to_rot_target. intros H. links_cases H. Qed.

Lemma update_children_local_rots_links e j sk r :
  update_children_local_rots e j sk = Some r -> same_links isActive sk (fst r).
Proof.
  unfold update_children_local_rots. apply (fold_opt_inv (fun acc => same_links isActive sk (fst acc)));
    [|reflexivity].
  intros [x b] c y Sx St. cbn in St, Sx.
  destruct (find c x) as [cj|]; [|discriminate]. destruct (isActive cj).
  - destruct (updateLocalRot e c x) as [r'|] eqn:U; [|discriminate]. injection St as <-.
    exact (same_links_trans _ _ _ _ Sx (updateLocalRot_fst_links _ _ _ _ U)).
  - injection St as <-. exact Sx.
Qed.

(** A joint computed from [j] by one of the end updates keeps its links. *)
Ltac joint_links J :=
  first [ exact (to_rot_target_links _ _ _ J)
        | repeat match type of J with
                 | context [match ?x with _ => _ end] => destruct x eqn:?
                 end;
          try discriminate J; injection J as <-; reflexivity ].

Lemma updateEndInward_links e k sk sk' :
  updateEndInward cfgs e k sk = Some sk' -> same_links isActive sk sk'.
Proof.
  unfold updateEndInward. destruct (find k sk) as [j|] eqn:F; [|discriminate].
  lazymatch goal with |- match ?x with _ => _ end = _ -> _ => destruct x as [j1|] eqn:J1 end;
    [|discriminate].
  assert (Ej : links isActive j1 = links isActive j)
    by (destruct (hasRotTarget j); joint_links J1).
  pose proof (same_links_upd _ _ _ _ _ F Ej) as S1.
  destruct (update_children_local_rots e j (insert k j1 sk)) as [[sk2 b]|] eqn:U; [|discriminate].
  pose proof (same_links_trans _ _ _ _ S1 (update_children_local_rots_links _ _ _ _ U)) as S2.
  cbn [fst] in S2. destruct b; [|intros E; injection E as <-; exact S2].
  destruct (find k sk2) as [j2|] eqn:F2; [|discriminate].
  destruct (children_rot_average j2 sk2); [|discriminate]. intros E; injection E as <-.
  apply (same_links_trans _ _ _ _ S2). apply (same_links_upd _ _ _ j2); [exact F2|reflexivity].
Qed.

Lemma updateEndOutward_links e k sk sk' :
  updateEndOutward cfgs e k sk = Some sk' -> same_links isActive sk sk'.
Proof.
  unfold updateEndOutward. destruct (find k sk) as [j|] eqn:F; [|discriminate].
  destruct (parent_of_joint sk j) as [p|]; [|discriminate].
  destruct (localRotLocked j); [intros E; injection E as <-; apply (same_links_upd _ _ _ j); [exact F|reflexivity]|].
  lazymatch goal with |- match ?x with _ => _ end = _ -> _ => destruct x as [j1|] eqn:J1 end;
    [|discriminate].
  assert (Ej : links isActive j1 = links isActive j)
    by (destruct (hasRotTarget j); joint_links J1).
  pose proof (same_links_upd _ _ _ _ _ F Ej) as S1.
  destruct (updateLocalRot e k (insert k j1 sk)) as [[sk2 b]|] eqn:U; [|discriminate].
  pose proof (same_links_trans _ _ _ _ S1 (updateLocalRot_links _ _ _ _ _ U)) as S2.
  destruct b; [|intros E; injection E as <-; exact S2].
  intros A. exact (same_links_trans _ _ _ _ S2 (applyLocalRot_links _ _ _ A)).
Qed.

Lemma updateInward_links e k ck sk sk' :
  updateInward e k ck sk = Some sk' -> same_links isActive sk sk'.
Proof.
  unfold updateInward. destruct (find k sk) as [j|] eqn:F; [|discriminate].
  destruct (find ck sk) as [c|]; [|discriminate].
  lazymatch goal with |- match updateLocalRot _ _ ?m with _ => _ end = _ -> _ =>
    assert (S1 : same_links isActive sk m) by (apply (same_links_upd _ _ _ j); [exact F|reflexivity]);
    destruct (updateLocalRot e ck m) as [[sk2 b]|] eqn:U; [|discriminate] end.
  pose proof (same_links_trans _ _ _ _ S1 (updateLocalRot_links _ _ _ _ _ U)) as S2.
  destruct b; [|intros E; injection E as <-; exact S2].
  destruct (find ck sk2); [|discriminate]. destruct (find k sk2) as [j2|] eqn:F2; [|discriminate].
  intros E; injection E as <-. apply (same_links_trans _ _ _ _ S2). apply (same_links_upd _ _ _ j2); [exact F2|reflexivity].
Qed.

Lemma updateOutward_links e k sk sk' :
  updateOutward cfgs e k sk = Some sk' -> same_links isActive sk sk'.
Proof.
  unfold updateOutward. destruct (find k sk) as [j|] eqn:F; [|discriminate].
  destruct (parent_of_joint sk j) as [p|]; [|discriminate].
  lazymatch goal with |- match updateLocalRot _ _ ?m with _ => _ end = _ -> _ =>
    assert (S1 : same_links isActive sk m) by (apply (same_links_upd _ _ _ j); [exact F|reflexivity]);
    destruct (updateLocalRot e k m) as [[sk2 b]|] eqn:U; [|discriminate] end.
  pose proof (same_links_trans _ _ _ _ S1 (updateLocalRot_links _ _ _ _ _ U)) as S2.
  destruct b; [|intros E; injection E as <-; exact S2].
  intros A. exact (same_links_trans _ _ _ _ S2 (applyLocalRot_links _ _ _ A)).
Qed.

Lemma executeFabrikInward_links e chain sk sk' :
  executeFabrikInward cfgs e chain sk = Some sk' -> same_links isActive sk sk'.
Proof.
  unfold executeFabrikInward. destruct (hd_error chain) as [o|]; [|discriminate].
  destruct (updateEndInward cfgs e o sk) as [sk1|] eqn:U; [|discriminate].
  apply fold_opt_inv; [|exact (updateEndInward_links _ _ _ _ U)].
  intros x [c k] y Sx St. exact (same_links_trans _ _ _ _ Sx (updateInward_links _ _ _ _ _ St)).
Qed.

Lemma executeFabrikOutward_links e chain sk sk' :
  executeFabrikOutward cfgs e chain sk = Some sk' -> same_links isActive sk sk'.
Proof.
  unfold executeFabrikOutward.
  destruct (fold_opt _ _ sk) as [sk1|] eqn:Fo; [|discriminate].
  assert (S1 : same_links isActive sk sk1).
  { revert Fo. apply fold_opt_inv; [|reflexivity].
    intros x k y Sx St. exact (same_links_trans _ _ _ _ Sx (updateOutward_links _ _ _ _ St)). }
  destruct (hd_error chain) as [o|]; [|discriminate].
  intros U. exact (same_links_trans _ _ _ _ S1 (updateEndOutward_links _ _ _ _ U)).
Qed.

End FabrikLinks.

(** ** The FABRIK pass *)

(** A FABRIK pass never changes the skeleton's structure: every joint
    keeps its parent, its children and its [ACTIVE] bit, provided the
    constraints' [enforce] overrides do not change them either. *)
Theorem executeFabrikPass_links {L : Libm} {C : ConstraintOps} {CL : ConstraintOpsLaws}
    (e : bool) (s : Solver) (sk' : amap Joint) :
  executeFabrikPass e s = Some sk' -> same_links isActive (s_skeleton s) sk'.
Proof.
  unfold executeFabrikPass.
  destruct (fold_opt _ (rev (s_chain_map s)) _) as [sk1|] eqn:F1; [|discriminate].
  destruct (fold_opt _ (s_active_roots s) sk1) as [sk2|] eqn:F2; [|discriminate].
  assert (S1 : same_links isActive (s_skeleton s) sk1).
  { revert F1. apply fold_opt_inv; [|reflexivity].
    intros x [k c] y Sx St. exact (same_links_trans _ _ _ _ Sx (executeFabrikInward_links _ _ _ _ _ St)). }
  assert (S2 : same_links isActive sk1 sk2).
  { revert F2. apply fold_opt_inv; [|reflexivity].
    intros x [k u] y Sx St. exact (same_links_trans _ _ _ _ Sx (updateChildLocalRots_links _ _ _ St)). }
  apply fold_opt_inv; [|exact (same_links_trans _ _ _ _ S1 S2)].
  intros x [k c] y Sx St. exact (same_links_trans _ _ _ _ Sx (executeFabrikOutward_links _ _ _ _ _ St)).
Qed.

(** The end update of a joint with a rotation and a position target. *)
Lemma to_rot_target_end {L : Libm} cfgs j pos cfg :
  config_of cfgs j = Some cfg -> hasPosTarget j = true ->
  exists j1, to_rot_target cfgs j pos = Some j1 /\
    computeWorldEndPos j1 ≡ cfg_target_pos cfg /\ j_rot j1 = cfg_target_rot cfg.
Proof.
  intros Hc Hp. unfold to_rot_target. rewrite Hc, Hp.
  eexists. split; [reflexivity|split; [apply vsub_add_cancel|reflexivity]].
Qed.

(** C14: [updateEndInward] puts a leaf with a position and a rotation target
    exactly on its targets: its world rotation is the target rotation and
    its bone ends on the target position. *)
Theorem updateEndInward_on_target {L : Libm} {C : ConstraintOps} (cfgs : amap Config) (e : bool)
    (k : Z) (sk : amap Joint) (j : Joint) (cfg : Config) :
  find k sk = Some j -> hasRotTarget j = true -> hasPosTarget j = true ->
  config_of cfgs j = Some cfg -> j_children j = [] ->
  exists sk' j', updateEndInward cfgs e k sk = Some sk' /\ find k sk' = Some j' /\
    computeWorldEndPos j' ≡ cfg_target_pos cfg /\ j_rot j' = cfg_target_rot cfg.
Proof.
  intros F Hr Hp Hc Hch. destruct (to_rot_target_end cfgs j (j_pos j) cfg Hc Hp) as (j1 & T & E & R).
  unfold updateEndInward. rewrite F, Hr, T. unfold update_children_local_rots. rewrite Hch.
  exists (insert k j1 sk), j1. split; [reflexivity|]. split; [apply find_insert_eq|]. now split.
Qed.

(** C15: without constraint enforcement, [updateEndOutward] puts an
    unlocked joint with a parent and a position and a rotation target
    exactly on its targets: the local rotation it then recomputes does not
    move the joint. *)
Theorem updateEndOutward_on_target {L : Libm} {C : ConstraintOps} (cfgs : amap Config) (k : Z)
    (sk : amap Joint) (j p : Joint) (cfg : Config) :
  find k sk = Some j -> parent_of_joint sk j = Some p -> localRotLocked j = false ->
  hasRotTarget j = true -> hasPosTarget j = true -> config_of cfgs j = Some cfg ->
  exists sk' j', updateEndOutward cfgs false k sk = Some sk' /\ find k sk' = Some j' /\
    computeWorldEndPos j' ≡ cfg_target_pos cfg /\ j_rot j' = cfg_target_rot cfg.
Proof.
  intros F P Hl Hr Hp Hc.
  destruct (to_rot_target_end cfgs j (computePosFromParent j p) cfg Hc Hp) as (j1 & T & E & R).
  assert (L1 : localRotLocked j1 = false /\ j_parent j1 = j_parent j).
  { unfold to_rot_target in T. rewrite Hc in T. injection T as <-. split; [exact Hl|reflexivity]. }
  destruct L1 as [L1 Pj].
  assert (P1 : exists p1, parent_of_joint (insert k j1 sk) j1 = Some p1).
  { unfold parent_of_joint in *. rewrite Pj. destruct (j_parent j) as [pk|]; [|discriminate].
    rewrite find_insert. destruct (Z.eqb k pk); eauto. }
  destruct P1 as [p1 P1].
  unfold updateEndOutward. rewrite F, P, Hl, Hr, T. unfold updateLocalRot. rewrite find_insert_eq, P1, L1.
  destruct (negb _).
  - eexists; eexists; split; [reflexivity|]. split; [apply find_insert_eq|]. split; [exact E|exact R].
  - exists (insert k j1 sk), j1. split; [reflexivity|]. split; [apply find_insert_eq|]. now split.
Qed.

(** [updateOutward] overrides a locked local rotation: on a joint whose
    configuration locks its local rotation and also sets a world rotation
    target, [updateLocalRot] reports the locked joint as changed (line
    2027) and [applyLocalRot] then recomputes [mLocalRot] from the rotation
    pulled toward the target (lines 1995-1998).  The joint stays flagged
    locked, with a local rotation that is no longer the identity it was
    locked at. *)
Theorem updateOutward_breaks_lock {C : ConstraintOps} :
  option_map (fun j => (localRotLocked j, qalmost_equal (j_local_rot j) q_identity))
    (find 1 lock_skeleton) = Some (true, true) /\
  option_map (fun sk => option_map (fun j => (localRotLocked j, qalmost_equal (j_local_rot j) q_identity))
                           (find 1 sk))
    (@updateOutward libm_Q C lock_cfgs true 1 lock_skeleton) = Some (Some (true, false)).
Proof. split; vm_compute; reflexivity. Qed.

(** the list traversals of [executeFabrikInward] and
    [executeFabrikOutward] visit the pairs and joints of the code's index
    loops, in the same order, for chains of every length. *)
Theorem chain_traversals_match_index_loops (chain : list Z) :
  combine chain (chain_middle chain) = inward_index_pairs chain /\
  rev (chain_middle chain) = outward_index_order chain.
Proof.
  unfold inward_index_pairs, outward_index_order. destruct chain as [|a t]; [split; reflexivity|].
  cbn [chain_middle length]. replace (S (length t) - 2)%nat with (length t - 1)%nat by lia.
  rewrite removelast_firstn_len, <- Nat.sub_1_r. split.
  - apply combine_firstn_pairs. lia.
  - rewrite map_rev, <- (seq_shift _ 0), map_map. cbn [nth].
    rewrite (map_nth_seq t 0%Z) by lia. reflexivity.
Qed.

(** ** Witnesses *)

#[local] Instance no_constraint_laws : @ConstraintOpsLaws no_constraint_ops.
Proof. constructor. intros c k sk sk' b E. injection E as <- _. reflexivity. Qed.

Lemma executeFabrikPass_links_witness :
  @executeFabrikPass libm_Q no_constraint_ops true arm_solver = Some (s_skeleton arm_solver) /\
  same_links isActive (s_skeleton arm_solver) (s_skeleton arm_solver).
Proof.
  assert (E : @executeFabrikPass libm_Q no_constraint_ops true arm_solver = Some (s_skeleton arm_solver))
    by (vm_compute; reflexivity).
  split; [exact E|]. exact (@executeFabrikPass_links libm_Q no_constraint_ops _ true arm_solver _ E).
Defined.

Lemma updateEndInward_on_target_witness :
  exists sk' j', @updateEndInward libm_Q no_constraint_ops reach_cfgs true 2 reach_skeleton = Some sk' /\
    find 2 sk' = Some j' /\ computeWorldEndPos j' ≡ V3 1 1 0 /\ j_rot j' ≃ rot_z.
Proof.
  destruct (find 2 reach_skeleton) as [j|] eqn:F; [|vm_compute in F; discriminate].
  destruct (config_of reach_cfgs j) as [cfg|] eqn:Hc; [|vm_compute in F; injection F as <-; discriminate].
  assert (Ej : hasRotTarget j = true /\ hasPosTarget j = true /\ j_children j = [] /\
               cfg_target_pos cfg = V3 1 1 0 /\ cfg_target_rot cfg ≃ rot_z)
    by (vm_compute in F; injection F as <-; vm_compute in Hc; injection Hc as <-; repeat split; vm_compute; reflexivity).
  destruct Ej as (Hr & Hp & Hch & Tp & Tr).
  destruct (@updateEndInward_on_target libm_Q no_constraint_ops reach_cfgs true 2 reach_skeleton j cfg F Hr Hp Hc Hch)
    as (sk' & j' & U & F' & Ep & Er).
  exists sk', j'. rewrite <- Tp, <- Tr, <- Er. repeat split; first [exact U|exact F'|apply Ep|reflexivity].
Defined.

Lemma updateEndOutward_on_target_witness :
  exists sk' j', @updateEndOutward libm_Q no_constraint_ops reach_cfgs false 2 reach_skeleton = Some sk' /\
    find 2 sk' = Some j' /\ computeWorldEndPos j' ≡ V3 1 1 0 /\ j_rot j' ≃ rot_z.
Proof.
  destruct (find 2 reach_skeleton) as [j|] eqn:F; [|vm_compute in F; discriminate].
  destruct (config_of reach_cfgs j) as [cfg|] eqn:Hc; [|vm_compute in F; injection F as <-; discriminate].
  destruct (parent_of_joint reach_skeleton j) as [p|] eqn:P; [|vm_compute in F; injection F as <-; discriminate].
  assert (Ej : localRotLocked j = false /\ hasRotTarget j = true /\ hasPosTarget j = true /\
               cfg_target_pos cfg = V3 1 1 0 /\ cfg_target_rot cfg ≃ rot_z)
    by (vm_compute in F; injection F as <-; vm_compute in Hc; injection Hc as <-; repeat split; vm_compute; reflexivity).
  destruct Ej as (Hl & Hr & Hp & Tp & Tr).
  destruct (@updateEndOutward_on_target libm_Q no_constraint_ops reach_cfgs 2 reach_skeleton j p cfg F P Hl Hr Hp Hc)
    as (sk' & j' & U & F' & Ep & Er).
  exists sk', j'. rewrite <- Tp, <- Tr, <- Er. repeat split; first [exact U|exact F'|apply Ep|reflexivity].
Defined.
