(* ===== verification/Ccd.v ===== *)
(** * Ccd: the experimental CCD pass (cyclic coordinate descent)

    [Solver::executeCcdPass] (llik.cpp 3425-3443) is the alternative to
    the FABRIK pass that [solveOnce] keeps commented out (line 3212).  It
    runs [executeCcdInward] on the chains in reverse key order: the outer
    end swings toward its targets ([Joint::swingTowardTargets]); while the
    joints keep swinging, the targets are carried into the next joint's
    frame ([Joint::transformTargetsToParentLocal]) and that joint swings;
    then the swung joints get their world transforms back from their
    parents and the outer end's children their local rotations.  Last,
    every chain is shifted back onto its base ([shiftChainToBase]).
    [Joint::twistTowardTargets] (lines 2393-2512), which no code calls,
    twists a joint about its constraint's forward axis.

    The swing factor [IK_DEFAULT_CCD_SWING_FACTOR] is declared in neither
    source file; it is the section variable [swing_factor].  As in
    [Fabrik], the skeleton is a map threaded through the updates, a
    missing parent, configuration or constraint is [None], and the
    constraints' geometry is the class [ConstraintOps]. *)

From Stdlib Require Import QArith ZArith List Bool Lia.
Import ListNotations.
From S2P Require Import Prelude F32 Vec Config OrdMap Constraints Skeleton Chains Kinematics Fabrik.

Local Open Scope llik_scope.

(** The thresholds and the blend of [twistTowardTargets] (lines 2409,
    2427, 2492). *)
Definition MIN_TARGET_LENGTH : Q := 1 # 100.
Definition MIN_RADIUS_FRACTION : Q := 1 # 100.
Definition TWIST_BLEND : Q := 2 # 5.

(** [local_targets[i]] with [world_targets[i]] for [i < local_targets.size()];
    reading past the end of [world_targets] is undefined. *)
Definition zip_targets (local_targets world_targets : list vec3) : option (list (vec3 * vec3)) :=
  if Nat.leb (length local_targets) (length world_targets)
  then Some (combine local_targets world_targets) else None.

Section Ccd.
Context {L : Libm} {C : ConstraintOps}.
Variable cfgs : amap Config.
Variable swing_factor : Q.

(** [Joint::transformTargetsToParentLocal] (lines 2291-2303): each target
    moved from this joint's frame into its parent's. *)
Definition transformTargetsToParentLocal (j : Joint) (sk : amap Joint) (local_targets : list vec3)
    : option (list vec3) :=
  match j_parent j with
  | Some pk =>
      p <- find pk sk ;;
      let world_to_parent := qconj (j_rot p) in
      Some (map (fun target => vrot (vsub (vadd (j_pos j) (vrot target (j_rot j))) (j_pos p)) world_to_parent)
             local_targets)
  | None => Some local_targets
  end.

(** The rotation taking one target's bone onto its target. *)
Definition swing_arc (j : Joint) (t : vec3 * vec3) : quat :=
  shortestArc (vrot (fst t) (j_rot j)) (vsub (snd t) (j_pos j)).

(** The adjustment of [swingTowardTargets] (lines 2326-2356): one
    target's arc, or the normalized sum of the arcs kept on one
    hemisphere. *)
Definition swing_adjustment (j : Joint) (ts : list (vec3 * vec3)) : quat :=
  match ts with
  | [t] => swing_arc j t
  | _ => qnormalize (fold_left (fun adjustment t => hemisphere_add adjustment (swing_arc j t)) ts q_zero)
  end.

(** The world rotation and local rotation of a joint turned to [rot]
    (lines 2376-2382 and 2500-2506): [mLocalRot] from [mParent->mRot]. *)
Definition set_rot_from_parent (k : Z) (j : Joint) (rot : quat) (sk : amap Joint) : option (amap Joint) :=
  p <- parent_of_joint sk j ;;
  let local_rot := qnormalize (qmul rot (qconj (j_rot p))) in
  Some (insert k (with_rots j local_rot rot) sk).

(** [Joint::swingTowardTargets] (lines 2306-2390): a locked joint reports
    [true] and stays; a joint with a rotation target takes it; otherwise
    the joint turns by [swing_factor] of the adjustment, unless that is
    within [VERY_SMALL_ANGLE] of the identity.  A joint that turned gets
    its local rotation from its parent's and its constraint enforced. *)
Definition swingTowardTargets (k : Z) (local_targets world_targets : list vec3) (sk : amap Joint)
    : option (amap Joint * bool) :=
  j <- find k sk ;;
  if localRotLocked j then Some (sk, true)
  else
    new_rot <- (if hasRotTarget j then cfg <- config_of cfgs j ;; Some (Some (cfg_target_rot cfg))
                else
                  ts <- zip_targets local_targets world_targets ;;
                  let adjustment := swing_adjustment j ts in
                  if negb (qalmost_equal_tol VERY_SMALL_ANGLE adjustment q_identity) then
                    let adjustment := qlerp swing_factor q_identity adjustment in
                    Some (Some (qnormalize (qmul (j_rot j) adjustment)))
                  else Some None) ;;
    match new_rot with
    | Some rot =>
        sk1 <- set_rot_from_parent k j rot sk ;;
        r <- enforceConstraint k sk1 ;;
        Some (fst r, true)
    | None => Some (sk, false)
    end.

(** One target of [twistTowardTargets] (lines 2401-2433 and 2446-2479):
    [None] where the code returns early (bone too short, target behind,
    radius too small), else the arc about [axis]. *)
Definition twist_arc (j : Joint) (axis : vec3) (t : vec3 * vec3) : option quat :=
  let local_target := vrot (fst t) (j_rot j) in
  let world_target := vsub (snd t) (j_pos j) in
  let target_length := vlength local_target in
  if target_length <? MIN_TARGET_LENGTH then None
  else
    let local_target := vsub local_target (vscale (vdot local_target axis) axis) in
    let world_target := vsub world_target (vscale (vdot world_target axis) axis) in
    if vdot local_target world_target <? 0 then None
    else
      let radius := vlength local_target in
      let MIN_RADIUS := MIN_RADIUS_FRACTION * target_length in
      if (radius <? MIN_RADIUS) || (vlength world_target <? MIN_RADIUS) then None
      else Some (shortestArc local_target world_target).

(** The adjustment of [twistTowardTargets]: one target's arc, or the
    normalized plain sum of the arcs; every early exit inside the loop
    (lines 2450-2477) returns from the whole function, and so does a loop
    with no adjustment (lines 2483-2486). *)
Definition twist_adjustment (j : Joint) (axis : vec3) (ts : list (vec3 * vec3)) : option quat :=
  match ts with
  | [t] => twist_arc j axis t
  | _ =>
      r <- fold_opt (fun acc t => adj <- twist_arc j axis t ;; Some (qadd (fst acc) adj, S (snd acc)))
             ts (q_zero, 0%nat) ;;
      if Nat.eqb (snd r) 0 then None else Some (qnormalize (fst r))
  end.

(** [Joint::twistTowardTargets] (lines 2393-2512). *)
Definition twistTowardTargets (k : Z) (local_targets world_targets : list vec3) (sk : amap Joint)
    : option (amap Joint) :=
  j <- find k sk ;;
  c <- j_constraint j ;;
  if negb (allowsTwist c) then Some sk
  else
    let axis := vrot (getForwardAxis c) (j_rot j) in
    ts <- zip_targets local_targets world_targets ;;
    match twist_adjustment j axis ts with
    | None => Some sk
    | Some adjustment =>
        let adjustment := qlerp TWIST_BLEND q_identity adjustment in
        sk1 <- set_rot_from_parent k j (qnormalize (qmul (j_rot j) adjustment)) sk ;;
        r <- enforceConstraint k sk1 ;;
        if snd r then applyLocalRot cfgs k (fst r) else Some (fst r)
  end.

(** The swing loop of [executeCcdInward] (lines 3473-3483): [prev] is
    [chain[i-1]]; each joint swings after the targets are carried into
    its frame, and the loop breaks at the first that does not.  The result
    counts the joints swung. *)
Fixpoint ccd_swing_loop (prev : Z) (middle : list Z) (local_targets world_targets : list vec3)
    (n : nat) (sk : amap Joint) : option (nat * amap Joint) :=
  match middle with
  | [] => Some (n, sk)
  | k :: rest =>
      pj <- find prev sk ;;
      lts <- transformTargetsToParentLocal pj sk local_targets ;;
      r <- swingTowardTargets k lts world_targets sk ;;
      if snd r then ccd_swing_loop k rest lts world_targets (S n) (fst r)
      else Some (n, fst r)
  end.

(** [chain[i]->updatePosAndRotFromParent()] on the joint at a key. *)
Definition update_from_parent (sk : amap Joint) (k : Z) : option (amap Joint) :=
  j <- find k sk ;;
  par <- parent_joint sk j ;;
  Some (insert k (updatePosAndRotFromParent j par) sk).

(** [Solver::executeCcdInward] (lines 3445-3495). *)
Definition executeCcdInward (chain : list Z) (sk : amap Joint) : option (amap Joint) :=
  outer_k <- hd_error chain ;;
  outer_end <- find outer_k sk ;;
  ts <- collectTargetPositions cfgs outer_end sk ;;
  r <- swingTowardTargets outer_k (fst ts) (snd ts) sk ;;
  if negb (snd r) then Some (fst r)
  else
    l <- ccd_swing_loop outer_k (chain_middle chain) (fst ts) (snd ts) 0 (fst r) ;;
    let last_swung_index := fst l in
    sk2 <- fold_opt update_from_parent (rev (firstn last_swung_index chain)) (snd l) ;;
    updateChildLocalRots outer_k sk2.

End Ccd.

(** [Solver::executeCcdPass] (lines 3425-3443). *)
Definition executeCcdPass {L : Libm} {C : ConstraintOps} (swing_factor : Q) (s : Solver)
    : option (amap Joint) :=
  sk1 <- fold_opt (fun sk kc => executeCcdInward (s_joint_configs s) swing_factor (snd kc) sk)
           (rev (s_chain_map s)) (s_skeleton s) ;;
  fold_opt (fun sk kc => shiftChainToBase s sk (snd kc)) (s_chain_map s) sk1.

(** ** The CCD pass keeps the skeleton's structure *)

Section CcdLinks.
Context {L : Libm} {C : ConstraintOps} {CL : ConstraintOpsLaws}.
Variable cfgs : amap Config.
Variable swing_factor : Q.

Lemma set_rot_from_parent_links k j rot sk sk' :
  find k sk = Some j -> set_rot_from_parent k j rot sk = Some sk' -> same_links isActive sk sk'.
Proof. intros F. unfold set_rot_from_parent. intros H. links_cases H. Qed.

Lemma swingTowardTargets_links k lts wts sk r :
  swingTowardTargets cfgs swing_factor k lts wts sk = Some r -> same_links isActive sk (fst r).
Proof.
  unfold swingTowardTargets. destruct (find k sk) as [j|] eqn:F; [|discriminate].
  destruct (localRotLocked j); [intros E; injection E as <-; reflexivity|].
  lazymatch goal with |- match ?x with _ => _ end = _ -> _ => destruct x as [[rot|]|] end;
    [|intros E; injection E as <-; reflexivity|discriminate].
  destruct (set_rot_from_parent k j rot sk) as [sk1|] eqn:S; [|discriminate].
  destruct (enforceConstraint k sk1) as [[sk2 b]|] eqn:En; [|discriminate].
  intros E; injection E as <-.
  exact (same_links_trans _ _ _ _ (set_rot_from_parent_links _ _ _ _ _ F S) (enforceConstraint_links _ _ _ _ En)).
Qed.

Lemma twistTowardTargets_links k lts wts sk sk' :
  twistTowardTargets cfgs k lts wts sk = Some sk' -> same_links isActive sk sk'.
Proof.
  unfold twistTowardTargets. destruct (find k sk) as [j|] eqn:F; [|discriminate].
  destruct (j_constraint j) as [c|]; [|discriminate].
  destruct (negb (allowsTwist c)); [intros E; injection E as <-; reflexivity|].
  destruct (zip_targets lts wts) as [ts|]; [|discriminate].
  destruct (twist_adjustment j _ ts) as [adj|]; [|intros E; injection E as <-; reflexivity].
  destruct (set_rot_from_parent k j _ sk) as [sk1|] eqn:S; [|discriminate].
  destruct (enforceConstraint k sk1) as [[sk2 b]|] eqn:En; [|discriminate].
  pose proof (same_links_trans _ _ _ _ (set_rot_from_parent_links _ _ _ _ _ F S) (enforceConstraint_links _ _ _ _ En)) as S2.
  destruct b; simpl; [intros A; exact (same_links_trans _ _ _ _ S2 (applyLocalRot_links _ _ _ _ A))|].
  intros E; injection E as <-. exact S2.
Qed.

Lemma ccd_swing_loop_links prev middle lts wts n sk r :
  ccd_swing_loop cfgs swing_factor prev middle lts wts n sk = Some r -> same_links isActive sk (snd r).
Proof.
  revert prev lts n sk. induction middle as [|k rest IH]; intros prev lts n sk; simpl.
  - intros E; injection E as <-. reflexivity.
  - destruct (find prev sk) as [pj|]; [|discriminate].
    destruct (transformTargetsToParentLocal pj sk lts) as [lts'|]; [|discriminate].
    destruct (swingTowardTargets cfgs swing_factor k lts' wts sk) as [r1|] eqn:Sw; [|discriminate].
    pose proof (swingTowardTargets_links _ _ _ _ _ Sw) as S1.
    destruct (snd r1); [intros E; exact (same_links_trans _ _ _ _ S1 (IH _ _ _ _ E))|].
    intros E; injection E as <-. exact S1.
Qed.

Lemma update_from_parent_links sk k sk' :
  update_from_parent sk k = Some sk' -> same_links isActive sk sk'.
Proof.
  unfold update_from_parent. destruct (find k sk) as [j|] eqn:F; [|discriminate].
  destruct (parent_joint sk j) as [par|]; [|discriminate]. intros E; injection E as <-.
  apply (same_links_upd _ _ _ j); [exact F|apply updatePosAndRotFromParent_links].
Qed.

Lemma executeCcdInward_links chain sk sk' :
  executeCcdInward cfgs swing_factor chain sk = Some sk' -> same_links isActive sk sk'.
Proof.
  unfold executeCcdInward. destruct (hd_error chain) as [o|]; [|discriminate].
  destruct (find o sk) as [oj|]; [|discriminate].
  destruct (collectTargetPositions cfgs oj sk) as [ts|]; [|discriminate].
  destruct (swingTowardTargets cfgs swing_factor o _ _ sk) as [r|] eqn:Sw; [|discriminate].
  pose proof (swingTowardTargets_links _ _ _ _ _ Sw) as S1.
  destruct (negb (snd r)); [intros E; injection E as <-; exact S1|].
  destruct (ccd_swing_loop _ _ _ _ _ _ _ (fst r)) as [l|] eqn:Lp; [|discriminate].
  pose proof (same_links_trans _ _ _ _ S1 (ccd_swing_loop_links _ _ _ _ _ _ _ Lp)) as S2.
  destruct (fold_opt update_from_parent _ (snd l)) as [sk2|] eqn:U; [|discriminate].
  assert (S3 : same_links isActive (snd l) sk2).
  { revert U. apply fold_opt_inv; [|reflexivity].
    intros x k y Sx St. exact (same_links_trans _ _ _ _ Sx (update_from_parent_links _ _ _ St)). }
  intros A. exact (same_links_trans _ _ _ _ (same_links_trans _ _ _ _ S2 S3) (updateChildLocalRots_links _ _ _ A)).
Qed.

End CcdLinks.

Lemma shiftChainToBase_links s sk chain sk' :
  shiftChainToBase s sk chain = Some sk' -> same_links isActive sk sk'.
Proof.
  unfold shiftChainToBase. destruct (Nat.ltb _ _); [discriminate|].
  destruct (nth_error _ _); [|discriminate]. destruct (find _ sk); [|discriminate].
  destruct (parent_joint _ _); [|discriminate]. destruct (_ <? _); [|intros E; injection E as <-; reflexivity].
  apply fold_opt_inv; [|reflexivity]. intros x i y Sx St.
  destruct (find i x) as [jt|] eqn:F; [|discriminate]. injection St as <-.
  apply (same_links_insert _ _ _ _ jt _ Sx F). reflexivity.
Qed.

(** a CCD pass never changes the skeleton's structure: every joint
    keeps its parent, its children and its [ACTIVE] bit, provided the
    constraints' [enforce] overrides do not change them either. *)
Theorem executeCcdPass_links {L : Libm} {C : ConstraintOps} {CL : ConstraintOpsLaws}
    (swing_factor : Q) (s : Solver) (sk' : amap Joint) :
  executeCcdPass swing_factor s = Some sk' -> same_links isActive (s_skeleton s) sk'.
Proof.
  unfold executeCcdPass.
  destruct (fold_opt _ (rev (s_chain_map s)) _) as [sk1|] eqn:F1; [|discriminate].
  assert (S1 : same_links isActive (s_skeleton s) sk1).
  { revert F1. apply fold_opt_inv; [|reflexivity].
    intros x kc y Sx St. exact (same_links_trans _ _ _ _ Sx (executeCcdInward_links _ _ _ _ _ St)). }
  apply fold_opt_inv; [|exact S1].
  intros x kc y Sx St. exact (same_links_trans _ _ _ _ Sx (shiftChainToBase_links _ _ _ _ St)).
Qed.

(** ** Twisting toward several targets *)

(** An unusable target among two or more leaves no adjustment. *)
Lemma twist_adjustment_none {L : Libm} (j : Joint) (axis : vec3) (ts : list (vec3 * vec3)) (t : vec3 * vec3) :
  (2 <= length ts)%nat -> In t ts -> twist_arc j axis t = None -> twist_adjustment j axis ts = None.
Proof.
  intros H2 Hin Ht. destruct ts as [|t1 [|t2 ts]]; simpl in H2; try lia.
  unfold twist_adjustment. rewrite (fold_opt_none _ _ _ _ Hin); [reflexivity|].
  intros acc. rewrite Ht. reflexivity.
Qed.

(** C22: with two or more targets, one target that [twistTowardTargets]
    cannot use (its bone shorter than [MIN_TARGET_LENGTH], the target
    behind the joint, or a radius too small) cancels the whole twist: the
    loop returns where it means to skip that target, and the joint is left
    as it is, however well the other targets ask for a twist. *)
Theorem twistTowardTargets_degenerate_target_cancels {L : Libm} {C : ConstraintOps}
    (cfgs : amap Config) (k : Z) (local_targets world_targets : list vec3) (sk : amap Joint)
    (j : Joint) (c : Constraint) (t : vec3 * vec3) :
  find k sk = Some j -> j_constraint j = Some c ->
  (2 <= length local_targets)%nat -> (length local_targets <= length world_targets)%nat ->
  In t (combine local_targets world_targets) ->
  twist_arc j (vrot (getForwardAxis c) (j_rot j)) t = None ->
  twistTowardTargets cfgs k local_targets world_targets sk = Some sk.
Proof.
  intros F Hc H2 Hl Hin Ht. unfold twistTowardTargets. rewrite F, Hc.
  destruct (negb (allowsTwist c)); [reflexivity|].
  unfold zip_targets. rewrite (proj2 (Nat.leb_le _ _) Hl).
  assert (Hlen : (2 <= length (combine local_targets world_targets))%nat)
    by (rewrite length_combine; lia).
  rewrite (twist_adjustment_none _ _ _ _ Hlen Hin Ht). reflexivity.
Qed.

(** ** Examples *)

(** [arm_solver] with a rotation target on its tip, after
    [rebuildAllChains]: one chain [2; 1; 0]. *)
Definition ccd_cfgs : amap Config := [(2%Z, Setters.setTargetRot rot_z default_config)].

Definition ccd_solver : Solver :=
  match rebuildAllChains (with_configs arm_solver ccd_cfgs) with Some s => s | None => arm_solver end.

(** The middle joint of [arm_solver] with a cone about x, which allows
    twist. *)
Definition twist_cone : Constraint :=
  CSimpleCone {| sc_forward := V3 1 0 0; sc_max_angle := 1; sc_cos_cone_angle := 0; sc_sin_cone_angle := 1 |}.

Definition twist_skeleton : amap Joint :=
  update 1 (fun j => with_constraint j (Some twist_cone)) (s_skeleton arm_solver).

Lemma executeCcdPass_links_witness :
  exists sk', @executeCcdPass libm_Q no_constraint_ops (1 # 2) ccd_solver = Some sk' /\
              same_links isActive (s_skeleton ccd_solver) sk'.
Proof.
  destruct (@executeCcdPass libm_Q no_constraint_ops (1 # 2) ccd_solver) as [sk'|] eqn:E;
    [|vm_compute in E; discriminate].
  exists sk'. split; [reflexivity|].
  exact (@executeCcdPass_links libm_Q no_constraint_ops no_constraint_laws (1 # 2) ccd_solver sk' E).
Defined.

(** A zero-length first target cancels a quarter turn about x that the
    second target alone asks for. *)
Lemma twistTowardTargets_degenerate_target_cancels_witness :
  exists j, find 1 twist_skeleton = Some j /\
    twist_arc j (vrot (getForwardAxis twist_cone) (j_rot j)) (V3 0 1 0, vadd (j_pos j) (V3 0 0 1)) <> None /\
    @twistTowardTargets libm_Q no_constraint_ops [] 1 [V3 0 0 0; V3 0 1 0]
      [V3 0 0 0; vadd (j_pos j) (V3 0 0 1)] twist_skeleton = Some twist_skeleton.
Proof.
  destruct (find 1 twist_skeleton) as [j|] eqn:F; [|vm_compute in F; discriminate].
  exists j. split; [reflexivity|]. split.
  - vm_compute in F. injection F as <-. vm_compute. discriminate.
  - apply (@twistTowardTargets_degenerate_target_cancels libm_Q no_constraint_ops [] 1 _ _ _ j twist_cone
             (V3 0 0 0, V3 0 0 0)); [exact F| | simpl; lia | simpl; lia | left; reflexivity |].
    + vm_compute in F. injection F as <-. reflexivity.
    + vm_compute in F. injection F as <-. vm_compute. reflexivity.
Defined.
