(* ===== verification/Geometry.v ===== *)
(** * Geometry: the constraints' projections and the elbow and knee overrides

    The virtual members of [Constraint] that [Fabrik] takes as the class
    [ConstraintOps], as llik.cpp writes them:
    [computeAdjustedLocalRot] of the seven classes (the shoulder's is a
    pass-through, "temporarily disabled", line 650) and the [enforce]
    overrides of [ElbowConstraint] (lines 811-912) and [KneeConstraint]
    (lines 1019-1133), which turn the joint and back-rotate its parent.
    [llik_constraint_ops] is the instance they make, and
    [llik_constraint_laws] shows it meets the law [Fabrik] asks of the
    overrides, so every theorem proved there over an abstract instance
    holds of the code's constraints.  The overrides are proved to touch
    the constrained joint and its parent only ([touches], a frame
    relation on the skeleton map), and every projection to return a unit
    rotation unchanged when all the code's measurements of it are within
    the limits ([allowed]).

    [LLQuaternion::setAngleAxis] and [getAngleAxis] (llmath, not under
    src/) are modelled from their implementation: the half-angle
    construction, and the angle [2 atan2(|v|, w)] with the axis flipped to
    make [w] non-negative. *)

From Stdlib Require Import QArith Qabs ZArith List Bool Lia Lqa Morphisms.
Import ListNotations.
From S2P Require Import Prelude F32 Angles Vec Config OrdMap Constraints Skeleton Chains Kinematics Fabrik.

Local Open Scope llik_scope.

Section Projections.
Context {L : Libm}.

(** [LLQuaternion::setAngleAxis(angle, axis)] and the constructor
    [LLQuaternion(angle, axis)]. *)
Definition qangle_axis (angle : Q) (axis : vec3) : quat :=
  let v := vnormalize axis in
  let c := cosf (angle / 2) in
  let s := sinf (angle / 2) in
  qnormalize (Quat (vx v * s) (vy v * s) (vz v * s) c).

(** [LLQuaternion::getAngleAxis(&angle, axis)]. *)
Definition qget_angle_axis (q : quat) : Q * vec3 :=
  let v := sqrtf (qx q * qx q + qy q * qy q + qz q * qz q) in
  if FP_MAG_THRESHOLD <? v then
    let w := if qw q <? 0 then - qw q else qw q in
    let oomag := if qw q <? 0 then - (1 / v) else 1 / v in
    (2 * atan2f v w, V3 (qx q * oomag) (qy q * oomag) (qz q * oomag))
  else (0, V3 0 0 1).

(** [std::max(x, 0.0f)]. *)
Definition max0 (x : Q) : Q := if x <? 0 then 0 else x.

(** The projection of a rotated forward axis onto a cone of half-angle
    with cosine [cos_a] and sine [sin_a] about [fwd] (lines 361-366 and
    446-450). *)
Definition cone_surface (fwd forward : vec3) (cos_a sin_a : Q) : vec3 :=
  let perp := vnormalize (vsub forward (vscale (vdot forward fwd) fwd)) in
  vadd (vscale cos_a fwd) (vscale sin_a perp).

(** [SimpleCone::computeAdjustedLocalRot] (lines 355-381). *)
Definition simple_cone_adjust (d : SimpleCone) (joint_local_rot : quat) : quat :=
  let fwd := sc_forward d in
  let forward := vrot fwd joint_local_rot in
  let forward_component := vdot forward fwd in
  if forward_component <? sc_cos_cone_angle d then
    let new_forward := cone_surface fwd forward (sc_cos_cone_angle d) (sc_sin_cone_angle d) in
    qnormalize (qmul joint_local_rot (shortestArc forward new_forward))
  else joint_local_rot.

(** [MIN_PERP_LENGTH] (line 466). *)
Definition MIN_PERP_LENGTH : Q := 1 # 10000.

(** The twist of [TwistLimitedCone] (lines 462-490): a frame
    perpendicular to the (possibly bent) forward axis, with [perp_x] along
    the bend axis, and the angle of the rotated [perp_x] in it. *)
Definition twist_frame (fwd forward : vec3) (forward_component : Q) (adjusted_local_rot : quat)
    : vec3 * vec3 * vec3 * Q :=
  let perp_x0 := vcross fwd forward in
  let perp_x1 :=
    if vlength perp_x0 <? MIN_PERP_LENGTH then
      let p1 := vcross x_axis forward in
      if vlength p1 <? MIN_PERP_LENGTH then vcross forward y_axis else p1
    else perp_x0 in
  let perp_x := vnormalize perp_x1 in
  let perp_y := vcross forward perp_x in
  let bend_rot := qangle_axis (acosf forward_component) perp_x in
  let bent_perp_y := vrot perp_y bend_rot in
  let rotated_perp_x := vrot perp_x adjusted_local_rot in
  (perp_x, bent_perp_y, rotated_perp_x,
   atan2f (vdot rotated_perp_x perp_x) (vdot rotated_perp_x bent_perp_y)).

(** [TwistLimitedCone::computeAdjustedLocalRot] (lines 439-504): the
    cone projection, then the twist clamped. *)
Definition twist_limited_adjust (d : TwistLimitedCone) (joint_local_rot : quat) : quat :=
  let fwd := tl_forward d in
  let forward0 := vrot fwd joint_local_rot in
  let fc0 := vdot forward0 fwd in
  let '(adjusted_local_rot, forward, forward_component) :=
    if fc0 <? tl_cos_cone_angle d then
      let new_forward := cone_surface fwd forward0 (tl_cos_cone_angle d) (tl_sin_cone_angle d) in
      (qnormalize (qmul joint_local_rot (shortestArc forward0 new_forward)), new_forward, vdot new_forward fwd)
    else (joint_local_rot, forward0, fc0) in
  let '(perp_x, bent_perp_y, rotated_perp_x, twist) :=
    twist_frame fwd forward forward_component adjusted_local_rot in
  let new_twist := compute_clamped_angle twist (tl_min_twist d) (tl_max_twist d) in
  if negb (new_twist =? twist) then
    let new_rotated_perp_x := vadd (vscale (cosf new_twist) perp_x) (vscale (sinf new_twist) bent_perp_y) in
    qnormalize (qmul adjusted_local_rot (shortestArc rotated_perp_x new_rotated_perp_x))
  else adjusted_local_rot.

(** [ElbowConstraint::computeAdjustedLocalRot] (lines 914-957): the
    forward axis back into the hinge plane, then the twist clamped, then
    the bend clamped.  The bend's arc starts from [forward], the axis as
    it was before the first two corrections (line 951). *)
Definition elbow_adjust (d : ElbowConstraint) (joint_local_rot : quat) : quat :=
  let fwd := el_forward d in
  let pivot := el_pivot_axis d in
  let pxf := el_pivot_x_forward d in
  let forward := vrot fwd joint_local_rot in
  let projected_forward := vsub forward (vscale (vdot forward pivot) pivot) in
  let adjusted1 := qmul joint_local_rot (shortestArc forward projected_forward) in
  let new_forward1 := vrot fwd adjusted1 in
  let twisted_pivot := vrot pivot adjusted1 in
  let cos_part := vdot twisted_pivot pivot in
  let sin_part := vdot (vrot pxf adjusted1) pivot in
  let twist := atan2f sin_part cos_part in
  let new_twist := compute_clamped_angle twist (el_min_twist d) (el_max_twist d) in
  let '(adjusted2, new_forward2) :=
    if negb (new_twist =? twist) then
      let swung_left_axis := vcross pivot new_forward1 in
      let new_twisted_pivot := vsub (vscale (cosf new_twist) pivot) (vscale (sinf new_twist) swung_left_axis) in
      let a := qmul adjusted1 (shortestArc twisted_pivot new_twisted_pivot) in
      (a, vrot fwd a)
    else (adjusted1, new_forward1) in
  let bend := atan2f (vdot new_forward2 pxf) (vdot new_forward2 fwd) in
  let new_bend := compute_clamped_angle bend (el_min_bend d) (el_max_bend d) in
  let adjusted3 :=
    if negb (new_bend =? bend) then
      let new_forward3 := vadd (vscale (cosf new_bend) fwd) (vscale (sinf new_bend) pxf) in
      qmul adjusted2 (shortestArc forward new_forward3)
    else adjusted2 in
  qnormalize adjusted3.

(** [KneeConstraint::computeAdjustedLocalRot] (lines 1135-1161): the
    pivot axis back onto itself (no twist), then the bend clamped. *)
Definition knee_adjust (d : KneeConstraint) (joint_local_rot : quat) : quat :=
  let fwd := kn_forward d in
  let pivot := kn_pivot_axis d in
  let pxf := kn_pivot_x_forward d in
  let joint_axis := vrot pivot joint_local_rot in
  let adjusted1 := qmul joint_local_rot (shortestArc joint_axis pivot) in
  let forward := vrot fwd adjusted1 in
  let bend := atan2f (vdot forward pxf) (vdot forward fwd) in
  let new_bend := compute_clamped_angle bend (kn_min_bend d) (kn_max_bend d) in
  let adjusted2 :=
    if negb (new_bend =? bend) then
      let new_forward := vadd (vscale (cosf new_bend) fwd) (vscale (sinf new_bend) pxf) in
      qmul adjusted1 (shortestArc forward new_forward)
    else adjusted1 in
  qnormalize adjusted2.

(** The quadrant of [AcuteEllipsoidalCone] (lines 1325-1338). *)
Definition quadrant (up_component left_component : Q) : nat :=
  if up_component <? 0 then (if left_component <? 0 then 2 else 3)
  else if left_component <? 0 then 1 else 0.

(** [AcuteEllipsoidalCone::computeAdjustedLocalRot] (lines 1316-1394):
    the test in the frame where the quadrant's ellipse is a circle, and
    the projection that keeps the transverse components. *)
Definition acute_cone_adjust (d : AcuteEllipsoidalCone) (joint_local_rot : quat) : quat :=
  let fwd := ae_forward d in
  let up := ae_up d in
  let left := ae_left d in
  let forward := vrot fwd joint_local_rot in
  let up_component := vdot forward up in
  let left_component := vdot forward left in
  let q := quadrant up_component left_component in
  let scaled_left_component := left_component * ae_quadrant_scales d q in
  let forward_component := vdot forward fwd in
  let new_forward := vadd (vadd (vscale forward_component fwd) (vscale up_component up))
                          (vscale scaled_left_component left) in
  if forward_component / vlength new_forward <? ae_quadrant_cos_angles d q then
    let orthogonal_component :=
      sqrtf (scaled_left_component * scaled_left_component + up_component * up_component) in
    let fc := orthogonal_component * ae_quadrant_cot_angles d q in
    let projected := vadd (vadd (vscale fc fwd) (vscale up_component up)) (vscale left_component left) in
    qnormalize (qmul joint_local_rot (shortestArc forward projected))
  else joint_local_rot.

(** [DoubleLimitedHinge::computeAdjustedLocalRot] (lines 1516-1566): the
    twist removed, then the yaw and the pitch clamped, and one last arc
    when the forward axis moved by more than a millimetre. *)
Definition hinge_adjust (d : DoubleLimitedHinge) (joint_local_rot : quat) : quat :=
  let fwd := dh_forward d in
  let up := dh_up d in
  let left := dh_left d in
  let joint_left := vrot left joint_local_rot in
  let adjusted1 := qmul joint_local_rot (shortestArc joint_left (vsub joint_left (vscale (vdot joint_left up) up))) in
  let forward := vrot fwd adjusted1 in
  let up_component := vdot forward up in
  let horizontal0 := vsub forward (vscale up_component up) in
  let yaw := atan2f (vdot horizontal0 left) (vdot horizontal0 fwd) in
  let new_yaw := compute_clamped_angle yaw (dh_min_yaw d) (dh_max_yaw d) in
  let horizontal_axis :=
    if negb (new_yaw =? yaw) then vadd (vscale (cosf new_yaw) fwd) (vscale (sinf new_yaw) left)
    else vnormalize horizontal0 in
  let horizontal_component0 := sqrtf (max0 (1 - up_component * up_component)) in
  let pitch := atan2f (- up_component) horizontal_component0 in
  let new_pitch := compute_clamped_angle pitch (dh_min_pitch d) (dh_max_pitch d) in
  let '(up_c, horizontal_component) :=
    if negb (new_pitch =? pitch) then
      let u := - sinf new_pitch in (u, sqrtf (max0 (1 - u * u)))
    else (up_component, horizontal_component0) in
  let new_forward := vnormalize (vadd (vscale horizontal_component horizontal_axis) (vscale up_c up)) in
  let adjusted2 :=
    if (1 # 1000) <? dist_vec forward new_forward then qmul adjusted1 (shortestArc forward new_forward)
    else adjusted1 in
  qnormalize adjusted2.

(** The virtual [computeAdjustedLocalRot]. *)
Definition llik_adjust (c : Constraint) (joint_local_rot : quat) : quat :=
  match c with
  | CSimpleCone d => simple_cone_adjust d joint_local_rot
  | CTwistLimitedCone d => twist_limited_adjust d joint_local_rot
  | CShoulder _ => joint_local_rot
  | CElbow d => elbow_adjust d joint_local_rot
  | CKnee d => knee_adjust d joint_local_rot
  | CAcuteEllipsoidalCone d => acute_cone_adjust d joint_local_rot
  | CDoubleLimitedHinge d => hinge_adjust d joint_local_rot
  end.

End Projections.

(** ** The projections fix the rotations they allow

    Each [computeAdjustedLocalRot] measures the rotated axes of the joint
    against its limits and corrects only what is out of them.  [allowed c q]
    is that every measurement the code makes of [q] is within the limits
    (for the elbow, the forward axis in the hinge plane; for the knee, the
    pivot axis fixed); on such a unit rotation the projection returns the
    rotation itself.  The double-limited hinge rebuilds its forward axis
    from the yaw and the pitch through square roots and moves it whenever
    the rebuilt axis is more than [1e-3] away; its allowed set is the
    rotations whose rebuilt axis is within that distance. *)

Section Allowed.
Context {L : Libm} {LL : LibmLaws}.

Definition knee_bend (d : KneeConstraint) (q : quat) : Q :=
  let forward := vrot (kn_forward d) q in
  atan2f (vdot forward (kn_pivot_x_forward d)) (vdot forward (kn_forward d)).

Definition elbow_twist (d : ElbowConstraint) (q : quat) : Q :=
  atan2f (vdot (vrot (el_pivot_x_forward d) q) (el_pivot_axis d)) (vdot (vrot (el_pivot_axis d) q) (el_pivot_axis d)).

Definition elbow_bend (d : ElbowConstraint) (q : quat) : Q :=
  let forward := vrot (el_forward d) q in
  atan2f (vdot forward (el_pivot_x_forward d)) (vdot forward (el_forward d)).

(** The measurements of [DoubleLimitedHinge] (lines 1527-1558) on a
    rotation without twist: the yaw, the pitch, and how far the forward
    axis rebuilt from them lies from the rotated one. *)
Definition hinge_yaw (d : DoubleLimitedHinge) (q : quat) : Q :=
  let forward := vrot (dh_forward d) q in
  let horizontal := vsub forward (vscale (vdot forward (dh_up d)) (dh_up d)) in
  atan2f (vdot horizontal (dh_left d)) (vdot horizontal (dh_forward d)).

Definition hinge_pitch (d : DoubleLimitedHinge) (q : quat) : Q :=
  let up_component := vdot (vrot (dh_forward d) q) (dh_up d) in
  atan2f (- up_component) (sqrtf (max0 (1 - up_component * up_component))).

Definition hinge_drift (d : DoubleLimitedHinge) (q : quat) : Q :=
  let forward := vrot (dh_forward d) q in
  let up_component := vdot forward (dh_up d) in
  let horizontal := vsub forward (vscale up_component (dh_up d)) in
  dist_vec forward (vnormalize (vadd (vscale (sqrtf (max0 (1 - up_component * up_component))) (vnormalize horizontal))
                                     (vscale up_component (dh_up d)))).

Definition within (lo x hi : Q) : Prop := lo <= x <= hi.

Definition allowed (c : Constraint) (q : quat) : Prop :=
  match c with
  | CSimpleCone d => sc_cos_cone_angle d <= vdot (vrot (sc_forward d) q) (sc_forward d)
  | CTwistLimitedCone d =>
      let forward := vrot (tl_forward d) q in
      let fc := vdot forward (tl_forward d) in
      tl_cos_cone_angle d <= fc /\
      within (tl_min_twist d) (snd (twist_frame (tl_forward d) forward fc q)) (tl_max_twist d)
  | CShoulder _ => True
  | CElbow d =>
      vdot (vrot (el_forward d) q) (el_pivot_axis d) == 0 /\
      within (el_min_twist d) (elbow_twist d q) (el_max_twist d) /\
      within (el_min_bend d) (elbow_bend d q) (el_max_bend d)
  | CKnee d =>
      vrot (kn_pivot_axis d) q ≡ kn_pivot_axis d /\ within (kn_min_bend d) (knee_bend d q) (kn_max_bend d)
  | CAcuteEllipsoidalCone d =>
      let forward := vrot (ae_forward d) q in
      let up_component := vdot forward (ae_up d) in
      let left_component := vdot forward (ae_left d) in
      let qd := quadrant up_component left_component in
      let forward_component := vdot forward (ae_forward d) in
      let new_forward := vadd (vadd (vscale forward_component (ae_forward d)) (vscale up_component (ae_up d)))
                              (vscale (left_component * ae_quadrant_scales d qd) (ae_left d)) in
      ae_quadrant_cos_angles d qd <= forward_component / vlength new_forward
  | CDoubleLimitedHinge d =>
      vdot (vrot (dh_left d) q) (dh_up d) == 0 /\
      within (dh_min_yaw d) (hinge_yaw d q) (dh_max_yaw d) /\
      within (dh_min_pitch d) (hinge_pitch d q) (dh_max_pitch d) /\
      hinge_drift d q <= 1 # 1000
  end.

#[local] Instance atan2f_morph : Proper (Qeq ==> Qeq ==> Qeq) atan2f.
Proof. intros ? ? ? ? ? ?. now apply atan2f_proper. Qed.

#[local] Instance sqrtf_morph : Proper (Qeq ==> Qeq) sqrtf.
Proof. intros ? ? ?. now apply sqrtf_proper. Qed.

#[local] Instance max0_proper : Proper (Qeq ==> Qeq) max0.
Proof. intros x y E. unfold max0. rewrite (Qltb_proper _ _ E 0 0 (Qeq_refl 0)). now destruct (y <? 0). Qed.

#[local] Instance vlength_proper : Proper (veq ==> Qeq) vlength.
Proof. intros a b E. unfold vlength. now rewrite E. Qed.

#[local] Instance vnormalize_proper : Proper (veq ==> veq) vnormalize.
Proof.
  intros a b E. unfold vnormalize. rewrite E. destruct (Qltb _ _); [now rewrite E|reflexivity].
Qed.

#[local] Instance dist_vec_proper : Proper (veq ==> veq ==> Qeq) dist_vec.
Proof. intros a b E c d' F. unfold dist_vec. now rewrite E, F. Qed.

(** The shortest arc between equal vectors is the identity. *)
Lemma shortestArc_same (a b : vec3) : a ≡ b -> shortestArc a b = q_identity.
Proof.
  intros E. unfold shortestArc. cbv zeta.
  assert (Hc : vdot (vcross a b) (vcross a b) == 0) by (rewrite E; destruct b; unfold vdot, vcross; simpl; ring).
  assert (Hab : 0 <= vdot a b) by (rewrite E; destruct b; unfold vdot; simpl; nra).
  destruct (negb _); [|reflexivity].
  destruct (Qltb_spec 0 (vdot (vcross a b) (vcross a b))) as [H|_]; [rewrite Hc in H; discriminate H|].
  destruct (Qltb_spec (vdot a b) 0) as [H|_]; [lra|reflexivity].
Qed.

(** A measured angle within its limits is left as it is, and so is the
    rotation that [if (new != old)] guards. *)
Lemma clamp_within_unchanged {T} (x lo hi : Q) (A B : T) :
  within lo x hi -> (if negb (compute_clamped_angle x lo hi =? x) then A else B) = B.
Proof.
  intros H. rewrite (compute_clamped_angle_in_range _ _ _ H).
  destruct (Qeqb_spec x x) as [_|N]; [reflexivity|exfalso; apply N; reflexivity].
Qed.

Lemma within_proper (lo x y hi : Q) : x == y -> within lo y hi -> within lo x hi.
Proof. unfold within. intros E. rewrite E. auto. Qed.

Lemma knee_adjust_allowed (d : KneeConstraint) (q : quat) :
  unit_quat q -> vrot (kn_pivot_axis d) q ≡ kn_pivot_axis d ->
  within (kn_min_bend d) (knee_bend d q) (kn_max_bend d) -> knee_adjust d q ≃ q.
Proof.
  intros U P B. unfold knee_adjust. cbv zeta. rewrite (shortestArc_same _ _ P).
  rewrite clamp_within_unchanged; [rewrite qmul_identity_r; exact (qnormalize_unit _ U)|].
  eapply within_proper; [|exact B]. apply atan2f_proper; now rewrite qmul_identity_r.
Qed.

Lemma elbow_adjust_allowed (d : ElbowConstraint) (q : quat) :
  unit_quat q -> vdot (vrot (el_forward d) q) (el_pivot_axis d) == 0 ->
  within (el_min_twist d) (elbow_twist d q) (el_max_twist d) ->
  within (el_min_bend d) (elbow_bend d q) (el_max_bend d) -> elbow_adjust d q ≃ q.
Proof.
  intros U P T B. unfold elbow_adjust. cbv zeta.
  rewrite (shortestArc_same (vrot (el_forward d) q)) by
    (rewrite P; set (f := vrot (el_forward d) q); vring).
  rewrite clamp_within_unchanged;
    [|eapply within_proper; [|exact T]; apply atan2f_proper; now rewrite qmul_identity_r].
  cbv beta iota.
  rewrite clamp_within_unchanged;
    [|eapply within_proper; [|exact B]; apply atan2f_proper; now rewrite qmul_identity_r].
  rewrite qmul_identity_r. exact (qnormalize_unit _ U).
Qed.

Lemma hinge_adjust_allowed (d : DoubleLimitedHinge) (q : quat) :
  unit_quat q -> vdot (vrot (dh_left d) q) (dh_up d) == 0 ->
  within (dh_min_yaw d) (hinge_yaw d q) (dh_max_yaw d) ->
  within (dh_min_pitch d) (hinge_pitch d q) (dh_max_pitch d) ->
  hinge_drift d q <= 1 # 1000 -> hinge_adjust d q ≃ q.
Proof.
  intros U P Y H D. unfold hinge_adjust. cbv zeta.
  rewrite (shortestArc_same (vrot (dh_left d) q)) by (rewrite P; set (f := vrot (dh_left d) q); vring).
  do 2 (rewrite clamp_within_unchanged;
    [|first [ eapply within_proper; [|exact Y]; unfold hinge_yaw; now rewrite qmul_identity_r
            | eapply within_proper; [|exact H]; unfold hinge_pitch; now rewrite qmul_identity_r ]]).
  cbv beta iota.
  lazymatch goal with |- context [Qltb (1 # 1000) ?x] => destruct (Qltb_spec (1 # 1000) x) as [G|_] end.
  - exfalso. unfold hinge_drift in D. rewrite qmul_identity_r in G. lra.
  - rewrite qmul_identity_r. exact (qnormalize_unit _ U).
Qed.

(** C11: [computeAdjustedLocalRot] of every constraint class returns a unit
    rotation unchanged when every measurement the code makes of it is
    within the constraint's limits: the projections only correct what
    is out of bounds. *)
Theorem llik_adjust_allowed (c : Constraint) (q : quat) :
  unit_quat q -> allowed c q -> llik_adjust c q ≃ q.
Proof.
  intros U A. unfold allowed, llik_adjust in *. destruct c as [d|d|d|d|d|d|d]; cbv beta iota in A |- *.
  - unfold simple_cone_adjust. cbv zeta. lazymatch goal with |- context [Qltb ?a ?b] => destruct (Qltb_spec a b); [lra|reflexivity] end.
  - cbv zeta in A. destruct A as [C T]. unfold twist_limited_adjust. cbv zeta.
    lazymatch goal with |- context [Qltb ?a ?b] => destruct (Qltb_spec a b); [lra|] end. cbv beta iota.
    destruct (twist_frame _ _ _ _) as [[[px bpy] rpx] tw] eqn:F. cbn [snd] in T.
    now rewrite clamp_within_unchanged.
  - reflexivity.
  - destruct A as (P & T & B). exact (elbow_adjust_allowed d q U P T B).
  - destruct A as [P B]. exact (knee_adjust_allowed d q U P B).
  - unfold acute_cone_adjust. cbv zeta. lazymatch goal with |- context [Qltb ?a ?b] => destruct (Qltb_spec a b); [lra|reflexivity] end.
  - destruct A as (P & Y & H & D). exact (hinge_adjust_allowed d q U P Y H D).
Qed.

End Allowed.

(** The instance the overrides use for their own [updateLocalRot(false)]
    calls, which never reach [enforce]. *)
Definition adjust_ops {L : Libm} : ConstraintOps :=
  {| computeAdjustedLocalRot := llik_adjust; enforce_override := fun _ _ sk => Some (sk, false) |}.

Section Overrides.
Context {L : Libm}.

(** [MIN_PIVOT_LENGTH] (lines 847 and 1055). *)
Definition MIN_PIVOT_LENGTH : Q := 1 # 1000000.

(** [MIN_KNEE_TWIST] (line 1079). *)
Definition MIN_KNEE_TWIST : Q := 1 # 10.

(** The frame both overrides measure in (lines 830-869 and 1038-1077):
    the lower bone's direction, the parent's pivot, the pivot of the bend
    at the joint (the parent's pivot when the limb is straight), and the
    signed twist of the joint's pivot about the lower bone. *)
Definition pivot_frame (pivot_axis : vec3) (j p : Joint) : vec3 * vec3 * vec3 * Q :=
  let upper := j_pos p in
  let middle := j_pos j in
  let lower_end := computeWorldEndPos j in
  let lower_pivot := vrot pivot_axis (j_rot j) in
  let upper_pivot := vrot pivot_axis (j_rot p) in
  let lower_bone := vnormalize (vsub lower_end middle) in
  let upper_bone := vnormalize (vsub middle upper) in
  let bend_pivot0 := vcross upper_bone lower_bone in
  let length := vlength bend_pivot0 in
  let bend_pivot := if length <? MIN_PIVOT_LENGTH then upper_pivot else vscale (1 / length) bend_pivot0 in
  let '(angle0, axis) := qget_angle_axis (shortestArc bend_pivot lower_pivot) in
  let angle := if vdot axis lower_bone <? 0 then - angle0 else angle0 in
  (lower_bone, upper_pivot, bend_pivot, angle).

(** The back-rotation of the parent that aligns its pivot with the bend
    pivot, when it is more than [VERY_SMALL_ANGLE] (lines 887-888 and
    1095-1096). *)
Definition back_rotation (upper_pivot bend_pivot : vec3) : option quat :=
  let adjustment := shortestArc upper_pivot bend_pivot in
  if qalmost_equal_tol VERY_SMALL_ANGLE adjustment q_identity then None else Some adjustment.

(** [ElbowConstraint::enforce] (lines 811-912). *)
Definition elbow_enforce (d : ElbowConstraint) (k : Z) (sk : amap Joint) : option (amap Joint * bool) :=
  j <- find k sk ;;
  match j_parent j with
  | None => base_enforce (C:=adjust_ops) (CElbow d) k sk
  | Some pk =>
      p <- find pk sk ;;
      let '(lower_arm, upper_pivot, bend_pivot, angle) := pivot_frame (el_pivot_axis d) j p in
      let new_twist := compute_clamped_angle angle (el_min_twist d) (el_max_twist d) in
      let twisted := negb (new_twist =? angle) in
      let sk1 := if twisted
                 then insert k (setWorldRot j (qnormalize (qmul (j_rot j) (qangle_axis (new_twist - angle) lower_arm)))) sk
                 else sk in
      p1 <- find pk sk1 ;;
      let back := back_rotation upper_pivot bend_pivot in
      sk2 <- match back with
             | Some adjustment =>
                 let sk' := insert pk (setWorldRot p1 (qnormalize (qmul (j_rot p1) adjustment))) sk1 in
                 match j_parent p1 with
                 | Some _ => r <- updateLocalRot (C:=adjust_ops) false pk sk' ;; Some (fst r)
                 | None => p2 <- find pk sk' ;; Some (insert pk (setLocalRot p2 (j_rot p2)) sk')
                 end
             | None => Some sk1
             end ;;
      if twisted || match back with Some _ => true | None => false end
      then r <- updateLocalRot (C:=adjust_ops) false k sk2 ;; Some (fst r, true)
      else Some (sk2, false)
  end.

(** [KneeConstraint::enforce] (lines 1019-1133): the twist is removed
    when it exceeds [MIN_KNEE_TWIST], and the local rotations are
    recomputed from the world ones by hand. *)
Definition knee_enforce (d : KneeConstraint) (k : Z) (sk : amap Joint) : option (amap Joint * bool) :=
  j <- find k sk ;;
  match j_parent j with
  | None => base_enforce (C:=adjust_ops) (CKnee d) k sk
  | Some pk =>
      p <- find pk sk ;;
      let '(lower_leg, upper_pivot, bend_pivot, angle) := pivot_frame (kn_pivot_axis d) j p in
      let twisted := MIN_KNEE_TWIST <? Qabs angle in
      let knee_rot := if twisted then qnormalize (qmul (j_rot j) (qangle_axis (- angle) lower_leg)) else j_rot j in
      let sk1 := if twisted then insert k (setWorldRot j knee_rot) sk else sk in
      p1 <- find pk sk1 ;;
      let back := back_rotation upper_pivot bend_pivot in
      let hip_rot := match back with
                     | Some adjustment => qnormalize (qmul (j_rot p1) adjustment)
                     | None => j_rot p1 end in
      sk2 <- match back with
             | Some _ =>
                 let sk' := insert pk (setWorldRot p1 hip_rot) sk1 in
                 p2 <- find pk sk' ;;
                 match j_parent p1 with
                 | Some pe =>
                     pelvis <- find pe sk' ;;
                     Some (insert pk (setLocalRot p2 (qnormalize (qmul hip_rot (qconj (j_rot pelvis))))) sk')
                 | None => Some (insert pk (setLocalRot p2 (j_rot p2)) sk')
                 end
             | None => Some sk1
             end ;;
      if twisted || match back with Some _ => true | None => false end
      then j2 <- find k sk2 ;;
           Some (insert k (setLocalRot j2 (qnormalize (qmul knee_rot (qconj hip_rot)))) sk2, true)
      else Some (sk2, false)
  end.

(** The overrides as the virtual [enforce] dispatches them; the other
    classes do not override it. *)
Definition llik_enforce (c : Constraint) : Z -> amap Joint -> option (amap Joint * bool) :=
  match c with
  | CElbow d => elbow_enforce d
  | CKnee d => knee_enforce d
  | _ => base_enforce (C:=adjust_ops) c
  end.

End Overrides.

(** The constraints of llik.cpp as the class [Fabrik] takes. *)
Definition llik_constraint_ops {L : Libm} : ConstraintOps :=
  {| computeAdjustedLocalRot := llik_adjust; enforce_override := llik_enforce |}.

(** ** The overrides move the joint and its parent only

    [touches ks sk sk']: [sk'] has the links of [sk] and differs from it
    only at the keys [ks]. *)
Definition touches (ks : list Z) (sk sk' : amap Joint) : Prop :=
  same_links isActive sk sk' /\ forall x, ~ In x ks -> find x sk' = find x sk.

(** The joint at [k] and the parent it names. *)
Definition family (sk : amap Joint) (k : Z) : list Z :=
  k :: match find k sk with
       | Some j => match j_parent j with Some p => [p] | None => [] end
       | None => []
       end.

Lemma touches_refl ks sk : touches ks sk sk.
Proof. split; [reflexivity|auto]. Qed.

Lemma touches_trans ks a b c : touches ks a b -> touches ks b c -> touches ks a c.
Proof.
  intros [S1 E1] [S2 E2]. split; [exact (same_links_trans _ _ _ _ S1 S2)|].
  intros x N. now rewrite E2, E1.
Qed.

Lemma touches_insert ks sk k j j' :
  In k ks -> find k sk = Some j -> links isActive j' = links isActive j -> touches ks sk (insert k j' sk).
Proof.
  intros I F L. split; [exact (same_links_upd _ _ _ _ _ F L)|].
  intros x N. apply find_insert_ne. intros <-. exact (N I).
Qed.

Lemma links_setWorldRot j q : links isActive (setWorldRot j q) = links isActive j.
Proof. reflexivity. Qed.

Lemma links_setLocalRot j q : links isActive (setLocalRot j q) = links isActive j.
Proof. unfold setLocalRot. now destruct (localRotLocked j). Qed.

#[local] Hint Resolve links_setWorldRot links_setLocalRot touches_refl : llik.

Section Touches.
Context {L : Libm}.

Lemma touches_base_enforce ks c k sk sk' b :
  In k ks -> base_enforce (C:=adjust_ops) c k sk = Some (sk', b) -> touches ks sk sk'.
Proof.
  intros I E. unfold base_enforce in E. destruct (find k sk) as [j|] eqn:F; [|discriminate].
  destruct (qalmost_equal _ _); injection E as <- _; [apply touches_refl|].
  eapply touches_insert; eauto with llik.
Qed.

Lemma touches_updateLocalRot ks k sk sk' b :
  In k ks -> updateLocalRot (C:=adjust_ops) false k sk = Some (sk', b) -> touches ks sk sk'.
Proof.
  intros I E. unfold updateLocalRot in E. destruct (find k sk) as [j|] eqn:F; [|discriminate].
  destruct (parent_of_joint sk j); [|discriminate].
  destruct (negb _); [destruct (localRotLocked j)|]; injection E as <- _; try apply touches_refl.
  eapply touches_insert; eauto.
Qed.

(** The parent's back-rotation touches the joint and the parent only. *)
Lemma touches_elbow_back k pk sk1 p1 back sk2 :
  find pk sk1 = Some p1 ->
  match back with
  | Some adjustment =>
      let sk' := insert pk (setWorldRot p1 (qnormalize (qmul (j_rot p1) adjustment))) sk1 in
      match j_parent p1 with
      | Some _ => r <- updateLocalRot (C:=adjust_ops) false pk sk' ;; Some (fst r)
      | None => p2 <- find pk sk' ;; Some (insert pk (setLocalRot p2 (j_rot p2)) sk')
      end
  | None => Some sk1
  end = Some sk2 -> touches [k; pk] sk1 sk2.
Proof.
  intros F E. destruct back as [a|]; [|injection E as <-; apply touches_refl].
  assert (T : touches [k; pk] sk1 (insert pk (setWorldRot p1 (qnormalize (qmul (j_rot p1) a))) sk1))
    by (eapply touches_insert; simpl; eauto).
  cbv zeta in E. destruct (j_parent p1).
  - destruct (updateLocalRot _ _ _) as [[sk3 b3]|] eqn:U; [|discriminate]. injection E as <-.
    eapply touches_trans; [exact T|]. eapply touches_updateLocalRot; [|exact U]; simpl; auto.
  - rewrite find_insert_eq in E. injection E as <-.
    eapply touches_trans; [exact T|]. eapply touches_insert; [simpl; auto|apply find_insert_eq|auto with llik].
Qed.

Lemma elbow_enforce_touches d k sk sk' b :
  elbow_enforce d k sk = Some (sk', b) -> touches (family sk k) sk sk'.
Proof.
  unfold elbow_enforce, family. destruct (find k sk) as [j|] eqn:Fk; [|discriminate].
  destruct (j_parent j) as [pk|]; [|apply touches_base_enforce; now left].
  destruct (find pk sk) as [p|]; [|discriminate].
  destruct (pivot_frame _ j p) as [[[la up] bp] ang].
  match goal with |- context [find pk ?s1] => assert (T1 : touches [k; pk] sk s1) end.
  { destruct (negb _); [eapply touches_insert; simpl; eauto with llik|apply touches_refl]. }
  destruct (find pk _) as [p1|] eqn:Fp1; [|discriminate].
  cbv zeta. lazymatch goal with
  | |- (match ?m with Some _ => _ | None => None end) = _ -> _ => destruct m as [sk2|] eqn:B; [|discriminate]
  end.
  pose proof (touches_trans _ _ _ _ T1 (touches_elbow_back k _ _ _ _ _ Fp1 B)) as T2.
  destruct (_ || _); [|intro E; injection E as <- _; exact T2].
  destruct (updateLocalRot _ _ _) as [[sk3 b3]|] eqn:U; [|discriminate]. intro E. injection E as <- _.
  eapply touches_trans; [exact T2|]. eapply touches_updateLocalRot; [|exact U]; simpl; auto.
Qed.

Lemma touches_knee_back k pk sk1 p1 (back : option quat) hip_rot sk2 :
  find pk sk1 = Some p1 ->
  match back with
  | Some _ =>
      let sk' := insert pk (setWorldRot p1 hip_rot) sk1 in
      p2 <- find pk sk' ;;
      match j_parent p1 with
      | Some pe =>
          pelvis <- find pe sk' ;;
          Some (insert pk (setLocalRot p2 (qnormalize (qmul hip_rot (qconj (j_rot pelvis))))) sk')
      | None => Some (insert pk (setLocalRot p2 (j_rot p2)) sk')
      end
  | None => Some sk1
  end = Some sk2 -> touches [k; pk] sk1 sk2.
Proof.
  intros F E. destruct back as [a|]; [|injection E as <-; apply touches_refl].
  cbv zeta in E. rewrite find_insert_eq in E.
  assert (T : touches [k; pk] sk1 (insert pk (setWorldRot p1 hip_rot) sk1))
    by (eapply touches_insert; simpl; eauto).
  assert (T' : forall r, touches [k; pk] sk1
                 (insert pk (setLocalRot (setWorldRot p1 hip_rot) r) (insert pk (setWorldRot p1 hip_rot) sk1))).
  { intros r. eapply touches_trans; [exact T|].
    eapply touches_insert; [simpl; auto|apply find_insert_eq|auto with llik]. }
  destruct (j_parent p1) as [pe|]; [destruct (find pe _); [|discriminate]|]; injection E as <-; apply T'.
Qed.

Lemma knee_enforce_touches d k sk sk' b :
  knee_enforce d k sk = Some (sk', b) -> touches (family sk k) sk sk'.
Proof.
  unfold knee_enforce, family. destruct (find k sk) as [j|] eqn:Fk; [|discriminate].
  destruct (j_parent j) as [pk|]; [|apply touches_base_enforce; now left].
  destruct (find pk sk) as [p|]; [|discriminate].
  destruct (pivot_frame _ j p) as [[[la up] bp] ang]. cbv zeta.
  match goal with |- context [find pk ?s1] => assert (T1 : touches [k; pk] sk s1) end.
  { destruct (_ <? _); [eapply touches_insert; simpl; eauto with llik|apply touches_refl]. }
  destruct (find pk _) as [p1|] eqn:Fp1; [|discriminate].
  lazymatch goal with
  | |- (match ?m with Some _ => _ | None => None end) = _ -> _ => destruct m as [sk2|] eqn:B; [|discriminate]
  end.
  pose proof (touches_trans _ _ _ _ T1 (touches_knee_back k _ _ _ _ _ _ Fp1 B)) as T2.
  destruct (_ || _); [|intro E; injection E as <- _; exact T2].
  destruct (find k sk2) as [j2|] eqn:F2; [|discriminate]. intro E. injection E as <- _.
  eapply touches_trans; [exact T2|]. eapply touches_insert; [simpl; auto|exact F2|auto with llik].
Qed.

End Touches.

Lemma llik_enforce_links {L : Libm} c k sk sk' b :
  llik_enforce c k sk = Some (sk', b) -> same_links isActive sk sk'.
Proof.
  intros E. destruct c; simpl in E;
    first [ exact (proj1 (elbow_enforce_touches _ _ _ _ _ E))
          | exact (proj1 (knee_enforce_touches _ _ _ _ _ E))
          | exact (proj1 (touches_base_enforce [k] _ _ _ _ _ (or_introl eq_refl) E)) ].
Qed.

(** The law [Fabrik] and [Ccd] assume of the overrides, for llik.cpp's. *)
Lemma llik_constraint_laws {L : Libm} : @ConstraintOpsLaws (@llik_constraint_ops L).
Proof. constructor. exact llik_enforce_links. Qed.

(** ** Claims *)

(** C10: The [enforce] of every constraint class of llik.cpp, as the
    virtual call dispatches it, keeps every joint's parent, children and
    [ACTIVE] bit, and writes no joint but the constrained one and its
    parent: the elbow and the knee back-rotate the shoulder and the hip,
    never the collar or the pelvis. *)
Theorem llik_enforce_touches {L : Libm} (c : Constraint) (k : Z) (sk sk' : amap Joint) (b : bool) :
  llik_enforce c k sk = Some (sk', b) -> touches (family sk k) sk sk'.
Proof.
  intros E. destruct c; simpl in E;
    first [ exact (elbow_enforce_touches _ _ _ _ _ E)
          | exact (knee_enforce_touches _ _ _ _ _ E)
          | eapply touches_base_enforce; [now left|exact E] ].
Qed.

(** With the constraints of llik.cpp, a FABRIK pass never changes
    the skeleton's structure: the law [Fabrik] assumes of the [enforce]
    overrides holds of the elbow's and the knee's. *)
Theorem executeFabrikPass_llik_links {L : Libm} (e : bool) (s : Solver) (sk' : amap Joint) :
  executeFabrikPass (C := @llik_constraint_ops L) e s = Some sk' -> same_links isActive (s_skeleton s) sk'.
Proof. exact (@executeFabrikPass_links L llik_constraint_ops llik_constraint_laws e s sk'). Qed.

(** ** Examples *)

(** The middle joint of [arm_solver], straight and untwisted, under an
    elbow constraint whose pivot is z: the override finds nothing to do. *)
Definition elbow_demo : ElbowConstraint :=
  {| el_forward := V3 1 0 0; el_pivot_axis := V3 0 0 1; el_pivot_x_forward := V3 0 1 0;
     el_min_bend := 0; el_max_bend := 2; el_min_twist := -(1 # 2); el_max_twist := 1 # 2 |}.

Definition elbow_skeleton : amap Joint :=
  update 1 (fun j => with_constraint j (Some (CElbow elbow_demo))) (s_skeleton arm_solver).

(** ** Witnesses *)

Lemma llik_enforce_touches_witness :
  @llik_enforce libm_Q (CElbow elbow_demo) 1 elbow_skeleton = Some (elbow_skeleton, false) /\
  touches (family elbow_skeleton 1) elbow_skeleton elbow_skeleton.
Proof.
  assert (E : @llik_enforce libm_Q (CElbow elbow_demo) 1 elbow_skeleton = Some (elbow_skeleton, false))
    by (vm_compute; reflexivity).
  split; [exact E|]. exact (@llik_enforce_touches libm_Q (CElbow elbow_demo) 1 elbow_skeleton _ _ E).
Defined.

Lemma executeFabrikPass_llik_links_witness :
  @executeFabrikPass libm_Q llik_constraint_ops true arm_solver = Some (s_skeleton arm_solver) /\
  same_links isActive (s_skeleton arm_solver) (s_skeleton arm_solver).
Proof.
  assert (E : @executeFabrikPass libm_Q llik_constraint_ops true arm_solver = Some (s_skeleton arm_solver))
    by (vm_compute; reflexivity).
  split; [exact E|]. exact (@executeFabrikPass_llik_links libm_Q true arm_solver _ E).
Defined.

Lemma llik_adjust_allowed_witness :
  @allowed libm_Q (CElbow elbow_demo) q_identity /\
  @llik_adjust libm_Q (CElbow elbow_demo) q_identity ≃ q_identity.
Proof.
  assert (A : @allowed libm_Q (CElbow elbow_demo) q_identity)
    by (vm_compute; repeat split; first [reflexivity | discriminate]).
  split; [exact A|].
  exact (@llik_adjust_allowed libm_Q libm_Q_laws (CElbow elbow_demo) q_identity (eq_refl : unit_quat q_identity) A).
Defined.
