(* ===== verification/Solver.v ===== *)
(** * Solver: [updateJointConfigs], [measureMaxError] and [solve]

    The driver of the solver (llik.cpp 2764-2825 and 3133-3215, 3496-3525):
    [updateJointConfigs] decides whether a new configuration map differs
    from the cached one and replaces it if so; [solve] rebuilds the chains,
    relaxes the active roots and runs FABRIK passes, each followed by
    [measureMaxError], at least [MIN_SOLVER_ITERATIONS] and at most
    [MAX_SOLVER_ITERATIONS] times, stopping early once the error is
    acceptable.

    The relaxation is [relaxActiveRoots] of Kinematics.v and the pass is
    [executeFabrikPass] of Fabrik.v; the theorems about the loop hold for
    any pass.  The error is a [Q]; [std::numeric_limits<F32>::max()] is
    the exact largest float. *)

From Stdlib Require Import QArith Qabs ZArith List Bool Lia Lqa.
Import ListNotations.
From S2P Require Import Prelude F32 Vec Config OrdMap Constraints Skeleton Chains Kinematics Fabrik Geometry.

Local Open Scope Z_scope.
Local Open Scope llik_scope.

Section Configs.
Context {L : Libm}.

(** The loop body of [updateJointConfigs] (lines 2771-2806) for one old
    entry and the new entry of the same id: [true] when it changed. *)
Definition config_changed (tol : Q) (old new : Config) : bool :=
  let mask := cfg_flags old in
  negb (Z.eqb mask (cfg_flags new))
  || (has_flag mask CONFIG_FLAG_TARGET_POS
      && Qltb tol (Qabs (dist_vec (cfg_target_pos old) (cfg_target_pos new))))
  || (has_flag mask CONFIG_FLAG_TARGET_ROT
      && negb (qalmost_equal (cfg_target_rot old) (cfg_target_rot new)))
  || (has_flag mask CONFIG_FLAG_LOCAL_POS
      && Qltb tol (Qabs (dist_vec (cfg_local_pos old) (cfg_local_pos new))))
  || (has_flag mask CONFIG_FLAG_LOCAL_ROT
      && negb (qalmost_equal (cfg_local_rot old) (cfg_local_rot new))).

(** [something_changed] (lines 2766-2819): the sizes differ, an old id is
    missing from the new map, or an old entry changed. *)
Definition configs_changed (s : Solver) (configs : amap Config) : bool :=
  negb (Nat.eqb (length configs) (length (s_joint_configs s)))
  || existsb (fun '(k, old) =>
                match find k configs with
                | Some new => config_changed (s_acceptable_error s) old new
                | None => true
                end) (s_joint_configs s).

(** [Solver::updateJointConfigs] (lines 2764-2825). *)
Definition updateJointConfigs (s : Solver) (configs : amap Config) : bool * Solver :=
  let changed := configs_changed s configs in
  (changed, if changed then with_configs s configs else s).

End Configs.

Section MaxError.
Context {L : Libm}.

(** One entry of [measureMaxError] (lines 3499-3516).  [mSkeleton[joint_id]]
    on an id without a joint makes a null entry and dereferences it. *)
Definition max_error_step (s : Solver) (max_error : Q) (entry : Z * Config) : option Q :=
  let '(joint_id, target) := entry in
  if Z.eqb joint_id (s_root_id s) then Some max_error
  else if hasTargetPos target && negb (hasDelegated target) then
    j <- find joint_id (s_skeleton s) ;;
    let dist := dist_vec (computeWorldEndPos j) (cfg_target_pos target) in
    Some (if Qltb max_error dist then dist else max_error)
  else Some max_error.

(** [Solver::measureMaxError] (lines 3496-3528). *)
Definition measureMaxError (s : Solver) : option Q :=
  fold_opt (max_error_step s) (s_joint_configs s) 0%Q.

End MaxError.

(** ** The iteration of [solve] *)

Definition MAX_SOLVER_ITERATIONS : nat := 16.
Definition MIN_SOLVER_ITERATIONS : nat := 4.

(** [std::numeric_limits<F32>::max()]: [(2 - 2^-23) * 2^127]. *)
Definition FLT_MAX : Q := inject_Z ((2 ^ 24 - 1) * 2 ^ 104).

(** The condition of the [for] loop of [solve] (line 3184). *)
Definition loop_continues (acceptable : Q) (loop : nat) (max_error : Q) : bool :=
  Nat.ltb loop MIN_SOLVER_ITERATIONS
  || (Nat.ltb loop MAX_SOLVER_ITERATIONS && Qltb acceptable max_error).

Section Loop.
(** One [solveOnce]: the new skeleton and the measured error, or [None]
    when the measure dereferences a missing joint. *)
Variable step : Solver -> option (amap Joint * Q).

(** The [for] loop of [solve] (lines 3184-3190), with [fuel] iterations
    left; it returns the solver, [mLastError] and the number of passes. *)
Fixpoint solve_loop (fuel loop : nat) (s : Solver) (max_error : Q) : option (Solver * Q * nat) :=
  if loop_continues (s_acceptable_error s) loop max_error then
    match fuel with
    | O => None
    | S f =>
        match step s with
        | Some (sk, e) => solve_loop f (S loop) (set_skeleton s sk) e
        | None => None
        end
    end
  else Some (s, max_error, loop).

(** The loop of the specification (section 4.5): [for i in 0..16: pass;
    measure; if i >= 4 and err <= acceptable: break]. *)
Fixpoint spec_solve_loop (fuel i : nat) (s : Solver) : option (Solver * Q * nat) :=
  match fuel with
  | O => None
  | S f =>
      match step s with
      | Some (sk, e) =>
          let s' := set_skeleton s sk in
          if (Nat.leb MIN_SOLVER_ITERATIONS i && Qleb e (s_acceptable_error s))
             || Nat.eqb (S i) MAX_SOLVER_ITERATIONS
          then Some (s', e, S i)
          else spec_solve_loop f (S i) s'
      | None => None
      end
  end.

End Loop.

Section Solve.
Context {L : Libm} {C : ConstraintOps}.

(** [Solver::solveOnce] (lines 3207-3219). *)
Definition solveOnce (s : Solver) : option (amap Joint * Q) :=
  sk <- executeFabrikPass true s ;;
  e <- measureMaxError (set_skeleton s sk) ;;
  Some (sk, e).

(** [Solver::solve] (lines 3133-3205); [mLastError] is the error returned. *)
Definition solve (s : Solver) : option (Solver * Q) :=
  s1 <- rebuildAllChains s ;;
  sk2 <- relaxActiveRoots s1 ;;
  let s2 := set_skeleton s1 sk2 in
  match solve_loop solveOnce MAX_SOLVER_ITERATIONS 0 s2 FLT_MAX with
  | Some (s3, e, _) =>
      Some (mkSolver (s_skeleton s3) (s_joint_configs s3) (s_chain_map s3) (s_sub_base_ids s3)
              (s_sub_root_ids s3) (s_active_roots s3) (s_active_joints s3) (s_wrist_joints s3)
              (s_acceptable_error s3) e (s_root_id s3), e)
  | None => None
  end.

End Solve.

(** ** The loop *)

Section LoopProofs.
Variable step : Solver -> option (amap Joint * Q).

Lemma set_skeleton_acceptable s sk : s_acceptable_error (set_skeleton s sk) = s_acceptable_error s.
Proof. reflexivity. Qed.

Lemma loop_continues_false acc l e :
  loop_continues acc l e = false ->
  (MIN_SOLVER_ITERATIONS <= l)%nat /\ ((l < MAX_SOLVER_ITERATIONS)%nat -> (e <= acc)%Q).
Proof.
  unfold loop_continues. rewrite orb_false_iff, andb_false_iff, Nat.ltb_ge, Nat.ltb_ge.
  intros [H1 [H2|H2]]; split; [lia|lia|lia|]. intros _. destruct (Qltb_spec acc e) as [|Hle]; [discriminate|now apply Qnot_lt_le].
Qed.

(** The loop stops, with at least [MIN] passes, and before [MAX] only with
    an acceptable error; the acceptable error is the one it started with. *)
Lemma solve_loop_stops f l s e0 :
  (forall s, step s <> None) -> (l + f = MAX_SOLVER_ITERATIONS)%nat ->
  exists s' e n, solve_loop step f l s e0 = Some (s', e, n) /\
    s_acceptable_error s' = s_acceptable_error s /\
    (l <= n <= MAX_SOLVER_ITERATIONS)%nat /\ (MIN_SOLVER_ITERATIONS <= n)%nat /\
    ((n < MAX_SOLVER_ITERATIONS)%nat -> (e <= s_acceptable_error s)%Q) /\
    (n = l -> e = e0) /\ ((l < n)%nat -> exists s0 sk, step s0 = Some (sk, e)).
Proof.
  intros Hstep. revert l s e0. induction f as [|f IH]; intros l s e0 Hl; simpl.
  - replace l with MAX_SOLVER_ITERATIONS by lia. simpl.
    exists s, e0, MAX_SOLVER_ITERATIONS. unfold MIN_SOLVER_ITERATIONS, MAX_SOLVER_ITERATIONS.
    repeat split; try lia; auto.
  - destruct (loop_continues (s_acceptable_error s) l e0) eqn:C.
    + destruct (step s) as [[sk e]|] eqn:Es; [|exfalso; exact (Hstep s Es)].
      destruct (IH (S l) (set_skeleton s sk) e ltac:(lia))
        as (s' & e' & n & E & A & B & Mn & Lt & Eq & Fr).
      exists s', e', n. rewrite A.
      split; [exact E|]. split; [reflexivity|]. split; [lia|]. split; [lia|].
      split; [exact Lt|]. split; [lia|].
      intros Hn. destruct (Nat.eq_dec n (S l)) as [Hn'|Hn'].
      * rewrite (Eq Hn'). exists s, sk. exact Es.
      * apply Fr. lia.
    + destruct (loop_continues_false _ _ _ C) as [Hmin Hmax].
      exists s, e0, l. repeat split; try lia; auto.
Qed.

End LoopProofs.

Section Quiet.
Variable step : Solver -> option (amap Joint * Q).
(** Every pass ends with an acceptable error. *)
Hypothesis quiet : forall s, exists sk e, step s = Some (sk, e) /\ (e <= s_acceptable_error s)%Q.

Lemma solve_loop_quiet k : forall l s e0 fuel,
  (l + k = MIN_SOLVER_ITERATIONS)%nat -> (k <= fuel)%nat -> (k = O -> (e0 <= s_acceptable_error s)%Q) ->
  exists s' e, solve_loop step fuel l s e0 = Some (s', e, MIN_SOLVER_ITERATIONS).
Proof.
  induction k as [|k IH]; intros l s e0 fuel Hl Hf He.
  - replace l with MIN_SOLVER_ITERATIONS by lia. specialize (He eq_refl).
    assert (C : loop_continues (s_acceptable_error s) MIN_SOLVER_ITERATIONS e0 = false).
    { unfold loop_continues. simpl. destruct (Qltb_spec (s_acceptable_error s) e0); [lra|reflexivity]. }
    destruct fuel; simpl; rewrite C; eexists; eexists; reflexivity.
  - destruct fuel as [|fuel]; [lia|]. simpl.
    assert (C : loop_continues (s_acceptable_error s) l e0 = true)
      by (unfold loop_continues; apply orb_true_iff; left; apply Nat.ltb_lt; lia).
    rewrite C. destruct (quiet s) as (sk & e & Es & Hle). rewrite Es.
    apply IH; [lia|lia|]. intros _. exact Hle.
Qed.

Lemma spec_solve_loop_quiet k : forall i s fuel,
  (i + k = MIN_SOLVER_ITERATIONS)%nat -> (k < fuel)%nat ->
  exists s' e, spec_solve_loop step fuel i s = Some (s', e, S MIN_SOLVER_ITERATIONS).
Proof.
  induction k as [|k IH]; intros i s fuel Hi Hf; (destruct fuel as [|fuel]; [lia|]);
    cbn -[MIN_SOLVER_ITERATIONS MAX_SOLVER_ITERATIONS Nat.leb Nat.eqb Qleb];
    destruct (quiet s) as (sk & e & Es & Hle); rewrite Es.
  - replace i with MIN_SOLVER_ITERATIONS by lia. rewrite Nat.leb_refl.
    destruct (Qleb_spec e (s_acceptable_error s)); [|contradiction]. eexists; eexists; reflexivity.
  - replace (Nat.leb MIN_SOLVER_ITERATIONS i) with false by (symmetry; apply Nat.leb_gt; lia).
    replace (Nat.eqb (S i) MAX_SOLVER_ITERATIONS) with false
      by (symmetry; apply Nat.eqb_neq; unfold MIN_SOLVER_ITERATIONS, MAX_SOLVER_ITERATIONS in *; lia).
    apply IH; lia.
Qed.

End Quiet.

(** A pass that leaves the joints where they are and reports no error. *)
Definition idle_step (s : Solver) : option (amap Joint * Q) := Some (s_skeleton s, 0%Q).

(** C3: When every pass returns, the loop of [solve] runs at least
    [MIN_SOLVER_ITERATIONS] and at most [MAX_SOLVER_ITERATIONS] passes; it
    stops before the maximum only with an acceptable error; and the error
    it returns is one a pass measured, never the initial [FLT_MAX]. *)
Theorem solve_loop_passes (step : Solver -> option (amap Joint * Q)) (s : Solver) :
  (forall s, step s <> None) ->
  exists s' e n, solve_loop step MAX_SOLVER_ITERATIONS 0 s FLT_MAX = Some (s', e, n) /\
    (MIN_SOLVER_ITERATIONS <= n <= MAX_SOLVER_ITERATIONS)%nat /\
    ((n < MAX_SOLVER_ITERATIONS)%nat -> (e <= s_acceptable_error s)%Q) /\
    exists s0 sk, step s0 = Some (sk, e).
Proof.
  intros H. destruct (solve_loop_stops step MAX_SOLVER_ITERATIONS 0 s FLT_MAX H eq_refl)
    as (s' & e & n & E & _ & B & Mn & Lt & _ & Fr).
  exists s', e, n. split; [exact E|]. split; [lia|]. split; [exact Lt|].
  apply Fr. unfold MIN_SOLVER_ITERATIONS in Mn. lia.
Qed.

Lemma solve_loop_passes_witness :
  exists s' e n, solve_loop idle_step MAX_SOLVER_ITERATIONS 0 new_solver FLT_MAX = Some (s', e, n) /\
    (MIN_SOLVER_ITERATIONS <= n <= MAX_SOLVER_ITERATIONS)%nat /\
    ((n < MAX_SOLVER_ITERATIONS)%nat -> (e <= s_acceptable_error new_solver)%Q) /\
    exists s0 sk, idle_step s0 = Some (sk, e).
Proof. apply (solve_loop_passes idle_step new_solver). intros s. discriminate. Defined.

(** C26: When every pass ends with an acceptable error, [solve] runs
    exactly [MIN_SOLVER_ITERATIONS] = 4 passes, while the loop of the
    specification ([break] once [i >= 4] and the error is acceptable, [i]
    counting from 0) runs 5. *)
Theorem solve_loop_min_passes (step : Solver -> option (amap Joint * Q)) (s : Solver) (e0 : Q) :
  (forall s, exists sk e, step s = Some (sk, e) /\ (e <= s_acceptable_error s)%Q) ->
  (exists s' e, solve_loop step MAX_SOLVER_ITERATIONS 0 s e0 = Some (s', e, 4%nat)) /\
  (exists s' e, spec_solve_loop step MAX_SOLVER_ITERATIONS 0 s = Some (s', e, 5%nat)).
Proof.
  intros Q. split.
  - apply (solve_loop_quiet step Q 4); unfold MAX_SOLVER_ITERATIONS; [reflexivity|lia|discriminate].
  - apply (spec_solve_loop_quiet step Q 4); unfold MAX_SOLVER_ITERATIONS; [reflexivity|lia].
Qed.

(** A pass that leaves the joints where they are and measures exactly the
    acceptable error. *)
Definition settled_step (s : Solver) : option (amap Joint * Q) :=
  Some (s_skeleton s, s_acceptable_error s).

Lemma solve_loop_min_passes_witness :
  (exists s' e, solve_loop settled_step MAX_SOLVER_ITERATIONS 0 new_solver FLT_MAX = Some (s', e, 4%nat)) /\
  (exists s' e, spec_solve_loop settled_step MAX_SOLVER_ITERATIONS 0 new_solver = Some (s', e, 5%nat)).
Proof.
  apply (solve_loop_min_passes settled_step new_solver FLT_MAX).
  intros s. exists (s_skeleton s), (s_acceptable_error s). split; [reflexivity|apply Qle_refl].
Defined.

(** ** [measureMaxError] *)

Section MaxErrorProofs.
Context {L : Libm}.

(** The entries [measureMaxError] measures: not the root, a position
    target, not delegated. *)
Definition error_counted (s : Solver) (k : Z) (c : Config) : bool :=
  negb (Z.eqb k (s_root_id s)) && hasTargetPos c && negb (hasDelegated c).

Definition joint_error (j : Joint) (c : Config) : Q := dist_vec (computeWorldEndPos j) (cfg_target_pos c).

Lemma max_error_step_eq s a k c :
  max_error_step s a (k, c) =
  if error_counted s k c then
    match find k (s_skeleton s) with
    | Some j => Some (if Qltb a (joint_error j c) then joint_error j c else a)
    | None => None
    end
  else Some a.
Proof.
  unfold max_error_step, error_counted. destruct (Z.eqb k (s_root_id s)); reflexivity.
Qed.

Lemma max_error_fold s l a :
  (forall k c, In (k, c) l -> error_counted s k c = true -> mem k (s_skeleton s) = true) ->
  exists e, fold_opt (max_error_step s) l a = Some e /\ (a <= e)%Q /\
    (forall k c j, In (k, c) l -> error_counted s k c = true -> find k (s_skeleton s) = Some j ->
       (joint_error j c <= e)%Q) /\
    (e = a \/ exists k c j, In (k, c) l /\ error_counted s k c = true /\
       find k (s_skeleton s) = Some j /\ e = joint_error j c).
Proof.
  revert a. induction l as [|[k c] l IH]; intros a Hin.
  { exists a. repeat split; [apply Qle_refl|intros ? ? ? []|now left]. }
  rewrite fold_opt_cons, max_error_step_eq.
  assert (Hin' : forall k' c', In (k', c') l -> error_counted s k' c' = true -> mem k' (s_skeleton s) = true)
    by (intros k0 c0 H0 H1; exact (Hin k0 c0 (or_intror H0) H1)).
  destruct (error_counted s k c) eqn:Ec.
  - specialize (Hin k c (or_introl eq_refl) Ec). unfold mem in Hin.
    destruct (find k (s_skeleton s)) as [j|] eqn:Fj; [|discriminate].
    set (a' := if Qltb a (joint_error j c) then joint_error j c else a).
    assert (Ha' : (a <= a')%Q /\ (joint_error j c <= a')%Q).
    { subst a'. destruct (Qltb_spec a (joint_error j c)); split; qlra. }
    destruct (IH a' Hin') as (e & E & Le & All & Pick). exists e. split; [exact E|].
    split; [qlra|split].
    + intros k' c' j' [Heq|H] Hc Hf; [|exact (All _ _ _ H Hc Hf)].
      injection Heq as <- <-. rewrite Fj in Hf. injection Hf as <-. qlra.
    + destruct Pick as [->|(k' & c' & j' & H & R)]; [|right; exists k', c', j'; split; [now right|exact R]].
      subst a'. destruct (Qltb a (joint_error j c)); [|now left].
      right. exists k, c, j. split; [now left|auto].
  - destruct (IH a Hin') as (e & E & Le & All & Pick). exists e. split; [exact E|]. split; [exact Le|split].
    + intros k' c' j' [Heq|H] Hc Hf; [injection Heq as <- <-; congruence|exact (All _ _ _ H Hc Hf)].
    + destruct Pick as [->|(k' & c' & j' & H & R)]; [now left|right; exists k', c', j'; split; [now right|exact R]].
Qed.

End MaxErrorProofs.

Section MaxErrorClaims.
Context {L : Libm}.

(** C19: When every measured configuration names a joint of the skeleton,
    [measureMaxError] returns the largest distance between a targeted
    joint's world end position and its target, or 0 when there is none. *)
Theorem measureMaxError_max (s : Solver) :
  (forall k c, In (k, c) (s_joint_configs s) -> error_counted s k c = true -> mem k (s_skeleton s) = true) ->
  exists e, measureMaxError s = Some e /\ (0 <= e)%Q /\
    (forall k c j, In (k, c) (s_joint_configs s) -> error_counted s k c = true ->
       find k (s_skeleton s) = Some j -> (joint_error j c <= e)%Q) /\
    (e = 0%Q \/ exists k c j, In (k, c) (s_joint_configs s) /\ error_counted s k c = true /\
       find k (s_skeleton s) = Some j /\ e = joint_error j c).
Proof. intros H. exact (max_error_fold s _ 0 H). Qed.

(** C20: A position-targeted, non-delegated configuration of a joint id
    that is not in the skeleton makes [measureMaxError] dereference the
    null joint [mSkeleton[joint_id]] creates. *)
Theorem measureMaxError_unknown_joint (s : Solver) (k : Z) (c : Config) :
  In (k, c) (s_joint_configs s) -> error_counted s k c = true -> find k (s_skeleton s) = None ->
  measureMaxError s = None.
Proof.
  intros Hin Hc Hf. apply (fold_opt_none _ _ _ _ Hin). intros a.
  rewrite max_error_step_eq, Hc, Hf. reflexivity.
Qed.

End MaxErrorClaims.

Lemma measureMaxError_max_witness :
  exists e, measureMaxError split_solver = Some e /\ (0 <= e)%Q /\
    (forall k c j, In (k, c) (s_joint_configs split_solver) -> error_counted split_solver k c = true ->
       find k (s_skeleton split_solver) = Some j -> (joint_error j c <= e)%Q) /\
    (e = 0%Q \/ exists k c j, In (k, c) (s_joint_configs split_solver) /\
       error_counted split_solver k c = true /\ find k (s_skeleton split_solver) = Some j /\ e = joint_error j c).
Proof.
  apply measureMaxError_max. intros k c Hin _.
  vm_compute in Hin. destruct Hin as [H|[H|[]]]; injection H as <- _; reflexivity.
Defined.

(** A solver with one joint and a target on joint 7, which it lacks. *)
Definition missing_target_solver : Solver :=
  with_configs (build_solver 0 [(0,-1)]) [(7, target_config)].

Lemma measureMaxError_unknown_joint_witness : measureMaxError missing_target_solver = None.
Proof.
  apply (measureMaxError_unknown_joint _ 7 target_config); [now left|vm_compute; reflexivity..].
Defined.

(** ** [updateJointConfigs] *)

Definition vec_eqb (a b : vec3) : bool := Qeqb (vx a) (vx b) && Qeqb (vy a) (vy b) && Qeqb (vz a) (vz b).
Definition quat_eqb (a b : quat) : bool :=
  Qeqb (qx a) (qx b) && Qeqb (qy a) (qy b) && Qeqb (qz a) (qz b) && Qeqb (qw a) (qw b).

(** The two configurations agree on every field [updateJointConfigs]
    compares: the flags, the positions and the rotations. *)
Definition compared_equalb (a b : Config) : bool :=
  Z.eqb (cfg_flags a) (cfg_flags b) && vec_eqb (cfg_target_pos a) (cfg_target_pos b) &&
  quat_eqb (cfg_target_rot a) (cfg_target_rot b) && vec_eqb (cfg_local_pos a) (cfg_local_pos b) &&
  quat_eqb (cfg_local_rot a) (cfg_local_rot b).

Section ConfigProofs.
Context {L : Libm} {LL : LibmLaws}.

Lemma Qeqb_true x y : Qeqb x y = true -> (x == y)%Q.
Proof. intros H. now destruct (Qeqb_spec x y). Qed.

Lemma dist_vec_eqb a b : vec_eqb a b = true -> (dist_vec a b == 0)%Q.
Proof.
  unfold vec_eqb. rewrite !andb_true_iff. intros [[Ex Ey] Ez].
  apply Qeqb_true in Ex, Ey, Ez. unfold dist_vec, vlength. rewrite <- sqrtf_0. apply sqrtf_proper.
  unfold lengthSquared, vdot, vsub. simpl. rewrite Ex, Ey, Ez. ring.
Qed.

Lemma qalmost_equal_eqb a b : quat_eqb a b = true -> qalmost_equal a b = true.
Proof.
  unfold quat_eqb. rewrite !andb_true_iff. intros [[[Ex Ey] Ez] Ew].
  apply Qeqb_true in Ex, Ey, Ez, Ew. unfold qalmost_equal, qalmost_equal_tol.
  apply orb_true_iff. left.
  assert (E : forall x y, (x == y)%Q -> Qleb (Qabs (x - 1 * y)) QUAT_DEFAULT_TOLERANCE = true).
  { intros x y Hxy. apply Qle_bool_iff. rewrite Hxy. setoid_replace (y - 1 * y)%Q with 0%Q by ring.
    discriminate. }
  rewrite (E _ _ Ex), (E _ _ Ey), (E _ _ Ez), (E _ _ Ew). reflexivity.
Qed.

Lemma far_false tol a b : (0 <= tol)%Q -> vec_eqb a b = true -> Qltb tol (Qabs (dist_vec a b)) = false.
Proof.
  intros Ht E. destruct (Qltb_spec tol (Qabs (dist_vec a b))) as [H|]; [|reflexivity].
  rewrite (dist_vec_eqb _ _ E) in H. simpl in H. lra.
Qed.

Lemma config_changed_same tol a b :
  (0 <= tol)%Q -> compared_equalb a b = true -> config_changed tol a b = false.
Proof.
  intros Ht E. unfold compared_equalb in E. rewrite !andb_true_iff in E.
  destruct E as [[[[Ef Etp] Etr] Elp] Elr]. unfold config_changed.
  rewrite Ef, (far_false _ _ _ Ht Etp), (far_false _ _ _ Ht Elp),
    (qalmost_equal_eqb _ _ Etr), (qalmost_equal_eqb _ _ Elr), !andb_false_r. reflexivity.
Qed.

End ConfigProofs.

Section ConfigClaims.
Context {L : Libm} {LL : LibmLaws}.

(** C27: [updateJointConfigs] compares only the flags, positions and
    rotations: a map with as many entries, each id of the cached map
    present and agreeing on those fields, is reported unchanged and the
    cached map is kept, whatever local scales or chain limits it brings. *)
Theorem updateJointConfigs_unchanged (s : Solver) (configs : amap Config) :
  (0 <= s_acceptable_error s)%Q -> length configs = length (s_joint_configs s) ->
  forallb (fun '(k, a) => match find k configs with Some b => compared_equalb a b | None => false end)
    (s_joint_configs s) = true ->
  updateJointConfigs s configs = (false, s).
Proof.
  intros Ht Hl H. unfold updateJointConfigs, configs_changed.
  replace (existsb _ (s_joint_configs s)) with false; [rewrite Hl, Nat.eqb_refl; reflexivity|].
  symmetry. apply not_true_iff_false. rewrite existsb_exists. intros ([k a] & Hin & E).
  rewrite forallb_forall in H. specialize (H (k, a) Hin). simpl in H, E.
  destruct (find k configs) as [b|]; [|discriminate].
  rewrite (config_changed_same _ _ _ Ht H) in E. discriminate.
Qed.

End ConfigClaims.

(** A configuration with only a local scale. *)
Definition scale_config (sc : vec3) : Config := Setters.setLocalScale sc default_config.

Definition scaled_solver : Solver :=
  with_configs (build_solver 0 [(0,-1);(1,0)]) [(1, scale_config (V3 1 1 1))].

Lemma updateJointConfigs_unchanged_witness :
  updateJointConfigs scaled_solver [(1, scale_config (V3 2 2 2))] = (false, scaled_solver).
Proof. apply updateJointConfigs_unchanged; vm_compute; [discriminate|reflexivity|reflexivity]. Defined.

(** ** Flags that outlive their configuration *)

(** A configuration that only locks the local rotation. *)
Definition lock_config : Config := Setters.setLocalRot q_identity default_config.

(** Root 0, joint 1, joint 2, with joint 1's local rotation locked. *)
Definition locked_solver : Solver :=
  with_configs (build_solver 0 [(0,-1);(1,0);(2,1)]) [(1, lock_config)].

(** [locked_solver] after a rebuild and the withdrawal of every
    configuration through [updateJointConfigs]. *)
Definition unlocked_solver : Solver :=
  match rebuildAllChains locked_solver with
  | Some s1 => snd (updateJointConfigs s1 [])
  | None => locked_solver
  end.

(** C8: [rebuildAllChains] resets the flags only of the joints on the
    old chains (lines 2830-2839), and every later step only sets flags.
    So a joint whose local rotation is locked and which is on none of the
    old chains is still locked after the rebuild, and still active if it
    was, whatever the configurations now say: a lock set by a
    configuration that has since been withdrawn survives.  The
    specification clears every joint's flags first. *)
Theorem rebuildAllChains_stale_lock (s s' : Solver) (x : Z) (jx : Joint) :
  sorted (s_skeleton s) -> ids_match (s_skeleton s) -> rebuildAllChains s = Some s' ->
  find x (s_skeleton s) = Some jx -> localRotLocked jx = true ->
  (forall key chain, In (key, chain) (s_chain_map s) -> ~ In x chain) ->
  exists jx', find x (s_skeleton s') = Some jx' /\ localRotLocked jx' = true /\
    (isActive jx = true -> isActive jx' = true).
Proof.
  intros So Hids E F Lk Off. destruct (rebuildAllChains_flags_kept s s' x jx So Hids E F Off) as (jx' & F' & B).
  exists jx'. split; [exact F'|]. unfold localRotLocked, isActive, IK_FLAG_LOCAL_ROT_LOCKED, IK_FLAG_ACTIVE in *.
  rewrite !has_flag_testbit in * by lia. split; [exact (B _ Lk)|exact (B _)].
Qed.

(** ** The skeleton stays a forest

    [solve] composes the chain builder, the relaxation of the active roots
    and the FABRIK passes with llik.cpp's constraints; each of them keeps
    every joint's id, parent and children, so the skeleton [solve] leaves
    is a forest with its ids at their keys whenever it started as one. *)

Lemma solve_loop_inv (P : amap Joint -> Prop) (step : Solver -> option (amap Joint * Q)) :
  (forall s sk e, P (s_skeleton s) -> step s = Some (sk, e) -> P sk) ->
  forall f l s e0 s' e n, solve_loop step f l s e0 = Some (s', e, n) -> P (s_skeleton s) -> P (s_skeleton s').
Proof.
  intros H. induction f as [|f IH]; intros l s e0 s' e n E Ps; simpl in E;
    destruct (loop_continues _ _ _); try discriminate; try (injection E as <- _ _; exact Ps).
  destruct (step s) as [[sk e1]|] eqn:Es; [|discriminate].
  exact (IH _ _ _ _ _ _ E (H _ _ _ Ps Es)).
Qed.

Lemma solveOnce_links {L : Libm} {C : ConstraintOps} {CL : ConstraintOpsLaws} (s : Solver) sk e :
  solveOnce s = Some (sk, e) -> same_links isActive (s_skeleton s) sk.
Proof.
  unfold solveOnce. destruct (executeFabrikPass true s) as [sk1|] eqn:F; [|discriminate].
  destruct (measureMaxError _); [|discriminate]. intros E. injection E as <- _.
  exact (executeFabrikPass_links _ _ _ F).
Qed.

(** [solve] with llik.cpp's constraints keeps the skeleton a forest:
    started on a well-formed skeleton whose joints' ids are their keys, the
    skeleton it returns is well-formed (sorted, parents and children
    agreeing, no cycle) with the same ids. *)
Theorem solve_keeps_forest {L : Libm} (s s' : Solver) (e : Q) :
  skeleton_wf (s_skeleton s) -> ids_match (s_skeleton s) ->
  solve (C := llik_constraint_ops) s = Some (s', e) ->
  skeleton_wf (s_skeleton s') /\ ids_match (s_skeleton s').
Proof.
  intros W I. unfold solve. destruct (rebuildAllChains s) as [s1|] eqn:E1; [|discriminate].
  destruct (rebuildAllChains_shape s s1 (proj1 W) I E1) as [Sh So1].
  pose proof (same_shape_wf _ _ Sh So1 W) as W1. pose proof (same_shape_ids_match _ _ Sh I) as I1.
  destruct (relaxActiveRoots s1) as [sk2|] eqn:E2; [|discriminate].
  destruct (same_links_wf _ _ _ (relaxActiveRoots_links s1 sk2 W1 E2) W1 I1) as [W2 I2].
  destruct (solve_loop _ _ _ _ _) as [[[s3 e3] n]|] eqn:E3; [|discriminate].
  intros E. injection E as <- _. simpl.
  refine (solve_loop_inv (fun sk => skeleton_wf sk /\ ids_match sk) _ _ _ _ _ _ _ _ _ E3 (conj W2 I2)).
  intros s0 sk e0 [Ws Is] Es.
  exact (same_links_wf _ _ _ (@solveOnce_links L _ llik_constraint_laws s0 sk e0 Es) Ws Is).
Qed.

Lemma solve_keeps_forest_witness :
  exists r, @solve libm_Q llik_constraint_ops arm_solver = Some r /\
    skeleton_wf (s_skeleton (fst r)) /\ ids_match (s_skeleton (fst r)).
Proof.
  destruct (@solve libm_Q llik_constraint_ops arm_solver) as [[s' e]|] eqn:E; [|vm_compute in E; discriminate].
  exists (s', e). split; [reflexivity|].
  apply (@solve_keeps_forest libm_Q arm_solver s' e); [| |exact E].
  - apply skeleton_wfb_spec. vm_compute. reflexivity.
  - apply ids_matchb_spec. vm_compute. reflexivity.
Defined.

Lemma rebuildAllChains_stale_lock_witness :
  s_joint_configs unlocked_solver = [] /\
  exists s' jx', rebuildAllChains unlocked_solver = Some s' /\ find 1 (s_skeleton s') = Some jx' /\
    localRotLocked jx' = true.
Proof.
  split; [vm_compute; reflexivity|].
  destruct (rebuildAllChains unlocked_solver) as [s'|] eqn:E; [|vm_compute in E; discriminate].
  destruct (find 1 (s_skeleton unlocked_solver)) as [j1|] eqn:F; [|vm_compute in F; discriminate].
  assert (Lk : localRotLocked j1 = true) by (revert F; vm_compute; intros [= <-]; reflexivity).
  destruct (rebuildAllChains_stale_lock unlocked_solver s' 1 j1) as (jx' & F' & L' & _);
    [apply sortedb_sorted; vm_compute; reflexivity|apply ids_matchb_spec; vm_compute; reflexivity
    |exact E|exact F|exact Lk|intros key chain H; vm_compute in H; destruct H|].
  exists s', jx'. split; [reflexivity|split; assumption].
Defined.
