(* ===== verification/Factory.v ===== *)
(** * Factory: [LLIKConstraintFactory]

    The factory (llik.h 700-723, llik.cpp 3575-3691) turns the constraint
    definitions of [avatar_constraint.llsd] into [Constraint] instances and
    maps joint names to them.  [create] dispatches on the upper-cased type
    name; [getConstraint] deduplicates by [generateHash], returning the
    instance already cached under the same hash; [processConstraintMappings]
    visits the joint names of the LLSD map in key order and records each
    joint's constraint; [getConstraintByName] reads the mapping.

    The state is the record [Factory]: the hash cache [mConstraints] and
    the joint mapping [mJointMapping]; [factory_inv] is the invariant
    every operation keeps (the cache holds each constraint under its own
    hash, every joint is mapped to a cached constraint).  Both are [std::unordered_map]s,
    whose iteration order the code never uses, so the cache is an [amap]
    on the hash and the mapping a list of pairs; [insert] on the mapping
    keeps an existing entry, as [unordered_map::insert] does.  Constraints
    are values: they carry no state, so sharing one instance between
    joints is observable only through which definition's values it holds. *)

From Stdlib Require Import QArith ZArith String List Bool.
Import ListNotations.
From S2P Require Import Prelude F32 Angles Vec LLSD OrdMap Constraints.

Local Open Scope string_scope.

(** [LLIKConstraintFactory::create] (lines 3654-3691). *)
Definition create `{Libm} (data : LLSD) : option Constraint :=
  let type := to_upper (asString (llsd_get "type" data)) in
  if String.eqb type SIMPLE_CONE_CONSTRAINT_NAME then Some (CSimpleCone (SimpleCone_of_llsd data))
  else if String.eqb type TWIST_LIMITED_CONE_CONSTRAINT_NAME then
    Some (CTwistLimitedCone (TwistLimitedCone_of_llsd data))
  else if String.eqb type SHOULDER_CONSTRAINT_NAME then Some (CShoulder (ShoulderConstraint_of_llsd data))
  else if String.eqb type ELBOW_CONSTRAINT_NAME then Some (CElbow (ElbowConstraint_of_llsd data))
  else if String.eqb type KNEE_CONSTRAINT_NAME then Some (CKnee (KneeConstraint_of_llsd data))
  else if String.eqb type ACUTE_ELLIPSOIDAL_CONE_CONSTRAINT_NAME then
    Some (CAcuteEllipsoidalCone (AcuteEllipsoidalCone_of_llsd data))
  else if String.eqb type DOUBLE_LIMITED_HINGE_CONSTRAINT_NAME then
    Some (CDoubleLimitedHinge (DoubleLimitedHinge_of_llsd data))
  else None.

Record Factory := mkFactory {
  f_constraints : amap Constraint;              (** [mConstraints] *)
  f_joint_mapping : list (string * Constraint)  (** [mJointMapping] *)
}.

Definition empty_factory : Factory := mkFactory [] [].

(** [unordered_map::insert({name, c})]: no effect when [name] is mapped. *)
Definition mapping_insert (name : string) (c : Constraint) (m : list (string * Constraint)) :
    list (string * Constraint) :=
  match assoc_str name m with Some _ => m | None => m ++ [(name, c)] end.

Section Factory.
Context {L : Libm} {H : Hasher}.

(** [LLIKConstraintFactory::getConstraint] (lines 3631-3652). *)
Definition getConstraint (f : Factory) (def : LLSD) : Factory * option Constraint :=
  match create def with
  | None => (f, None)
  | Some ptr =>
      let id := generateHash ptr in
      match find id (f_constraints f) with
      | None => (mkFactory (insert id ptr (f_constraints f)) (f_joint_mapping f), Some ptr)
      | Some cached => (f, Some cached)
      end
  end.

(** One entry of [processConstraintMappings] (lines 3618-3628). *)
Definition mapping_step (f : Factory) (entry : string * LLSD) : Factory :=
  let '(joint_name, def) := entry in
  match getConstraint f def with
  | (f', Some c) => mkFactory (f_constraints f') (mapping_insert joint_name c (f_joint_mapping f'))
  | (f', None) => f'
  end.

(** [LLIKConstraintFactory::processConstraintMappings] (lines 3616-3629):
    [beginMap] to [endMap] of a value that is not a map is empty. *)
Definition processConstraintMappings (f : Factory) (mappings : LLSD) : Factory :=
  match mappings with
  | LSDMap m => fold_left mapping_step m f
  | _ => f
  end.

(** [LLIKConstraintFactory::initSingleton] (lines 3575-3602) outside unit
    tests.  Reading the file is the input: [constraint_file] is the path
    [getExpandedFilename] returns and [parsed] the value
    [LLSDSerialize::deserialize] read from it, [None] when it fails. *)
Definition initSingleton (f : Factory) (constraint_file : string) (parsed : option LLSD) : Factory :=
  if String.eqb constraint_file "" then f
  else match parsed with
       | Some constraint_data => processConstraintMappings f constraint_data
       | None => f
       end.

(** [LLIKConstraintFactory::getConstraintByName] (lines 3604-3613). *)
Definition getConstraintByName (f : Factory) (joint_name : string) : option Constraint :=
  assoc_str joint_name (f_joint_mapping f).

(** [getNumConstraints] (llik.h 706). *)
Definition getNumConstraints (f : Factory) : nat := length (f_constraints f).

End Factory.

(** ** Properties *)

Section FactoryProofs.
Context {L : Libm} {H : Hasher}.

Lemma create_cases (d : LLSD) (c : Constraint) :
  create d = Some c ->
  let t := to_upper (asString (llsd_get "type" d)) in
  (t = SIMPLE_CONE_CONSTRAINT_NAME /\ c = CSimpleCone (SimpleCone_of_llsd d)) \/
  (t = TWIST_LIMITED_CONE_CONSTRAINT_NAME /\ c = CTwistLimitedCone (TwistLimitedCone_of_llsd d)) \/
  (t = SHOULDER_CONSTRAINT_NAME /\ c = CShoulder (ShoulderConstraint_of_llsd d)) \/
  (t = ELBOW_CONSTRAINT_NAME /\ c = CElbow (ElbowConstraint_of_llsd d)) \/
  (t = KNEE_CONSTRAINT_NAME /\ c = CKnee (KneeConstraint_of_llsd d)) \/
  (t = ACUTE_ELLIPSOIDAL_CONE_CONSTRAINT_NAME /\ c = CAcuteEllipsoidalCone (AcuteEllipsoidalCone_of_llsd d)) \/
  (t = DOUBLE_LIMITED_HINGE_CONSTRAINT_NAME /\ c = CDoubleLimitedHinge (DoubleLimitedHinge_of_llsd d)).
Proof.
  unfold create. cbv zeta. set (t := to_upper _). intros E.
  repeat match type of E with
  | (if String.eqb t ?n then _ else _) = _ =>
      destruct (String.eqb_spec t n); [injection E as <-; tauto|]
  end.
  discriminate.
Qed.

(** [create] is the inverse of [typeToName]: the constraint it makes
    for a definition has, as the name of its type, the upper-cased type
    name of the definition. *)
Theorem create_typeToName (d : LLSD) (c : Constraint) :
  create d = Some c -> typeToName c = to_upper (asString (llsd_get "type" d)).
Proof.
  intros E. apply create_cases in E.
  repeat destruct E as [[-> ->]|E]; try reflexivity. destruct E as [-> ->]. reflexivity.
Qed.

(** Case on the limit pairs a constructor computes, keeping their order. *)
Ltac split_limits :=
  repeat match goal with
  | |- context [compute_angle_limits ?a ?b] =>
      let Le := fresh "Le" in
      pose proof (compute_angle_limits_le a b) as Le; destruct (compute_angle_limits a b); simpl in Le
  | |- context [pitch_limits ?a ?b] =>
      let R := fresh "R" in
      pose proof (pitch_limits_range a b) as R; destruct (pitch_limits a b); simpl in R
  end.

(** Every constraint [create] makes holds its angle limits in order,
    and a [DoubleLimitedHinge] keeps its pitch within [[-HALF_PI, HALF_PI]],
    whatever the definition says. *)
Theorem create_limits_ordered (d : LLSD) (c : Constraint) :
  create d = Some c -> limits_ordered c.
Proof.
  intros E. apply create_cases in E.
  repeat destruct E as [[_ ->]|E]; try destruct E as [_ ->]; simpl; try exact I;
    [unfold TwistLimitedCone_of_llsd|unfold ElbowConstraint_of_llsd|unfold KneeConstraint_of_llsd
    |unfold DoubleLimitedHinge_of_llsd]; split_limits; simpl; tauto.
Qed.

Lemma getConstraint_some (f f' : Factory) (d : LLSD) (c : Constraint) :
  getConstraint f d = (f', Some c) ->
  exists p, create d = Some p /\ find (generateHash p) (f_constraints f') = Some c /\
    f_joint_mapping f' = f_joint_mapping f.
Proof.
  unfold getConstraint. destruct (create d) as [p|]; [|discriminate].
  destruct (find (generateHash p) (f_constraints f)) as [cached|] eqn:F; intros E;
    injection E as <- <-; exists p; (split; [reflexivity|]); simpl; auto.
  split; [apply find_insert_eq|reflexivity].
Qed.

(** [getConstraint] deduplicates by hash: once a definition has been
    turned into a constraint, every definition whose constraint hashes the
    same, the first one included, gets that same constraint back and leaves
    the factory as it is. *)
Theorem getConstraint_dedup (f f1 : Factory) (d1 d2 : LLSD) (c1 p1 p2 : Constraint) :
  getConstraint f d1 = (f1, Some c1) -> create d1 = Some p1 -> create d2 = Some p2 ->
  generateHash p2 = generateHash p1 -> getConstraint f1 d2 = (f1, Some c1).
Proof.
  intros E C1 C2 Hh. destruct (getConstraint_some _ _ _ _ E) as (p & Cp & F & _).
  rewrite C1 in Cp. injection Cp as <-.
  unfold getConstraint. rewrite C2, Hh, F. reflexivity.
Qed.

(** ** The factory's state

    The cache is a sorted map whose entries sit under their own hash, and
    every joint is mapped to the constraint cached under that constraint's
    hash. *)
Definition factory_inv (f : Factory) : Prop :=
  sorted (f_constraints f) /\
  (forall h c, find h (f_constraints f) = Some c -> generateHash c = h) /\
  (forall n c, assoc_str n (f_joint_mapping f) = Some c -> find (generateHash c) (f_constraints f) = Some c).

Lemma empty_factory_inv : factory_inv empty_factory.
Proof. split; [apply sorted_nil|split; intros; discriminate]. Qed.

Lemma assoc_str_app {A} n (m m' : list (string * A)) :
  assoc_str n (m ++ m') = match assoc_str n m with Some v => Some v | None => assoc_str n m' end.
Proof. induction m as [|[k v] m IH]; simpl; [reflexivity|]. now destruct (String.eqb n k). Qed.

(** What [unordered_map::insert] leaves under each name. *)
Lemma assoc_str_mapping_insert n name c m :
  assoc_str n (mapping_insert name c m) =
  match assoc_str n m with Some v => Some v | None => if String.eqb n name then Some c else None end.
Proof.
  unfold mapping_insert. destruct (assoc_str name m) eqn:E.
  - destruct (assoc_str n m) eqn:E'; [reflexivity|].
    destruct (String.eqb_spec n name); [subst; congruence|reflexivity].
  - rewrite assoc_str_app. destruct (assoc_str n m); [reflexivity|]. simpl.
    now destruct (String.eqb n name).
Qed.

Lemma getConstraint_inv f d : factory_inv f ->
  factory_inv (fst (getConstraint f d)) /\
  (forall c, snd (getConstraint f d) = Some c -> find (generateHash c) (f_constraints (fst (getConstraint f d))) = Some c).
Proof.
  intros I. pose proof I as (S & Hh & Hm). unfold getConstraint.
  destruct (create d) as [p|]; [|split; [exact I|discriminate]].
  destruct (find (generateHash p) (f_constraints f)) as [cached|] eqn:F; cbn [fst snd f_constraints f_joint_mapping].
  - split; [exact I|]. intros c [= <-]. now rewrite (Hh _ _ F).
  - unfold factory_inv; cbn [f_constraints f_joint_mapping].
    split; [split; [apply insert_sorted, S|split]|].
    + intros h c. destruct (Z.eq_dec (generateHash p) h) as [<-|N].
      * rewrite find_insert_eq. now intros [= <-].
      * rewrite find_insert_ne by exact N. apply Hh.
    + intros n c M. specialize (Hm _ _ M). rewrite find_insert_ne; [exact Hm|congruence].
    + intros c [= <-]. apply find_insert_eq.
Qed.

Lemma mapping_step_inv f e : factory_inv f -> factory_inv (mapping_step f e).
Proof.
  intros I. destruct e as [name d]. unfold mapping_step.
  destruct (getConstraint_inv f d I) as [(S & Hh & Hm) Hc].
  destruct (getConstraint f d) as [f' [c|]]; cbn [fst snd] in *; [|exact (conj S (conj Hh Hm))].
  unfold factory_inv; cbn [f_constraints f_joint_mapping]. split; [exact S|split; [exact Hh|]].
  intros n c' M. rewrite assoc_str_mapping_insert in M.
  destruct (assoc_str n (f_joint_mapping f')) eqn:E; [injection M as <-; exact (Hm _ _ E)|].
  destruct (String.eqb n name); [injection M as <-; now apply Hc|discriminate].
Qed.

Lemma getConstraint_mapping f d : f_joint_mapping (fst (getConstraint f d)) = f_joint_mapping f.
Proof. unfold getConstraint. destruct (create d); [destruct (find _ _)|]; reflexivity. Qed.

(** One entry of the mapping maps a joint not mapped yet to what
    [getConstraint] returns. *)
Lemma mapping_step_mapping f name d n :
  assoc_str n (f_joint_mapping (mapping_step f (name, d))) =
  match assoc_str n (f_joint_mapping f) with
  | Some v => Some v
  | None => if String.eqb n name then snd (getConstraint f d) else None
  end.
Proof.
  unfold mapping_step. rewrite <- (getConstraint_mapping f d).
  destruct (getConstraint f d) as [f' [c|]]; [apply assoc_str_mapping_insert|cbn [fst snd]].
  destruct (assoc_str n (f_joint_mapping f')); [reflexivity|]. now destruct (String.eqb n name).
Qed.

Lemma mapping_kept f m n c :
  assoc_str n (f_joint_mapping f) = Some c -> assoc_str n (f_joint_mapping (fold_left mapping_step m f)) = Some c.
Proof.
  revert f. induction m as [|[k d] m IH]; intros f M; [exact M|]. apply IH.
  now rewrite mapping_step_mapping, M.
Qed.

(** For a definition it can create, [getConstraint] returns a constraint
    with the hash of the created one: that one, or the one cached under its
    hash. *)
Lemma getConstraint_hash f d p : factory_inv f -> create d = Some p ->
  exists c, snd (getConstraint f d) = Some c /\ generateHash c = generateHash p.
Proof.
  intros (_ & Hh & _) E. unfold getConstraint. rewrite E.
  destruct (find (generateHash p) (f_constraints f)) as [cached|] eqn:F; eexists; split; try reflexivity.
  exact (Hh _ _ F).
Qed.

Lemma processConstraintMappings_inv f d : factory_inv f -> factory_inv (processConstraintMappings f d).
Proof. intros I. destruct d; try exact I. exact (fold_left_inv _ _ _ _ mapping_step_inv I). Qed.

Lemma initSingleton_inv f file parsed : factory_inv f -> factory_inv (initSingleton f file parsed).
Proof.
  intros I. unfold initSingleton. destruct (String.eqb file ""); [exact I|].
  destruct parsed; [now apply processConstraintMappings_inv|exact I].
Qed.

(** C13: [processConstraintMappings] maps every joint of the constraint
    data whose definition [create] accepts and which had no constraint
    yet: [getConstraintByName] then returns a constraint with the hash of
    the one its definition creates (that one, or the one already cached
    under that hash), later entries never overriding it. *)
Theorem processConstraintMappings_maps (f : Factory) (m : list (string * LLSD)) (n : string) (d : LLSD)
    (p : Constraint) :
  factory_inv f -> assoc_str n (f_joint_mapping f) = None -> assoc_str n m = Some d -> create d = Some p ->
  exists c, getConstraintByName (processConstraintMappings f (LSDMap m)) n = Some c /\
            generateHash c = generateHash p.
Proof.
  unfold processConstraintMappings, getConstraintByName. revert f.
  induction m as [|[k v] m IH]; intros f I N A C; [discriminate|]. cbn [fold_left assoc_str] in A |- *.
  pose proof (mapping_step_mapping f k v n) as Ms. rewrite N in Ms.
  destruct (String.eqb n k).
  - injection A as ->. destruct (getConstraint_hash f d p I C) as (c & Ec & Hc). rewrite Ec in Ms.
    exists c. split; [exact (mapping_kept _ _ _ _ Ms)|exact Hc].
  - exact (IH _ (mapping_step_inv _ _ I) Ms A C).
Qed.

End FactoryProofs.

(** ** Concrete definitions *)

(** A definition of an acute ellipsoidal cone that reaches [l] to the left
    and 1 in the other directions, keys in order as in an LLSD map. *)
Definition acute_cone_def (l : Q) : LLSD :=
  LSDMap [("down", LSDReal 1); ("forward", LSDReal 1);
          ("forward_axis", LSDArray [LSDReal 1; LSDReal 0; LSDReal 0]);
          ("left", LSDReal l); ("right", LSDReal 1);
          ("type", LSDString "acute_ellipsoidal_cone"); ("up", LSDReal 1);
          ("up_axis", LSDArray [LSDReal 0; LSDReal 0; LSDReal 1])].

(** Two joints whose cones differ only in how far they reach left. *)
Definition two_cones : LLSD := LSDMap [("mElbowLeft", acute_cone_def 1); ("mElbowRight", acute_cone_def 3)].

Section HashBug.
Context {L : Libm} {H : Hasher}.

(** C29: [AcuteEllipsoidalCone::generateHash] combines the axis [mLeft]
    where the extent [mXLeft] belongs (line 1310), so two cones that differ
    only in their left extent hash the same for every hash function: the
    factory maps the second joint to the first joint's cone, whose left
    extent and quadrant scales are the wrong ones. *)
Theorem acute_cone_left_extent_ignored :
  let f := processConstraintMappings empty_factory two_cones in
  getConstraintByName f "mElbowRight" = Some (CAcuteEllipsoidalCone (AcuteEllipsoidalCone_of_llsd (acute_cone_def 1))) /\
  getConstraintByName f "mElbowRight" <> Some (CAcuteEllipsoidalCone (AcuteEllipsoidalCone_of_llsd (acute_cone_def 3))).
Proof.
  set (c1 := CAcuteEllipsoidalCone (AcuteEllipsoidalCone_of_llsd (acute_cone_def 1))).
  set (c3 := CAcuteEllipsoidalCone (AcuteEllipsoidalCone_of_llsd (acute_cone_def 3))).
  assert (E1 : create (acute_cone_def 1) = Some c1) by reflexivity.
  assert (E3 : create (acute_cone_def 3) = Some c3) by reflexivity.
  assert (Hh : generateHash c3 = generateHash c1) by reflexivity.
  assert (G1 : getConstraint empty_factory (acute_cone_def 1) =
               (mkFactory [(generateHash c1, c1)] [], Some c1))
    by (unfold getConstraint; rewrite E1; reflexivity).
  assert (G3 : forall m, getConstraint (mkFactory [(generateHash c1, c1)] m) (acute_cone_def 3) =
                         (mkFactory [(generateHash c1, c1)] m, Some c1))
    by (intros m; unfold getConstraint; rewrite E3, Hh; simpl; rewrite Z.eqb_refl; reflexivity).
  assert (F : processConstraintMappings empty_factory two_cones =
              mkFactory [(generateHash c1, c1)] [("mElbowLeft", c1); ("mElbowRight", c1)]).
  { change (processConstraintMappings empty_factory two_cones) with
      (mapping_step (mapping_step empty_factory ("mElbowLeft", acute_cone_def 1))
         ("mElbowRight", acute_cone_def 3)).
    unfold mapping_step at 2. rewrite G1. unfold mapping_step. cbn [f_constraints f_joint_mapping].
    rewrite G3. reflexivity. }
  cbv zeta. rewrite F. split; [reflexivity|]. unfold c1, c3. intros Eq. injection Eq. intros. discriminate.
Qed.

End HashBug.

(** A hash for the examples: any function will do, the code fixes only
    what is combined. *)
Definition atom_code (a : HashAtom) : Z :=
  match a with
  | HType t => Z.of_nat (String.length (constraint_type_to_name t))
  | HFloat q => Qnum q + Zpos (Qden q)
  | HVec v => Qnum (vx v) + Qnum (vy v) + Qnum (vz v)
  end.

#[local] Instance example_hasher : Hasher := {| hash_combine := fun seed a => (seed * 31 + atom_code a)%Z |}.

Definition simple_cone_def : LLSD :=
  LSDMap [("forward_axis", LSDArray [LSDReal 0; LSDReal 0; LSDReal 1]);
          ("max_angle", LSDReal 30); ("type", LSDString "Simple_Cone")].

Lemma create_typeToName_witness :
  create simple_cone_def = Some (CSimpleCone (SimpleCone_of_llsd simple_cone_def)) /\
  typeToName (CSimpleCone (SimpleCone_of_llsd simple_cone_def)) =
    to_upper (asString (llsd_get "type" simple_cone_def)).
Proof.
  assert (E : create simple_cone_def = Some (CSimpleCone (SimpleCone_of_llsd simple_cone_def)))
    by reflexivity.
  split; [exact E|exact (create_typeToName _ _ E)].
Defined.

Definition hinge_def : LLSD :=
  LSDMap [("forward_axis", LSDArray [LSDReal 1; LSDReal 0; LSDReal 0]);
          ("max_pitch", LSDReal (-200)); ("max_yaw", LSDReal 10); ("min_pitch", LSDReal 120);
          ("min_yaw", LSDReal 400); ("type", LSDString "DOUBLE_LIMITED_HINGE");
          ("up_axis", LSDArray [LSDReal 0; LSDReal 0; LSDReal 1])].

Lemma create_limits_ordered_witness :
  create hinge_def = Some (CDoubleLimitedHinge (DoubleLimitedHinge_of_llsd hinge_def)) /\
  limits_ordered (CDoubleLimitedHinge (DoubleLimitedHinge_of_llsd hinge_def)).
Proof.
  assert (E : create hinge_def = Some (CDoubleLimitedHinge (DoubleLimitedHinge_of_llsd hinge_def)))
    by reflexivity.
  split; [exact E|exact (create_limits_ordered _ _ E)].
Defined.

Lemma getConstraint_dedup_witness :
  getConstraint empty_factory simple_cone_def =
    (mkFactory [(generateHash (CSimpleCone (SimpleCone_of_llsd simple_cone_def)),
                 CSimpleCone (SimpleCone_of_llsd simple_cone_def))] [],
     Some (CSimpleCone (SimpleCone_of_llsd simple_cone_def))) /\
  getConstraint
    (mkFactory [(generateHash (CSimpleCone (SimpleCone_of_llsd simple_cone_def)),
                 CSimpleCone (SimpleCone_of_llsd simple_cone_def))] [])
    simple_cone_def =
    (mkFactory [(generateHash (CSimpleCone (SimpleCone_of_llsd simple_cone_def)),
                 CSimpleCone (SimpleCone_of_llsd simple_cone_def))] [],
     Some (CSimpleCone (SimpleCone_of_llsd simple_cone_def))).
Proof.
  assert (C : create simple_cone_def = Some (CSimpleCone (SimpleCone_of_llsd simple_cone_def)))
    by reflexivity.
  assert (G : getConstraint empty_factory simple_cone_def =
    (mkFactory [(generateHash (CSimpleCone (SimpleCone_of_llsd simple_cone_def)),
                 CSimpleCone (SimpleCone_of_llsd simple_cone_def))] [],
     Some (CSimpleCone (SimpleCone_of_llsd simple_cone_def))))
    by (unfold getConstraint; rewrite C; reflexivity).
  split; [exact G|]. exact (getConstraint_dedup _ _ _ _ _ _ _ G C C eq_refl).
Defined.

Lemma processConstraintMappings_maps_witness :
  factory_inv empty_factory /\ assoc_str "mElbowRight" (f_joint_mapping empty_factory) = None /\
  assoc_str "mElbowRight" [("mElbowLeft", acute_cone_def 1); ("mElbowRight", acute_cone_def 3)] =
    Some (acute_cone_def 3) /\
  create (acute_cone_def 3) = Some (CAcuteEllipsoidalCone (AcuteEllipsoidalCone_of_llsd (acute_cone_def 3))) /\
  exists c, getConstraintByName (processConstraintMappings empty_factory two_cones) "mElbowRight" = Some c /\
    generateHash c = generateHash (CAcuteEllipsoidalCone (AcuteEllipsoidalCone_of_llsd (acute_cone_def 3))).
Proof.
  assert (C : create (acute_cone_def 3) =
              Some (CAcuteEllipsoidalCone (AcuteEllipsoidalCone_of_llsd (acute_cone_def 3)))) by reflexivity.
  split; [exact empty_factory_inv|split; [reflexivity|split; [reflexivity|split; [exact C|]]]].
  exact (processConstraintMappings_maps empty_factory
    [("mElbowLeft", acute_cone_def 1); ("mElbowRight", acute_cone_def 3)] "mElbowRight" (acute_cone_def 3) _ empty_factory_inv eq_refl eq_refl C).
Defined.
