(* ===== verification/Serialize.v ===== *)
(** * Serialize: [Constraint::asLLSD] and reading a constraint back

    Every constraint class writes its members into an LLSD map with
    [asLLSD] (llik.cpp 277-285, 339-345, 419-427, 731-735, 788-798,
    998-1006, 1288-1300, 1490-1501): [Constraint::asLLSD] writes the
    forward axis and the type name, and each override adds its own
    members under the keys its LLSD constructor reads, angles converted to
    degrees with [RAD_TO_DEG].

    The LLSD map is a [std::map] keyed by [std::string], so [operator[]]
    as an lvalue inserts at the key's place in byte order, or replaces the
    value already there.

    The theorems show that the factory reads back every constraint it
    can create.  [create (asLLSD c)] rebuilds [c] with its class's
    constructor from [c]'s own members, and every angle goes through
    degrees and back: [a * RAD_TO_DEG * DEG_TO_RAD] ([deg_roundtrip]).
    As everywhere in this development the products are exact rationals;
    the code rounds each of them to a float, which the theorem does not
    describe, so it says which expression each angle is read back as, not
    whether that expression rounds back to the angle. *)

From Stdlib Require Import QArith Qabs ZArith String List Bool.
Import ListNotations.
From S2P Require Import Prelude F32 Angles Vec LLSD Constraints Factory.

Open Scope Q_scope.
Local Open Scope string_scope.

(** ** Writing an LLSD map *)

(** The entries of a [std::map<std::string, LLSD>], kept in the byte order
    of their keys ([String.compare] compares characters as unsigned
    bytes, as [std::char_traits<char>] does); a key already present has its
    value replaced. *)
Fixpoint str_insert (k : string) (v : LLSD) (m : list (string * LLSD)) : list (string * LLSD) :=
  match m with
  | [] => [(k, v)]
  | (k', v') :: m' =>
      match String.compare k k' with
      | Lt => (k, v) :: m
      | Eq => (k, v) :: m'
      | Gt => (k', v') :: str_insert k v m'
      end
  end.

(** [data[k] = v]: [operator[](const String&)] first turns a value that
    is not a map into an empty map. *)
Definition llsd_set (k : string) (v : LLSD) (d : LLSD) : LLSD :=
  match d with
  | LSDMap m => LSDMap (str_insert k v m)
  | _ => LSDMap [(k, v)]
  end.

(** [LLVector3::getValue] (llmath): the array of the three components. *)
Definition vec3_getValue (v : vec3) : LLSD := LSDArray [LSDReal (vx v); LSDReal (vy v); LSDReal (vz v)].

(** [RAD_TO_DEG] (llmath.h), the float nearest to [57.2957795]. *)
Definition RAD_TO_DEG : Q := 15019745 # 262144.

(** [data[key] = angle * RAD_TO_DEG]. *)
Definition to_degrees (a : Q) : LLSD := LSDReal (a * RAD_TO_DEG).

(** ** [asLLSD] *)

(** [Constraint::asLLSD] (lines 277-285). *)
Definition Constraint_asLLSD (c : Constraint) : LLSD :=
  llsd_set "type" (LSDString (constraint_type_to_name (getType c)))
    (llsd_set "forward_axis" (vec3_getValue (getForwardAxis c)) (LSDMap [])).

(** [SimpleCone::asLLSD] (lines 339-345). *)
Definition SimpleCone_asLLSD (d : SimpleCone) : LLSD :=
  llsd_set "max_angle" (to_degrees (sc_max_angle d)) (Constraint_asLLSD (CSimpleCone d)).

(** [TwistLimitedCone::asLLSD] (lines 419-427). *)
Definition TwistLimitedCone_asLLSD (d : TwistLimitedCone) : LLSD :=
  llsd_set "max_twist" (to_degrees (tl_max_twist d))
    (llsd_set "min_twist" (to_degrees (tl_min_twist d))
       (llsd_set "cone_angle" (to_degrees (tl_cone_angle d)) (Constraint_asLLSD (CTwistLimitedCone d)))).

(** [ShoulderConstraint::asLLSD] (lines 731-735): the base members only. *)
Definition ShoulderConstraint_asLLSD (d : ShoulderConstraint) : LLSD := Constraint_asLLSD (CShoulder d).

(** [ElbowConstraint::asLLSD] (lines 788-798). *)
Definition ElbowConstraint_asLLSD (d : ElbowConstraint) : LLSD :=
  llsd_set "max_twist" (to_degrees (el_max_twist d))
    (llsd_set "min_twist" (to_degrees (el_min_twist d))
       (llsd_set "max_bend" (to_degrees (el_max_bend d))
          (llsd_set "min_bend" (to_degrees (el_min_bend d))
             (llsd_set "pivot_axis" (vec3_getValue (el_pivot_axis d)) (Constraint_asLLSD (CElbow d)))))).

(** [KneeConstraint::asLLSD] (lines 998-1006). *)
Definition KneeConstraint_asLLSD (d : KneeConstraint) : LLSD :=
  llsd_set "max_bend" (to_degrees (kn_max_bend d))
    (llsd_set "min_bend" (to_degrees (kn_min_bend d))
       (llsd_set "pivot_axis" (vec3_getValue (kn_pivot_axis d)) (Constraint_asLLSD (CKnee d)))).

(** [AcuteEllipsoidalCone::asLLSD] (lines 1288-1300): the extents as they
    are, no conversion. *)
Definition AcuteEllipsoidalCone_asLLSD (d : AcuteEllipsoidalCone) : LLSD :=
  llsd_set "right" (LSDReal (ae_x_right d))
    (llsd_set "left" (LSDReal (ae_x_left d))
       (llsd_set "down" (LSDReal (ae_x_down d))
          (llsd_set "up" (LSDReal (ae_x_up d))
             (llsd_set "forward" (LSDReal (ae_x_forward d))
                (llsd_set "up_axis" (vec3_getValue (ae_up d)) (Constraint_asLLSD (CAcuteEllipsoidalCone d))))))).

(** [DoubleLimitedHinge::asLLSD] (lines 1490-1501). *)
Definition DoubleLimitedHinge_asLLSD (d : DoubleLimitedHinge) : LLSD :=
  llsd_set "max_pitch" (to_degrees (dh_max_pitch d))
    (llsd_set "min_pitch" (to_degrees (dh_min_pitch d))
       (llsd_set "max_yaw" (to_degrees (dh_max_yaw d))
          (llsd_set "min_yaw" (to_degrees (dh_min_yaw d))
             (llsd_set "up_axis" (vec3_getValue (dh_up d)) (Constraint_asLLSD (CDoubleLimitedHinge d)))))).

(** The virtual call [c->asLLSD()]. *)
Definition asLLSD (c : Constraint) : LLSD :=
  match c with
  | CSimpleCone d => SimpleCone_asLLSD d
  | CTwistLimitedCone d => TwistLimitedCone_asLLSD d
  | CShoulder d => ShoulderConstraint_asLLSD d
  | CElbow d => ElbowConstraint_asLLSD d
  | CKnee d => KneeConstraint_asLLSD d
  | CAcuteEllipsoidalCone d => AcuteEllipsoidalCone_asLLSD d
  | CDoubleLimitedHinge d => DoubleLimitedHinge_asLLSD d
  end.

(** ** What the factory reads back *)

(** An angle written in degrees and read back in radians. *)
Definition deg_roundtrip (a : Q) : Q := a * RAD_TO_DEG * DEG_TO_RAD.

(** The constraint [c]'s class builds from [c]'s own members, each angle
    through [deg_roundtrip]: the explicit-argument constructors, and for
    [ShoulderConstraint], which has none that takes an axis, the LLSD one
    on the forward axis. *)
Definition reread `{Libm} (c : Constraint) : Constraint :=
  match c with
  | CSimpleCone d => CSimpleCone (SimpleCone_make (sc_forward d) (deg_roundtrip (sc_max_angle d)))
  | CTwistLimitedCone d =>
      CTwistLimitedCone (TwistLimitedCone_make (tl_forward d) (deg_roundtrip (tl_cone_angle d))
                           (deg_roundtrip (tl_min_twist d)) (deg_roundtrip (tl_max_twist d)))
  | CShoulder _ => CShoulder (ShoulderConstraint_of_llsd (Constraint_asLLSD c))
  | CElbow d =>
      CElbow (ElbowConstraint_make (el_forward d) (el_pivot_axis d) (deg_roundtrip (el_min_bend d))
                (deg_roundtrip (el_max_bend d)) (deg_roundtrip (el_min_twist d)) (deg_roundtrip (el_max_twist d)))
  | CKnee d =>
      CKnee (KneeConstraint_make (kn_forward d) (kn_pivot_axis d) (deg_roundtrip (kn_min_bend d))
               (deg_roundtrip (kn_max_bend d)))
  | CAcuteEllipsoidalCone d =>
      CAcuteEllipsoidalCone (AcuteEllipsoidalCone_make (vnormalize (ae_forward d)) (ae_up d) (ae_x_forward d)
                               (ae_x_up d) (ae_x_left d) (ae_x_down d) (ae_x_right d))
  | CDoubleLimitedHinge d =>
      CDoubleLimitedHinge (DoubleLimitedHinge_make (dh_forward d) (dh_up d) (deg_roundtrip (dh_min_yaw d))
                             (deg_roundtrip (dh_max_yaw d)) (deg_roundtrip (dh_min_pitch d))
                             (deg_roundtrip (dh_max_pitch d)))
  end.

(** ** Insert and lookup *)

Lemma assoc_str_insert_eq k v m : assoc_str k (str_insert k v m) = Some v.
Proof.
  induction m as [|[k' v'] m IH]; simpl; [now rewrite String.eqb_refl|].
  destruct (String.compare k k') eqn:C; simpl; try now rewrite String.eqb_refl.
  destruct (String.eqb_spec k k') as [<-|_]; [|exact IH].
  pose proof (String.compare_antisym k k) as A. rewrite C in A. discriminate.
Qed.

Lemma assoc_str_insert_ne k k' v m : k' <> k -> assoc_str k' (str_insert k v m) = assoc_str k' m.
Proof.
  intros N. induction m as [|[k0 v0] m IH]; simpl.
  - now destruct (String.eqb_spec k' k).
  - destruct (String.compare k k0) eqn:C; simpl.
    + apply String.compare_eq_iff in C as <-. now destruct (String.eqb_spec k' k).
    + now destruct (String.eqb_spec k' k).
    + now rewrite IH.
Qed.

(** [data[k] = v] followed by [data[k]] reads [v]; other keys of a map
    are untouched. *)
Lemma llsd_get_set_eq k v d : llsd_get k (llsd_set k v d) = v.
Proof. destruct d; simpl; try now rewrite String.eqb_refl. now rewrite assoc_str_insert_eq. Qed.

Lemma llsd_get_set_ne k k' v m : k' <> k -> llsd_get k' (llsd_set k v (LSDMap m)) = llsd_get k' (LSDMap m).
Proof. intros N. simpl. now rewrite assoc_str_insert_ne. Qed.

(** ** Round trip *)

Lemma llsd_vec3_getValue (v : vec3) : llsd_vec3 (vec3_getValue v) = v.
Proof. now destruct v. Qed.

(** [Qabs] is the identity on the representation of a non-negative [Q]. *)
Lemma Qabs_nonneg_eq (x : Q) : 0 <= x -> Qabs x = x.
Proof.
  destruct x as [n d]. unfold Qle. simpl. rewrite Z.mul_1_r. intros H.
  now rewrite Z.abs_eq.
Qed.

Section Roundtrip.
Context {L : Libm}.

(** The stored cone angle of a [SimpleCone] read from LLSD is an absolute
    value. *)
Lemma SimpleCone_of_llsd_nonneg (p : LLSD) : 0 <= sc_max_angle (SimpleCone_of_llsd p).
Proof.
  simpl. apply Qmult_le_0_compat; [apply Qabs_nonneg|]. unfold DEG_TO_RAD. discriminate.
Qed.

(** Serialising and reading back rebuilds each constraint with its class's
    constructor; for a [SimpleCone] when its cone angle is non-negative,
    which [Qabs] then keeps as it is. *)
Lemma create_asLLSD_reread_cases (c : Constraint) :
  (forall d, c = CSimpleCone d -> 0 <= sc_max_angle d) ->
  create (asLLSD c) = Some (reread c).
Proof.
  intros Hs. destruct c as [d|d|d|d|d|d|d]; [|clear Hs; destruct d;
    repeat match goal with v : vec3 |- _ => destruct v end; reflexivity..].
  specialize (Hs d eq_refl). destruct d as [[x y z] a ca sa]. simpl in Hs.
  assert (Ha : 0 <= a * RAD_TO_DEG) by (apply Qmult_le_0_compat; [exact Hs|discriminate]).
  assert (Hb : 0 <= a * RAD_TO_DEG * DEG_TO_RAD) by (apply Qmult_le_0_compat; [exact Ha|discriminate]).
  set (b := Qabs (a * RAD_TO_DEG) * DEG_TO_RAD).
  transitivity (Some (CSimpleCone (Build_SimpleCone (vnormalize (V3 x y z)) b (cosf b) (sinf b)))); [reflexivity|].
  unfold b; cbv beta iota zeta delta [reread SimpleCone_make deg_roundtrip sc_forward sc_max_angle].
  now rewrite (Qabs_nonneg_eq _ Ha), (Qabs_nonneg_eq _ Hb).
Qed.

Lemma create_SimpleCone_nonneg (p : LLSD) (d : SimpleCone) :
  create p = Some (CSimpleCone d) -> 0 <= sc_max_angle d.
Proof.
  intros E. destruct (create_cases p _ E) as [[_ Ed]|H]; [injection Ed as ->; apply SimpleCone_of_llsd_nonneg|].
  repeat destruct H as [[_ H]|H]; try discriminate. destruct H as [_ H]. discriminate.
Qed.

(** C12: the factory reads back every constraint it creates: for a
    constraint [c] that [create] builds from some LLSD, [create] applied
    to [c->asLLSD()] succeeds, with the same class, and builds the
    constraint that class's constructor makes from [c]'s own members,
    with every angle converted to degrees and back. *)
Theorem create_asLLSD_roundtrip (p : LLSD) (c : Constraint) :
  create p = Some c -> create (asLLSD c) = Some (reread c).
Proof.
  intros E. apply create_asLLSD_reread_cases. intros d ->. exact (create_SimpleCone_nonneg p d E).
Qed.

End Roundtrip.

Lemma create_asLLSD_roundtrip_witness :
  create simple_cone_def = Some (CSimpleCone (SimpleCone_of_llsd simple_cone_def)) /\
  create (asLLSD (CSimpleCone (SimpleCone_of_llsd simple_cone_def))) =
    Some (reread (CSimpleCone (SimpleCone_of_llsd simple_cone_def))).
Proof.
  assert (E : create simple_cone_def = Some (CSimpleCone (SimpleCone_of_llsd simple_cone_def)))
    by reflexivity.
  split; [exact E|exact (create_asLLSD_roundtrip _ _ E)].
Defined.
