(* ===== verification/LuaManager.v ===== *)
(** * LuaManager: the viewer's Lua script manager (llluamanager.cpp)

    [LLLUAmanager::runScriptFile] and [runScriptLine] each launch a
    coroutine ([LLCoros::launch]) that opens a fresh Lua state, registers
    the viewer's bindings ([initLUA]: [print_warning], [avatar_sit],
    [avatar_stand], [nearby_chat_send], [wear_by_name], [open_floater];
    [sleep] as well for files), runs the script, reports an error through
    [checkLua], closes the state and calls the callback with the error
    message, empty when there was none.  A file script may define
    [call_once_func], which is then called once.

    The model has three layers.
    - The bindings ([lua_printWarning] ...) as functions from the Lua
      arguments and the viewer state to the viewer events they cause;
      [None] where the C++ has undefined behaviour: [std::string] built
      from the [NULL] that [lua_tostring] returns for a value that is not
      a string or a number, or the null floater pointer of
      [nearby_chat_send].  The viewer state is what the bindings read:
      the agent id, whether the nearby chat floater exists (opening it
      with [open_floater] creates it, [viewer_after]) and a setting.
    - The coroutine bodies as sequential functions ([runScriptFile_body],
      [runScriptLine_body]): the events one script causes, in order, when
      it runs alone, each call seeing the viewer state the earlier ones
      left.
    - The manager as a state machine ([mstep]): coroutines run
      cooperatively on the main thread, one at a time, and give way only
      when a script calls [sleep] ([llcoro::suspendUntilTimeout]) or ends;
      the main loop may launch scripts and resume any suspended coroutine.
      The log records each event with the coroutine that caused it, and
      the viewer state is shared by all coroutines.

    The Lua interpreter and the viewer services are not under src/: a
    script is the finite sequence of calls it makes into the viewer and
    the errors it raises ([Op]), so a script that loops forever is not
    expressed; the interpreter's texts (number formatting, error
    messages) are the class [LuaRuntime].  The floater key's agent id is a
    string, as LLSD has no UUID here.  The theorem is about the undefined
    behaviour of the bindings and of the error path. *)

From Stdlib Require Import QArith ZArith String List Bool.
Import ListNotations.
From S2P Require Import Prelude LLSD.
Local Open Scope llik_scope.
Local Open Scope string_scope.
Local Open Scope list_scope.

(** ** Lua values, the interpreter's texts, the viewer *)

Inductive LuaValue :=
| LNil
| LBoolean (b : bool)
| LNumber (q : Q)
| LString (s : string)
| LTable.

Class LuaRuntime := {
  (** [lua_tostring] of a number, its ["%.14g"] text *)
  number_to_string : Q -> string;
  (** [lua_tonumber] of a string, when it reads as a number *)
  string_to_number : string -> option Q;
  (** the error object of calling a global that is not a function *)
  call_error : string -> LuaValue;
  (** the error object of [luaL_dofile] on a file it cannot open *)
  file_error : string -> LuaValue
}.

(** What the viewer state the bindings read. *)
Record Viewer := mkViewer {
  agent_id : string;            (** [gAgentID] *)
  nearby_chat_open : bool;      (** [findTypedInstance<LLFloaterIMNearbyChat>] is not null *)
  play_chat_anim : bool         (** [gSavedSettings.getBOOL("PlayChatAnim")] *)
}.

(** What a script makes the viewer do. *)
Inductive Event :=
| EWarn (msg : string)                      (** [LL_WARNS() << msg] *)
| ESitDown                                  (** [gAgent.sitDown()] *)
| EStandUp                                  (** [gAgent.standUp()] *)
| EChat (msg : string) (play_anim : bool)   (** [sendChatFromViewer(msg, CHAT_TYPE_NORMAL, anim)] *)
| EWearOutfit (folder_name : string)        (** [wearOutfitByName] *)
| EShowFloater (name : string) (key : LLSD) (** [LLFloaterReg::showInstance] *)
| ESleep (seconds : Q)                      (** [llcoro::suspendUntilTimeout] *)
| ECallback (lua_error : string).           (** [cb(lua_error)] *)

(** The C functions [lua_register]ed. *)
Inductive Binding :=
| BPrintWarning | BAvatarSit | BAvatarStand | BNearbyChatSend | BWearByName | BOpenFloater | BSleep.

Section Bindings.
Context {R : LuaRuntime}.
Variable v : Viewer.

(** [lua_tostring]: a string, a number as text, [NULL] otherwise. *)
Definition lua_tostring (x : LuaValue) : option string :=
  match x with
  | LString s => Some s
  | LNumber q => Some (number_to_string q)
  | _ => None
  end.

(** [lua_tonumber]: a number, a numeric string, [0] otherwise. *)
Definition lua_tonumber (x : LuaValue) : Q :=
  match x with
  | LNumber q => q
  | LString s => match string_to_number s with Some q => q | None => 0 end
  | _ => 0
  end.

(** Index [1] of the stack, the first argument; [LNil] past the top. *)
Definition arg1 (args : list LuaValue) : LuaValue :=
  match args with a :: _ => a | [] => LNil end.

(** [std::string msg(lua_tostring(L, 1))] *)
Definition string_arg (args : list LuaValue) : option string := lua_tostring (arg1 args).

(** [lua_printWarning] (lines 47-53). *)
Definition lua_printWarning (args : list LuaValue) : option (list Event * Z) :=
  msg <- string_arg args ;; Some ([EWarn msg], 1%Z).

(** [lua_avatar_sit], [lua_avatar_stand] (lines 55-65). *)
Definition lua_avatar_sit (args : list LuaValue) : option (list Event * Z) := Some ([ESitDown], 1%Z).
Definition lua_avatar_stand (args : list LuaValue) : option (list Event * Z) := Some ([EStandUp], 1%Z).

(** [lua_nearby_chat_send] (lines 67-74): the floater pointer is not
    checked. *)
Definition lua_nearby_chat_send (args : list LuaValue) : option (list Event * Z) :=
  msg <- string_arg args ;;
  if nearby_chat_open v then Some ([EChat msg (play_chat_anim v)], 1%Z) else None.

(** [lua_wear_by_name] (lines 76-82). *)
Definition lua_wear_by_name (args : list LuaValue) : option (list Event * Z) :=
  folder_name <- string_arg args ;; Some ([EWearOutfit folder_name], 1%Z).

(** [lua_open_floater] (lines 84-96): the profile floater is keyed by the
    agent id. *)
Definition lua_open_floater (args : list LuaValue) : option (list Event * Z) :=
  floater_name <- string_arg args ;;
  let key := if String.eqb floater_name "profile"%string then LSDMap [("id"%string, LSDString (agent_id v))]
             else LSDUndef in
  Some ([EShowFloater floater_name key], 1%Z).

(** [LUA_sleep_func] (lines 130-135): the number on top of the stack. *)
Definition lua_sleep (args : list LuaValue) : option (list Event * Z) :=
  Some ([ESleep (lua_tonumber (last args LNil))], 0%Z).

Definition call_binding (b : Binding) : list LuaValue -> option (list Event * Z) :=
  match b with
  | BPrintWarning => lua_printWarning
  | BAvatarSit => lua_avatar_sit
  | BAvatarStand => lua_avatar_stand
  | BNearbyChatSend => lua_nearby_chat_send
  | BWearByName => lua_wear_by_name
  | BOpenFloater => lua_open_floater
  | BSleep => lua_sleep
  end.

End Bindings.

(** What a binding changes in the viewer state the later calls read:
    [LLFloaterReg::showInstance("nearby_chat")] creates the nearby chat
    floater, which [findTypedInstance] then returns.  The floater
    registry is not under src/; nothing a script can call closes it. *)
Definition viewer_event (v : Viewer) (e : Event) : Viewer :=
  match e with
  | EShowFloater name _ =>
      if String.eqb name "nearby_chat" then mkViewer (agent_id v) true (play_chat_anim v) else v
  | _ => v
  end.

Definition viewer_after (v : Viewer) (evs : list Event) : Viewer := fold_left viewer_event evs v.

(** [lua_register]: set a global; a later registration hides an earlier. *)
Definition lua_register (reg : list (string * Binding)) (name : string) (b : Binding)
    : list (string * Binding) := (name, b) :: reg.

(** [initLUA] (lines 110-120). *)
Definition initLUA : list (string * Binding) :=
  fold_left (fun reg '(name, b) => lua_register reg name b)
    [("print_warning", BPrintWarning); ("avatar_sit", BAvatarSit); ("avatar_stand", BAvatarStand);
     ("nearby_chat_send", BNearbyChatSend); ("wear_by_name", BWearByName);
     ("open_floater", BOpenFloater)] [].

(** The globals of a file script: [initLUA], then [sleep] (line 137). *)
Definition file_registry : list (string * Binding) := lua_register initLUA "sleep" BSleep.

(** ** Scripts *)

(** A script step: a call of a global with arguments, or an error the
    script raises. *)
Inductive Op :=
| OCall (name : string) (args : list LuaValue)
| OError (err : LuaValue).

(** A chunk, and the body of the [call_once_func] it defines, if any. *)
Record Script := mkScript { chunk : list Op; call_once_func : option (list Op) }.

(** What one step does: events and whether the script went to sleep, or
    an error object; [None] is undefined behaviour in a binding. *)
Inductive OpResult :=
| Continue (evs : list Event) (slept : bool)
| Raise (err : LuaValue).

Section Scripts.
Context {R : LuaRuntime}.

Definition is_sleep (b : Binding) : bool := match b with BSleep => true | _ => false end.

(** One step, on the viewer state [v] it finds. *)
Definition exec_op (v : Viewer) (reg : list (string * Binding)) (op : Op) : option OpResult :=
  match op with
  | OCall name args =>
      match assoc_str name reg with
      | Some b => r <- call_binding v b args ;; Some (Continue (fst r) (is_sleep b))
      | None => Some (Raise (call_error name))
      end
  | OError err => Some (Raise err)
  end.

(** A chunk run to its end or its first error, each call seeing the
    viewer state the earlier ones left: the events, the error if any, and
    that state. *)
Fixpoint run_ops (v : Viewer) (reg : list (string * Binding)) (ops : list Op)
    : option (list Event * option LuaValue * Viewer) :=
  match ops with
  | [] => Some ([], None, v)
  | op :: ops' =>
      r <- exec_op v reg op ;;
      match r with
      | Continue evs _ =>
          r' <- run_ops (viewer_after v evs) reg ops' ;;
          let '(evs', err, v') := r' in Some (evs ++ evs', err, v')
      | Raise err => Some ([], Some err, v)
      end
  end.

(** [checkLua] (lines 98-108) on a failed status: [error_msg =
    lua_tostring(L, -1)], [NULL] being undefined, and a warning. *)
Definition checkLua_error (err : LuaValue) : option (list Event * string) :=
  msg <- lua_tostring err ;; Some ([EWarn msg], msg).

(** The callback, when there is one (lines 150-153, 173-176). *)
Definition callback (cb : bool) (lua_error : string) : list Event :=
  if cb then [ECallback lua_error] else [].

(** [luaL_dofile] (line 140): the file's script, or a chunk that raises
    the error of opening it. *)
Definition load_file (files : string -> option Script) (filename : string) : Script :=
  match files filename with
  | Some sc => sc
  | None => mkScript [OError (file_error filename)] None
  end.

(** The body of the coroutine of [runScriptFile] (lines 124-154) run
    alone from the viewer state [v], given the files the viewer can read. *)
Definition runScriptFile_body (v : Viewer) (files : string -> option Script) (filename : string) (cb : bool)
    : option (list Event) :=
  let sc := load_file files filename in
  r1 <- run_ops v file_registry (chunk sc) ;;
  let '(evs1, err1, v1) := r1 in
  match err1 with
  | Some err =>
      c <- checkLua_error err ;; Some (evs1 ++ fst c ++ callback cb (snd c))
  | None =>
      match call_once_func sc with
      | Some body =>
          r2 <- run_ops v1 file_registry body ;;
          let '(evs2, err2, _) := r2 in
          match err2 with
          | Some err => c <- checkLua_error err ;; Some (evs1 ++ evs2 ++ fst c ++ callback cb (snd c))
          | None => Some (evs1 ++ evs2 ++ callback cb EmptyString)
          end
      | None => Some (evs1 ++ callback cb EmptyString)
      end
  end.

(** The body of the coroutine of [runScriptLine] (lines 159-177): no
    [sleep], no warning, and [lua_error = lua_tostring(L, -1)]. *)
Definition runScriptLine_body (v : Viewer) (cmd : Script) (cb : bool) : option (list Event) :=
  r <- run_ops v initLUA (chunk cmd) ;;
  let '(evs, err, _) := r in
  lua_error <- match err with Some e => lua_tostring e | None => Some EmptyString end ;;
  Some (evs ++ callback cb lua_error).

End Scripts.

(** ** The manager: cooperative coroutines *)

(** What a coroutine was launched for. *)
Inductive Job :=
| JFile (filename : string)   (** [runScriptFile] *)
| JLine (cmd : Script).       (** [runScriptLine], the command parsed *)

(** Where a coroutine is: launched and not yet run, in the chunk (with the
    [call_once_func] body still to run), in [call_once_func], finished. *)
Inductive Phase :=
| PLaunched
| PChunk (ops : list Op) (once : option (list Op))
| PCallOnce (ops : list Op)
| PDone.

(** A coroutine; [co_waiting] when the main loop may resume it. *)
Record Coro := mkCoro { co_job : Job; co_cb : bool; co_phase : Phase; co_waiting : bool }.

(** The coroutines by launch order, the one running if any, the events by
    the coroutine that caused them, whether the viewer has crashed, and
    the viewer state every coroutine shares. *)
Record Manager := mkManager {
  coros : list Coro;
  running : option nat;
  log : list (nat * Event);
  crashed : bool;
  viewer : Viewer
}.

Definition manager_init (v : Viewer) : Manager := mkManager [] None [] false v.

Definition is_done (ph : Phase) : bool := match ph with PDone => true | _ => false end.

Section Machine.
Context {R : LuaRuntime}.
Variable files : string -> option Script.

Definition job_registry (job : Job) : list (string * Binding) :=
  match job with JFile _ => file_registry | JLine _ => initLUA end.

(** The state after [luaL_newstate], [initLUA] and loading the chunk. *)
Definition start_phase (job : Job) : Phase :=
  match job with
  | JFile filename => let sc := load_file files filename in PChunk (chunk sc) (call_once_func sc)
  | JLine cmd => PChunk (chunk cmd) None
  end.

(** An error: [checkLua] for a file (lines 140, 145), the bare
    [lua_tostring] for a line (line 169). *)
Definition on_error (job : Job) (err : LuaValue) : option (list Event * string) :=
  match job with
  | JFile _ => checkLua_error err
  | JLine _ => msg <- lua_tostring err ;; Some ([], msg)
  end.

(** The events of ending with an error: its report, then the callback. *)
Definition raise_events (job : Job) (cb : bool) (err : LuaValue) : option (list Event) :=
  c <- on_error job err ;; Some (fst c ++ callback cb (snd c)).

(** One call of the running script on the viewer state [v], then phase
    [k]. *)
Definition step_op (v : Viewer) (job : Job) (cb : bool) (op : Op) (k : Phase) : option (list Event * Phase * bool) :=
  r <- exec_op v (job_registry job) op ;;
  match r with
  | Continue evs slept => Some (evs, k, slept)
  | Raise err => evs <- raise_events job cb err ;; Some (evs, PDone, true)
  end.

(** The running coroutine up to its next event: the events, its next
    phase and whether it gives way (it slept or ended). *)
Definition advance (v : Viewer) (job : Job) (cb : bool) (ph : Phase) : option (list Event * Phase * bool) :=
  match ph with
  | PLaunched => Some ([], start_phase job, false)
  | PChunk (op :: ops) once => step_op v job cb op (PChunk ops once)
  | PChunk [] (Some body) => Some ([], PCallOnce body, false)
  | PChunk [] None => Some (callback cb EmptyString, PDone, true)
  | PCallOnce (op :: ops) => step_op v job cb op (PCallOnce ops)
  | PCallOnce [] => Some (callback cb EmptyString, PDone, true)
  | PDone => Some ([], PDone, true)
  end.

(** [LLCoros::launch] from [runScriptFile] or [runScriptLine]. *)
Definition launch (M : Manager) (job : Job) (cb : bool) : Manager :=
  mkManager (coros M ++ [mkCoro job cb PLaunched true]) (running M) (log M) (crashed M) (viewer M).

Definition runScriptFile (M : Manager) (filename : string) (cb : bool) : Manager := launch M (JFile filename) cb.
Definition runScriptLine (M : Manager) (cmd : Script) (cb : bool) : Manager := launch M (JLine cmd) cb.

(** The main loop switches to a waiting coroutine. *)
Definition resume (M : Manager) (i : nat) (co : Coro) : Manager :=
  mkManager (set_nth i (mkCoro (co_job co) (co_cb co) (co_phase co) false) (coros M))
    (Some i) (log M) (crashed M) (viewer M).

(** The running coroutine [i] advances; it gives the main loop back when
    it sleeps or ends.  What its calls did to the viewer is seen by every
    coroutine. *)
Definition run_result (M : Manager) (i : nat) (co : Coro) (evs : list Event) (ph : Phase) (y : bool) : Manager :=
  mkManager (set_nth i (mkCoro (co_job co) (co_cb co) ph (y && negb (is_done ph))) (coros M))
    (if y then None else Some i) (log M ++ map (pair i) evs) (crashed M) (viewer_after (viewer M) evs).

Definition crash (M : Manager) : Manager := mkManager (coros M) None (log M) true (viewer M).

Inductive mstep : Manager -> Manager -> Prop :=
| mstep_launch M job cb :
    running M = None -> crashed M = false -> mstep M (launch M job cb)
| mstep_resume M i co :
    running M = None -> crashed M = false -> nth_error (coros M) i = Some co ->
    co_waiting co = true -> mstep M (resume M i co)
| mstep_run M i co evs ph y :
    running M = Some i -> crashed M = false -> nth_error (coros M) i = Some co ->
    advance (viewer M) (co_job co) (co_cb co) (co_phase co) = Some (evs, ph, y) ->
    mstep M (run_result M i co evs ph y)
| mstep_crash M i co :
    running M = Some i -> crashed M = false -> nth_error (coros M) i = Some co ->
    advance (viewer M) (co_job co) (co_cb co) (co_phase co) = None -> mstep M (crash M).

(** The same steps as a function of the main loop's choice. *)
Inductive Action := ALaunch (job : Job) (cb : bool) | AResume (i : nat) | ARun.

Definition exec_action (a : Action) (M : Manager) : option Manager :=
  if crashed M then None else
  match a, running M with
  | ALaunch job cb, None => Some (launch M job cb)
  | AResume i, None =>
      co <- nth_error (coros M) i ;; if co_waiting co then Some (resume M i co) else None
  | ARun, Some i =>
      co <- nth_error (coros M) i ;;
      match advance (viewer M) (co_job co) (co_cb co) (co_phase co) with
      | Some (evs, ph, y) => Some (run_result M i co evs ph y)
      | None => Some (crash M)
      end
  | _, _ => None
  end.

Definition run_actions (acts : list Action) (M : Manager) : option Manager :=
  fold_opt (fun M a => exec_action a M) acts M.

(** The events of coroutine [i], in order. *)
Definition proj (i : nat) (lg : list (nat * Event)) : list Event :=
  map snd (filter (fun e => Nat.eqb (fst e) i) lg).

(** [exec_action] takes the steps of [mstep]. *)
Lemma exec_action_mstep (a : Action) (M M' : Manager) : exec_action a M = Some M' -> mstep M M'.
Proof.
  unfold exec_action. destruct (crashed M) eqn:Hc; [discriminate|].
  destruct a as [job cb|i|], (running M) as [i'|] eqn:Hr; try discriminate.
  - intros [= <-]. now constructor.
  - destruct (nth_error (coros M) i) as [co|] eqn:Hi; [|discriminate].
    destruct (co_waiting co) eqn:Hw; [intros [= <-]; now constructor|discriminate].
  - destruct (nth_error (coros M) i') as [co|] eqn:Hi; [|discriminate].
    destruct (advance (viewer M) (co_job co) (co_cb co) (co_phase co)) as [[[evs ph] y]|] eqn:Ha;
      intros [= <-]; [eapply mstep_run|eapply mstep_crash]; eauto.
Qed.

End Machine.

(** ** Undefined behaviour in the bindings and in the error path *)

(** C21: Three ways a script crashes the viewer, whatever the runtime:
    [print_warning()] with no argument builds a [std::string] from
    [NULL]; [nearby_chat_send] while the nearby chat floater does not
    exist calls through a null pointer; a file script that raises an error
    object that is neither a string nor a number makes [checkLua] build a
    [std::string] from [NULL]. *)
Theorem lua_bindings_undefined {R : LuaRuntime} (v : Viewer) (files : string -> option Script)
    (filename : string) (err : LuaValue) (cb : bool) (msg : string) :
  runScriptLine_body v (mkScript [OCall "print_warning" []] None) cb = None /\
  (nearby_chat_open v = false ->
   runScriptLine_body v (mkScript [OCall "nearby_chat_send" [LString msg]] None) cb = None) /\
  (files filename = Some (mkScript [OError err] None) -> lua_tostring err = None ->
   runScriptFile_body v files filename cb = None).
Proof.
  split; [reflexivity|split].
  - intros Hn. unfold runScriptLine_body; simpl. unfold lua_nearby_chat_send. rewrite Hn. reflexivity.
  - intros Hf He. unfold runScriptFile_body, load_file. rewrite Hf. simpl.
    unfold checkLua_error. rewrite He. reflexivity.
Qed.

(** ** Examples *)

(** A runtime with Lua 5.4's error texts. *)
Definition lua54 : LuaRuntime := {|
  number_to_string := fun _ => "2";
  string_to_number := fun _ => None;
  call_error := fun name => LString (String.append "attempt to call a nil value (global '" (String.append name "')"));
  file_error := fun name => LString (String.append "cannot open " name)
|}.

(** The viewer with the nearby chat floater closed, and a file that
    raises a table. *)
Definition closed_viewer : Viewer := mkViewer "a2e76fcd" false true.

Definition bad_files (filename : string) : option Script :=
  if String.eqb filename "bad.lua" then Some (mkScript [OError LTable] None) else None.

Lemma lua_bindings_undefined_witness :
  nearby_chat_open closed_viewer = false /\
  @runScriptLine_body lua54 closed_viewer (mkScript [OCall "nearby_chat_send" [LString "hi"]] None) true = None /\
  bad_files "bad.lua" = Some (mkScript [OError LTable] None) /\ @lua_tostring lua54 LTable = None /\
  @runScriptFile_body lua54 closed_viewer bad_files "bad.lua" true = None.
Proof.
  destruct (@lua_bindings_undefined lua54 closed_viewer bad_files "bad.lua" LTable true "hi") as [_ [H1 H2]].
  split; [reflexivity|]. split; [apply H1; reflexivity|].
  split; [reflexivity|]. split; [reflexivity|]. apply H2; reflexivity.
Defined.
